(** * Stockpile: a shallow embedding of the lookup engine and its properties

    The development follows the package structure of the Go sources:
    [GoRt] collects the parts of the Go runtime and standard library the
    code relies on (byte strings, [bytes.Index], [sort.Search],
    [strings.Fields], fixed-width integers) and [filepath] holds
    [filepath.Join] with its [Clean]; the modules [search], [builder],
    [fen], [materialshard], [fnvshard], [cachedstore], [stockpile] embed
    the packages of the same names.

    Conventions.  A Go [string] and a Go [[]byte] are both sequences of
    bytes and are modelled by [string] (a list of 8-bit [ascii]).  Go's
    [int] is the 64-bit signed integer of the amd64/arm64 targets; values
    are kept in [Z] and every conversion or operation that can wrap is
    written with an explicit reduction. *)

From Stdlib Require Import ZArith List String Ascii Bool Lia Arith.
From Stdlib Require Import Sorted Relations DecimalString.
From Stdlib Require DecimalZ Permutation.
From Equations Require Import Equations.
Import ListNotations.

(* ===================================================================== *)
(** * The Go runtime and standard library                                 *)
(* ===================================================================== *)

Module GoRt.

Local Open Scope string_scope.

(** The double quote (byte 34) and the line feed (byte 10). *)
Definition dq : ascii := ascii_of_nat 34.
Definition lf : ascii := ascii_of_nat 10.

(** [uint32(x)]: reduction modulo 2^32. *)
Definition u32 (x : Z) : Z := (x mod 4294967296)%Z.

(** Two's complement reduction to the 64-bit [int]. *)
Definition i64 (x : Z) : Z :=
  ((x + 9223372036854775808) mod 18446744073709551616 - 9223372036854775808)%Z.

Definition minInt : Z := (-9223372036854775808)%Z.
Definition maxInt : Z := 9223372036854775807%Z.

(** [uint32(b)] for a byte [b]. *)
Definition byteVal (c : ascii) : Z := Z.of_N (N_of_ascii c).

(** [s[n:]] and [s[:n]]. *)
Fixpoint sdrop (n : nat) (s : string) : string :=
  match n, s with
  | O, _ => s
  | S _, EmptyString => EmptyString
  | S n', String _ s' => sdrop n' s'
  end.

Fixpoint stake (n : nat) (s : string) : string :=
  match n, s with
  | O, _ => EmptyString
  | S _, EmptyString => EmptyString
  | S n', String c s' => String c (stake n' s')
  end.

(** [s[lo:hi]]. *)
Definition slice (s : string) (lo hi : nat) : string :=
  stake (hi - lo) (sdrop lo s).

(** [bytes.IndexByte(s, c)]: index of the first [c], [None] for -1. *)
Fixpoint IndexByte (s : string) (c : ascii) : option nat :=
  match s with
  | EmptyString => None
  | String a s' =>
      if Ascii.eqb a c then Some O else option_map S (IndexByte s' c)
  end.

(** [bytes.Index(s, sep)]: index of the first occurrence of [sep]. *)
Fixpoint Index (s sep : string) : option nat :=
  if prefix sep s then Some O
  else match s with
       | EmptyString => None
       | String _ s' => option_map S (Index s' sep)
       end.

(** String comparison [a < b] and [a <= b] (byte-wise lexicographic). *)
Definition strLt (a b : string) : bool := String.ltb a b.
Definition strLe (a b : string) : bool := String.leb a b.

(** [sort.Search(n, f)], the loop of the standard library:
    [i, j := 0, n; for i < j { h := int(uint(i+j) >> 1); if !f(h) { i = h+1 } else { j = h } }; return i]. *)
Equations? searchLoop (f : nat -> bool) (i j : nat) : nat by wf (j - i) lt :=
  searchLoop f i j with lt_dec i j => {
    | left _ => if f ((i + j) / 2)
                then searchLoop f i ((i + j) / 2)
                else searchLoop f ((i + j) / 2 + 1) j
    | right _ => i }.
Proof.
  all: change (fst (Nat.divmod (i + j) 1 0 1)) with ((i + j) / 2);
       assert (i <= (i + j) / 2 < j)
         by (split; [apply Nat.div_le_lower_bound
                    | apply Nat.Div0.div_lt_upper_bound]; lia);
       lia.
Qed.

Definition sortSearch (n : nat) (f : nat -> bool) : nat := searchLoop f 0 n.

(** Length of the result of [s[n:]]; used for the termination of loops
    that consume their input. *)
Lemma sdrop_length_le (n : nat) (s : string) :
  String.length (sdrop n s) <= String.length s.
Proof.
  revert s; induction n as [|n IH]; intros [|c s]; simpl; auto.
Qed.

(** Go [error] values.  [errNew msg] is a value made by [errors.New] (or
    by a library), identified by its message; [errWrap msg e] is
    [fmt.Errorf(msg + ": %w", e)]. *)
Inductive error : Type :=
| errNew (msg : string)
| errWrap (msg : string) (cause : error).

Fixpoint error_eqb (a b : error) : bool :=
  match a, b with
  | errNew m, errNew m' => String.eqb m m'
  | errWrap m c, errWrap m' c' => String.eqb m m' && error_eqb c c'
  | _, _ => false
  end.

(** [errors.Is(e, target)]. *)
Fixpoint errorsIs (e target : error) : bool :=
  error_eqb e target ||
  match e with
  | errNew _ => false
  | errWrap _ c => errorsIs c target
  end.

(** A Go result pair [(T, error)]. *)
Inductive result (A : Type) : Type :=
| Ok (a : A)
| Err (e : error).
Arguments Ok {A} a.
Arguments Err {A} e.

(** The outcome of a call that may panic at run time. *)
Inductive outcome (A : Type) : Type :=
| Returns (a : A)
| Panics (msg : string).
Arguments Returns {A} a.
Arguments Panics {A} msg.

(** [context.Context]: only [ctx.Err()] is observed; [None] while the
    context is live, [Some e] once [ctx.Done()] is closed. *)
Definition Context : Type := option error.
Definition Canceled : error := errNew "context canceled".
Definition DeadlineExceeded : error := errNew "context deadline exceeded".
Definition Background : Context := None.

(** [strconv.Itoa]. *)
Definition Itoa (z : Z) : string := NilZero.string_of_int (Z.to_int z).

(** [fmt.Sprintf("%05d", z)]: zero padding to width five, the sign
    counted in the width. *)
Fixpoint zeros (n : nat) : string :=
  match n with
  | O => ""
  | S n' => String "0" (zeros n')
  end.

Definition padZeros (width : nat) (digits : string) : string :=
  zeros (width - String.length digits) ++ digits.

Definition Sprintf05d (z : Z) : string :=
  if (z <? 0)%Z then String "-" (padZeros 4 (Itoa (- z)))
  else padZeros 5 (Itoa z).

(** ** UTF-8 decoding, as [for _, ch := range s] performs it

    [decodeRune s] is the code point encoded at the head of [s] and the
    number of bytes it takes ([utf8.DecodeRuneInString]): an invalid or
    truncated encoding yields [RuneError] and width 1. *)
Definition RuneError : Z := 65533%Z.

Definition inRange (lo hi b : Z) : bool := ((lo <=? b) && (b <=? hi))%Z.

Definition contBits (b : Z) : Z := Z.land b 63.

Definition decodeRune (s : string) : Z * nat :=
  match s with
  | EmptyString => (RuneError, 0)
  | String c0 t =>
      let b0 := byteVal c0 in
      if (b0 <? 128)%Z then (b0, 1)
      else if inRange 194 223 b0 then
        match t with
        | String c1 _ =>
            let b1 := byteVal c1 in
            if inRange 128 191 b1
            then (Z.lor (Z.shiftl (Z.land b0 31) 6) (contBits b1), 2)
            else (RuneError, 1)
        | _ => (RuneError, 1)
        end
      else if inRange 224 239 b0 then
        match t with
        | String c1 (String c2 _) =>
            let b1 := byteVal c1 in
            let b2 := byteVal c2 in
            let lo := if (b0 =? 224)%Z then 160%Z else 128%Z in
            let hi := if (b0 =? 237)%Z then 159%Z else 191%Z in
            if inRange lo hi b1 && inRange 128 191 b2
            then (Z.lor (Z.shiftl (Z.land b0 15) 12)
                    (Z.lor (Z.shiftl (contBits b1) 6) (contBits b2)), 3)
            else (RuneError, 1)
        | _ => (RuneError, 1)
        end
      else if inRange 240 244 b0 then
        match t with
        | String c1 (String c2 (String c3 _)) =>
            let b1 := byteVal c1 in
            let b2 := byteVal c2 in
            let b3 := byteVal c3 in
            let lo := if (b0 =? 240)%Z then 144%Z else 128%Z in
            let hi := if (b0 =? 244)%Z then 143%Z else 191%Z in
            if inRange lo hi b1 && inRange 128 191 b2 && inRange 128 191 b3
            then (Z.lor (Z.shiftl (Z.land b0 7) 18)
                    (Z.lor (Z.shiftl (contBits b1) 12)
                       (Z.lor (Z.shiftl (contBits b2) 6) (contBits b3))), 4)
            else (RuneError, 1)
        | _ => (RuneError, 1)
        end
      else (RuneError, 1)
  end.

(** The rune a [range] loop binds at the head of [s]. *)
Definition runeAt (s : string) : Z := fst (decodeRune s).

(** [unicode.IsSpace]: the Latin-1 spaces, then the White_Space table. *)
Definition IsSpace (r : Z) : bool :=
  if (r <=? 255)%Z then
    inRange 9 13 r || (r =? 32)%Z || (r =? 133)%Z || (r =? 160)%Z
  else
    (r =? 5760)%Z || inRange 8192 8202 r || inRange 8232 8233 r
    || (r =? 8239)%Z || (r =? 8287)%Z || (r =? 12288)%Z.

(** [strings.Fields(s)], that is [strings.FieldsFunc(s, unicode.IsSpace)]:
    the loop [for end, rune := range s] over the bytes of [s].  [skip]
    counts the bytes still owed to the rune decoded last, [sp] tells
    whether that rune is a space, and [cur] is the field being read (the
    span open at [start >= 0]). *)
Fixpoint fieldsLoop (s : string) (skip : nat) (sp : bool) (cur : option string)
  : list string :=
  match s with
  | EmptyString =>
      match cur with
      | Some f => [f]
      | None => []
      end
  | String c t =>
      let '(sp', skip') :=
        match skip with
        | S k => (sp, k)
        | O => let '(r, w) := decodeRune s in (IsSpace r, Nat.pred w)
        end in
      if sp' then
        match cur with
        | Some f => f :: fieldsLoop t skip' sp' None
        | None => fieldsLoop t skip' sp' None
        end
      else
        match cur with
        | Some f => fieldsLoop t skip' sp' (Some (f ++ String c ""))
        | None => fieldsLoop t skip' sp' (Some (String c ""))
        end
  end.

Definition Fields (s : string) : list string := fieldsLoop s 0 false None.

(** [strings.Split(s, sep)] for a one-byte separator. *)
Fixpoint SplitByte (s : string) (sep : ascii) : list string :=
  match s with
  | EmptyString => [""]
  | String c t =>
      match SplitByte t sep with
      | [] => []
      | f :: fs => if Ascii.eqb c sep then "" :: f :: fs else String c f :: fs
      end
  end.

(** [strings.Join(parts, sep)]. *)
Fixpoint Join (parts : list string) (sep : string) : string :=
  match parts with
  | [] => ""
  | [p] => p
  | p :: rest => p ++ sep ++ Join rest sep
  end.

(** [a % b] on [uint32]: the run time panics on a zero divisor. *)
Definition umod (a b : Z) : outcome Z :=
  if (b =? 0)%Z then Panics "runtime error: integer divide by zero"
  else Returns (a mod b)%Z.

(** [a << n] and [a * b] on [uint32]. *)
Definition shl32 (a n : Z) : Z := u32 (Z.shiftl a n).
Definition mul32 (a b : Z) : Z := u32 (a * b).

End GoRt.

(* ===================================================================== *)
(** * Package path/filepath of the standard library, on Unix              *)
(* ===================================================================== *)

Module filepath.
Import GoRt.
Local Open Scope string_scope.

(** [os.IsPathSeparator(c)]: the separator is the slash. *)
Definition IsPathSeparator (c : ascii) : bool := Ascii.eqb c "/".

(** [r == n || os.IsPathSeparator(path[r])] on [path[r:]]. *)
Definition endsElement (rest : string) : bool :=
  match rest with
  | EmptyString => true
  | String c _ => IsPathSeparator c
  end.

(** The bytes up to the next separator and what follows them: the loop
    [for ; r < n && !os.IsPathSeparator(path[r]); r++] of [Clean]. *)
Fixpoint element (rest : string) : string * string :=
  match rest with
  | EmptyString => (EmptyString, EmptyString)
  | String c rest' =>
      if IsPathSeparator c then (EmptyString, rest)
      else let '(e, r) := element rest' in (String c e, r)
  end.

(** The output buffer of [Clean] is kept as the list of the bytes
    written, the last one first; [out.w] is its length.  [backtrack] is
    [out.w--] followed by
    [for out.w > dotdot && !os.IsPathSeparator(out.index(out.w)) { out.w-- }],
    where [removed] is the byte at index [out.w]. *)
Fixpoint backtrackFrom (removed : ascii) (out : list ascii) (dotdot : nat)
  : list ascii :=
  match out with
  | [] => []
  | c :: out' =>
      if Nat.ltb dotdot (List.length out) && negb (IsPathSeparator removed)
      then backtrackFrom c out' dotdot
      else out
  end.

Definition backtrack (out : list ascii) (dotdot : nat) : list ascii :=
  match out with
  | [] => []
  | c :: out' => backtrackFrom c out' dotdot
  end.

(** [out.append(c)] for each byte [c] of [s] in turn. *)
Fixpoint appendBytes (out : list ascii) (s : string) : list ascii :=
  match s with
  | EmptyString => out
  | String c s' => appendBytes (c :: out) s'
  end.

(** The loop [for r < n] of [Clean] on [path[r:]]; every round reads at
    least one byte, so [len(path) - r] rounds are enough. *)
Fixpoint cleanLoop (rounds : nat) (rooted : bool) (rest : string)
    (out : list ascii) (dotdot : nat) : list ascii :=
  match rounds with
  | O => out
  | S rounds' =>
      match rest with
      | EmptyString => out
      | String c rest1 =>
          if IsPathSeparator c then
            (* empty path element *)
            cleanLoop rounds' rooted rest1 out dotdot
          else if Ascii.eqb c "." && endsElement rest1 then
            (* . element *)
            cleanLoop rounds' rooted rest1 out dotdot
          else if Ascii.eqb c "."
                  && match rest1 with
                     | String c1 rest2 => Ascii.eqb c1 "." && endsElement rest2
                     | EmptyString => false
                     end then
            (* .. element: remove to last separator *)
            let rest2 := match rest1 with
                         | String _ rest2 => rest2
                         | EmptyString => EmptyString
                         end in
            if Nat.ltb dotdot (List.length out) then
              cleanLoop rounds' rooted rest2 (backtrack out dotdot) dotdot
            else if negb rooted then
              let out1 := if Nat.ltb 0 (List.length out)
                          then "/"%char :: out else out in
              let out2 := "."%char :: "."%char :: out1 in
              cleanLoop rounds' rooted rest2 out2 (List.length out2)
            else cleanLoop rounds' rooted rest2 out dotdot
          else
            (* real path element: add slash if needed, copy element *)
            let out1 :=
              if (rooted && negb (Nat.eqb (List.length out) 1))
                 || (negb rooted && negb (Nat.eqb (List.length out) 0))
              then "/"%char :: out else out in
            let '(e, rest') := element rest1 in
            cleanLoop rounds' rooted rest' (appendBytes (c :: out1) e) dotdot
      end
  end.

(** [out.string()]. *)
Definition bufferString (out : list ascii) : string :=
  string_of_list_ascii (List.rev out).

(** [filepath.Clean(path)]; a Unix path has no volume name.  The buffer
    starts with the separator of a rooted path, [r, dotdot = 1, 1], and
    an empty result becomes ".". *)
Definition Clean (path : string) : string :=
  match path with
  | EmptyString => "."
  | String c rest =>
      let out :=
        if IsPathSeparator c
        then cleanLoop (String.length rest) true rest ["/"%char] 1
        else cleanLoop (String.length path) false path [] 0 in
      match out with
      | [] => "."
      | _ => bufferString out
      end
  end.

(** [filepath.Join(elem...)]: the elements from the first non-empty one
    on, joined by the separator and cleaned. *)
Fixpoint Join (elem : list string) : string :=
  match elem with
  | [] => ""
  | e :: rest =>
      if String.eqb e "" then Join rest else Clean (GoRt.Join elem "/")
  end.

End filepath.

(* ===================================================================== *)
(** * Package search: binary search within sorted shard data              *)
(* ===================================================================== *)

Module search.
Import GoRt.
Local Open Scope string_scope.

Definition ErrNotFound : error := errNew "position not found".

(** The JSON shape of one record of the Lichess evaluation database. *)
Record PVRecord : Type := mkPVRecord {
  pvCP : option Z;
  pvMate : option Z;
  pvLine : string }.

Record EvalEntry : Type := mkEvalEntry {
  PVs : list PVRecord;
  Knodes : Z;
  Depth : Z }.

Record EvalRecord : Type := mkEvalRecord {
  FEN : string;
  Evals : list EvalEntry }.

(** The constant [prefix] of [extractFEN]: the seven bytes of
    quote, f, e, n, quote, colon, quote. *)
Definition fenPrefix : string :=
  String dq ("fen" ++ String dq (":" ++ String dq "")).

(** [extractFEN] extracts the FEN field from a JSON line without full
    parsing. *)
Definition extractFEN (line : string) : string :=
  match Index line fenPrefix with
  | None => ""
  | Some idx =>
      let start := idx + String.length fenPrefix in
      match IndexByte (sdrop start line) dq with
      | None => ""
      | Some e => slice line start (start + e)
      end
  end.

(** The test [if len(line) > 0 { lines = append(lines, line) }]. *)
Definition appendNonEmpty (line : string) : list string :=
  if Nat.ltb 0 (String.length line) then [line] else [].

(** [splitLines] splits data into lines, excluding empty lines. *)
Equations? splitLines (data : string) : list string
  by wf (String.length data) lt :=
  splitLines EmptyString := [];
  splitLines (String c s) with IndexByte (String c s) lf => {
    | None => appendNonEmpty (String c s)
    | Some idx =>
        appendNonEmpty (stake idx (String c s))
          ++ splitLines (sdrop (idx + 1) (String c s)) }.
Proof.
  rewrite Nat.add_1_r; simpl.
  pose proof (sdrop_length_le idx s); lia.
Qed.

Section WithJSON.

(** [json.Unmarshal(line, &record)] of [encoding/json], for the record
    schema above. *)
Variable json_Unmarshal : string -> result EvalRecord.

(** [Search] searches for a FEN in sorted JSONL shard data. *)
Definition Search (data : string) (targetFEN : string) : result EvalRecord :=
  let lines := splitLines data in
  if Nat.eqb (List.length lines) 0 then Err ErrNotFound
  else
    let idx := sortSearch (List.length lines)
                 (fun i => strLe targetFEN (extractFEN (nth i lines ""))) in
    if Nat.leb (List.length lines) idx then Err ErrNotFound
    else
      let fen := extractFEN (nth idx lines "") in
      if negb (String.eqb fen targetFEN) then Err ErrNotFound
      else
        match json_Unmarshal (nth idx lines "") with
        | Err e => Err (errWrap "parsing eval record" e)
        | Ok record => Ok record
        end.

End WithJSON.

End search.

(* ===================================================================== *)
(** * Package builder: collectors, spills and the memory accountant       *)
(* ===================================================================== *)

Module builder.
Import GoRt.
Local Open Scope string_scope.

(** [extractFEN] extracts the FEN from a JSON line (the builder's copy). *)
Definition extractFEN (line : string) : string :=
  let prefix := String dq ("fen" ++ String dq (":" ++ String dq "")) in
  match Index line prefix with
  | None => ""
  | Some idx =>
      let start := idx + String.length prefix in
      match IndexByte (sdrop start line) dq with
      | None => ""
      | Some e => slice line start (start + e)
      end
  end.

(** A run file is named by its directory and its base name
    [shard_%05d_%d.tmp]; the base name is kept as the pair of numbers it
    is printed from. *)
Record runName : Type := mkRunName {
  runDir : string;
  runShard : nat;
  runSeq : nat }.

(** [shardCollector] collects records for a single shard.  The pointer
    [memTracker] is the one accountant of the build and is kept in
    [buildState] below. *)
Record shardCollector : Type := mkCollector {
  shardID : nat;
  records : list string;
  memoryBytes : Z;
  tempDir : string;
  spilledFiles : list runName;
  spilledCount : nat;
  spillCount : nat }.

(** The heap of the partition phase: the [memoryTracker] fields, the
    collectors its slice points to (the same objects as the builder's
    [collectors] slice, addressed by index), and the run files written.
    The byte counters are [int64]; they count bytes held in memory and
    stay far below 2^63, so their sums are written without reduction. *)
Record buildState : Type := mkBuild {
  totalBytes : Z;
  maxBytes : Z;
  collectors : list shardCollector;
  disk : list (runName * string) }.

(** [newShardCollector]. *)
Definition newShardCollector (shardID : nat) (tempDir : string) : shardCollector :=
  {| shardID := shardID; records := []; memoryBytes := 0; tempDir := tempDir;
     spilledFiles := []; spilledCount := 0; spillCount := 0 |}.

(** The set-up of [processRecords]: [newMemoryTracker(maxMB, collectors)]
    and one collector per shard. *)
Definition newBuild (totalShards : nat) (maxMemoryMB : Z) (tempDir : string)
  : buildState :=
  {| totalBytes := 0;
     maxBytes := i64 (maxMemoryMB * 1024 * 1024);
     collectors := map (fun i => newShardCollector i tempDir) (seq 0 totalShards);
     disk := [] |}.

(** Assignment through the pointer to collector [k]. *)
Fixpoint setNth (k : nat) (c : shardCollector) (cs : list shardCollector)
  : list shardCollector :=
  match cs, k with
  | [], _ => []
  | _ :: cs', O => c :: cs'
  | c0 :: cs', S k' => c0 :: setNth k' c cs'
  end.

Definition setCollector (st : buildState) (k : nat) (c : shardCollector)
  : buildState :=
  {| totalBytes := totalBytes st; maxBytes := maxBytes st;
     collectors := setNth k c (collectors st); disk := disk st |}.

(** [memoryTracker.add], [remove] and [shouldSpill]. *)
Definition trackerAdd (st : buildState) (bytes : Z) : buildState :=
  {| totalBytes := totalBytes st + bytes; maxBytes := maxBytes st;
     collectors := collectors st; disk := disk st |}.

Definition trackerRemove (st : buildState) (bytes : Z) : buildState :=
  {| totalBytes := totalBytes st - bytes; maxBytes := maxBytes st;
     collectors := collectors st; disk := disk st |}.

Definition shouldSpill (st : buildState) : bool :=
  (maxBytes st <? totalBytes st)%Z.

(** The scan of [spillUntilUnderLimit] for the largest collector:
    [if c.memoryBytes > largestMem && len(c.records) > 0]. *)
Fixpoint scanLargest (cs : list shardCollector) (i : nat)
    (largest : option nat) (largestMem : Z) : option nat * Z :=
  match cs with
  | [] => (largest, largestMem)
  | c :: cs' =>
      if (largestMem <? memoryBytes c)%Z && Nat.ltb 0 (List.length (records c))
      then scanLargest cs' (S i) (Some i) (memoryBytes c)
      else scanLargest cs' (S i) largest largestMem
  end.

Definition pickLargest (st : buildState) : option nat * Z :=
  scanLargest (collectors st) 0 None 0%Z.

(** The four bytes of the big-endian length prefix of a spilled record:
    [length := uint32(len(record))], then [byte(length >> 24)], ... *)
Definition be32 (n : nat) : string :=
  let length := u32 (Z.of_nat n) in
  let b (sh : Z) := ascii_of_N (Z.to_N (Z.shiftr length sh mod 256)) in
  String (b 24%Z) (String (b 16%Z) (String (b 8%Z) (String (b 0%Z) ""))).

Definition runFileContent (recs : list string) : string :=
  fold_right (fun r acc => be32 (String.length r) ++ r ++ acc) "" recs.

Section WithEnvironment.

(** [sort.Slice(c.records, less)] with [less] comparing extracted FENs;
    which of the sorted permutations it produces is left to the library. *)
Variable sortSlice : list string -> list string.

(** The outcome of creating, writing, flushing and closing a run file:
    [None] when every step succeeds, the first error otherwise. *)
Variable writeRun : runName -> string -> option error.

(** [shardCollector.spillToDisk] on collector [k]. *)
Definition spillToDisk (st : buildState) (k : nat) : option error * buildState :=
  match nth_error (collectors st) k with
  | None => (None, st)
  | Some c =>
      if Nat.eqb (List.length (records c)) 0 then (None, st)
      else
        let sorted := sortSlice (records c) in
        let tempFile := mkRunName (tempDir c) (shardID c) (spillCount c) in
        let c1 := {| shardID := shardID c; records := sorted;
                     memoryBytes := memoryBytes c; tempDir := tempDir c;
                     spilledFiles := spilledFiles c;
                     spilledCount := spilledCount c;
                     spillCount := spillCount c + 1 |} in
        match writeRun tempFile (runFileContent sorted) with
        | Some err => (Some err, setCollector st k c1)
        | None =>
            let st1 := trackerRemove st (memoryBytes c1) in
            let c2 := {| shardID := shardID c1; records := [];
                         memoryBytes := 0; tempDir := tempDir c1;
                         spilledFiles := spilledFiles c1 ++ [tempFile];
                         spilledCount := spilledCount c1 + List.length sorted;
                         spillCount := spillCount c1 |} in
            (None,
             {| totalBytes := totalBytes st1; maxBytes := maxBytes st1;
                collectors := setNth k c2 (collectors st1);
                disk := disk st1 ++ [(tempFile, runFileContent sorted)] |})
        end
  end.

(** The loop of [memoryTracker.spillUntilUnderLimit]; [None] when the
    bound on the number of iterations is used up. *)
Fixpoint spillLoop (fuel : nat) (st : buildState)
  : option (option error * buildState) :=
  match fuel with
  | O => None
  | S fuel' =>
      if shouldSpill st then
        match pickLargest st with
        | (None, _) => Some (None, st)
        | (Some k, largestMem) =>
            if (largestMem =? 0)%Z then Some (None, st)
            else
              match spillToDisk st k with
              | (Some err, st') => Some (Some err, st')
              | (None, st') => spillLoop fuel' st'
              end
        end
      else Some (None, st)
  end.

(** Every iteration that continues empties one collector, so one more
    round than there are collectors is enough (see [spillLoop_total]). *)
Definition spillUntilUnderLimit (st : buildState)
  : option (option error * buildState) :=
  spillLoop (S (List.length (collectors st))) st.

(** The first half of [shardCollector.Add]: the copy of the record is
    appended and accounted for. *)
Definition addRecord (st : buildState) (k : nat) (record : string) : buildState :=
  match nth_error (collectors st) k with
  | None => st
  | Some c =>
      let recordSize := (Z.of_nat (String.length record) + 24)%Z in
      let c1 := {| shardID := shardID c; records := records c ++ [record];
                   memoryBytes := memoryBytes c + recordSize;
                   tempDir := tempDir c; spilledFiles := spilledFiles c;
                   spilledCount := spilledCount c; spillCount := spillCount c |} in
      trackerAdd (setCollector st k c1) recordSize
  end.

(** [shardCollector.Add] on collector [k]. *)
Definition Add (st : buildState) (k : nat) (record : string)
  : option (option error * buildState) :=
  let st1 := addRecord st k record in
  if shouldSpill st1 then
    match spillUntilUnderLimit st1 with
    | None => None
    | Some (Some err, st2) => Some (Some (errWrap "spilling to disk" err), st2)
    | Some (None, st2) => Some (None, st2)
    end
  else Some (None, st1).

End WithEnvironment.

End builder.

(* ===================================================================== *)
(** * Package fen: FEN parsing utilities                                  *)
(* ===================================================================== *)

Module fen.
Import GoRt.
Local Open Scope string_scope.

Definition ErrInvalidFEN : error := errNew "invalid FEN notation".

(** [Material] represents the piece counts for both sides. *)
Record Material : Type := mkMaterial {
  WhitePawns : Z;
  WhiteKnights : Z;
  WhiteBishops : Z;
  WhiteRooks : Z;
  WhiteQueens : Z;
  BlackPawns : Z;
  BlackKnights : Z;
  BlackBishops : Z;
  BlackRooks : Z;
  BlackQueens : Z }.

Definition zeroMaterial : Material := mkMaterial 0 0 0 0 0 0 0 0 0 0.

(** One step of the [switch ch] of [ParseMaterial]: the counts after a
    rune that is accepted, [None] in the [default] case. *)
Definition countRune (ch : Z) (m : Material) : option Material :=
  let '(mkMaterial wp wn wb wr wq bp bn bb br bq) := m in
  if (ch =? 80)%Z then Some (mkMaterial (wp + 1) wn wb wr wq bp bn bb br bq)
  else if (ch =? 78)%Z then Some (mkMaterial wp (wn + 1) wb wr wq bp bn bb br bq)
  else if (ch =? 66)%Z then Some (mkMaterial wp wn (wb + 1) wr wq bp bn bb br bq)
  else if (ch =? 82)%Z then Some (mkMaterial wp wn wb (wr + 1) wq bp bn bb br bq)
  else if (ch =? 81)%Z then Some (mkMaterial wp wn wb wr (wq + 1) bp bn bb br bq)
  else if (ch =? 112)%Z then Some (mkMaterial wp wn wb wr wq (bp + 1) bn bb br bq)
  else if (ch =? 110)%Z then Some (mkMaterial wp wn wb wr wq bp (bn + 1) bb br bq)
  else if (ch =? 98)%Z then Some (mkMaterial wp wn wb wr wq bp bn (bb + 1) br bq)
  else if (ch =? 114)%Z then Some (mkMaterial wp wn wb wr wq bp bn bb (br + 1) bq)
  else if (ch =? 113)%Z then Some (mkMaterial wp wn wb wr wq bp bn bb br (bq + 1))
  else if (ch =? 75)%Z || (ch =? 107)%Z then Some m
  else if (ch =? 47)%Z || inRange 49 56 ch then Some m
  else None.

(** The loop [for _, ch := range parts[0]].  Every rune the switch
    accepts is ASCII, hence one byte wide, so the loop continues with the
    next byte; any other rune returns at once. *)
Fixpoint countMaterial (placement : string) (m : Material) : result Material :=
  match placement with
  | EmptyString => Ok m
  | String _ rest =>
      match countRune (runeAt placement) m with
      | Some m' => countMaterial rest m'
      | None => Err ErrInvalidFEN
      end
  end.

(** [ParseMaterial] extracts material counts from a FEN string. *)
Definition ParseMaterial (fen : string) : result Material :=
  match Fields fen with
  | [] => Err ErrInvalidFEN
  | placement :: _ => countMaterial placement zeroMaterial
  end.

(** [SideToMove] returns "w" or "b" from a FEN string. *)
Definition SideToMove (fen : string) : result string :=
  match Fields fen with
  | _ :: side :: _ =>
      if negb (String.eqb side "w") && negb (String.eqb side "b")
      then Err ErrInvalidFEN
      else Ok side
  | _ => Err ErrInvalidFEN
  end.

(** The loop over one rank in [isValidPiecePlacement]: the number of
    squares, [None] when a rune is rejected. *)
Fixpoint rankSquares (rank : string) (squares : Z) : option Z :=
  match rank with
  | EmptyString => Some squares
  | String _ rest =>
      let ch := runeAt rank in
      if inRange 49 56 ch then rankSquares rest (squares + (ch - 48))
      else if (ch =? 80)%Z || (ch =? 78)%Z || (ch =? 66)%Z || (ch =? 82)%Z
              || (ch =? 81)%Z || (ch =? 75)%Z || (ch =? 112)%Z || (ch =? 110)%Z
              || (ch =? 98)%Z || (ch =? 114)%Z || (ch =? 113)%Z || (ch =? 107)%Z
      then rankSquares rest (squares + 1)
      else None
  end.

(** [isValidPiecePlacement] validates the piece placement part of a FEN. *)
Definition isValidPiecePlacement (placement : string) : bool :=
  let ranks := SplitByte placement "/" in
  if negb (Nat.eqb (List.length ranks) 8) then false
  else forallb (fun rank =>
                  match rankSquares rank 0 with
                  | Some squares => (squares =? 8)%Z
                  | None => false
                  end) ranks.

(** [Normalize] returns a normalized FEN string suitable for lookups. *)
Definition Normalize (fen : string) : result string :=
  let parts := Fields fen in
  if Nat.ltb (List.length parts) 4 then Err ErrInvalidFEN
  else if negb (isValidPiecePlacement (nth 0 parts "")) then Err ErrInvalidFEN
  else if negb (String.eqb (nth 1 parts "") "w")
          && negb (String.eqb (nth 1 parts "") "b")
  then Err ErrInvalidFEN
  else Ok (Join (firstn 4 parts) " ").

End fen.

(* ===================================================================== *)
(** * Package materialshard: material-based sharding                      *)
(* ===================================================================== *)

Module materialshard.
Import GoRt.
Local Open Scope string_scope.

Definition Name : string := "material".

(** The package's own [min]. *)
Definition min (a b : Z) : Z := if (a <? b)%Z then a else b.

(** [hashFallback] computes a simple hash for invalid or unparseable FENs. *)
Fixpoint hashLoop (s : string) (h : Z) : Z :=
  match s with
  | EmptyString => h
  | String c rest => hashLoop rest (mul32 (Z.lxor h (byteVal c)) 16777619)
  end.

Definition hashFallback (s : string) (totalShards : Z) : outcome Z :=
  umod (hashLoop s 2166136261) (u32 totalShards).

(** [ShardID] computes a shard ID based on the material configuration. *)
Definition ShardID (fenStr : string) (totalShards : Z) : outcome Z :=
  match fen.ParseMaterial fenStr with
  | Err _ => hashFallback fenStr totalShards
  | Ok mat =>
      let side := match fen.SideToMove fenStr with
                  | Ok side => side
                  | Err _ => ""
                  end in
      let id := 0%Z in
      let id := Z.lor id (shl32 (u32 (min (fen.WhiteQueens mat) 7)) 0) in
      let id := Z.lor id (shl32 (u32 (min (fen.BlackQueens mat) 7)) 3) in
      let id := Z.lor id (shl32 (u32 (min (fen.WhiteRooks mat) 7)) 6) in
      let id := Z.lor id (shl32 (u32 (min (fen.BlackRooks mat) 7)) 9) in
      let whiteMinors := (fen.WhiteBishops mat + fen.WhiteKnights mat)%Z in
      let blackMinors := (fen.BlackBishops mat + fen.BlackKnights mat)%Z in
      let id := Z.lor id (shl32 (u32 (min whiteMinors 7)) 12) in
      let id := Z.lor id (shl32 (u32 (min blackMinors 7)) 15) in
      let id := if String.eqb side "b" then Z.lor id (shl32 1 18) else id in
      umod id (u32 totalShards)
  end.

End materialshard.

(* ===================================================================== *)
(** * Package fnvshard: FNV-1a hash-based sharding                        *)
(* ===================================================================== *)

Module fnvshard.
Import GoRt.
Local Open Scope string_scope.

Definition Name : string := "fnv32".

(** [fnv1a32] computes the FNV-1a 32-bit hash of a string. *)
Fixpoint fnvLoop (s : string) (h : Z) : Z :=
  match s with
  | EmptyString => h
  | String c rest => fnvLoop rest (mul32 (Z.lxor h (byteVal c)) 16777619)
  end.

Definition fnv1a32 (s : string) : Z := fnvLoop s 2166136261.

(** [ShardID] computes a shard ID using the FNV-1a hash of the normalized
    FEN string. *)
Definition ShardID (fenStr : string) (totalShards : Z) : outcome Z :=
  let normalized := match fen.Normalize fenStr with
                    | Ok n => n
                    | Err _ => fenStr
                    end in
  umod (fnv1a32 normalized) (u32 totalShards).

End fnvshard.

(* ===================================================================== *)
(** * Package stats: the metrics sink                                     *)
(* ===================================================================== *)

Module stats.
Import GoRt.
Local Open Scope string_scope.

Definition MetricLookups : string := "stockpile_lookups_total".
Definition MetricHits : string := "stockpile_hits_total".
Definition MetricMisses : string := "stockpile_misses_total".
Definition MetricShardFetches : string := "stockpile_shard_fetches_total".
Definition MetricCacheHits : string := "stockpile_cache_hits_total".
Definition MetricCacheMisses : string := "stockpile_cache_misses_total".
Definition MetricCacheSize : string := "stockpile_cache_size".

(** The [Collector] interface, over the state [C] of an implementation.
    ([ObserveHistogram] takes a float and is not called by the core.) *)
Class Collector (C : Type) : Type := {
  IncCounter : C -> string -> Z -> C;
  SetGauge : C -> string -> Z -> C }.

(** [NewNoop]: a collector that discards all metrics. *)
Definition Noop : Type := unit.

#[global] Instance noopCollector : Collector Noop := {
  IncCounter := fun c _ _ => c;
  SetGauge := fun c _ _ => c }.

End stats.

(* ===================================================================== *)
(** * Package store and its implementations                               *)
(* ===================================================================== *)

Module store.
Import GoRt.
Local Open Scope string_scope.

Definition ErrNotFound : error := errNew "store: shard not found".

(** The [Store] interface, over the state [S] of an implementation; a
    method returns its results and the state it leaves. *)
Class Store (S : Type) : Type := {
  ReadShard : S -> Context -> Z -> result string * S;
  Close : S -> option error * S }.

End store.

(** Package codec: only what a store uses of a codec, namely its
    extension, whether [Reader(r)] fails, and what [io.ReadAll] of the
    decompressing reader yields. *)
Module codec.
Import GoRt.

Record Codec : Type := mkCodec {
  Extension : string;
  Reader : string -> option error;
  ReadAll : string -> result string }.

(** [fmt.Sprintf("%05d", shardID)] with the codec's extension; the three
    stores share this [shardName]. *)
Definition shardName (c : Codec) (shardID : Z) : string :=
  let name := Sprintf05d shardID in
  if negb (String.eqb (Extension c) "") then (name ++ "." ++ Extension c)%string
  else name.

(** The common tail of the three [ReadShard]s: decompress using codec. *)
Definition decompress (c : Codec) (compressed : string) : result string :=
  match Reader c compressed with
  | Some err => Err (errWrap "creating decompressor" err)
  | None =>
      match ReadAll c compressed with
      | Err err => Err (errWrap "decompressing shard" err)
      | Ok data => Ok data
      end
  end.

End codec.

Module memstore.
Import GoRt.

(** [Store] is an in-memory store for testing: the map [shards], most
    recent binding first. *)
Record Store : Type := mkStore { shards : list (Z * string) }.

Definition New : Store := mkStore [].

Fixpoint lookup (m : list (Z * string)) (k : Z) : option string :=
  match m with
  | [] => None
  | (k', v) :: m' => if (k' =? k)%Z then Some v else lookup m' k
  end.

Definition SetShard (s : Store) (shardID : Z) (data : string) : Store :=
  mkStore ((shardID, data) :: shards s).

Definition ReadShard (s : Store) (ctx : Context) (shardID : Z)
  : result string * Store :=
  match lookup (shards s) shardID with
  | None => (Err store.ErrNotFound, s)
  | Some data => (Ok data, s)
  end.

Definition Close (s : Store) : option error * Store := (None, s).

#[global] Instance memStore : store.Store Store := {
  store.ReadShard := ReadShard;
  store.Close := Close }.

End memstore.

Module diskstore.
Import GoRt.
Local Open Scope string_scope.

(** [Store] is a disk-based filesystem storage backend.  [readFile] is
    [os.ReadFile] on the file system the store sees and [isNotExist] is
    [os.IsNotExist]. *)
Record Store : Type := mkStore {
  root : string;
  codec : codec.Codec;
  readFile : string -> result string;
  isNotExist : error -> bool }.

(** [filepath.Join(s.root, "shards", s.shardName(shardID))]. *)
Definition shardPath (s : Store) (shardID : Z) : string :=
  filepath.Join [root s; "shards"; codec.shardName (codec s) shardID].

Definition ReadShard (s : Store) (ctx : Context) (shardID : Z)
  : result string * Store :=
  match ctx with
  | Some cerr => (Err cerr, s)
  | None =>
      match readFile s (shardPath s shardID) with
      | Err err =>
          if isNotExist s err then (Err store.ErrNotFound, s)
          else (Err (errWrap "reading shard" err), s)
      | Ok compressed => (codec.decompress (codec s) compressed, s)
      end
  end.

Definition Close (s : Store) : option error * Store := (None, s).

#[global] Instance diskStore : store.Store Store := {
  store.ReadShard := ReadShard;
  store.Close := Close }.

End diskstore.

Module s3store.
Import GoRt.
Local Open Scope string_scope.

(** [Store] is an AWS S3 storage backend.  [getObject ctx bucket key] is
    the body [client.GetObject] returns and [isNoSuchKey] the test
    [errors.As(err, &nsk)]. *)
Record Store : Type := mkStore {
  bucket : string;
  prefix : string;
  codec : codec.Codec;
  getObject : Context -> string -> string -> result string;
  isNoSuchKey : error -> bool }.

Definition shardKey (s : Store) (shardID : Z) : string :=
  prefix s ++ "shards/" ++ codec.shardName (codec s) shardID.

Definition ReadShard (s : Store) (ctx : Context) (shardID : Z)
  : result string * Store :=
  match ctx with
  | Some cerr => (Err cerr, s)
  | None =>
      match getObject s ctx (bucket s) (shardKey s shardID) with
      | Err err =>
          if isNoSuchKey s err then (Err store.ErrNotFound, s)
          else (Err (errWrap "reading shard" err), s)
      | Ok body => (codec.decompress (codec s) body, s)
      end
  end.

Definition Close (s : Store) : option error * Store := (None, s).

#[global] Instance s3Store : store.Store Store := {
  store.ReadShard := ReadShard;
  store.Close := Close }.

End s3store.

Module gcsstore.
Import GoRt.
Local Open Scope string_scope.

Definition ErrObjectNotExist : error := errNew "storage: object doesn't exist".

(** [Store] is a Google Cloud Storage backend.  [newReader ctx key] is
    the content [bucket.Object(key).NewReader(ctx)] gives access to and
    [clientClose] the result of [client.Close()]. *)
Record Store : Type := mkStore {
  prefix : string;
  codec : codec.Codec;
  newReader : Context -> string -> result string;
  clientClose : option error }.

Definition shardKey (s : Store) (shardID : Z) : string :=
  prefix s ++ "shards/" ++ codec.shardName (codec s) shardID.

Definition ReadShard (s : Store) (ctx : Context) (shardID : Z)
  : result string * Store :=
  match ctx with
  | Some cerr => (Err cerr, s)
  | None =>
      match newReader s ctx (shardKey s shardID) with
      | Err err =>
          if error_eqb err ErrObjectNotExist then (Err store.ErrNotFound, s)
          else (Err (errWrap "creating reader" err), s)
      | Ok body => (codec.decompress (codec s) body, s)
      end
  end.

Definition Close (s : Store) : option error * Store := (clientClose s, s).

#[global] Instance gcsStore : store.Store Store := {
  store.ReadShard := ReadShard;
  store.Close := Close }.

End gcsstore.

(* ===================================================================== *)
(** * The cache: eviction strategy, memory backend and cached store       *)
(* ===================================================================== *)

Module cachestrategy.
Import GoRt.

(** The eviction [Strategy] interface, over the state [T] of an
    implementation. *)
Class Strategy (T : Type) : Type := {
  Get : T -> Z -> option string * T;
  Add : T -> Z -> string -> bool * T;
  Len : T -> Z }.

End cachestrategy.

Module lru.
Import GoRt.
Local Open Scope string_scope.

(** The cache of [hashicorp/golang-lru]: the entries, most recently used
    first, and the capacity [size]. *)
Record Strategy : Type := mkStrategy {
  size : nat;
  entries : list (Z * string) }.

(** [New] creates a new LRU strategy with the given capacity. *)
Definition New (capacity : Z) : result Strategy :=
  if (capacity <=? 0)%Z then Err (errNew "must provide a positive size")
  else Ok (mkStrategy (Z.to_nat capacity) []).

Fixpoint find (es : list (Z * string)) (k : Z) : option string :=
  match es with
  | [] => None
  | (k', v) :: es' => if (k' =? k)%Z then Some v else find es' k
  end.

Definition remove (es : list (Z * string)) (k : Z) : list (Z * string) :=
  filter (fun e => negb (fst e =? k)%Z) es.

(** [Get] looks a key up and makes it the most recently used. *)
Definition Get (s : Strategy) (key : Z) : option string * Strategy :=
  match find (entries s) key with
  | Some v => (Some v, mkStrategy (size s) ((key, v) :: remove (entries s) key))
  | None => (None, s)
  end.

(** [Add] adds a value and reports whether an entry was evicted. *)
Definition Add (s : Strategy) (key : Z) (value : string) : bool * Strategy :=
  match find (entries s) key with
  | Some _ => (false, mkStrategy (size s) ((key, value) :: remove (entries s) key))
  | None =>
      let es := (key, value) :: entries s in
      if Nat.ltb (size s) (List.length es)
      then (true, mkStrategy (size s) (removelast es))
      else (false, mkStrategy (size s) es)
  end.

Definition Len (s : Strategy) : Z := Z.of_nat (List.length (entries s)).

#[global] Instance lruStrategy : cachestrategy.Strategy Strategy := {
  cachestrategy.Get := Get;
  cachestrategy.Add := Add;
  cachestrategy.Len := Len }.

End lru.

Module cachedstore.
Import GoRt.

(** [Stats] contains cache statistics. *)
Record Stats : Type := mkStats {
  Hits : Z;
  Misses : Z;
  Size : Z }.

(** The [Backend] interface for cache storage backends, over the state
    [B] of an implementation. *)
Class Backend (B : Type) : Type := {
  Get : B -> Z -> option string * B;
  Set_ : B -> Z -> string -> B;
  GetStats : B -> Stats }.

Section WithStores.

Context {U B : Type} `{store.Store U} `{Backend B}.

(** [Store] wraps another Store with caching. *)
Record Store : Type := mkStore {
  underlying : U;
  backend : B }.

Definition New (underlying : U) (backend : B) : Store :=
  mkStore underlying backend.

(** [ReadShard] reads a shard, checking the cache first. *)
Definition ReadShard (s : Store) (ctx : Context) (shardID : Z)
  : result string * Store :=
  match Get (backend s) shardID with
  | (Some data, b1) => (Ok data, mkStore (underlying s) b1)
  | (None, b1) =>
      match store.ReadShard (underlying s) ctx shardID with
      | (Err err, u1) => (Err err, mkStore u1 b1)
      | (Ok data, u1) => (Ok data, mkStore u1 (Set_ b1 shardID data))
      end
  end.

(** [Close] closes the underlying store. *)
Definition Close (s : Store) : option error * Store :=
  let '(err, u1) := store.Close (underlying s) in
  (err, mkStore u1 (backend s)).

(** [Stats] returns cache statistics. *)
Definition StoreStats (s : Store) : Stats := GetStats (backend s).

#[global] Instance cachedStore : store.Store Store := {
  store.ReadShard := ReadShard;
  store.Close := Close }.

End WithStores.

Arguments Store U B : clear implicits.

End cachedstore.

Module memory.
Import GoRt.

Section WithStrategy.

Context {T C : Type} `{cachestrategy.Strategy T} `{stats.Collector C}.

(** [Backend] is a thread-safe in-memory cache backend; [hits] and
    [misses] are its [atomic.Int64] counters. *)
Record Backend : Type := mkBackend {
  strategy : T;
  collector : C;
  hits : Z;
  misses : Z }.

(** [New] creates a new memory backend with the given eviction strategy. *)
Definition New (strategy : T) (collector : C) : Backend :=
  mkBackend strategy collector 0 0.

(** [Get] retrieves shard data from the cache. *)
Definition Get (b : Backend) (shardID : Z) : option string * Backend :=
  match cachestrategy.Get (strategy b) shardID with
  | (Some val, t1) =>
      (Some val,
       mkBackend t1 (stats.IncCounter (collector b) stats.MetricCacheHits 1)
         (i64 (hits b + 1)) (misses b))
  | (None, t1) =>
      (None,
       mkBackend t1 (stats.IncCounter (collector b) stats.MetricCacheMisses 1)
         (hits b) (i64 (misses b + 1)))
  end.

(** [Set] stores shard data in the cache. *)
Definition Set_ (b : Backend) (shardID : Z) (data : string) : Backend :=
  let '(_, t1) := cachestrategy.Add (strategy b) shardID data in
  mkBackend t1
    (stats.SetGauge (collector b) stats.MetricCacheSize (cachestrategy.Len t1))
    (hits b) (misses b).

(** [Stats] returns current cache statistics. *)
Definition GetStats (b : Backend) : cachedstore.Stats :=
  cachedstore.mkStats (hits b) (misses b) (cachestrategy.Len (strategy b)).

#[global] Instance memoryBackend : cachedstore.Backend Backend := {
  cachedstore.Get := Get;
  cachedstore.Set_ := Set_;
  cachedstore.GetStats := GetStats }.

End WithStrategy.

Arguments Backend T C : clear implicits.

End memory.

(* ===================================================================== *)
(** * Package shard: the strategy interface                               *)
(* ===================================================================== *)

Module shard.
Import GoRt.

(** A [Strategy] is stateless: its name and its [ShardID] function. *)
Record Strategy : Type := mkStrategy {
  Name : string;
  ShardID : string -> Z -> outcome Z }.

Definition material : Strategy :=
  mkStrategy materialshard.Name materialshard.ShardID.

Definition fnv32 : Strategy :=
  mkStrategy fnvshard.Name fnvshard.ShardID.

End shard.

(* ===================================================================== *)
(** * Package stockpile: the public evaluation type and the client        *)
(* ===================================================================== *)

Module stockpile.
Import GoRt.
Local Open Scope string_scope.

Definition ErrNotFound : error := errNew "stockpile: position not found".
Definition ErrClosed : error := errNew "stockpile: client closed".
Definition ErrNoStore : error := errNew "stockpile: no store provided".

(** [PV] represents a principal variation from the engine; a nil
    pointer is [None]. *)
Record PV : Type := mkPV {
  Centipawns : option Z;
  Mate : option Z;
  Line : string }.

(** [Eval] represents a chess position evaluation. *)
Record Eval : Type := mkEval {
  FEN : string;
  Depth : Z;
  Knodes : Z;
  PVs : list PV }.

(** [BestPV] returns the best principal variation, or nil. *)
Definition BestPV (e : Eval) : option PV :=
  match PVs e with
  | [] => None
  | pv :: _ => Some pv
  end.

(** [PV.Score] returns a human-readable score string.  [cp = -cp] is the
    negation of the 64-bit [int]; [/] and [%] truncate toward zero. *)
Definition Score (pv : PV) : string :=
  match Mate pv with
  | Some mate => "#" ++ Itoa mate
  | None =>
      match Centipawns pv with
      | None => "?"
      | Some cp0 =>
          let sign := if (cp0 <? 0)%Z then "-" else "+" in
          let cp := if (cp0 <? 0)%Z then i64 (- cp0) else cp0 in
          let whole := Z.quot cp 100 in
          let frac := Z.rem cp 100 in
          if (frac <? 10)%Z
          then sign ++ Itoa whole ++ ".0" ++ Itoa frac
          else sign ++ Itoa whole ++ "." ++ Itoa frac
      end
  end.

(** [Eval.Score] returns the score string for the best line. *)
Definition EvalScore (e : Eval) : string :=
  match BestPV e with
  | None => "?"
  | Some pv => Score pv
  end.

(** [recordToEval] converts an internal record to a public [Eval]. *)
Definition recordToEval (r : search.EvalRecord) : Eval :=
  match search.Evals r with
  | [] => mkEval (search.FEN r) 0 0 []
  | best :: _ =>
      mkEval (search.FEN r) (search.Depth best) (search.Knodes best)
        (map (fun pv => mkPV (search.pvCP pv) (search.pvMate pv) (search.pvLine pv))
             (search.PVs best))
  end.

Section WithCollaborators.

Context {S C : Type} `{store.Store S} `{stats.Collector C}.

Variable json_Unmarshal : string -> result search.EvalRecord.

(** The configuration [New] reads its options into. *)
Record options : Type := mkOptions {
  optStore : option S;
  optShardStrategy : shard.Strategy;
  optTotalShards : Z;
  optStats : C }.

(** [Client] provides access to the evaluation database; [closed] is its
    [atomic.Bool] and a nil [store] is [None]. *)
Record Client : Type := mkClient {
  store_ : option S;
  shardStrategy : shard.Strategy;
  totalShards : Z;
  stats_ : C;
  closed : bool }.

(** [New] creates a new Client with the given options. *)
Definition New (cfg : options) : result Client :=
  match optStore cfg with
  | None => Err ErrNoStore
  | Some _ =>
      Ok (mkClient (optStore cfg) (optShardStrategy cfg) (optTotalShards cfg)
            (optStats cfg) false)
  end.

Definition withStats (c : Client) (st : C) : Client :=
  mkClient (store_ c) (shardStrategy c) (totalShards c) st (closed c).

Definition withStore (c : Client) (s : option S) : Client :=
  mkClient s (shardStrategy c) (totalShards c) (stats_ c) (closed c).

(** [fetchShard] fetches a shard from storage. *)
Definition fetchShard (c : Client) (ctx : Context) (shardID : Z)
  : outcome (result string * Client) :=
  let c1 := withStats c (stats.IncCounter (stats_ c) stats.MetricShardFetches 1) in
  match store_ c1 with
  | None => Panics "runtime error: invalid memory address or nil pointer dereference"
  | Some s =>
      let '(r, s1) := store.ReadShard s ctx shardID in
      Returns (r, withStore c1 (Some s1))
  end.

(** [searchShard] searches for a position within shard data. *)
Definition searchShard (data : string) (fenStr : string) : result Eval :=
  match search.Search json_Unmarshal data fenStr with
  | Err err =>
      if errorsIs err search.ErrNotFound then Err ErrNotFound else Err err
  | Ok record => Ok (recordToEval record)
  end.

(** [Lookup] returns the evaluation for a given FEN position. *)
Definition Lookup (c : Client) (ctx : Context) (fen : string)
  : outcome (result Eval * Client) :=
  if closed c then Returns (Err ErrClosed, c)
  else
    let c1 := withStats c (stats.IncCounter (stats_ c) stats.MetricLookups 1) in
    match shard.ShardID (shardStrategy c1) fen (totalShards c1) with
    | Panics msg => Panics msg
    | Returns shardID =>
        match fetchShard c1 ctx shardID with
        | Panics msg => Panics msg
        | Returns (Err err, c2) =>
            Returns (Err (errWrap ("fetching shard " ++ Itoa shardID) err), c2)
        | Returns (Ok shardData, c2) =>
            match searchShard shardData fen with
            | Err err =>
                if errorsIs err ErrNotFound
                then Returns (Err err,
                       withStats c2 (stats.IncCounter (stats_ c2) stats.MetricMisses 1))
                else Returns (Err err, c2)
            | Ok eval =>
                Returns (Ok eval,
                  withStats c2 (stats.IncCounter (stats_ c2) stats.MetricHits 1))
            end
        end
    end.

(** [c.closed.CompareAndSwap(false, true)]: the atomic step [Close]
    begins with. *)
Definition closedCompareAndSwap (c : Client) : bool * Client :=
  if closed c then (false, c)
  else (true, mkClient (store_ c) (shardStrategy c) (totalShards c) (stats_ c) true).

(** The rest of [Close], run by the call that won the swap. *)
Definition closeStore (c : Client) : option error * Client :=
  match store_ c with
  | None => (None, c)
  | Some s =>
      match store.Close s with
      | (Some err, s1) => (Some (errWrap "closing store" err), withStore c (Some s1))
      | (None, s1) => (None, withStore c (Some s1))
      end
  end.

(** [Close] releases all resources associated with the client. *)
Definition Close (c : Client) : option error * Client :=
  let '(swapped, c1) := closedCompareAndSwap c in
  if negb swapped then (Some ErrClosed, c1)
  else closeStore c1.

End WithCollaborators.

Arguments Client S C : clear implicits.
Arguments options S C : clear implicits.

End stockpile.

(* ===================================================================== *)
(** * The repository's unit tests, run on the embedding                   *)
(* ===================================================================== *)

Module RepositoryTests.
Import GoRt.
Local Open Scope string_scope.

(** A JSON line with a [fen] field and an empty [evals] list. *)
Definition lineOf (fen : string) : string :=
  "{" ++ String dq ("fen" ++ String dq (":" ++ String dq
    (fen ++ String dq ("," ++ String dq ("evals" ++ String dq ":[]}"))))).

Definition start : string :=
  "rnbqkbnr/pppppppp/8/8/8/8/PPPPPPPP/RNBQKBNR w KQkq - 0 1".

(** [TestExtractFEN], in both packages. *)
Example extractFEN_valid :
  search.extractFEN (lineOf start) = start
  /\ builder.extractFEN (lineOf "8/8/8/8/8/8/8/8 w - - 0 1")
     = "8/8/8/8/8/8/8/8 w - - 0 1".
Proof. split; reflexivity. Qed.

Example extractFEN_absent :
  search.extractFEN ("{" ++ String dq ("other" ++ String dq (":" ++ String dq
                       ("value" ++ String dq "}")))) = ""
  /\ search.extractFEN "" = ""
  /\ builder.extractFEN ("{" ++ String dq ("fen" ++ String dq ":}")) = "".
Proof. repeat split; reflexivity. Qed.

(** [TestSplitLines]. *)
Example splitLines_counts :
  List.length (search.splitLines "line1") = 1
  /\ List.length (search.splitLines
        ("line1" ++ String lf ("line2" ++ String lf "line3"))) = 3
  /\ List.length (search.splitLines
        ("line1" ++ String lf ("line2" ++ String lf ""))) = 2
  /\ List.length (search.splitLines
        ("line1" ++ String lf (String lf ("line2" ++ String lf (String lf ""))))) = 2
  /\ List.length (search.splitLines "") = 0.
Proof. repeat split; reflexivity. Qed.

(** [TestNormalize]. *)
Example Normalize_cases :
  fen.Normalize start = Ok "rnbqkbnr/pppppppp/8/8/8/8/PPPPPPPP/RNBQKBNR w KQkq -"
  /\ fen.Normalize "r3k2r/pppppppp/8/8/8/8/PPPPPPPP/R3K2R w - - 10 20"
     = Ok "r3k2r/pppppppp/8/8/8/8/PPPPPPPP/R3K2R w - -"
  /\ fen.Normalize "" = Err fen.ErrInvalidFEN
  /\ fen.Normalize "rnbqkbnr/pppppppp/8/8/8/8/PPPPPPPP/RNBQKBNR w"
     = Err fen.ErrInvalidFEN
  /\ fen.Normalize "rnbqkbnr/pppppppp/8/8/8/8/PPPPPPPP/RNBQKBNR x KQkq - 0 1"
     = Err fen.ErrInvalidFEN
  /\ fen.Normalize "rnbqkbnr/pppppppp/8/8/8/PPPPPPPP/RNBQKBNR w KQkq - 0 1"
     = Err fen.ErrInvalidFEN
  /\ fen.Normalize "rnbqkbnr/ppppppp/8/8/8/8/PPPPPPPP/RNBQKBNR w KQkq - 0 1"
     = Err fen.ErrInvalidFEN.
Proof. repeat split; reflexivity. Qed.

(** [TestParseMaterial] and [TestSideToMove]. *)
Example ParseMaterial_cases :
  fen.ParseMaterial start = Ok (fen.mkMaterial 8 2 2 2 1 8 2 2 2 1)
  /\ fen.ParseMaterial "8/8/8/4k3/8/8/4K3/Q3RR2 w - - 0 1"
     = Ok (fen.mkMaterial 0 0 0 2 1 0 0 0 0 0)
  /\ fen.ParseMaterial "QQQQk3/8/8/8/8/8/8/4K3 w - - 0 1"
     = Ok (fen.mkMaterial 0 0 0 0 4 0 0 0 0 0)
  /\ fen.ParseMaterial "" = Err fen.ErrInvalidFEN
  /\ fen.ParseMaterial "rnbxkbnr/pppppppp/8/8/8/8/PPPPPPPP/RNBQKBNR w KQkq - 0 1"
     = Err fen.ErrInvalidFEN.
Proof. repeat split; reflexivity. Qed.

Example SideToMove_cases :
  fen.SideToMove start = Ok "w"
  /\ fen.SideToMove "rnbqkbnr/pppppppp/8/8/4P3/8/PPPP1PPP/RNBQKBNR b KQkq e3 0 1"
     = Ok "b"
  /\ fen.SideToMove "rnbqkbnr/pppppppp/8/8/8/8/PPPPPPPP/RNBQKBNR x KQkq - 0 1"
     = Err fen.ErrInvalidFEN
  /\ fen.SideToMove "rnbqkbnr/pppppppp/8/8/8/8/PPPPPPPP/RNBQKBNR"
     = Err fen.ErrInvalidFEN.
Proof. repeat split; reflexivity. Qed.

(** [TestStrategy_ShardID_SameMaterialClusters] and the scenario "side to
    move matters at high N". *)
Example material_clusters :
  materialshard.ShardID start 32768
  = materialshard.ShardID
      "rnbqkb1r/pppppppp/5n2/8/4P3/8/PPPP1PPP/RNBQKBNR w KQkq - 1 2" 32768
  /\ materialshard.ShardID "8/8/8/4k3/8/8/4K3/4R3 w - -" 524288
     <> materialshard.ShardID "8/8/8/4k3/8/8/4K3/4R3 b - -" 524288.
Proof. split; [reflexivity | vm_compute; discriminate]. Qed.

(** [TestBackend_GetSet] and the cached store's tests [TestStore_CacheMiss],
    [TestStore_NotFound]. *)
Example cache_miss_then_hit :
  let disk := memstore.SetShard memstore.New 1 "underlying data" in
  let cold := cachedstore.New disk (memory.New (lru.mkStrategy 10 []) tt) in
  let '(r1, warm) := cachedstore.ReadShard cold Background 1 in
  let '(r2, warm2) := cachedstore.ReadShard warm Background 1 in
  r1 = Ok "underlying data" /\ r2 = Ok "underlying data"
  /\ cachedstore.StoreStats warm2 = cachedstore.mkStats 1 1 1
  /\ fst (cachedstore.ReadShard cold Background 999) = Err store.ErrNotFound.
Proof. vm_compute. repeat split. Qed.

End RepositoryTests.

(* ===================================================================== *)
(** * Properties                                                          *)
(* ===================================================================== *)

(** ** Byte strings *)

Module StringFacts.
Import GoRt.
Local Open Scope string_scope.

Lemma sapp_assoc (a b c : string) : (a ++ b) ++ c = a ++ (b ++ c).
Proof. induction a as [|x a IH]; simpl; [reflexivity | now rewrite IH]. Qed.

Lemma sapp_nil_r (a : string) : a ++ "" = a.
Proof. induction a as [|x a IH]; simpl; [reflexivity | now rewrite IH]. Qed.

Lemma slength_app (a b : string) :
  String.length (a ++ b) = String.length a + String.length b.
Proof. induction a as [|x a IH]; simpl; [reflexivity | now rewrite IH]. Qed.

Lemma stake_sdrop (n : nat) (s : string) : stake n s ++ sdrop n s = s.
Proof.
  revert s; induction n as [|n IH]; intros [|c s]; simpl; auto.
  now rewrite IH.
Qed.

Lemma stake_length (n : nat) (s : string) :
  n <= String.length s -> String.length (stake n s) = n.
Proof.
  revert s; induction n as [|n IH]; intros [|c s]; simpl; intros Hn; auto.
  - lia.
  - rewrite IH; [reflexivity | lia].
Qed.

Lemma sdrop_app (a b : string) : sdrop (String.length a) (a ++ b) = b.
Proof. induction a as [|x a IH]; simpl; auto. Qed.

Lemma stake_app (a b : string) : stake (String.length a) (a ++ b) = a.
Proof. induction a as [|x a IH]; simpl; [reflexivity | now rewrite IH]. Qed.

Lemma sdrop_add (n m : nat) (s : string) : sdrop (n + m) s = sdrop m (sdrop n s).
Proof.
  revert s; induction n as [|n IH]; intros s; simpl; [reflexivity|].
  destruct s as [|c s]; [destruct m; reflexivity | apply IH].
Qed.

Lemma sapp_inv_head (a b c : string) : a ++ b = a ++ c -> b = c.
Proof. induction a as [|x a IH]; simpl; intros E; [assumption|]. injection E; auto. Qed.

(** [prefix p s] holds exactly when [s] starts with [p]. *)
Lemma prefix_iff (p s : string) :
  prefix p s = true <-> exists r, s = p ++ r.
Proof.
  revert s; induction p as [|x p IH]; intros [|y s]; simpl.
  - split; [intros _; exists ""; reflexivity | reflexivity].
  - split; [intros _; exists (String y s); reflexivity | reflexivity].
  - split; [discriminate | intros [r Hr]; discriminate].
  - destruct (ascii_dec x y) as [->|Hxy].
    + rewrite IH. split; intros [r Hr]; exists r; congruence.
    + split; [discriminate | intros [r Hr]; congruence].
Qed.

(** [sep] occurs in [s] at byte offset [i]. *)
Definition occursAt (sep s : string) (i : nat) : Prop :=
  exists a b, s = a ++ sep ++ b /\ String.length a = i.

Lemma occursAt_0 (sep s : string) : occursAt sep s 0 <-> prefix sep s = true.
Proof.
  rewrite prefix_iff. split.
  - intros (a & b & E & L). destruct a; [|discriminate]. exists b; exact E.
  - intros [r E]. exists "", r. split; [exact E | reflexivity].
Qed.

Lemma occursAt_S (sep : string) (c : ascii) (s : string) (i : nat) :
  occursAt sep (String c s) (S i) <-> occursAt sep s i.
Proof.
  split; intros (a & b & E & L).
  - destruct a as [|x a]; [discriminate|]. simpl in E, L.
    exists a, b. split; [congruence | lia].
  - exists (String c a), b. simpl. split; [congruence | lia].
Qed.

Lemma Index_cons (c : ascii) (s sep : string) :
  Index (String c s) sep =
  if prefix sep (String c s) then Some 0 else option_map S (Index s sep).
Proof. reflexivity. Qed.

(** [bytes.Index] returns the first occurrence, or nothing when there is
    none. *)
Lemma Index_Some (s sep : string) (i : nat) :
  Index s sep = Some i ->
  occursAt sep s i /\ forall j, j < i -> ~ occursAt sep s j.
Proof.
  revert i; induction s as [|c s IH]; intros i.
  - destruct sep; simpl.
    + intros E; injection E as <-. split; [apply occursAt_0; reflexivity | lia].
    + discriminate.
  - rewrite Index_cons. destruct (prefix sep (String c s)) eqn:P.
    + intros E; injection E as <-. split; [apply occursAt_0; exact P | lia].
    + destruct (Index s sep) as [k|]; simpl; [|discriminate].
      intros E; injection E as <-. destruct (IH k eq_refl) as [Ho Hf].
      split; [apply occursAt_S; exact Ho|].
      intros [|j] Hj.
      * rewrite occursAt_0, P. discriminate.
      * rewrite occursAt_S. apply Hf. lia.
Qed.

Lemma Index_None (s sep : string) :
  Index s sep = None -> forall j, ~ occursAt sep s j.
Proof.
  induction s as [|c s IH].
  - destruct sep; simpl; [discriminate|].
    intros _ j (x & y & E & _). destruct x; discriminate.
  - rewrite Index_cons. destruct (prefix sep (String c s)) eqn:P; [discriminate|].
    destruct (Index s sep) as [k|]; simpl; [discriminate|].
    intros _ [|j].
    + rewrite occursAt_0, P. discriminate.
    + rewrite occursAt_S. now apply IH.
Qed.

(** The bytes of a string, for membership. *)
Definition bytesOf (s : string) : list ascii := list_ascii_of_string s.

Lemma IndexByte_Some (s : string) (c : ascii) (e : nat) :
  IndexByte s c = Some e ->
  s = stake e s ++ String c (sdrop (S e) s)
  /\ e < String.length s /\ ~ In c (bytesOf (stake e s)).
Proof.
  revert e; induction s as [|a s IH]; intros e; simpl; [discriminate|].
  destruct (Ascii.eqb_spec a c) as [->|Hac].
  - intros E; injection E as <-. simpl. repeat split; [lia | tauto].
  - destruct (IndexByte s c) as [k|]; simpl; [|discriminate].
    intros E; injection E as <-. destruct (IH k eq_refl) as (E1 & L & N).
    simpl. repeat split.
    + f_equal. exact E1.
    + lia.
    + intros [H|H]; [congruence | exact (N H)].
Qed.

Lemma IndexByte_None (s : string) (c : ascii) :
  IndexByte s c = None -> ~ In c (bytesOf s).
Proof.
  induction s as [|a s IH]; simpl; [tauto|].
  destruct (Ascii.eqb_spec a c) as [->|Hac]; [discriminate|].
  destruct (IndexByte s c); simpl; [discriminate|].
  intros _ [H|H]; [congruence | exact (IH eq_refl H)].
Qed.

End StringFacts.

(** ** FEN extraction (build pipeline and read path) *)

Module ExtractFacts.
Import GoRt StringFacts.
Local Open Scope string_scope.

(** The specification's account of extraction.  [fenFieldOf line fen]:
    [fen] is the run of bytes between the first occurrence of the prefix
    and the next double quote. *)
Definition fenFieldOf (line fen : string) : Prop :=
  exists pre post,
    line = pre ++ search.fenPrefix ++ fen ++ String dq post
    /\ (forall j, j < String.length pre -> ~ occursAt search.fenPrefix line j)
    /\ ~ In dq (bytesOf fen).

(** The prefix does not occur in the line. *)
Definition prefixAbsent (line : string) : Prop :=
  forall j, ~ occursAt search.fenPrefix line j.

(** The prefix occurs, and no double quote follows its first occurrence. *)
Definition quoteAbsent (line : string) : Prop :=
  exists pre rest,
    line = pre ++ search.fenPrefix ++ rest
    /\ (forall j, j < String.length pre -> ~ occursAt search.fenPrefix line j)
    /\ ~ In dq (bytesOf rest).

(** What extraction yields for a line, in the specification's words. *)
Definition extractSpec (line r : string) : Prop :=
  fenFieldOf line r \/ ((prefixAbsent line \/ quoteAbsent line) /\ r = "").

Lemma bytesOf_app (a b : string) : bytesOf (a ++ b) = (bytesOf a ++ bytesOf b)%list.
Proof. induction a as [|x a IH]; simpl; [reflexivity | now rewrite IH]. Qed.

(** Two ways of cutting a line at the first occurrence of a separator
    agree. *)
Lemma first_cut_unique (sep line p1 r1 p2 r2 : string) :
  line = p1 ++ sep ++ r1 ->
  (forall j, j < String.length p1 -> ~ occursAt sep line j) ->
  line = p2 ++ sep ++ r2 ->
  (forall j, j < String.length p2 -> ~ occursAt sep line j) ->
  p1 = p2 /\ r1 = r2.
Proof.
  intros E1 F1 E2 F2.
  assert (L : String.length p1 = String.length p2).
  { destruct (Nat.lt_trichotomy (String.length p1) (String.length p2)) as [H|[H|H]];
      [exfalso | exact H | exfalso].
    - apply (F2 _ H). now exists p1, r1.
    - apply (F1 _ H). now exists p2, r2. }
  assert (P : p1 = p2).
  { rewrite <- (stake_app p1 (sep ++ r1)), <- E1, L, E2. apply stake_app. }
  split; [exact P|]. subst p2. rewrite E1 in E2.
  apply sapp_inv_head in E2. now apply sapp_inv_head in E2.
Qed.

(** A string is cut in one way only at its first double quote. *)
Lemma quote_cut_unique (f1 f2 q1 q2 : string) :
  f1 ++ String dq q1 = f2 ++ String dq q2 ->
  ~ In dq (bytesOf f1) -> ~ In dq (bytesOf f2) -> f1 = f2.
Proof.
  revert f2; induction f1 as [|x f1 IH]; intros [|y f2]; simpl; intros E N1 N2.
  - reflexivity.
  - injection E as E _. exfalso. apply N2. now left.
  - injection E as E _. exfalso. apply N1. now left.
  - injection E as -> E. f_equal. apply IH; tauto.
Qed.

(** The specification's account determines one result. *)
Lemma extractSpec_functional (line r1 r2 : string) :
  extractSpec line r1 -> extractSpec line r2 -> r1 = r2.
Proof.
  assert (FA : forall r, fenFieldOf line r -> prefixAbsent line -> False).
  { intros r (pre & post & E & _ & _) A.
    apply (A (String.length pre)). now exists pre, (r ++ String dq post). }
  assert (FQ : forall r, fenFieldOf line r -> quoteAbsent line -> False).
  { intros r (pre & post & E & F & _) (pre' & rest & E' & F' & N).
    destruct (first_cut_unique _ _ _ _ _ _ E F E' F') as [_ R].
    apply N. rewrite <- R, bytesOf_app. apply in_or_app. right. now left. }
  intros [H1|[[A1|Q1] ->]] [H2|[[A2|Q2] ->]]; try reflexivity;
    try (exfalso; eauto; fail).
  destruct H1 as (p1 & q1 & E1 & F1 & N1), H2 as (p2 & q2 & E2 & F2 & N2).
  destruct (first_cut_unique _ _ _ _ _ _ E1 F1 E2 F2) as [_ R].
  exact (quote_cut_unique _ _ _ _ R N1 N2).
Qed.

(** The read path's [extractFEN] meets the specification's account. *)
Lemma extractFEN_meets_spec (line : string) :
  extractSpec line (search.extractFEN line).
Proof.
  unfold extractSpec, search.extractFEN.
  destruct (Index line search.fenPrefix) as [idx|] eqn:EI.
  - destruct (Index_Some _ _ _ EI) as [(a & b & E & L) F]. subst idx.
    assert (D : sdrop (String.length a + String.length search.fenPrefix) line = b).
    { rewrite sdrop_add, E, sdrop_app. apply sdrop_app. }
    rewrite D.
    destruct (IndexByte b dq) as [e|] eqn:EB.
    + left. destruct (IndexByte_Some _ _ _ EB) as (Eb & _ & N).
      exists a, (sdrop (S e) b). unfold slice. rewrite D.
      replace (String.length a + String.length search.fenPrefix + e
               - (String.length a + String.length search.fenPrefix)) with e by lia.
      repeat split; [|exact F|exact N]. now rewrite <- Eb.
    + right. split; [|reflexivity]. right.
      exists a, b. repeat split; [exact E|exact F|now apply IndexByte_None].
  - right. split; [|reflexivity]. left. exact (Index_None _ _ EI).
Qed.

(** C9.  The builder's [extractFEN] and the search package's
    [extractFEN] are the same function: they agree on every byte line, and
    the common result is the one the specification describes, namely the
    bytes between the first occurrence of the seven-byte prefix and the
    next double quote, and the empty string when the prefix or the closing
    quote is absent. *)
Theorem extractFEN_builder_eq_search (line : string) :
  builder.extractFEN line = search.extractFEN line
  /\ forall r, extractSpec line r <-> r = search.extractFEN line.
Proof.
  split; [reflexivity|]. intros r. split.
  - intros Hr. exact (extractSpec_functional _ _ _ Hr (extractFEN_meets_spec line)).
  - intros ->. apply extractFEN_meets_spec.
Qed.

End ExtractFacts.

(** ** Binary search within a shard *)

Module SearchFacts.
Import GoRt StringFacts.
Local Open Scope string_scope.

(** *** The byte-wise order on strings *)

Lemma strLe_trans (a b c : string) :
  strLe a b = true -> strLe b c = true -> strLe a c = true.
Proof.
  unfold strLe, String.leb.
  revert b c; induction a as [|x a IH]; intros [|y b] [|z c]; simpl; auto;
    try discriminate.
  unfold Ascii.compare.
  destruct (N.compare_spec (N_of_ascii x) (N_of_ascii y)) as [Exy|Lxy|Gxy];
    destruct (N.compare_spec (N_of_ascii y) (N_of_ascii z)) as [Eyz|Lyz|Gyz];
    try discriminate;
    destruct (N.compare_spec (N_of_ascii x) (N_of_ascii z)) as [Exz|Lxz|Gxz];
    auto; try (exfalso; lia).
  apply IH.
Qed.

Lemma strLe_refl (a : string) : strLe a a = true.
Proof.
  unfold strLe, String.leb.
  replace (String.compare a a) with Eq; [reflexivity|].
  induction a as [|x a IH]; simpl; [reflexivity|].
  unfold Ascii.compare. now rewrite N.compare_refl.
Qed.

(** *** [sort.Search] *)

Lemma searchLoop_unfold (f : nat -> bool) (i j : nat) :
  searchLoop f i j =
  if lt_dec i j
  then (if f ((i + j) / 2) then searchLoop f i ((i + j) / 2)
        else searchLoop f ((i + j) / 2 + 1) j)
  else i.
Proof.
  rewrite searchLoop_equation_1 at 1. destruct (lt_dec i j); reflexivity.
Qed.

Section Monotone.

Variable f : nat -> bool.
Variable n : nat.
Hypothesis f_mono : forall i j, i <= j -> j < n -> f i = true -> f j = true.

(** The loop keeps [f] false below [i] and true from [j] on, and ends at
    the boundary between the two. *)
Lemma searchLoop_boundary (d i j : nat) :
  j - i <= d -> i <= j -> j <= n ->
  (forall k, k < i -> f k = false) ->
  (forall k, j <= k -> k < n -> f k = true) ->
  let r := searchLoop f i j in
  i <= r /\ r <= j
  /\ (forall k, k < r -> f k = false)
  /\ (forall k, r <= k -> k < n -> f k = true).
Proof.
  revert i j; induction d as [|d IH]; intros i j Hd Hij Hjn Hlo Hhi;
    rewrite searchLoop_unfold; destruct (lt_dec i j) as [Hlt|Hge];
    cbv beta iota zeta; try lia.
  - assert (j = i) by lia; subst j. repeat split; auto.
  - assert (Hh : i <= (i + j) / 2 < j)
      by (split; [apply Nat.div_le_lower_bound
                 | apply Nat.Div0.div_lt_upper_bound]; lia).
    set (h := (i + j) / 2) in *.
    destruct (f h) eqn:Fh.
    + destruct (IH i h) as (A & B & C & D); try lia; auto.
      { intros k Hk Hkn. apply (f_mono h k); auto. }
      repeat split; auto; lia.
    + destruct (IH (h + 1) j) as (A & B & C & D); try lia; auto.
      { intros k Hk. destruct (f k) eqn:Fk; [|reflexivity].
        rewrite (f_mono k h) in Fh; [discriminate|lia|lia|exact Fk]. }
      repeat split; auto; lia.
  - assert (j = i) by lia; subst j. repeat split; auto.
Qed.

Lemma sortSearch_boundary :
  let r := sortSearch n f in
  r <= n /\ (forall k, k < r -> f k = false)
  /\ (forall k, r <= k -> k < n -> f k = true).
Proof.
  unfold sortSearch.
  destruct (searchLoop_boundary n 0 n) as (_ & B & C & D); try lia.
  repeat split; auto.
Qed.

End Monotone.

End SearchFacts.

Module SearchSpec.
Import GoRt StringFacts SearchFacts.
Local Open Scope string_scope.

(** *** The specification's account of the search *)

(** Step 1: split on the line feed and drop the empty lines. *)
Definition nonEmptyLines (data : string) : list string :=
  filter (fun l => negb (String.eqb l "")) (SplitByte data lf).

(** The lines are sorted ascending, byte-wise, by extracted fingerprint. *)
Definition fenLe (a b : string) : Prop :=
  strLe (search.extractFEN a) (search.extractFEN b) = true.

Definition sortedByFEN (lines : list string) : Prop := Sorted fenLe lines.

(** Step 2: the smallest index whose extracted fingerprint is at least
    the target (the number of lines when there is none). *)
Definition fenGE (target line : string) : bool :=
  strLe target (search.extractFEN line).

Fixpoint firstGE (lines : list string) (target : string) : nat :=
  match lines with
  | [] => 0
  | l :: ls => if fenGE target l then 0 else S (firstGE ls target)
  end.

Section WithJSON.

Variable json_Unmarshal : string -> result search.EvalRecord.

(** Step 4: the matched line is parsed in full. *)
Definition decodeMatched (line : string) : result search.EvalRecord :=
  match json_Unmarshal line with
  | Err e => Err (errWrap "parsing eval record" e)
  | Ok record => Ok record
  end.

(** Steps 2 to 4 on the lines of step 1. *)
Definition SearchSpec (data target : string) : result search.EvalRecord :=
  let lines := nonEmptyLines data in
  match nth_error lines (firstGE lines target) with
  | None => Err search.ErrNotFound
  | Some line =>
      if String.eqb (search.extractFEN line) target
      then decodeMatched line
      else Err search.ErrNotFound
  end.

End WithJSON.

(** *** [splitLines] computes step 1 *)

Lemma SplitByte_None (s : string) (c : ascii) :
  IndexByte s c = None -> SplitByte s c = [s].
Proof.
  induction s as [|a s IH]; simpl; [reflexivity|].
  destruct (Ascii.eqb a c); [discriminate|].
  destruct (IndexByte s c); simpl; [discriminate|].
  intros _. now rewrite IH.
Qed.

Lemma SplitByte_Some (s : string) (c : ascii) (i : nat) :
  IndexByte s c = Some i ->
  SplitByte s c = stake i s :: SplitByte (sdrop (S i) s) c.
Proof.
  revert i; induction s as [|a s IH]; intros i; simpl; [discriminate|].
  destruct (Ascii.eqb a c) eqn:Eac.
  - intros E; injection E as <-. simpl.
    destruct (SplitByte s c) as [|f fs] eqn:Es; [|reflexivity].
    exfalso. clear -Es. induction s as [|b s IHs]; simpl in Es; [discriminate|].
    destruct (SplitByte s c); [auto|]. destruct (Ascii.eqb b c); discriminate.
  - destruct (IndexByte s c) as [k|]; simpl; [|discriminate].
    intros E; injection E as <-. rewrite (IH k eq_refl). reflexivity.
Qed.

Lemma appendNonEmpty_filter (line : string) :
  search.appendNonEmpty line
  = filter (fun l => negb (String.eqb l "")) [line].
Proof. destruct line; reflexivity. Qed.

Lemma splitLines_nonEmptyLines (data : string) :
  search.splitLines data = nonEmptyLines data.
Proof.
  unfold nonEmptyLines.
  remember (String.length data) as m eqn:Hm.
  revert data Hm; induction m as [m IH] using lt_wf_ind; intros data Hm.
  destruct data as [|c s].
  - now rewrite search.splitLines_equation_1.
  - rewrite search.splitLines_equation_2.
    unfold search.splitLines_unfold_clause_2.
    destruct (IndexByte (String c s) lf) as [i|] eqn:Ei.
    + rewrite (SplitByte_Some _ _ _ Ei), appendNonEmpty_filter.
      rewrite Nat.add_1_r.
      rewrite (IH (String.length (sdrop (S i) (String c s)))
                 ltac:(subst m; simpl; pose proof (sdrop_length_le i s); lia)
                 _ eq_refl).
      rewrite <- filter_app. reflexivity.
    + rewrite (SplitByte_None _ _ Ei). apply appendNonEmpty_filter.
Qed.

(** *** The binary search finds the index of step 2 *)

Lemma firstGE_unique (lines : list string) (target : string) (r : nat) :
  r <= List.length lines ->
  (forall k, k < r -> fenGE target (nth k lines "") = false) ->
  (forall k, r <= k -> k < List.length lines ->
             fenGE target (nth k lines "") = true) ->
  r = firstGE lines target.
Proof.
  revert r; induction lines as [|l ls IH]; intros r Hr Hlo Hhi; simpl in *.
  - lia.
  - destruct (fenGE target l) eqn:Fl.
    + destruct r as [|r]; [reflexivity|].
      specialize (Hlo 0 ltac:(lia)). simpl in Hlo. congruence.
    + destruct r as [|r].
      * specialize (Hhi 0 ltac:(lia) ltac:(lia)). simpl in Hhi. congruence.
      * f_equal. apply IH; [lia| |].
        -- intros k Hk. apply (Hlo (S k)). lia.
        -- intros k Hk Hkn. apply (Hhi (S k)); lia.
Qed.

Lemma fenLe_trans (a b c : string) : fenLe a b -> fenLe b c -> fenLe a c.
Proof. unfold fenLe. apply strLe_trans. Qed.

Lemma sorted_nth_le (lines : list string) (i j : nat) :
  sortedByFEN lines -> i <= j -> j < List.length lines ->
  fenLe (nth i lines "") (nth j lines "").
Proof.
  intros Hs. apply Sorted_StronglySorted in Hs;
    [|intros a b c; apply fenLe_trans].
  revert i j; induction Hs as [|l ls Hss IH Hall]; intros i j Hij Hj; simpl in *.
  - lia.
  - destruct i as [|i], j as [|j]; try lia.
    + apply strLe_refl.
    + rewrite Forall_forall in Hall. apply Hall, nth_In. lia.
    + apply IH; lia.
Qed.

(** C1.  For shard data whose non-empty lines are sorted ascending by
    extracted fingerprint, and any target: [Search] drops the empty lines,
    finds by binary search the smallest index whose extracted fingerprint
    is at least the target, returns [ErrNotFound] when that index is past
    the end or the fingerprint there differs from the target, and
    otherwise parses that one line and returns what the parser returns. *)
Theorem Search_meets_spec
    (json_Unmarshal : string -> result search.EvalRecord)
    (data target : string) :
  sortedByFEN (nonEmptyLines data) ->
  search.Search json_Unmarshal data target
  = SearchSpec json_Unmarshal data target.
Proof.
  intros Hs. unfold search.Search, SearchSpec, decodeMatched.
  rewrite splitLines_nonEmptyLines.
  set (lines := nonEmptyLines data) in *.
  set (f := fun i => strLe target (search.extractFEN (nth i lines ""))).
  assert (Hmono : forall i j, i <= j -> j < List.length lines ->
                              f i = true -> f j = true).
  { intros i j Hij Hj Hi. unfold f in *.
    exact (strLe_trans _ _ _ Hi (sorted_nth_le lines i j Hs Hij Hj)). }
  destruct (sortSearch_boundary f (List.length lines) Hmono) as (B & C & D).
  assert (E : sortSearch (List.length lines) f = firstGE lines target)
    by (apply firstGE_unique; assumption).
  rewrite E in *. clear E.
  destruct (Nat.eqb_spec (List.length lines) 0) as [H0|H0].
  - destruct lines; [reflexivity | discriminate].
  - destruct (Nat.leb_spec (List.length lines) (firstGE lines target)) as [Hge|Hlt].
    + apply nth_error_None in Hge. now rewrite Hge.
    + rewrite (nth_error_nth' lines "" Hlt).
      destruct (String.eqb _ target); reflexivity.
Qed.

(** A two-record shard with a blank line, and a parser that reads the
    fingerprint only. *)
Definition sampleLine (fen : string) : string :=
  "{" ++ search.fenPrefix ++ fen ++ String dq "}".

Definition sampleShard : string :=
  sampleLine "8/8/8/8/8/8/8/8 b - -" ++ String lf (String lf
    (sampleLine "8/8/8/8/8/8/8/8 w - -" ++ String lf "")).

Definition sampleJSON (line : string) : result search.EvalRecord :=
  Ok (search.mkEvalRecord (search.extractFEN line) []).

Lemma Search_meets_spec_witness :
  sortedByFEN (nonEmptyLines sampleShard)
  /\ search.Search sampleJSON sampleShard "8/8/8/8/8/8/8/8 w - -"
     = Ok (search.mkEvalRecord "8/8/8/8/8/8/8/8 w - -" []).
Proof.
  assert (Hs : sortedByFEN (nonEmptyLines sampleShard)).
  { unfold sortedByFEN. cbv [nonEmptyLines sampleShard].
    repeat (constructor; try reflexivity). }
  split; [exact Hs|].
  rewrite (Search_meets_spec sampleJSON sampleShard "8/8/8/8/8/8/8/8 w - -" Hs).
  reflexivity.
Defined.

End SearchSpec.

(** ** Sharding strategies *)

Module ShardSpec.
Import GoRt.
Local Open Scope Z_scope.

(** *** The specification's key and hash *)

Definition min7 (x : Z) : Z := Z.min x 7.

(** The 19-bit key of the material strategy: each field is multiplied by
    two to the power of the lowest bit of its place in the layout. *)
Definition materialKey (m : fen.Material) (blackToMove : bool) : Z :=
  min7 (fen.WhiteQueens m)
  + 2 ^ 3 * min7 (fen.BlackQueens m)
  + 2 ^ 6 * min7 (fen.WhiteRooks m)
  + 2 ^ 9 * min7 (fen.BlackRooks m)
  + 2 ^ 12 * min7 (fen.WhiteBishops m + fen.WhiteKnights m)
  + 2 ^ 15 * min7 (fen.BlackBishops m + fen.BlackKnights m)
  + 2 ^ 18 * (if blackToMove then 1 else 0).

(** The bits [lo .. lo + width - 1] of [k]. *)
Definition bitField (lo width k : Z) : Z := (k / 2 ^ lo) mod 2 ^ width.

(** The side-to-move bit is 1 exactly when the second whitespace-separated
    token is "b". *)
Definition blackToMove (s : string) : bool :=
  match Fields s with
  | _ :: side :: _ => String.eqb side "b"
  | _ => false
  end.

(** 32-bit FNV-1a: offset basis 0x811C9DC5, prime 0x01000193. *)
Definition fnv1a (s : string) : Z :=
  fold_left (fun h c => (Z.lxor h (byteVal c) * 16777619) mod 2 ^ 32)
            (list_ascii_of_string s) 2166136261.

(** The counts of a material are never negative. *)
Definition nonNegative (m : fen.Material) : Prop :=
  0 <= fen.WhitePawns m /\ 0 <= fen.WhiteKnights m /\ 0 <= fen.WhiteBishops m
  /\ 0 <= fen.WhiteRooks m /\ 0 <= fen.WhiteQueens m
  /\ 0 <= fen.BlackPawns m /\ 0 <= fen.BlackKnights m /\ 0 <= fen.BlackBishops m
  /\ 0 <= fen.BlackRooks m /\ 0 <= fen.BlackQueens m.

(** *** Bit operations on small fields *)

Lemma land_shiftl_low (a b k : Z) :
  0 <= k -> 0 <= a < 2 ^ k -> Z.land a (Z.shiftl b k) = 0.
Proof.
  intros Hk Ha. apply Z.bits_inj'. intros n Hn.
  rewrite Z.land_spec, Z.bits_0.
  destruct (Z.lt_ge_cases n k) as [Hlt|Hge].
  - rewrite (Z.shiftl_spec_low b k n Hlt). apply andb_false_r.
  - destruct (Z.eq_dec a 0) as [->|Hnz]; [now rewrite Z.bits_0|].
    rewrite (Z.bits_above_log2 a n); [reflexivity | lia |].
    apply Z.lt_le_trans with k; [|exact Hge].
    apply Z.log2_lt_pow2; lia.
Qed.

Lemma lor_shiftl_add (a b k : Z) :
  0 <= k -> 0 <= a < 2 ^ k -> Z.lor a (Z.shiftl b k) = a + 2 ^ k * b.
Proof.
  intros Hk Ha.
  rewrite <- Z.lxor_lor by (apply land_shiftl_low; assumption).
  rewrite <- Z.add_nocarry_lxor by (apply land_shiftl_low; assumption).
  rewrite Z.shiftl_mul_pow2 by assumption. lia.
Qed.

Lemma min_is_min7 (x : Z) : materialshard.min x 7 = min7 x.
Proof.
  unfold materialshard.min, min7. destruct (Z.ltb_spec x 7); lia.
Qed.

Lemma min7_range (x : Z) : 0 <= x -> 0 <= min7 x <= 7.
Proof. unfold min7. lia. Qed.

(** A field placed by [id |= uint32(f) << k] adds [2^k * f] to a key that
    lies below bit [k]. *)
Lemma place_field (id f k : Z) :
  0 <= k <= 18 -> 0 <= id < 2 ^ k -> 0 <= f <= 7 ->
  Z.lor id (shl32 (u32 f) k) = id + 2 ^ k * f.
Proof.
  intros Hk Hid Hf. unfold shl32, u32.
  rewrite (Z.mod_small f) by lia.
  rewrite Z.shiftl_mul_pow2 by lia.
  assert (Hp : 0 < 2 ^ k <= 2 ^ 18)
    by (split; [apply Z.pow_pos_nonneg | apply Z.pow_le_mono_r]; lia).
  rewrite Z.mod_small by (change (2 ^ 18) with 262144 in Hp; nia).
  rewrite <- Z.shiftl_mul_pow2 by lia.
  apply lor_shiftl_add; lia.
Qed.

(** *** Parsing *)

Lemma countRune_nonNegative (ch : Z) (m m' : fen.Material) :
  nonNegative m -> fen.countRune ch m = Some m' -> nonNegative m'.
Proof.
  destruct m as [wp wn wb wr wq bp bn bb br bq].
  unfold nonNegative, fen.countRune; simpl. intros H.
  repeat match goal with
         | |- context [if ?b then _ else _] => destruct b
         end;
    intros E; inversion E; subst; simpl; lia.
Qed.

Lemma countMaterial_nonNegative (p : string) (m m' : fen.Material) :
  nonNegative m -> fen.countMaterial p m = Ok m' -> nonNegative m'.
Proof.
  revert m; induction p as [|c p IH]; intros m Hm; simpl.
  - intros E; inversion E; subst; exact Hm.
  - destruct (fen.countRune (runeAt (String c p)) m) as [m1|] eqn:E1;
      [|discriminate].
    apply IH. exact (countRune_nonNegative _ _ _ Hm E1).
Qed.

Lemma ParseMaterial_nonNegative (s : string) (m : fen.Material) :
  fen.ParseMaterial s = Ok m -> nonNegative m.
Proof.
  unfold fen.ParseMaterial. destruct (Fields s) as [|p rest]; [discriminate|].
  apply countMaterial_nonNegative. unfold nonNegative; simpl; lia.
Qed.

(** The side the strategy reads is "b" exactly for a second token "b". *)
Lemma side_is_black (s : string) :
  String.eqb (match fen.SideToMove s with
              | Ok side => side
              | Err _ => ""%string
              end) "b"
  = blackToMove s.
Proof.
  unfold fen.SideToMove, blackToMove.
  destruct (Fields s) as [|p [|side rest]]; try reflexivity.
  destruct (String.eqb_spec side "b") as [->|Hb]; [reflexivity|].
  destruct (String.eqb side "w"); simpl; [|reflexivity].
  now apply String.eqb_neq.
Qed.

(** *** The hash *)

Lemma hashLoop_fold (s : string) (h : Z) :
  materialshard.hashLoop s h
  = fold_left (fun h c => (Z.lxor h (byteVal c) * 16777619) mod 2 ^ 32)
              (list_ascii_of_string s) h.
Proof. revert h; induction s as [|c s IH]; intros h; simpl; [reflexivity | apply IH]. Qed.

Lemma fnvLoop_fold (s : string) (h : Z) :
  fnvshard.fnvLoop s h
  = fold_left (fun h c => (Z.lxor h (byteVal c) * 16777619) mod 2 ^ 32)
              (list_ascii_of_string s) h.
Proof. revert h; induction s as [|c s IH]; intros h; simpl; [reflexivity | apply IH]. Qed.

(** *** The key the code computes *)

Lemma ShardID_key (s : string) (N : Z) (m : fen.Material) :
  fen.ParseMaterial s = Ok m ->
  materialshard.ShardID s N = umod (materialKey m (blackToMove s)) (u32 N).
Proof.
  intros Hp. pose proof (ParseMaterial_nonNegative _ _ Hp) as Hn.
  unfold materialshard.ShardID. rewrite Hp, side_is_black.
  cbv zeta. f_equal. unfold materialKey.
  destruct Hn as (_ & Hwn & Hwb & Hwr & Hwq & _ & Hbn & Hbb & Hbr & Hbq).
  rewrite !min_is_min7.
  pose proof (min7_range _ Hwq) as R0.
  pose proof (min7_range _ Hbq) as R1.
  pose proof (min7_range _ Hwr) as R2.
  pose proof (min7_range _ Hbr) as R3.
  pose proof (min7_range (fen.WhiteBishops m + fen.WhiteKnights m) ltac:(lia)) as R4.
  pose proof (min7_range (fen.BlackBishops m + fen.BlackKnights m) ltac:(lia)) as R5.
  set (f0 := min7 (fen.WhiteQueens m)) in *.
  set (f1 := min7 (fen.BlackQueens m)) in *.
  set (f2 := min7 (fen.WhiteRooks m)) in *.
  set (f3 := min7 (fen.BlackRooks m)) in *.
  set (f4 := min7 (fen.WhiteBishops m + fen.WhiteKnights m)) in *.
  set (f5 := min7 (fen.BlackBishops m + fen.BlackKnights m)) in *.
  rewrite (place_field 0 f0 0) by lia.
  rewrite (place_field _ f1 3) by (change (2 ^ 0) with 1; change (2 ^ 3) with 8; lia).
  rewrite (place_field _ f2 6)
    by (change (2 ^ 0) with 1; change (2 ^ 3) with 8; change (2 ^ 6) with 64; lia).
  rewrite (place_field _ f3 9)
    by (change (2 ^ 0) with 1; change (2 ^ 3) with 8; change (2 ^ 6) with 64;
        change (2 ^ 9) with 512; lia).
  rewrite (place_field _ f4 12)
    by (change (2 ^ 0) with 1; change (2 ^ 3) with 8; change (2 ^ 6) with 64;
        change (2 ^ 9) with 512; change (2 ^ 12) with 4096; lia).
  rewrite (place_field _ f5 15)
    by (change (2 ^ 0) with 1; change (2 ^ 3) with 8; change (2 ^ 6) with 64;
        change (2 ^ 9) with 512; change (2 ^ 12) with 4096;
        change (2 ^ 15) with 32768; lia).
  change (2 ^ 0) with 1; change (2 ^ 3) with 8; change (2 ^ 6) with 64;
    change (2 ^ 9) with 512; change (2 ^ 12) with 4096;
    change (2 ^ 15) with 32768; change (2 ^ 18) with 262144.
  destruct (blackToMove s).
  - change (shl32 1 18) with (shl32 (u32 1) 18).
    rewrite (place_field _ 1 18)
      by (change (2 ^ 18) with 262144; lia).
    change (2 ^ 18) with 262144. lia.
  - lia.
Qed.

(** *** The layout of the key *)

(** [packs m black K]: [K] is a 19-bit number holding the six clamped
    counts and the side-to-move bit at the places of the layout table. *)
Definition packs (m : fen.Material) (black : bool) (K : Z) : Prop :=
  0 <= K < 2 ^ 19
  /\ bitField 0 3 K = min7 (fen.WhiteQueens m)
  /\ bitField 3 3 K = min7 (fen.BlackQueens m)
  /\ bitField 6 3 K = min7 (fen.WhiteRooks m)
  /\ bitField 9 3 K = min7 (fen.BlackRooks m)
  /\ bitField 12 3 K = min7 (fen.WhiteBishops m + fen.WhiteKnights m)
  /\ bitField 15 3 K = min7 (fen.BlackBishops m + fen.BlackKnights m)
  /\ bitField 18 1 K = (if black then 1 else 0).

Ltac pow2_consts :=
  change (2 ^ 0) with 1 in *; change (2 ^ 1) with 2 in *;
  change (2 ^ 3) with 8 in *; change (2 ^ 6) with 64 in *;
  change (2 ^ 9) with 512 in *; change (2 ^ 12) with 4096 in *;
  change (2 ^ 15) with 32768 in *; change (2 ^ 18) with 262144 in *;
  change (2 ^ 19) with 524288 in *.

Lemma packs_unique (m : fen.Material) (black : bool) (K : Z) :
  packs m black K -> K = materialKey m black.
Proof.
  unfold packs, bitField, materialKey.
  intros (HK & <- & <- & <- & <- & <- & <- & Hs).
  replace (if black then 1 else 0) with ((K / 2 ^ 18) mod 2 ^ 1)
    by (rewrite Hs; reflexivity).
  clear Hs. pow2_consts. Z.div_mod_to_equations. lia.
Qed.

Lemma materialKey_packs (m : fen.Material) (black : bool) :
  nonNegative m -> packs m black (materialKey m black).
Proof.
  intros (_ & Hwn & Hwb & Hwr & Hwq & _ & Hbn & Hbb & Hbr & Hbq).
  unfold packs, bitField, materialKey.
  pose proof (min7_range _ Hwq) as R0.
  pose proof (min7_range _ Hbq) as R1.
  pose proof (min7_range _ Hwr) as R2.
  pose proof (min7_range _ Hbr) as R3.
  pose proof (min7_range (fen.WhiteBishops m + fen.WhiteKnights m) ltac:(lia)) as R4.
  pose proof (min7_range (fen.BlackBishops m + fen.BlackKnights m) ltac:(lia)) as R5.
  set (f0 := min7 (fen.WhiteQueens m)) in *.
  set (f1 := min7 (fen.BlackQueens m)) in *.
  set (f2 := min7 (fen.WhiteRooks m)) in *.
  set (f3 := min7 (fen.BlackRooks m)) in *.
  set (f4 := min7 (fen.WhiteBishops m + fen.WhiteKnights m)) in *.
  set (f5 := min7 (fen.BlackBishops m + fen.BlackKnights m)) in *.
  assert (Hb : 0 <= (if black then 1 else 0) <= 1) by (destruct black; lia).
  set (f6 := if black then 1 else 0) in *.
  pow2_consts. repeat split; try lia; Z.div_mod_to_equations; lia.
Qed.

(** *** Placement tokens *)

(** The bytes a placement token may hold: piece letters, the digits 1 to
    8 and the slash. *)
Definition placementByte (c : ascii) : bool :=
  existsb (Ascii.eqb c) (list_ascii_of_string "PNBRQKpnbrqk12345678/").

Definition placementToken (tok : string) : Prop :=
  forallb placementByte (list_ascii_of_string tok) = true.

(** The number of occurrences of a byte in a token. *)
Definition countOf (c : ascii) (tok : string) : Z :=
  Z.of_nat (List.length (filter (Ascii.eqb c) (list_ascii_of_string tok))).

(** The material of a placement token: one count per piece letter. *)
Definition materialOf (tok : string) : fen.Material :=
  fen.mkMaterial (countOf "P" tok) (countOf "N" tok) (countOf "B" tok)
    (countOf "R" tok) (countOf "Q" tok) (countOf "p" tok) (countOf "n" tok)
    (countOf "b" tok) (countOf "r" tok) (countOf "q" tok).

Definition addMaterial (a b : fen.Material) : fen.Material :=
  fen.mkMaterial
    (fen.WhitePawns a + fen.WhitePawns b) (fen.WhiteKnights a + fen.WhiteKnights b)
    (fen.WhiteBishops a + fen.WhiteBishops b) (fen.WhiteRooks a + fen.WhiteRooks b)
    (fen.WhiteQueens a + fen.WhiteQueens b) (fen.BlackPawns a + fen.BlackPawns b)
    (fen.BlackKnights a + fen.BlackKnights b) (fen.BlackBishops a + fen.BlackBishops b)
    (fen.BlackRooks a + fen.BlackRooks b) (fen.BlackQueens a + fen.BlackQueens b).

Lemma material_eq (a0 a1 a2 a3 a4 a5 a6 a7 a8 a9 b0 b1 b2 b3 b4 b5 b6 b7 b8 b9 : Z) :
  a0 = b0 -> a1 = b1 -> a2 = b2 -> a3 = b3 -> a4 = b4 ->
  a5 = b5 -> a6 = b6 -> a7 = b7 -> a8 = b8 -> a9 = b9 ->
  fen.mkMaterial a0 a1 a2 a3 a4 a5 a6 a7 a8 a9
  = fen.mkMaterial b0 b1 b2 b3 b4 b5 b6 b7 b8 b9.
Proof. intros; subst; reflexivity. Qed.

Lemma countMaterial_token (tok : string) (m : fen.Material) :
  placementToken tok ->
  fen.countMaterial tok m = Ok (addMaterial m (materialOf tok)).
Proof.
  unfold placementToken.
  revert m; induction tok as [|c tok IH]; intros m Hv.
  - destruct m. simpl. f_equal. unfold addMaterial, materialOf, countOf; simpl.
    apply material_eq; lia.
  - simpl in Hv. apply andb_true_iff in Hv. destruct Hv as [Hc Hv].
    unfold placementByte in Hc. simpl in Hc.
    repeat (apply orb_true_iff in Hc; destruct Hc as [Hc|Hc]);
      try discriminate;
      apply Ascii.eqb_eq in Hc; subst c;
      destruct m as [wp wn wb wr wq bp bn bb br bq];
      cbn -[Z.add]; rewrite (IH _ Hv); f_equal;
      unfold addMaterial, materialOf, countOf; cbn -[Z.add Z.of_nat];
      apply material_eq; lia.
Qed.

Lemma ParseMaterial_token (s tok : string) (rest : list string) :
  Fields s = tok :: rest -> placementToken tok ->
  fen.ParseMaterial s = Ok (materialOf tok).
Proof.
  intros Hf Hv. unfold fen.ParseMaterial. rewrite Hf.
  rewrite (countMaterial_token tok fen.zeroMaterial Hv). reflexivity.
Qed.

(** *** The strategies *)

Lemma u32_small (N : Z) : 0 < N < 2 ^ 32 -> u32 N = N.
Proof. intros H. unfold u32. apply Z.mod_small. change (2 ^ 32) with 4294967296 in H. lia. Qed.

Lemma umod_returns (a b : Z) : b <> 0 -> umod a b = Returns (a mod b).
Proof. intros H. unfold umod. destruct (Z.eqb_spec b 0); [contradiction | reflexivity]. Qed.

(** The starting position, with the move counters. *)
Definition startFEN : string :=
  "rnbqkbnr/pppppppp/8/8/8/8/PPPPPPPP/RNBQKBNR w KQkq - 0 1".

(** What the specification says of the material strategy at [s] and [N]:
    the key modulo [N] when the placement token parses, the FNV-1a hash
    of the raw input modulo [N] otherwise. *)
Definition materialContract (s : string) (N : Z) : Prop :=
  match fen.ParseMaterial s with
  | Ok m =>
      exists K, packs m (blackToMove s) K
                /\ materialshard.ShardID s N = Returns (K mod N)
  | Err _ => materialshard.ShardID s N = Returns (fnv1a s mod N)
  end.

(** Where the shard count fits [uint32] the strategy does what the
    specification says.  For every input string and every shard count
    [N] with [0 < N < 2^32]: when the placement token parses as material
    the material strategy returns [K mod N] for the 19-bit key [K] of the
    layout table, and when the parse fails it returns the 32-bit FNV-1a
    hash of the raw input modulo [N]; in both cases it returns normally. *)
Theorem material_ShardID_spec (s : string) (N : Z) :
  0 < N < 2 ^ 32 -> materialContract s N.
Proof.
  intros HN. unfold materialContract.
  destruct (fen.ParseMaterial s) as [m|e] eqn:Hp.
  - exists (materialKey m (blackToMove s)). split.
    + apply materialKey_packs. exact (ParseMaterial_nonNegative _ _ Hp).
    + rewrite (ShardID_key s N m Hp), (u32_small N HN).
      apply umod_returns. lia.
  - unfold materialshard.ShardID. rewrite Hp.
    unfold materialshard.hashFallback. rewrite (u32_small N HN), hashLoop_fold.
    apply umod_returns. lia.
Qed.

Lemma material_ShardID_spec_witness : materialContract startFEN 32768.
Proof. apply (material_ShardID_spec startFEN 32768). lia. Defined.

(** C2.  The code departs from the specification, and from its own
    comment ("reduced modulo totalShards"), for shard counts that do not fit
    [uint32]: the divisor is [uint32(totalShards)], so for
    [N = 2^32 + 1] it is 1 and the starting position is sent to shard 0,
    while its key is 148617 and [148617 mod N = 148617]. *)
Theorem material_ShardID_large_N :
  materialshard.ShardID startFEN 4294967297 = Returns 0
  /\ (exists m, fen.ParseMaterial startFEN = Ok m
                /\ packs m (blackToMove startFEN) 148617)
  /\ 148617 mod 4294967297 = 148617
  /\ ~ materialContract startFEN 4294967297.
Proof.
  split; [vm_compute; reflexivity|].
  destruct (fen.ParseMaterial startFEN) as [m|e] eqn:Hp;
    [|vm_compute in Hp; discriminate Hp].
  assert (HK : packs m (blackToMove startFEN) (materialKey m (blackToMove startFEN)))
    by (apply materialKey_packs; exact (ParseMaterial_nonNegative _ _ Hp)).
  assert (Hkey : materialKey m (blackToMove startFEN) = 148617)
    by (vm_compute in Hp; injection Hp as <-; vm_compute; reflexivity).
  split; [exists m; split; [reflexivity | rewrite <- Hkey; exact HK]|].
  split; [reflexivity|].
  unfold materialContract. rewrite Hp.
  intros (K & HK' & HS). apply packs_unique in HK'. subst K.
  rewrite (ShardID_key startFEN _ m Hp), Hkey in HS.
  vm_compute in HS. discriminate HS.
Qed.

(** Where [uint32(N)] is not zero the range holds.  For every input
    string and every [N > 0] that is not a multiple of [2^32] (in
    particular every [0 < N < 2^32]), both the material strategy and the
    fnv32 strategy return a shard id in [[0, N)]. *)
Theorem ShardID_in_range (s : string) (N : Z) :
  0 < N -> N mod 2 ^ 32 <> 0 ->
  (exists id, materialshard.ShardID s N = Returns id /\ 0 <= id < N)
  /\ (exists id, fnvshard.ShardID s N = Returns id /\ 0 <= id < N).
Proof.
  intros HN Hm.
  assert (Hu : 0 < u32 N <= N).
  { unfold u32. change (2 ^ 32) with 4294967296 in Hm.
    pose proof (Z.mod_pos_bound N 4294967296 ltac:(lia)).
    pose proof (Z.mod_le N 4294967296 ltac:(lia) ltac:(lia)). lia. }
  assert (Hr : forall a, exists id, umod a (u32 N) = Returns id /\ 0 <= id < N).
  { intros a. exists (a mod u32 N). split; [apply umod_returns; lia|].
    pose proof (Z.mod_pos_bound a (u32 N) ltac:(lia)). lia. }
  split.
  - unfold materialshard.ShardID, materialshard.hashFallback.
    destruct (fen.ParseMaterial s); cbv zeta; apply Hr.
  - unfold fnvshard.ShardID. apply Hr.
Qed.

Lemma ShardID_in_range_witness :
  (exists id, materialshard.ShardID startFEN 32768 = Returns id /\ 0 <= id < 32768)
  /\ (exists id, fnvshard.ShardID startFEN 32768 = Returns id /\ 0 <= id < 32768).
Proof.
  apply (ShardID_in_range startFEN 32768); [lia | vm_compute; discriminate].
Defined.

(** C3.  The code departs from the specification, and from the comment of
    [shard.Strategy] ("The returned value is in the range
    [0, totalShards)"), at [N = 2^32]: the divisor [uint32(N)] is zero
    and both strategies panic instead of returning an id. *)
Theorem ShardID_zero_divisor :
  materialshard.ShardID startFEN 4294967296
  = Panics "runtime error: integer divide by zero"
  /\ fnvshard.ShardID startFEN 4294967296
     = Panics "runtime error: integer divide by zero"
  /\ ~ (exists id, materialshard.ShardID startFEN 4294967296 = Returns id
                   /\ 0 <= id < 4294967296)
  /\ ~ (exists id, fnvshard.ShardID startFEN 4294967296 = Returns id
                   /\ 0 <= id < 4294967296).
Proof.
  split; [vm_compute; reflexivity|]. split; [vm_compute; reflexivity|].
  split; intros (id & H & _); vm_compute in H; discriminate H.
Qed.

(** Where the shard count fits [uint32] a missing side to move counts
    as white.  For an input whose first whitespace-separated token holds
    only piece letters, digits 1 to 8 and slashes, and which has no
    second token or a second token other than "w" and "b": the material
    parse succeeds (so the hash fallback is not used), and the strategy
    returns normally the key of the token's material with side-to-move
    bit 0, modulo [N] (for a shard count [0 < N < 2^32]). *)
Theorem material_ShardID_no_side (s tok : string) (rest : list string) (N : Z) :
  Fields s = tok :: rest ->
  placementToken tok ->
  (rest = [] \/ (hd ""%string rest <> "w"%string /\ hd ""%string rest <> "b"%string)) ->
  0 < N < 2 ^ 32 ->
  fen.ParseMaterial s = Ok (materialOf tok)
  /\ exists K, packs (materialOf tok) false K
               /\ materialshard.ShardID s N = Returns (K mod N).
Proof.
  intros Hf Hv Hside HN.
  pose proof (ParseMaterial_token s tok rest Hf Hv) as Hp.
  split; [exact Hp|].
  assert (Hb : blackToMove s = false).
  { unfold blackToMove. rewrite Hf. destruct rest as [|side rest']; [reflexivity|].
    destruct Hside as [Hnil|[_ Hnb]]; [discriminate|].
    simpl in Hnb. now apply String.eqb_neq. }
  exists (materialKey (materialOf tok) false). split.
  - apply materialKey_packs. exact (ParseMaterial_nonNegative _ _ Hp).
  - rewrite (ShardID_key s N _ Hp), Hb, (u32_small N HN).
    apply umod_returns. lia.
Qed.

Lemma material_ShardID_no_side_witness :
  fen.ParseMaterial "8/8/8/4k3/8/8/4K3/4R3 x" = Ok (materialOf "8/8/8/4k3/8/8/4K3/4R3")
  /\ exists K, packs (materialOf "8/8/8/4k3/8/8/4K3/4R3") false K
               /\ materialshard.ShardID "8/8/8/4k3/8/8/4K3/4R3 x" 32768
                  = Returns (K mod 32768).
Proof.
  apply (material_ShardID_no_side "8/8/8/4k3/8/8/4K3/4R3 x"
           "8/8/8/4k3/8/8/4K3/4R3" ["x"%string] 32768).
  - reflexivity.
  - reflexivity.
  - right. split; discriminate.
  - lia.
Defined.

(** C10.  The code departs from the specification for shard counts that
    do not fit [uint32], by the conversion [uint32(totalShards)] that C2
    and C3 meet: the input below has a placement token and the second token
    "x"; the parse succeeds and the key with side bit 0 is 64, yet for
    [N = 2^32 + 1] the strategy returns 0 where [64 mod N = 64], and for
    [N = 2^32] it panics. *)
Theorem material_ShardID_no_side_large_N :
  Fields "8/8/8/4k3/8/8/4K3/4R3 x" = ["8/8/8/4k3/8/8/4K3/4R3"; "x"]%string
  /\ placementToken "8/8/8/4k3/8/8/4K3/4R3"
  /\ fen.ParseMaterial "8/8/8/4k3/8/8/4K3/4R3 x"
     = Ok (materialOf "8/8/8/4k3/8/8/4K3/4R3")
  /\ packs (materialOf "8/8/8/4k3/8/8/4K3/4R3") false 64
  /\ 64 mod 4294967297 = 64
  /\ materialshard.ShardID "8/8/8/4k3/8/8/4K3/4R3 x" 4294967297 = Returns 0
  /\ materialshard.ShardID "8/8/8/4k3/8/8/4K3/4R3 x" 4294967296
     = Panics "runtime error: integer divide by zero".
Proof.
  split; [reflexivity|]. split; [reflexivity|].
  split; [vm_compute; reflexivity|]. split.
  - change 64 with (materialKey (materialOf "8/8/8/4k3/8/8/4K3/4R3") false).
    apply materialKey_packs.
    apply (ParseMaterial_nonNegative "8/8/8/4k3/8/8/4K3/4R3 x").
    vm_compute. reflexivity.
  - split; [reflexivity|]. split; vm_compute; reflexivity.
Qed.

End ShardSpec.

(** ** Score strings *)

Module ScoreSpec.
Import GoRt.
Local Open Scope string_scope.

(** The decimal digit [d]. *)
Definition digit (d : Z) : ascii := ascii_of_N (Z.to_N (48 + d)).

(** A number below one hundred written with exactly two digits. *)
Definition twoDigits (k : Z) : string :=
  String (digit (k / 10)) (String (digit (k mod 10)) "").

(** A centipawn value as signed pawns with two decimals. *)
Definition pawns (cp : Z) : string :=
  (if (cp <? 0)%Z then "-" else "+")
  ++ Itoa (Z.abs cp / 100) ++ "." ++ twoDigits (Z.abs cp mod 100).

Lemma fraction_two_digits (frac : Z) :
  (0 <= frac < 100)%Z ->
  (if (frac <? 10)%Z then ".0" ++ Itoa frac else "." ++ Itoa frac)
  = "." ++ twoDigits frac.
Proof.
  intros H.
  assert (E : frac = Z.of_nat (Z.to_nat frac)) by lia.
  assert (L : Z.to_nat frac < 100) by lia.
  rewrite E. clear E H. generalize dependent (Z.to_nat frac). intros n L.
  do 100 (destruct n as [|n]; [vm_compute; reflexivity|]). lia.
Qed.

Lemma i64_small (x : Z) : (minInt <= x <= maxInt)%Z -> i64 x = x.
Proof.
  unfold minInt, maxInt, i64. intros H.
  rewrite Z.mod_small by lia. lia.
Qed.

(** The listed examples, and in general: a mate distance [n] is written
    "#" followed by [n]; a centipawn value is written as its sign
    followed by the pawn value with exactly two decimal digits (for every
    centipawn value whose negation is a 64-bit [int], that is every value
    but the least one); a PV with neither is written "?". *)
Theorem Score_spec :
  stockpile.Score (stockpile.mkPV (Some 125%Z) None "") = "+1.25"
  /\ stockpile.Score (stockpile.mkPV (Some (-50)%Z) None "") = "-0.50"
  /\ stockpile.Score (stockpile.mkPV (Some 0%Z) None "") = "+0.00"
  /\ stockpile.Score (stockpile.mkPV (Some 5%Z) None "") = "+0.05"
  /\ stockpile.Score (stockpile.mkPV None (Some 3%Z) "") = "#3"
  /\ stockpile.Score (stockpile.mkPV None (Some (-5)%Z) "") = "#-5"
  /\ (forall line, stockpile.Score (stockpile.mkPV None None line) = "?")
  /\ (forall cp n line,
        stockpile.Score (stockpile.mkPV cp (Some n) line) = "#" ++ Itoa n)
  /\ (forall cp line,
        (minInt < cp <= maxInt)%Z ->
        stockpile.Score (stockpile.mkPV (Some cp) None line) = pawns cp).
Proof.
  do 8 (split; [reflexivity|]).
  intros cp line Hcp. unfold stockpile.Score, pawns.
  cbn [stockpile.Mate stockpile.Centipawns].
  destruct (Z.ltb_spec cp 0) as [Hneg|Hpos].
  - rewrite i64_small by (unfold minInt, maxInt in *; lia).
    rewrite Z.quot_div_nonneg, Z.rem_mod_nonneg by lia.
    replace (Z.abs cp) with (- cp)%Z by lia.
    pose proof (Z.mod_pos_bound (- cp) 100 ltac:(lia)) as Hb.
    rewrite <- (fraction_two_digits ((- cp) mod 100) Hb).
    destruct ((- cp) mod 100 <? 10)%Z; reflexivity.
  - rewrite Z.quot_div_nonneg, Z.rem_mod_nonneg by lia.
    replace (Z.abs cp) with cp by lia.
    pose proof (Z.mod_pos_bound cp 100 ltac:(lia)) as Hb.
    rewrite <- (fraction_two_digits (cp mod 100) Hb).
    destruct (cp mod 100 <? 10)%Z; reflexivity.
Qed.

Lemma Score_spec_witness :
  stockpile.Score (stockpile.mkPV (Some (-9223372036854775807)%Z) None "e2e4")
  = pawns (-9223372036854775807).
Proof.
  apply (proj2 (proj2 (proj2 (proj2 (proj2 (proj2 (proj2 (proj2 Score_spec)))))))).
  unfold minInt, maxInt. lia.
Defined.

(** C6.  The code departs from the specification at the least [int]: in
    [cp = -cp] the negation wraps around and the value stays negative, so
    the string carries a second sign in each part and no two decimal
    digits, where the sign followed by the pawn value with two decimals
    is "-92233720368547758.08". *)
Theorem Score_at_minInt :
  stockpile.Score (stockpile.mkPV (Some minInt) None "")
  = "--92233720368547758.0-8"
  /\ pawns minInt = "-92233720368547758.08"
  /\ stockpile.Score (stockpile.mkPV (Some minInt) None "") <> pawns minInt.
Proof.
  split; [vm_compute; reflexivity|]. split; [vm_compute; reflexivity|].
  vm_compute. discriminate.
Qed.

End ScoreSpec.

(** ** The client: Close and Lookup *)

Module ClientSpec.
Import GoRt.
Local Open Scope string_scope.

Section WithCollaborators.

Context {S C : Type} `{store.Store S} `{stats.Collector C}.
Variable json_Unmarshal : string -> result search.EvalRecord.

(** A call on the client and what it returns. *)
Inductive call : Type :=
| CallClose
| CallLookup (ctx : Context) (fen : string).

Inductive reply : Type :=
| CloseReply (err : option error)
| LookupReply (r : outcome (result stockpile.Eval)).

Definition step (c : stockpile.Client S C) (k : call)
  : reply * stockpile.Client S C :=
  match k with
  | CallClose =>
      let '(err, c') := stockpile.Close c in (CloseReply err, c')
  | CallLookup ctx fen =>
      match stockpile.Lookup json_Unmarshal c ctx fen with
      | Returns (r, c') => (LookupReply (Returns r), c')
      | Panics msg => (LookupReply (Panics msg), c)
      end
  end.

(** The replies to a sequence of calls made one after the other. *)
Fixpoint run (c : stockpile.Client S C) (ks : list call) : list reply :=
  match ks with
  | [] => []
  | k :: ks' => let '(r, c') := step c k in r :: run c' ks'
  end.

(** The reply [Closed] to a call. *)
Definition closedReply (k : call) : reply :=
  match k with
  | CallClose => CloseReply (Some stockpile.ErrClosed)
  | CallLookup _ _ => LookupReply (Returns (Err stockpile.ErrClosed))
  end.

(** What the first [Close] returns: nil, or the error of the store's
    [Close] (wrapped by "closing store: %w"). *)
Definition firstCloseResult (c : stockpile.Client S C) : option error :=
  match stockpile.store_ c with
  | None => None
  | Some s =>
      match fst (store.Close s) with
      | None => None
      | Some err => Some (errWrap "closing store" err)
      end
  end.

Lemma error_eqb_refl (e : error) : error_eqb e e = true.
Proof.
  induction e as [m|m c IH]; simpl; rewrite String.eqb_refl; [reflexivity | exact IH].
Qed.

Lemma errorsIs_refl (e : error) : errorsIs e e = true.
Proof.
  destruct e; unfold errorsIs; fold errorsIs; now rewrite error_eqb_refl.
Qed.

Lemma closed_step (c : stockpile.Client S C) (k : call) :
  stockpile.closed c = true -> step c k = (closedReply k, c).
Proof.
  intros Hc. destruct k as [|ctx fen]; simpl.
  - unfold stockpile.Close, stockpile.closedCompareAndSwap. now rewrite Hc.
  - unfold stockpile.Lookup. now rewrite Hc.
Qed.

Lemma closed_run (c : stockpile.Client S C) (ks : list call) :
  stockpile.closed c = true -> run c ks = map closedReply ks.
Proof.
  intros Hc. induction ks as [|k ks IH]; simpl; [reflexivity|].
  rewrite (closed_step c k Hc). now rewrite IH.
Qed.

Lemma closeStore_keeps_flag (c : stockpile.Client S C) :
  stockpile.closed (snd (stockpile.closeStore c)) = stockpile.closed c.
Proof.
  unfold stockpile.closeStore. destruct (stockpile.store_ c) as [s|]; [|reflexivity].
  destruct (store.Close s) as [[err|] s1]; reflexivity.
Qed.

(** C5.  On a client that has not been closed: the first [Close] closes
    the store and returns nil or the store's close error (an error that
    [errors.Is] the store's); every call made after it, [Close] or
    [Lookup], returns [ErrClosed]; and the same holds for every [Lookup]
    made once [Close] has performed its first step, the swap of the closed
    flag. *)
Theorem Close_first_then_closed (c : stockpile.Client S C) :
  stockpile.closed c = false ->
  fst (stockpile.Close c) = firstCloseResult c
  /\ (forall s, stockpile.store_ c = Some s ->
        stockpile.store_ (snd (stockpile.Close c)) = Some (snd (store.Close s))
        /\ match fst (store.Close s) with
           | None => fst (stockpile.Close c) = None
           | Some err =>
               exists e, fst (stockpile.Close c) = Some e
                         /\ errorsIs e err = true
           end)
  /\ (forall ks, run (snd (stockpile.Close c)) ks = map closedReply ks)
  /\ (forall ctx fen,
        let entered := snd (stockpile.closedCompareAndSwap c) in
        stockpile.Lookup json_Unmarshal entered ctx fen
        = Returns (Err stockpile.ErrClosed, entered)).
Proof.
  intros Hc.
  assert (Hcas : stockpile.closedCompareAndSwap c
                 = (true, stockpile.mkClient (stockpile.store_ c)
                            (stockpile.shardStrategy c) (stockpile.totalShards c)
                            (stockpile.stats_ c) true))
    by (unfold stockpile.closedCompareAndSwap; now rewrite Hc).
  assert (Hclose : stockpile.Close c
                   = stockpile.closeStore (snd (stockpile.closedCompareAndSwap c)))
    by (unfold stockpile.Close; now rewrite Hcas).
  split; [|split; [|split]].
  - rewrite Hclose, Hcas. unfold stockpile.closeStore, firstCloseResult; simpl.
    destruct (stockpile.store_ c) as [s|]; [|reflexivity].
    destruct (store.Close s) as [[err|] s1]; reflexivity.
  - intros s Hs. rewrite Hclose, Hcas. unfold stockpile.closeStore; simpl.
    rewrite Hs. destruct (store.Close s) as [[err|] s1]; simpl;
      (split; [reflexivity|]); [|reflexivity].
    eexists. split; [reflexivity|].
    unfold errorsIs; fold errorsIs. rewrite errorsIs_refl. apply orb_true_r.
  - intros ks. apply closed_run.
    rewrite Hclose, closeStore_keeps_flag, Hcas. reflexivity.
  - intros ctx fen. rewrite Hcas. reflexivity.
Qed.

End WithCollaborators.

(** A client over the in-memory store, with the default strategy and
    metrics sink. *)
Definition sampleClient : stockpile.Client memstore.Store stats.Noop :=
  stockpile.mkClient (Some memstore.New) shard.material 32768 tt false.

Definition sampleCalls : list call :=
  [CallClose; CallLookup Background "8/8/8/8/8/8/8/8 w - -"; CallClose].

Lemma Close_first_then_closed_witness :
  fst (stockpile.Close sampleClient) = None
  /\ run SearchSpec.sampleJSON (snd (stockpile.Close sampleClient)) sampleCalls
     = map closedReply sampleCalls.
Proof.
  destruct (Close_first_then_closed SearchSpec.sampleJSON sampleClient eq_refl)
    as (H1 & _ & H3 & _).
  split; [rewrite H1; reflexivity | apply H3].
Defined.

End ClientSpec.

(** ** The cached store and cancellation *)

Module CacheSpec.
Import GoRt.
Local Open Scope string_scope.

Section ReadThrough.

Context {U T C : Type}
        `{store.Store U} `{cachestrategy.Strategy T} `{stats.Collector C}.

(** A cached store whose backend is the in-memory one. *)
Definition Cached : Type := cachedstore.Store U (memory.Backend T C).

(** The eviction strategy inside a cached store, and its two counters. *)
Definition policy (s : Cached) : T := memory.strategy (cachedstore.backend s).
Definition hitCount (s : Cached) : Z := memory.hits (cachedstore.backend s).
Definition missCount (s : Cached) : Z := memory.misses (cachedstore.backend s).

(** What one [ReadShard] of the cached store does, by the three cases of
    the specification: the backend holds the id; it does not and the
    underlying store succeeds; it does not and the underlying store
    fails. *)
Definition readThrough (s : Cached) (ctx : Context) (id : Z) : Prop :=
  let '(r, s') := cachedstore.ReadShard s ctx id in
  match cachestrategy.Get (policy s) id with
  | (Some data, t1) =>
      r = Ok data
      /\ hitCount s' = i64 (hitCount s + 1) /\ missCount s' = missCount s
      /\ policy s' = t1
      /\ cachedstore.underlying s' = cachedstore.underlying s
  | (None, t1) =>
      hitCount s' = hitCount s /\ missCount s' = i64 (missCount s + 1)
      /\ match store.ReadShard (cachedstore.underlying s) ctx id with
         | (Ok data, u1) =>
             r = Ok data
             /\ policy s' = snd (cachestrategy.Add t1 id data)
             /\ cachedstore.underlying s' = u1
         | (Err err, u1) =>
             r = Err err
             /\ policy s' = t1
             /\ cachedstore.underlying s' = u1
         end
  end.

(** C4, as amended.  For every shard id, underlying store, eviction
    strategy and metrics sink: when the backend holds the id, [ReadShard]
    returns the backend's bytes and counts a hit without touching the
    underlying store; otherwise the miss is counted at once and the read
    is delegated, on success the returned bytes are inserted into the
    backend, and on error the underlying store's error is returned
    verbatim and nothing is inserted. *)
Theorem cached_ReadShard_read_through (s : Cached) (ctx : Context) (id : Z) :
  readThrough s ctx id.
Proof.
  unfold readThrough, cachedstore.ReadShard, policy, hitCount, missCount.
  destruct s as [u [t col h m]]; simpl. unfold memory.Get; simpl.
  destruct (cachestrategy.Get t id) as [[data|] t1]; simpl.
  - repeat split.
  - destruct (store.ReadShard u ctx id) as [[data|err] u1]; simpl.
    + unfold memory.Set_; simpl.
      destruct (cachestrategy.Add t1 id data) as [ev t2]; simpl. repeat split.
    + repeat split.
Qed.

(** The cached store and a cancelled context: on a miss the call returns
    what the underlying store returns for that context and caches nothing
    when that is an error; on a hit it returns the cached bytes. *)
Lemma cached_ReadShard_cancelled (s : Cached) (cerr : error) (id : Z) :
  match cachestrategy.Get (policy s) id with
  | (Some data, _) => fst (cachedstore.ReadShard s (Some cerr) id) = Ok data
  | (None, t1) =>
      forall u1,
        store.ReadShard (cachedstore.underlying s) (Some cerr) id = (Err cerr, u1) ->
        fst (cachedstore.ReadShard s (Some cerr) id) = Err cerr
        /\ policy (snd (cachedstore.ReadShard s (Some cerr) id)) = t1
  end.
Proof.
  unfold cachedstore.ReadShard, policy.
  destruct s as [u [t col h m]]; simpl. unfold memory.Get; simpl.
  destruct (cachestrategy.Get t id) as [[data|] t1]; simpl; [reflexivity|].
  intros u1 Hu. rewrite Hu. split; reflexivity.
Qed.

End ReadThrough.

(** *** Concrete stores *)

(** A codec that stores the bytes as they are. *)
Definition plainCodec : codec.Codec :=
  codec.mkCodec "" (fun _ => None) (fun bytes => Ok bytes).

(** A disk store over a file system holding shard 1 only. *)
Definition sampleDisk : diskstore.Store :=
  diskstore.mkStore "/data" plainCodec
    (fun path => if String.eqb path "/data/shards/00001" then Ok "shard data"
                 else Err (errNew "file does not exist"))
    (fun err => error_eqb err (errNew "file does not exist")).

Definition sampleLRU : lru.Strategy := lru.mkStrategy 2 [].

(** An empty cache in front of an empty in-memory store. *)
Definition coldCache
  : cachedstore.Store memstore.Store (memory.Backend lru.Strategy stats.Noop) :=
  cachedstore.New memstore.New (memory.New sampleLRU tt).

(** A cache in front of the disk store, after one read of shard 1. *)
Definition warmCache
  : cachedstore.Store diskstore.Store (memory.Backend lru.Strategy stats.Noop) :=
  snd (cachedstore.ReadShard
         (cachedstore.New sampleDisk (memory.New sampleLRU tt)) Background 1).

(** The part of C4 that fails: a cache miss is counted also when the
    delegated read fails.  Reading a shard the underlying store does not
    have returns its error and leaves the miss counter at 1. *)
Lemma miss_counted_on_failed_read :
  fst (cachedstore.ReadShard coldCache Background 7) = Err store.ErrNotFound
  /\ cachedstore.Misses (cachedstore.StoreStats coldCache) = 0%Z
  /\ cachedstore.Misses
       (cachedstore.StoreStats (snd (cachedstore.ReadShard coldCache Background 7)))
     = 1%Z
  /\ cachedstore.Size
       (cachedstore.StoreStats (snd (cachedstore.ReadShard coldCache Background 7)))
     = 0%Z.
Proof. vm_compute. repeat split. Qed.

(** C7, as amended.  With an already-cancelled context the disk, S3 and
    GCS stores return the context's error for every shard id, whatever
    the file system or bucket holds, and leave the store as it is; the
    cached store does the same on a cache miss whenever its underlying
    store does, and then caches nothing. *)
Theorem ReadShard_cancelled (cerr : error) (id : Z) :
  (forall s : diskstore.Store, store.ReadShard s (Some cerr) id = (Err cerr, s))
  /\ (forall s : s3store.Store, store.ReadShard s (Some cerr) id = (Err cerr, s))
  /\ (forall s : gcsstore.Store, store.ReadShard s (Some cerr) id = (Err cerr, s))
  /\ (forall (U T C : Type) (HU : store.Store U)
             (HT : cachestrategy.Strategy T) (HC : stats.Collector C)
             (s : cachedstore.Store U (memory.Backend T C)) (u1 : U),
        fst (cachestrategy.Get (policy s) id) = None ->
        store.ReadShard (cachedstore.underlying s) (Some cerr) id = (Err cerr, u1) ->
        fst (store.ReadShard s (Some cerr) id) = Err cerr
        /\ policy (snd (store.ReadShard s (Some cerr) id))
           = snd (cachestrategy.Get (policy s) id)).
Proof.
  do 3 (split; [reflexivity|]).
  intros U T C HU HT HC s u1 Hmiss Hu.
  pose proof (cached_ReadShard_cancelled s cerr id) as R.
  destruct (cachestrategy.Get (policy s) id) as [[data|] t1]; [discriminate|].
  exact (R u1 Hu).
Qed.

(** The part of C7 that fails: on a cache hit the cached store returns
    the shard's bytes although the context is already cancelled, and the
    in-memory store never looks at the context. *)
Lemma cancelled_read_returns_data :
  fst (store.ReadShard warmCache (Some Canceled) 1) = Ok "shard data"
  /\ fst (store.ReadShard (memstore.SetShard memstore.New 1 "shard data")
            (Some Canceled) 1) = Ok "shard data".
Proof. vm_compute. split; reflexivity. Qed.

Lemma ReadShard_cancelled_witness :
  fst (store.ReadShard (cachedstore.New sampleDisk (memory.New sampleLRU tt))
         (Some Canceled) 1) = Err Canceled.
Proof.
  exact (proj1 (proj2 (proj2 (proj2 (ReadShard_cancelled Canceled 1)))
                  diskstore.Store lru.Strategy stats.Noop _ _ _
                  (cachedstore.New sampleDisk (memory.New sampleLRU tt))
                  sampleDisk eq_refl eq_refl)).
Defined.

End CacheSpec.

(** ** The memory accountant of the build *)

Module BuilderSpec.
Import GoRt builder.
Local Open Scope Z_scope.

(** *** The specification's quantities *)

(** The bytes a held record is counted for: its length plus the fixed
    per-record overhead. *)
Definition recordBytes (r : string) : Z := Z.of_nat (String.length r) + 24.

(** The in-memory byte count of a collector and of all collectors. *)
Definition footprint (c : shardCollector) : Z :=
  fold_right (fun r acc => recordBytes r + acc) 0 (records c).

Definition sumFootprints (cs : list shardCollector) : Z :=
  fold_right (fun c acc => footprint c + acc) 0 cs.

(** The accountant is exact: its total is the sum over all collectors,
    and each collector's own counter is its footprint. *)
Definition accounted (st : buildState) : Prop :=
  totalBytes st = sumFootprints (collectors st)
  /\ Forall (fun c => memoryBytes c = footprint c) (collectors st).

(** Collector [k] has the largest in-memory footprint. *)
Definition largestAt (st : buildState) (k : nat) (c : shardCollector) : Prop :=
  nth_error (collectors st) k = Some c
  /\ records c <> []
  /\ forall j c', nth_error (collectors st) j = Some c' ->
                  memoryBytes c' <= memoryBytes c.

(** The number of collectors that hold records. *)
Definition busy (cs : list shardCollector) : nat :=
  List.length (filter (fun c => Nat.ltb 0 (List.length (records c))) cs).

(** *** Lists of collectors *)

Lemma footprint_nonneg (c : shardCollector) : 0 <= footprint c.
Proof.
  unfold footprint, recordBytes. induction (records c) as [|r rs IH]; simpl; lia.
Qed.

Lemma footprint_held (c : shardCollector) : records c <> [] -> 24 <= footprint c.
Proof.
  unfold footprint. destruct (records c) as [|r rs]; [congruence|]. intros _. simpl.
  assert (0 <= fold_right (fun r acc => recordBytes r + acc) 0 rs)
    by (unfold recordBytes; induction rs; simpl; lia).
  unfold recordBytes in *. lia.
Qed.

Lemma held_iff (c : shardCollector) :
  Nat.ltb 0 (List.length (records c)) = true <-> records c <> [].
Proof.
  destruct (records c); simpl; split; intros; try congruence; try discriminate.
  reflexivity.
Qed.

Lemma setNth_length (k : nat) (c : shardCollector) (cs : list shardCollector) :
  List.length (setNth k c cs) = List.length cs.
Proof.
  revert k; induction cs as [|c0 cs IH]; intros [|k]; simpl; auto.
Qed.

Lemma setNth_nth_error (k : nat) (c : shardCollector) (cs : list shardCollector)
    (j : nat) :
  nth_error (setNth k c cs) j
  = if Nat.eqb j k then option_map (fun _ => c) (nth_error cs j)
    else nth_error cs j.
Proof.
  revert k j; induction cs as [|c0 cs IH]; intros [|k] [|j]; simpl; auto.
  - destruct (Nat.eqb j k); reflexivity.
Qed.

Lemma setNth_sum (k : nat) (c c' : shardCollector) (cs : list shardCollector) :
  nth_error cs k = Some c ->
  sumFootprints (setNth k c' cs) = sumFootprints cs - footprint c + footprint c'.
Proof.
  revert k; induction cs as [|c0 cs IH]; intros [|k]; simpl; try discriminate.
  - intros E; injection E as ->. lia.
  - intros E. rewrite (IH k E). lia.
Qed.

Lemma setNth_Forall (P : shardCollector -> Prop) (k : nat) (c : shardCollector)
    (cs : list shardCollector) :
  Forall P cs -> P c -> Forall P (setNth k c cs).
Proof.
  intros Hcs Hc. revert k; induction Hcs as [|c0 cs H0 Hcs IH]; intros [|k]; simpl;
    constructor; auto.
Qed.

Lemma setNth_busy_emptied (k : nat) (c c' : shardCollector)
    (cs : list shardCollector) :
  nth_error cs k = Some c -> records c <> [] -> records c' = [] ->
  S (busy (setNth k c' cs)) = busy cs.
Proof.
  unfold busy.
  revert k; induction cs as [|c0 cs IH]; intros [|k]; simpl; try discriminate.
  - intros E Hc Hc'; injection E as ->.
    rewrite Hc'. simpl. apply held_iff in Hc. now rewrite Hc.
  - intros E Hc Hc'. destruct (Nat.ltb 0 (List.length (records c0))); simpl;
      rewrite <- (IH k E Hc Hc'); reflexivity.
Qed.

Lemma busy_le_length (cs : list shardCollector) : (busy cs <= List.length cs)%nat.
Proof. unfold busy. apply filter_length_le. Qed.

(** *** The scan for the largest collector *)

Lemma scanLargest_spec (cs : list shardCollector) (i : nat)
    (best : option nat) (bestMem : Z) (r : option nat) (m : Z) :
  scanLargest cs i best bestMem = (r, m) ->
  bestMem <= m
  /\ (forall c, In c cs -> records c <> [] -> memoryBytes c <= m)
  /\ ((r = best /\ m = bestMem)
      \/ exists j c, r = Some (i + j)%nat /\ nth_error cs j = Some c
                     /\ memoryBytes c = m /\ records c <> [] /\ bestMem < m).
Proof.
  revert i best bestMem; induction cs as [|c cs IH]; intros i best bestMem; simpl.
  - intros E; injection E as <- <-. repeat split; [lia | tauto | now left].
  - destruct (Z.ltb_spec bestMem (memoryBytes c)) as [Hlt|Hge]; simpl.
    + destruct (Nat.ltb 0 (List.length (records c))) eqn:Hh; intros E;
        apply IH in E; destruct E as (A & B & D).
      * apply held_iff in Hh. repeat split; [lia| |].
        -- intros c' [<-|Hin]; [lia | now apply B].
        -- right. destruct D as [[-> ->]|(j & c' & -> & Hj & Hm & Hr & Hb)].
           ++ exists 0%nat, c. rewrite Nat.add_0_r. repeat split; auto.
           ++ exists (S j), c'. rewrite Nat.add_succ_r. repeat split; auto. lia.
      * repeat split; [lia| |].
        -- intros c' [<-|Hin] Hr; [|now apply B].
           apply held_iff in Hr. congruence.
        -- destruct D as [D|(j & c' & -> & Hj & Hm & Hr & Hb)]; [now left|].
           right. exists (S j), c'. rewrite Nat.add_succ_r. repeat split; auto.
    + intros E; apply IH in E; destruct E as (A & B & D).
      repeat split; [lia| |].
      * intros c' [<-|Hin] Hr; [lia | now apply B].
      * destruct D as [D|(j & c' & -> & Hj & Hm & Hr & Hb)]; [now left|].
        right. exists (S j), c'. rewrite Nat.add_succ_r. repeat split; auto.
Qed.

(** Under exact accounting the collector the scan picks is the largest
    of all, and the scan finds one whenever some collector holds
    records. *)
Lemma pickLargest_Some (st : buildState) (k : nat) (m : Z) :
  accounted st -> pickLargest st = (Some k, m) ->
  exists c, largestAt st k c /\ memoryBytes c = m /\ 0 < m.
Proof.
  intros [_ Hacc] E. unfold pickLargest in E.
  apply scanLargest_spec in E. destruct E as (A & B & D).
  destruct D as [[D _]|(j & c & D & Hj & Hm & Hr & Hb)]; [discriminate|].
  injection D as ->. simpl. exists c. repeat split; auto; try lia.
  intros j' c' Hj'. rewrite Hm.
  destruct (records c') as [|r rs] eqn:Hr'.
  - rewrite Forall_forall in Hacc.
    rewrite (Hacc c' (nth_error_In _ _ Hj')). unfold footprint. rewrite Hr'. simpl. lia.
  - apply B; [exact (nth_error_In _ _ Hj') | congruence].
Qed.

Lemma pickLargest_nothing (st : buildState) (r : option nat) (m : Z) :
  accounted st -> pickLargest st = (r, m) -> (r = None \/ m = 0) ->
  totalBytes st = 0.
Proof.
  intros [Ht Hacc] E Hn. unfold pickLargest in E.
  apply scanLargest_spec in E. destruct E as (A & B & D).
  assert (Hm : m = 0).
  { destruct D as [[_ D]|(j & c & D & _)]; [exact D|].
    destruct Hn as [Hn|Hn]; [congruence | exact Hn]. }
  subst m. rewrite Ht. clear Ht D Hn A.
  revert B Hacc. generalize (collectors st). intros cs.
  induction cs as [|c cs IH]; intros B Hacc; simpl; [reflexivity|].
  inversion Hacc as [|c0 cs0 Hc Hcs]; subst.
  rewrite IH; [|intros c' Hin; apply B; now right | exact Hcs].
  destruct (records c) as [|r0 rs] eqn:Hr.
  - unfold footprint. rewrite Hr. reflexivity.
  - assert (Hne : records c <> []) by congruence.
    pose proof (B c (or_introl eq_refl) Hne).
    pose proof (footprint_held c Hne). lia.
Qed.

Lemma pickLargest_held (st : buildState) (k : nat) (m : Z) :
  pickLargest st = (Some k, m) ->
  exists c, nth_error (collectors st) k = Some c /\ records c <> [].
Proof.
  intros E. unfold pickLargest in E.
  apply scanLargest_spec in E. destruct E as (_ & _ & D).
  destruct D as [[D _]|(j & c & D & Hj & _ & Hr & _)]; [discriminate|].
  injection D as ->. exists c. auto.
Qed.

Section WithEnvironment.

Variable sortSlice : list string -> list string.
Variable writeRun : runName -> string -> option error.

(** *** One spill *)

(** [spillStep st st']: the budget is exceeded in [st], and [st'] is [st]
    after the collector with the largest footprint has spilled, its
    tracked bytes subtracted from the total. *)
Definition spillStep (st st' : buildState) : Prop :=
  exists k c,
    shouldSpill st = true
    /\ largestAt st k c
    /\ spillToDisk sortSlice writeRun st k = (None, st')
    /\ totalBytes st' = totalBytes st - memoryBytes c.

(** A run of spills, one after the other. *)
Definition spills : buildState -> buildState -> Prop :=
  clos_refl_trans_1n buildState spillStep.

Lemma spillToDisk_success (st st' : buildState) (k : nat) (c : shardCollector) :
  nth_error (collectors st) k = Some c -> records c <> [] ->
  spillToDisk sortSlice writeRun st k = (None, st') ->
  totalBytes st' = totalBytes st - memoryBytes c
  /\ maxBytes st' = maxBytes st
  /\ exists c', collectors st' = setNth k c' (collectors st)
                /\ records c' = [] /\ memoryBytes c' = 0.
Proof.
  intros Hk Hr. unfold spillToDisk. rewrite Hk.
  apply held_iff in Hr. apply Nat.ltb_lt in Hr.
  destruct (Nat.eqb_spec (List.length (records c)) 0) as [H0|_]; [lia|].
  destruct (writeRun _ _); [discriminate|].
  intros E; injection E as <-. simpl. repeat split.
  eexists. repeat split.
Qed.

Lemma spillToDisk_accounted (st st' : buildState) (k : nat) (c : shardCollector) :
  accounted st ->
  nth_error (collectors st) k = Some c -> records c <> [] ->
  spillToDisk sortSlice writeRun st k = (None, st') ->
  accounted st'.
Proof.
  intros [Ht Hacc] Hk Hr E.
  destruct (spillToDisk_success st st' k c Hk Hr E) as (T & _ & c' & Hc & Hr' & Hm').
  unfold accounted. rewrite Hc. split.
  - rewrite T, Ht, (setNth_sum k c c' _ Hk).
    rewrite Forall_forall in Hacc. rewrite (Hacc c (nth_error_In _ _ Hk)).
    unfold footprint at 3. rewrite Hr'. simpl. lia.
  - apply setNth_Forall; [exact Hacc|].
    unfold footprint. rewrite Hr', Hm'. reflexivity.
Qed.

(** *** The spill loop *)

(** The loop ends within the rounds it is given. *)
Lemma spillLoop_total (fuel : nat) (st : buildState) :
  (busy (collectors st) < fuel)%nat ->
  exists out, spillLoop sortSlice writeRun fuel st = Some out.
Proof.
  revert st; induction fuel as [|fuel IH]; intros st Hb; [lia|]. simpl.
  destruct (shouldSpill st); [|eauto].
  destruct (pickLargest st) as [[k|] m] eqn:Ep; [|eauto].
  destruct (m =? 0); [eauto|].
  destruct (spillToDisk sortSlice writeRun st k) as [[err|] st1] eqn:Es; [eauto|].
  apply IH.
  destruct (pickLargest_held st k m Ep) as (c & Hk & Hr).
  destruct (spillToDisk_success st st1 k c Hk Hr Es) as (_ & _ & c' & Hc & Hr' & _).
  rewrite Hc.
  pose proof (setNth_busy_emptied k c c' (collectors st) Hk Hr Hr'). lia.
Qed.

(** A loop that ends without error leaves the accounting exact and got
    there by spilling the largest collector each time; when the budget is
    not negative it leaves the total within the budget. *)
Lemma spillLoop_spec (fuel : nat) (st st' : buildState) :
  accounted st ->
  spillLoop sortSlice writeRun fuel st = Some (None, st') ->
  accounted st' /\ (0 <= maxBytes st -> totalBytes st' <= maxBytes st')
  /\ maxBytes st' = maxBytes st /\ spills st st'.
Proof.
  revert st; induction fuel as [|fuel IH]; intros st Hacc; simpl;
    [discriminate|].
  assert (Hdone : st = st' -> (0 <= maxBytes st -> totalBytes st <= maxBytes st) ->
                  accounted st' /\ (0 <= maxBytes st -> totalBytes st' <= maxBytes st')
                  /\ maxBytes st' = maxBytes st /\ spills st st').
  { intros <- Hle. split; [exact Hacc|]. split; [exact Hle|].
    split; [reflexivity | apply Relation_Operators.rt1n_refl]. }
  unfold shouldSpill at 1.
  destruct (Z.ltb_spec (maxBytes st) (totalBytes st)) as [Hover|Hunder].
  - destruct (pickLargest st) as [[k|] m] eqn:Ep.
    + destruct (Z.eqb_spec m 0) as [Hm0|Hm].
      * intros E; injection E as E. apply (Hdone E). intros Hmax.
        rewrite (pickLargest_nothing st _ _ Hacc Ep (or_intror Hm0)). exact Hmax.
      * destruct (spillToDisk sortSlice writeRun st k) as [[err|] st1] eqn:Es;
          [discriminate|].
        intros E.
        destruct (pickLargest_Some st k m Hacc Ep) as (c & Hl & Hcm & Hpos).
        destruct Hl as (Hk & Hr & Hbig).
        destruct (spillToDisk_success st st1 k c Hk Hr Es) as (T & M & _).
        pose proof (spillToDisk_accounted st st1 k c Hacc Hk Hr Es) as Hacc1.
        destruct (IH st1 Hacc1 E) as (A & B & D & F).
        split; [exact A|]. split; [intros Hmax; apply B; lia|]. split; [lia|].
        unfold spills. apply Relation_Operators.rt1n_trans with (y := st1); [|exact F].
        exists k, c. split; [unfold shouldSpill; now apply Z.ltb_lt|].
        split; [exact (conj Hk (conj Hr Hbig))|]. split; [exact Es | exact T].
    + intros E; injection E as E. apply (Hdone E). intros Hmax.
      rewrite (pickLargest_nothing st _ _ Hacc Ep (or_introl eq_refl)). exact Hmax.
  - intros E; injection E as E. apply (Hdone E). intros _. exact Hunder.
Qed.

End WithEnvironment.

(** *** Adding a record *)

Lemma footprint_app (rs : list string) (r : string) :
  fold_right (fun r acc => recordBytes r + acc) 0 (rs ++ [r])
  = fold_right (fun r acc => recordBytes r + acc) 0 rs + recordBytes r.
Proof. induction rs as [|r0 rs IH]; simpl; [lia | rewrite IH; lia]. Qed.

Lemma addRecord_accounted (st : buildState) (k : nat) (record : string) :
  accounted st -> accounted (addRecord st k record).
Proof.
  intros [Ht Hacc]. unfold addRecord.
  destruct (nth_error (collectors st) k) as [c|] eqn:Hk; [|split; assumption].
  unfold accounted; simpl. split.
  - rewrite (setNth_sum k c _ _ Hk), Ht. unfold footprint; simpl.
    rewrite footprint_app. unfold recordBytes. lia.
  - apply setNth_Forall; [exact Hacc|]. unfold footprint; simpl.
    rewrite footprint_app. rewrite Forall_forall in Hacc.
    rewrite (Hacc c (nth_error_In _ _ Hk)). unfold footprint, recordBytes. lia.
Qed.

Lemma addRecord_frame (st : buildState) (k : nat) (record : string) :
  maxBytes (addRecord st k record) = maxBytes st
  /\ List.length (collectors (addRecord st k record)) = List.length (collectors st).
Proof.
  unfold addRecord. destruct (nth_error (collectors st) k) as [c|]; simpl;
    [rewrite setNth_length|]; auto.
Qed.

Section Partition.

Variable sortSlice : list string -> list string.
Variable writeRun : runName -> string -> option error.

(** The states of the partition phase: the fresh build, whatever its
    budget, and every state a successful [Add] to one of the collectors
    leads to. *)
Inductive reachable : buildState -> Prop :=
| reach_new (totalShards : nat) (maxMemoryMB : Z) (tempDir : string) :
    reachable (newBuild totalShards maxMemoryMB tempDir)
| reach_add (st : buildState) (k : nat) (record : string) (st' : buildState) :
    reachable st ->
    (k < List.length (collectors st))%nat ->
    Add sortSlice writeRun st k record = Some (None, st') ->
    reachable st'.

Lemma newBuild_accounted (totalShards : nat) (maxMemoryMB : Z) (tempDir : string) :
  accounted (newBuild totalShards maxMemoryMB tempDir)
  /\ totalBytes (newBuild totalShards maxMemoryMB tempDir) = 0.
Proof.
  unfold accounted, newBuild; simpl.
  generalize (seq 0 totalShards). intros l.
  assert (H : sumFootprints (map (fun i => newShardCollector i tempDir) l) = 0
              /\ Forall (fun c => memoryBytes c = footprint c)
                        (map (fun i => newShardCollector i tempDir) l)).
  { induction l as [|i l [IH1 IH2]]; simpl; [split; [reflexivity | constructor]|].
    split; [rewrite IH1; reflexivity | constructor; [reflexivity | exact IH2]]. }
  destruct H as [H1 H2]. rewrite H1. repeat split; auto.
Qed.

Lemma Add_total (st : buildState) (k : nat) (record : string) :
  exists out, Add sortSlice writeRun st k record = Some out.
Proof.
  unfold Add, spillUntilUnderLimit.
  destruct (shouldSpill (addRecord st k record)); [|eauto].
  destruct (spillLoop_total sortSlice writeRun
              (S (List.length (collectors (addRecord st k record))))
              (addRecord st k record)) as [[[err|] st2] ->];
    [pose proof (busy_le_length (collectors (addRecord st k record))); lia | |];
    eauto.
Qed.

Lemma Add_success (st st' : buildState) (k : nat) (record : string) :
  accounted st ->
  Add sortSlice writeRun st k record = Some (None, st') ->
  accounted st' /\ (0 <= maxBytes st -> totalBytes st' <= maxBytes st')
  /\ maxBytes st' = maxBytes st
  /\ spills sortSlice writeRun (addRecord st k record) st'.
Proof.
  intros Hacc. unfold Add, spillUntilUnderLimit.
  pose proof (addRecord_accounted st k record Hacc) as Hacc1.
  destruct (addRecord_frame st k record) as [Hm1 _].
  unfold shouldSpill at 1.
  destruct (Z.ltb_spec (maxBytes (addRecord st k record))
                       (totalBytes (addRecord st k record))) as [Hover|Hunder].
  - destruct (spillLoop sortSlice writeRun _ (addRecord st k record))
      as [[[err|] st2]|] eqn:El; try discriminate.
    intros E; injection E as <-.
    destruct (spillLoop_spec sortSlice writeRun _ _ _ Hacc1 El)
      as (A & B & D & F).
    split; [exact A|]. split; [intros Hmax; apply B; lia|].
    split; [congruence | exact F].
  - intros E; injection E as <-.
    split; [exact Hacc1|]. split; [intros _; exact Hunder|].
    split; [exact Hm1 | apply Relation_Operators.rt1n_refl].
Qed.

Lemma reachable_invariant (st : buildState) :
  reachable st ->
  accounted st /\ (0 <= maxBytes st -> totalBytes st <= maxBytes st).
Proof.
  induction 1 as [n mb dir | st k record st' Hr [Hacc Hle] Hk Hadd].
  - destruct (newBuild_accounted n mb dir) as [Hacc Hz].
    split; [exact Hacc|]. intros Hmax. rewrite Hz. exact Hmax.
  - destruct (Add_success st st' k record Hacc Hadd) as (A & B & D & _).
    split; [exact A|]. intros Hmax. apply B. lia.
Qed.

(** C8.  In every state of the partition phase (the fresh build and the
    state after each successful [Add] of a record to any collector): the
    accountant's total is the sum of all collectors' in-memory byte
    counts, each held record counted as its length plus 24, and, when the
    budget in bytes is not negative, it is at most the budget.  Every
    [Add] returns; when one succeeds, the state it leaves is reached from
    the state with the record appended by spills that each take, while
    the budget is exceeded, the collector with the largest in-memory
    footprint and subtract exactly its tracked bytes from the total. *)
Theorem partition_memory_within_budget (st : buildState) :
  reachable st ->
  accounted st
  /\ (0 <= maxBytes st -> totalBytes st <= maxBytes st)
  /\ forall k record,
       (k < List.length (collectors st))%nat ->
       exists out,
         Add sortSlice writeRun st k record = Some out
         /\ forall st', out = (None, st') ->
              spills sortSlice writeRun (addRecord st k record) st'
              /\ accounted st'
              /\ maxBytes st' = maxBytes st
              /\ (0 <= maxBytes st -> totalBytes st' <= maxBytes st').
Proof.
  intros Hr. destruct (reachable_invariant st Hr) as (Hacc & Hle).
  split; [exact Hacc|]. split; [exact Hle|].
  intros k record Hk.
  destruct (Add_total st k record) as [out Hout].
  exists out. split; [exact Hout|].
  intros st' ->.
  destruct (Add_success st st' k record Hacc Hout) as (A & B & D & F).
  split; [exact F|]. split; [exact A|]. split; [exact D | exact B].
Qed.

(** The accounting is exact whatever the budget. *)
Lemma reachable_accounted (st : buildState) : reachable st -> accounted st.
Proof. intros Hr. exact (proj1 (reachable_invariant st Hr)). Qed.

End Partition.

(** *** A small build *)

(** An insertion sort by extracted fingerprint, one of the orders
    [sort.Slice] may produce, and a file system on which every write
    succeeds. *)
Fixpoint insertByFEN (r : string) (rs : list string) : list string :=
  match rs with
  | [] => [r]
  | r0 :: rs' =>
      if strLt (extractFEN r0) (extractFEN r) then r0 :: insertByFEN r rs'
      else r :: rs
  end.

Definition sortByFEN (rs : list string) : list string :=
  fold_right insertByFEN [] rs.

Definition writeAlways (name : runName) (content : string) : option error := None.

(** Two shards and a budget of zero megabytes: the first record added is
    spilled at once. *)
Definition sampleRecord : string := SearchSpec.sampleLine "8/8/8/8/8/8/8/8 w - -".

Definition sampleBuild : buildState :=
  match Add sortByFEN writeAlways (newBuild 2 0 "/tmp/build") 0 sampleRecord with
  | Some (None, st) => st
  | _ => newBuild 2 0 "/tmp/build"
  end.

Lemma partition_memory_within_budget_witness :
  reachable sortByFEN writeAlways sampleBuild
  /\ accounted sampleBuild
  /\ totalBytes sampleBuild <= maxBytes sampleBuild.
Proof.
  assert (R : reachable sortByFEN writeAlways sampleBuild).
  { apply (reach_add sortByFEN writeAlways (newBuild 2 0 "/tmp/build") 0
             sampleRecord sampleBuild).
    - apply reach_new.
    - simpl. lia.
    - vm_compute. reflexivity. }
  split; [exact R|].
  destruct (partition_memory_within_budget sortByFEN writeAlways sampleBuild R)
    as (A & B & _).
  split; [exact A | apply B; vm_compute; discriminate].
Defined.

(** A budget below zero cannot be met: [WithMaxMemoryMB(-1)] is accepted
    as it is, the first [Add] spills its record, finds nothing more to
    spill and succeeds with the total, 0, above the budget. *)
Definition overdrawn : buildState :=
  match Add sortByFEN writeAlways (newBuild 2 (-1) "/tmp/build") 0 sampleRecord with
  | Some (None, st) => st
  | _ => newBuild 2 (-1) "/tmp/build"
  end.

Lemma negative_budget_exceeded :
  Add sortByFEN writeAlways (newBuild 2 (-1) "/tmp/build") 0 sampleRecord
  = Some (None, overdrawn)
  /\ reachable sortByFEN writeAlways overdrawn
  /\ totalBytes overdrawn = 0
  /\ maxBytes overdrawn = -1048576
  /\ ~ totalBytes overdrawn <= maxBytes overdrawn.
Proof.
  assert (E : Add sortByFEN writeAlways (newBuild 2 (-1) "/tmp/build") 0 sampleRecord
              = Some (None, overdrawn)) by (vm_compute; reflexivity).
  split; [exact E|]. split.
  - apply (reach_add sortByFEN writeAlways (newBuild 2 (-1) "/tmp/build") 0
             sampleRecord overdrawn); [apply reach_new | simpl; lia | exact E].
  - split; [vm_compute; reflexivity|]. split; [vm_compute; reflexivity|].
    vm_compute. intros H. apply H. reflexivity.
Qed.

End BuilderSpec.

(* ===================================================================== *)
(** * Further properties of the embedded code                             *)
(* ===================================================================== *)

(** ** Search: what a result means *)

Module SearchMore.
Import GoRt StringFacts SearchFacts SearchSpec.
Local Open Scope string_scope.

(** The index the binary search of [Search] stops at. *)
Definition probe (data target : string) : nat :=
  sortSearch (List.length (nonEmptyLines data))
    (fun i => strLe target (search.extractFEN (nth i (nonEmptyLines data) ""))).

(** In sorted lines the search stops at a line that carries the target,
    when there is one. *)
Lemma probe_hits (data target line : string) :
  sortedByFEN (nonEmptyLines data) ->
  In line (nonEmptyLines data) ->
  search.extractFEN line = target ->
  probe data target < List.length (nonEmptyLines data)
  /\ search.extractFEN (nth (probe data target) (nonEmptyLines data) "") = target.
Proof.
  intros Hs Hin Hfen. unfold probe.
  set (lines := nonEmptyLines data) in *.
  set (f := fun i => strLe target (search.extractFEN (nth i lines ""))).
  assert (Hmono : forall i j, i <= j -> j < List.length lines ->
                              f i = true -> f j = true).
  { intros i j Hij Hj Hi. unfold f in *.
    exact (strLe_trans _ _ _ Hi (sorted_nth_le lines i j Hs Hij Hj)). }
  destruct (sortSearch_boundary f (List.length lines) Hmono) as (B & C & D).
  set (idx := sortSearch (List.length lines) f) in *.
  destruct (In_nth lines line "" Hin) as (p & Hp & Hnth).
  assert (Hfp : f p = true) by (unfold f; rewrite Hnth, Hfen; apply strLe_refl).
  assert (Hidx : idx <= p).
  { destruct (Nat.le_gt_cases idx p) as [H|H]; [exact H|].
    rewrite (C p H) in Hfp. discriminate. }
  split; [lia|].
  apply String.leb_antisym.
  - pose proof (sorted_nth_le lines idx p Hs Hidx Hp) as Hle.
    unfold fenLe, strLe in Hle. now rewrite Hnth, Hfen in Hle.
  - apply (D idx); lia.
Qed.

Section WithJSON.

Variable json_Unmarshal : string -> result search.EvalRecord.

(** [Search] decodes the line the binary search stops at when that line
    carries the target, and reports [ErrNotFound] otherwise. *)
Lemma Search_probe (data target : string) :
  search.Search json_Unmarshal data target
  = if Nat.ltb (probe data target) (List.length (nonEmptyLines data))
       && String.eqb
            (search.extractFEN (nth (probe data target) (nonEmptyLines data) ""))
            target
    then decodeMatched json_Unmarshal (nth (probe data target) (nonEmptyLines data) "")
    else Err search.ErrNotFound.
Proof.
  unfold search.Search, probe, decodeMatched. rewrite splitLines_nonEmptyLines.
  set (lines := nonEmptyLines data).
  set (idx := sortSearch _ _).
  destruct (Nat.eqb_spec (List.length lines) 0) as [H0|H0].
  - destruct (Nat.ltb_spec idx (List.length lines)); [lia | reflexivity].
  - destruct (Nat.leb_spec (List.length lines) idx),
             (Nat.ltb_spec idx (List.length lines)); try lia; [reflexivity|].
    cbn [andb]. destruct (String.eqb _ target); reflexivity.
Qed.

(** X1.  Whatever the shard holds, sorted or not: a record that [Search]
    returns is the parse of a non-empty line whose extracted fingerprint is
    the target; an error is [ErrNotFound] or the wrapped parse error of such
    a line. *)
Theorem Search_sound (data target : string) :
  match search.Search json_Unmarshal data target with
  | Ok record =>
      exists line, In line (nonEmptyLines data)
                   /\ search.extractFEN line = target
                   /\ json_Unmarshal line = Ok record
  | Err e =>
      e = search.ErrNotFound
      \/ exists line e0, In line (nonEmptyLines data)
                         /\ search.extractFEN line = target
                         /\ json_Unmarshal line = Err e0
                         /\ e = errWrap "parsing eval record" e0
  end.
Proof.
  rewrite Search_probe.
  set (lines := nonEmptyLines data). set (idx := probe data target).
  destruct (Nat.ltb_spec idx (List.length lines)) as [Hlt|Hge]; [|now left].
  destruct (String.eqb_spec (search.extractFEN (nth idx lines "")) target)
    as [Heq|Hne]; cbn [andb]; [|now left].
  pose proof (nth_In lines "" Hlt) as Hin. unfold decodeMatched.
  destruct (json_Unmarshal (nth idx lines "")) as [record|e0] eqn:Ej.
  - exists (nth idx lines ""). auto.
  - right. exists (nth idx lines ""), e0. auto.
Qed.

(** X2.  A fingerprint that no non-empty line of the shard carries is
    reported as [ErrNotFound], whether or not the shard is sorted: the
    search never returns a record for a fingerprint that is not there and
    never tries to parse a line in that case. *)
Theorem Search_absent (data target : string) :
  (forall line, In line (nonEmptyLines data) ->
                search.extractFEN line <> target) ->
  search.Search json_Unmarshal data target = Err search.ErrNotFound.
Proof.
  intros Hno. rewrite Search_probe.
  set (lines := nonEmptyLines data) in *. set (idx := probe data target).
  destruct (Nat.ltb_spec idx (List.length lines)) as [Hlt|Hge]; [|reflexivity].
  destruct (String.eqb_spec (search.extractFEN (nth idx lines "")) target)
    as [Heq|Hne]; cbn [andb]; [|reflexivity].
  destruct (Hno (nth idx lines "") (nth_In lines "" Hlt) Heq).
Qed.

(** X3.  In a shard whose non-empty lines are sorted by fingerprint, a
    fingerprint that some line carries is found: the result is the parse
    of a line with that fingerprint, never [ErrNotFound] for lack of a
    match. *)
Theorem Search_finds_present (data target line : string) :
  sortedByFEN (nonEmptyLines data) ->
  In line (nonEmptyLines data) ->
  search.extractFEN line = target ->
  exists line', In line' (nonEmptyLines data)
                /\ search.extractFEN line' = target
                /\ search.Search json_Unmarshal data target
                   = decodeMatched json_Unmarshal line'.
Proof.
  intros Hs Hin Hfen.
  destruct (probe_hits data target line Hs Hin Hfen) as [Hlt Hmatch].
  exists (nth (probe data target) (nonEmptyLines data) "").
  split; [apply nth_In; exact Hlt|]. split; [exact Hmatch|].
  rewrite Search_probe, Hmatch, String.eqb_refl.
  apply Nat.ltb_lt in Hlt. now rewrite Hlt.
Qed.

End WithJSON.

Lemma Search_absent_witness :
  search.Search sampleJSON sampleShard "8/8/8/8/8/8/8/8 w K -"
  = Err search.ErrNotFound.
Proof.
  apply (Search_absent sampleJSON sampleShard "8/8/8/8/8/8/8/8 w K -").
  intros line Hin. vm_compute in Hin.
  destruct Hin as [<-|[<-|[]]]; vm_compute; discriminate.
Defined.

Lemma Search_finds_present_witness :
  exists line', In line' (nonEmptyLines sampleShard)
                /\ search.extractFEN line' = "8/8/8/8/8/8/8/8 b - -"
                /\ search.Search sampleJSON sampleShard "8/8/8/8/8/8/8/8 b - -"
                   = decodeMatched sampleJSON line'.
Proof.
  apply (Search_finds_present sampleJSON sampleShard "8/8/8/8/8/8/8/8 b - -"
           (sampleLine "8/8/8/8/8/8/8/8 b - -")).
  - unfold sortedByFEN. cbv [nonEmptyLines sampleShard].
    repeat (constructor; try reflexivity).
  - vm_compute. left. reflexivity.
  - reflexivity.
Defined.

(** *** The lines of a shard *)

(** The bytes of [data] that are not line feeds. *)
Fixpoint withoutLF (data : string) : string :=
  match data with
  | EmptyString => EmptyString
  | String c rest =>
      if Ascii.eqb c lf then withoutLF rest else String c (withoutLF rest)
  end.

Lemma SplitByte_not_nil (s : string) (c : ascii) : SplitByte s c <> [].
Proof.
  induction s as [|a s IH]; simpl; [discriminate|].
  destruct (SplitByte s c); [congruence|].
  destruct (Ascii.eqb a c); discriminate.
Qed.

Lemma concat_cons (x : string) (xs : list string) :
  String.concat "" (x :: xs) = x ++ String.concat "" xs.
Proof. destruct xs; simpl; [now rewrite sapp_nil_r | reflexivity]. Qed.

Lemma SplitByte_pieces (s : string) :
  Forall (fun l => ~ In lf (bytesOf l)) (SplitByte s lf)
  /\ String.concat "" (SplitByte s lf) = withoutLF s.
Proof.
  induction s as [|c s [IH1 IH2]].
  - split; [repeat constructor; simpl; tauto | reflexivity].
  - cbn [SplitByte withoutLF].
    destruct (SplitByte s lf) as [|f fs] eqn:Es; [destruct (SplitByte_not_nil s lf Es)|].
    inversion IH1 as [|x l Hf Hfs]; subst.
    destruct (Ascii.eqb_spec c lf) as [->|Hc].
    + split; [constructor; [simpl; tauto | exact IH1]|].
      rewrite <- IH2, concat_cons. reflexivity.
    + split.
      * constructor; [|exact Hfs]. simpl. intros [H|H]; [congruence | auto].
      * rewrite <- IH2, !concat_cons. reflexivity.
Qed.

Lemma concat_filter_nonempty (ls : list string) :
  String.concat "" (filter (fun l => negb (String.eqb l "")) ls)
  = String.concat "" ls.
Proof.
  induction ls as [|l ls IH]; [reflexivity|].
  cbn [filter]. rewrite concat_cons.
  destruct (String.eqb_spec l "") as [->|Hl]; cbn [negb].
  - exact IH.
  - now rewrite concat_cons, IH.
Qed.

(** X4.  [splitLines] loses nothing but line feeds: no line it returns
    is empty or holds a line feed, and the lines put end to end are the
    data with its line feeds removed. *)
Theorem splitLines_partition (data : string) :
  Forall (fun l => l <> "" /\ ~ In lf (bytesOf l)) (search.splitLines data)
  /\ String.concat "" (search.splitLines data) = withoutLF data.
Proof.
  rewrite splitLines_nonEmptyLines. unfold nonEmptyLines.
  destruct (SplitByte_pieces data) as [Hp Hc]. split.
  - apply Forall_forall. intros l Hl. apply filter_In in Hl. destruct Hl as [Hin Hne].
    rewrite Forall_forall in Hp. split; [|exact (Hp l Hin)].
    destruct (String.eqb_spec l ""); [discriminate | assumption].
  - now rewrite concat_filter_nonempty.
Qed.

End SearchMore.

(** ** The sharding strategies and the FEN parsers *)

Module ShardMore.
Import GoRt ShardSpec.
Import SearchMore.
Local Open Scope Z_scope.

(** *** What the material strategy reads *)

Lemma ParseMaterial_head (s1 s2 : string) :
  hd_error (Fields s1) = hd_error (Fields s2) ->
  fen.ParseMaterial s1 = fen.ParseMaterial s2.
Proof.
  unfold fen.ParseMaterial.
  destruct (Fields s1) as [|p1 r1], (Fields s2) as [|p2 r2]; simpl;
    intros E; try discriminate; [reflexivity|].
  now injection E as ->.
Qed.

Lemma blackToMove_head (s1 s2 : string) :
  firstn 2 (Fields s1) = firstn 2 (Fields s2) ->
  blackToMove s1 = blackToMove s2.
Proof.
  unfold blackToMove.
  destruct (Fields s1) as [|p1 [|q1 r1]], (Fields s2) as [|p2 [|q2 r2]]; simpl;
    intros E; try discriminate; try reflexivity.
  now injection E as -> ->.
Qed.

Lemma firstn2_head (A : Type) (l1 l2 : list A) :
  firstn 2 l1 = firstn 2 l2 -> hd_error l1 = hd_error l2.
Proof.
  destruct l1 as [|a1 [|b1 r1]], l2 as [|a2 [|b2 r2]]; simpl; intros E;
    try discriminate; try reflexivity; now injection E as ->.
Qed.

(** X5.  The material strategy reads the first two whitespace-separated
    fields only: an input whose placement parses and any other input with
    the same first two fields (castling rights, en-passant square and move
    counters changed, dropped or added) get the same shard, for every
    shard count (a panic included). *)
Theorem material_ignores_trailing_fields (s1 s2 : string) (N : Z) (m : fen.Material) :
  fen.ParseMaterial s1 = Ok m ->
  firstn 2 (Fields s1) = firstn 2 (Fields s2) ->
  materialshard.ShardID s1 N = materialshard.ShardID s2 N.
Proof.
  intros Hp Hf.
  assert (Hp2 : fen.ParseMaterial s2 = Ok m)
    by (rewrite <- Hp; symmetry; apply ParseMaterial_head, firstn2_head, Hf).
  rewrite (ShardID_key s1 N m Hp), (ShardID_key s2 N m Hp2).
  now rewrite (blackToMove_head s1 s2 Hf).
Qed.

Lemma material_ignores_trailing_fields_witness :
  materialshard.ShardID startFEN 32768
  = materialshard.ShardID "rnbqkbnr/pppppppp/8/8/8/8/PPPPPPPP/RNBQKBNR w - e3 17 40" 32768.
Proof.
  apply (material_ignores_trailing_fields startFEN _ 32768
           (fen.mkMaterial 8 2 2 2 1 8 2 2 2 1)).
  - reflexivity.
  - reflexivity.
Defined.

(** The part of a position the material strategy keeps: the six clamped
    counts of the layout and the side to move. *)
Definition signature (m : fen.Material) (black : bool) : list Z :=
  [ min7 (fen.WhiteQueens m); min7 (fen.BlackQueens m);
    min7 (fen.WhiteRooks m); min7 (fen.BlackRooks m);
    min7 (fen.WhiteBishops m + fen.WhiteKnights m);
    min7 (fen.BlackBishops m + fen.BlackKnights m);
    if black then 1 else 0 ].

Lemma materialKey_signature (m1 m2 : fen.Material) (b1 b2 : bool) :
  signature m1 b1 = signature m2 b2 -> materialKey m1 b1 = materialKey m2 b2.
Proof.
  unfold signature, materialKey. intros E.
  injection E as -> -> -> -> -> -> ->. reflexivity.
Qed.

Lemma signature_materialKey (m1 m2 : fen.Material) (b1 b2 : bool) :
  nonNegative m1 -> nonNegative m2 ->
  materialKey m1 b1 = materialKey m2 b2 -> signature m1 b1 = signature m2 b2.
Proof.
  intros H1 H2 E.
  destruct (materialKey_packs m1 b1 H1) as (_ & A0 & A1 & A2 & A3 & A4 & A5 & A6).
  destruct (materialKey_packs m2 b2 H2) as (_ & B0 & B1 & B2 & B3 & B4 & B5 & B6).
  unfold signature.
  rewrite <- A0, <- A1, <- A2, <- A3, <- A4, <- A5, <- A6.
  rewrite <- B0, <- B1, <- B2, <- B3, <- B4, <- B5, <- B6.
  now rewrite E.
Qed.

Lemma materialKey_range (m : fen.Material) (b : bool) :
  nonNegative m -> 0 <= materialKey m b < 2 ^ 19.
Proof. intros H. exact (proj1 (materialKey_packs m b H)). Qed.

(** X6.  Positions with the same signature share a shard, whatever the
    shard count: pawns, kings, the split between bishops and knights and
    counts beyond seven do not matter. *)
Theorem material_same_signature (s1 s2 : string) (N : Z) (m1 m2 : fen.Material) :
  fen.ParseMaterial s1 = Ok m1 ->
  fen.ParseMaterial s2 = Ok m2 ->
  signature m1 (blackToMove s1) = signature m2 (blackToMove s2) ->
  materialshard.ShardID s1 N = materialshard.ShardID s2 N.
Proof.
  intros H1 H2 E.
  rewrite (ShardID_key s1 N m1 H1), (ShardID_key s2 N m2 H2).
  now rewrite (materialKey_signature _ _ _ _ E).
Qed.

(** X7.  With at least 2^19 shards (and fewer than 2^32) the material
    strategy is exact: two parsable positions that get the same shard
    have the same signature. *)
Theorem material_shards_separate (s1 s2 : string) (N : Z) (m1 m2 : fen.Material) :
  2 ^ 19 <= N < 2 ^ 32 ->
  fen.ParseMaterial s1 = Ok m1 ->
  fen.ParseMaterial s2 = Ok m2 ->
  materialshard.ShardID s1 N = materialshard.ShardID s2 N ->
  signature m1 (blackToMove s1) = signature m2 (blackToMove s2).
Proof.
  intros HN H1 H2.
  pose proof (ParseMaterial_nonNegative _ _ H1) as N1.
  pose proof (ParseMaterial_nonNegative _ _ H2) as N2.
  pose proof (materialKey_range m1 (blackToMove s1) N1) as R1.
  pose proof (materialKey_range m2 (blackToMove s2) N2) as R2.
  assert (HN' : 0 < N < 2 ^ 32) by (change (2 ^ 19) with 524288 in HN; lia).
  rewrite (ShardID_key s1 N m1 H1), (ShardID_key s2 N m2 H2), (u32_small N HN').
  rewrite !umod_returns by lia.
  rewrite !Z.mod_small by lia.
  intros E. injection E as E.
  now apply signature_materialKey.
Qed.

Definition afterCapture : string :=
  "rnb1kbnr/ppp1pppp/8/3q4/8/8/PPPP1PPP/RNBQKBNR w KQkq - 0 3".

Lemma material_same_signature_witness :
  materialshard.ShardID startFEN 32768 = materialshard.ShardID afterCapture 32768.
Proof.
  apply (material_same_signature startFEN afterCapture 32768
           (fen.mkMaterial 8 2 2 2 1 8 2 2 2 1)
           (fen.mkMaterial 7 2 2 2 1 7 2 2 2 1));
    reflexivity.
Defined.

Lemma material_shards_separate_witness :
  signature (fen.mkMaterial 8 2 2 2 1 8 2 2 2 1) (blackToMove startFEN)
  = signature (fen.mkMaterial 7 2 2 2 1 7 2 2 2 1) (blackToMove afterCapture).
Proof.
  apply (material_shards_separate startFEN afterCapture 1048576
           (fen.mkMaterial 8 2 2 2 1 8 2 2 2 1)
           (fen.mkMaterial 7 2 2 2 1 7 2 2 2 1)).
  - lia.
  - reflexivity.
  - reflexivity.
  - reflexivity.
Defined.

(** *** Runes and bytes *)

Lemma byteVal_range (c : ascii) : 0 <= byteVal c < 256.
Proof.
  unfold byteVal. pose proof (N_ascii_bounded c). lia.
Qed.

Lemma lor_ge_128_l (a b : Z) : 128 <= a -> 0 <= b -> 128 <= Z.lor a b.
Proof.
  intros Ha Hb.
  assert (H0 : 0 <= Z.lor a b) by (apply Z.lor_nonneg; lia).
  assert (H7 : 7 <= Z.log2 (Z.lor a b)).
  { rewrite Z.log2_lor by lia.
    assert (7 <= Z.log2 a) by (apply Z.log2_le_pow2; [lia | exact Ha]). lia. }
  destruct (Z.eq_dec (Z.lor a b) 0) as [E|E]; [rewrite E in H7; simpl in H7; lia|].
  change 128 with (2 ^ 7). apply Z.log2_le_pow2; lia.
Qed.

Lemma lor_ge_128_r (a b : Z) : 0 <= a -> 128 <= b -> 128 <= Z.lor a b.
Proof. intros Ha Hb. rewrite Z.lor_comm. now apply lor_ge_128_l. Qed.

Lemma contBits_range (b : Z) : 0 <= contBits b < 64.
Proof.
  unfold contBits. change 63 with (Z.ones 6). rewrite Z.land_ones by lia.
  apply Z.mod_pos_bound. lia.
Qed.

Lemma contBits_low (b lo : Z) :
  128 <= lo -> lo <= b <= 191 -> lo - 128 <= contBits b.
Proof.
  intros Hlo Hb. unfold contBits. change 63 with (Z.ones 6).
  rewrite Z.land_ones by lia. change (2 ^ 6) with 64.
  Z.div_mod_to_equations. lia.
Qed.

Ltac lead_bits b0 mask n pw base :=
  assert (Z.land b0 mask = b0 - base)
    by (change mask with (Z.ones n); rewrite Z.land_ones by lia;
        change (2 ^ n) with pw; Z.div_mod_to_equations; lia).

Lemma shiftl_ge (a n : Z) : 0 <= n -> 0 <= a -> a * 2 ^ n = Z.shiftl a n.
Proof. intros. now rewrite Z.shiftl_mul_pow2. Qed.

Ltac bool_hyps :=
  repeat match goal with
         | H : (_ && _)%bool = true |- _ => apply andb_true_iff in H; destruct H
         | H : (_ <=? _) = true |- _ => apply Z.leb_le in H
         | H : (_ <=? _) = false |- _ => apply Z.leb_gt in H
         | H : (_ <? _) = true |- _ => apply Z.ltb_lt in H
         | H : (_ <? _) = false |- _ => apply Z.ltb_ge in H
         | H : (_ =? _) = true |- _ => apply Z.eqb_eq in H
         | H : (_ =? _) = false |- _ => apply Z.eqb_neq in H
         end.

(** The code point of a multi-byte encoding is at least 128. *)
Lemma decodeRune_high (c : ascii) (rest : string) :
  128 <= byteVal c -> 128 <= fst (decodeRune (String c rest)).
Proof.
  intros Hge. pose proof (byteVal_range c) as Hr.
  unfold decodeRune. set (b0 := byteVal c) in *.
  destruct (Z.ltb_spec b0 128) as [Hlt|_]; [lia|].
  unfold inRange.
  destruct ((194 <=? b0) && (b0 <=? 223))%bool eqn:E2.
  { bool_hyps. destruct rest as [|c1 rest]; [unfold RuneError; simpl; lia|].
    match goal with |- context [if ?b then _ else _] => destruct b eqn:E end;
      [|unfold RuneError; simpl; lia]. cbn [fst].
    apply lor_ge_128_l; [|apply contBits_range].
    lead_bits b0 31 5 32 192.
    replace (Z.land b0 31) with (b0 - 192) by congruence.
    rewrite <- shiftl_ge by lia. change (2 ^ 6) with 64. lia. }
  destruct ((224 <=? b0) && (b0 <=? 239))%bool eqn:E3.
  { bool_hyps. destruct rest as [|c1 [|c2 rest]]; try (unfold RuneError; simpl; lia).
    match goal with |- context [if ?b then _ else _] => destruct b eqn:E end;
      [|unfold RuneError; simpl; lia]. cbn [fst].
    bool_hyps.
    pose proof (contBits_range (byteVal c1)). pose proof (contBits_range (byteVal c2)).
    lead_bits b0 15 4 16 224.
    replace (Z.land b0 15) with (b0 - 224) by congruence.
    rewrite <- !shiftl_ge by lia.
    change (2 ^ 12) with 4096. change (2 ^ 6) with 64.
    destruct (Z.eqb_spec b0 224) as [E224|E224].
    - apply lor_ge_128_r; [lia|]. apply lor_ge_128_l; [|lia].
      assert (32 <= contBits (byteVal c1)).
      { apply (contBits_low (byteVal c1) 160); [lia|].
        destruct (b0 =? 237); lia. }
      lia.
    - apply lor_ge_128_l; [lia|]. apply Z.lor_nonneg. lia. }
  destruct ((240 <=? b0) && (b0 <=? 244))%bool eqn:E4.
  { bool_hyps.
    destruct rest as [|c1 [|c2 [|c3 rest]]]; try (unfold RuneError; simpl; lia).
    match goal with |- context [if ?b then _ else _] => destruct b eqn:E end;
      [|unfold RuneError; simpl; lia]. cbn [fst].
    bool_hyps.
    pose proof (contBits_range (byteVal c1)). pose proof (contBits_range (byteVal c2)).
    pose proof (contBits_range (byteVal c3)).
    lead_bits b0 7 3 8 240.
    replace (Z.land b0 7) with (b0 - 240) by congruence.
    rewrite <- !shiftl_ge by lia.
    change (2 ^ 18) with 262144. change (2 ^ 12) with 4096. change (2 ^ 6) with 64.
    destruct (Z.eqb_spec b0 240) as [E240|E240].
    - apply lor_ge_128_r; [lia|]. apply lor_ge_128_l; [|apply Z.lor_nonneg; lia].
      assert (16 <= contBits (byteVal c1)).
      { apply (contBits_low (byteVal c1) 144); [lia|].
        destruct (b0 =? 244); lia. }
      lia.
    - apply lor_ge_128_l; [lia|]. apply Z.lor_nonneg. split; [lia|].
      apply Z.lor_nonneg. lia. }
  unfold RuneError; simpl; lia.
Qed.

(** A rune below 128 is the byte it is decoded from: a multi-byte
    encoding never yields an ASCII code point. *)
Lemma runeAt_ascii (c : ascii) (rest : string) :
  runeAt (String c rest) < 128 -> runeAt (String c rest) = byteVal c.
Proof.
  intros H. destruct (Z.ltb_spec (byteVal c) 128) as [Hlt|Hge].
  - unfold runeAt, decodeRune. apply Z.ltb_lt in Hlt. now rewrite Hlt.
  - pose proof (decodeRune_high c rest Hge). unfold runeAt in H. lia.
Qed.

(** *** Valid placements *)

(** The test of [isValidPiecePlacement] on one rune. *)
Definition squareRune (ch : Z) : bool :=
  inRange 49 56 ch
  || ((ch =? 80) || (ch =? 78) || (ch =? 66) || (ch =? 82)
      || (ch =? 81) || (ch =? 75) || (ch =? 112) || (ch =? 110)
      || (ch =? 98) || (ch =? 114) || (ch =? 113) || (ch =? 107)).

Lemma squareRune_ascii (ch : Z) : squareRune ch = true -> ch < 128.
Proof.
  unfold squareRune, inRange. intros H.
  repeat (apply orb_true_iff in H; destruct H as [H|H]); bool_hyps; lia.
Qed.

Lemma squareRune_byte (c : ascii) :
  squareRune (byteVal c) = true -> placementByte c = true.
Proof.
  destruct c as [[] [] [] [] [] [] [] []]; vm_compute; congruence.
Qed.

Lemma rankSquares_bytes (rank : string) (squares v : Z) :
  fen.rankSquares rank squares = Some v ->
  forallb placementByte (list_ascii_of_string rank) = true.
Proof.
  revert squares; induction rank as [|c rank IH]; intros squares; [reflexivity|].
  cbn [fen.rankSquares list_ascii_of_string forallb].
  intros H.
  assert (Hs : squareRune (runeAt (String c rank)) = true).
  { unfold squareRune. destruct (inRange 49 56 (runeAt (String c rank)));
      [reflexivity|]. cbn [orb].
    match type of H with (if ?b then _ else _) = _ => destruct b end;
      [reflexivity | discriminate]. }
  pose proof (runeAt_ascii c rank (squareRune_ascii _ Hs)) as Hb.
  rewrite Hb in Hs. rewrite (squareRune_byte c Hs). cbn [andb].
  destruct (inRange 49 56 (runeAt (String c rank))); [exact (IH _ H)|].
  match type of H with (if ?b then _ else _) = _ => destruct b end;
    [exact (IH _ H) | discriminate].
Qed.

Lemma SplitByte_bytes (p : string) :
  Forall (fun rank => forallb placementByte (list_ascii_of_string rank) = true)
         (SplitByte p "/") ->
  forallb placementByte (list_ascii_of_string p) = true.
Proof.
  induction p as [|c p IH]; [reflexivity|].
  cbn [SplitByte list_ascii_of_string forallb].
  destruct (SplitByte p "/") as [|f fs] eqn:Es; [intros _|].
  - destruct (SplitByte_not_nil p "/" Es).
  - destruct (Ascii.eqb_spec c "/") as [->|Hc]; intros H.
    + inversion H as [|x l _ Hrest]; subst. now rewrite (IH Hrest).
    + inversion H as [|x l Hx Hrest]; subst.
      cbn [list_ascii_of_string forallb] in Hx.
      apply andb_true_iff in Hx. destruct Hx as [Hc1 Hf].
      rewrite Hc1. apply IH. constructor; assumption.
Qed.

Lemma valid_placement_token (p : string) :
  fen.isValidPiecePlacement p = true -> placementToken p.
Proof.
  unfold fen.isValidPiecePlacement, placementToken.
  destruct (negb _); [discriminate|].
  intros H. apply SplitByte_bytes. apply Forall_forall.
  intros rank Hin. rewrite forallb_forall in H. specialize (H rank Hin).
  destruct (fen.rankSquares rank 0) as [v|] eqn:Er; [|discriminate].
  exact (rankSquares_bytes rank 0 v Er).
Qed.

(** What [Normalize] checks of the fields of its input. *)
Lemma Normalize_fields (s n : string) :
  fen.Normalize s = Ok n ->
  exists placement side rest,
    Fields s = placement :: side :: rest
    /\ (2 <= List.length rest)%nat
    /\ fen.isValidPiecePlacement placement = true
    /\ (side = "w"%string \/ side = "b"%string)
    /\ n = Join (firstn 4 (Fields s)) " ".
Proof.
  unfold fen.Normalize.
  destruct (Nat.ltb_spec (List.length (Fields s)) 4) as [|Hlen]; [discriminate|].
  destruct (Fields s) as [|placement [|side rest]] eqn:Ef;
    try (simpl in Hlen; lia).
  cbn [nth].
  destruct (fen.isValidPiecePlacement placement) eqn:Ev; [|discriminate].
  cbn [negb].
  destruct (String.eqb_spec side "w") as [Hw|Hw];
    destruct (String.eqb_spec side "b") as [Hb|Hb]; cbn [negb andb];
    try discriminate; intros E; injection E as <-;
    exists placement, side, rest; simpl in Hlen;
    (split; [reflexivity|]); (split; [lia|]); (split; [exact Ev|]);
    (split; [tauto | reflexivity]).
Qed.

Lemma Normalize_ParseMaterial (s n : string) :
  fen.Normalize s = Ok n ->
  exists m, fen.ParseMaterial s = Ok m /\ nonNegative m.
Proof.
  intros H. destruct (Normalize_fields s n H)
    as (placement & side & rest & Hf & _ & Hv & _).
  exists (materialOf placement).
  pose proof (ParseMaterial_token s placement (side :: rest) Hf
                (valid_placement_token placement Hv)) as Hp.
  split; [exact Hp | exact (ParseMaterial_nonNegative _ _ Hp)].
Qed.

(** X8.  [Normalize] is the strictest of the three parsers: an input it
    accepts is also accepted by [ParseMaterial] (so the material strategy
    shards it by its key, never by the hash fallback) and by
    [SideToMove]. *)
Theorem Normalize_accepts_less (s n : string) :
  fen.Normalize s = Ok n ->
  (exists m, fen.ParseMaterial s = Ok m /\ nonNegative m)
  /\ (exists side, fen.SideToMove s = Ok side
                   /\ (side = "w"%string \/ side = "b"%string)).
Proof.
  intros H. destruct (Normalize_fields s n H)
    as (placement & side & rest & Hf & _ & Hv & Hside & _).
  split.
  - exact (Normalize_ParseMaterial s n H).
  - exists side. split; [|exact Hside].
    unfold fen.SideToMove. rewrite Hf.
    destruct Hside as [-> | ->]; reflexivity.
Qed.

Lemma Normalize_accepts_less_witness :
  (exists m, fen.ParseMaterial startFEN = Ok m /\ nonNegative m)
  /\ (exists side, fen.SideToMove startFEN = Ok side
                   /\ (side = "w"%string \/ side = "b"%string)).
Proof.
  apply (Normalize_accepts_less startFEN
           "rnbqkbnr/pppppppp/8/8/8/8/PPPPPPPP/RNBQKBNR w KQkq -").
  reflexivity.
Defined.

(** X9.  On an input that [ParseMaterial] rejects the two strategies
    coincide: [Normalize] rejects it too, so both hash the raw input with
    the same FNV-1a function, for every shard count. *)
Theorem strategies_agree_on_unparsable (s : string) (N : Z) (e : error) :
  fen.ParseMaterial s = Err e ->
  materialshard.ShardID s N = fnvshard.ShardID s N.
Proof.
  intros Hp.
  assert (Hn : exists e', fen.Normalize s = Err e').
  { destruct (fen.Normalize s) as [n|e'] eqn:En; [|eauto].
    destruct (Normalize_ParseMaterial s n En) as (m & Hm & _). congruence. }
  destruct Hn as [e' Hn].
  unfold materialshard.ShardID, fnvshard.ShardID, materialshard.hashFallback,
    fnvshard.fnv1a32.
  rewrite Hp, Hn, hashLoop_fold, fnvLoop_fold. reflexivity.
Qed.

Lemma strategies_agree_on_unparsable_witness :
  materialshard.ShardID "not a position" 32768
  = fnvshard.ShardID "not a position" 32768.
Proof.
  apply (strategies_agree_on_unparsable "not a position" 32768 fen.ErrInvalidFEN).
  reflexivity.
Defined.

(** X10.  The fnv32 strategy reads the first four fields only: an input
    that [Normalize] accepts and any other input with the same first four
    fields (other move counters, or none) get the same shard. *)
Theorem fnv_ignores_move_counters (s1 s2 n : string) (N : Z) :
  fen.Normalize s1 = Ok n ->
  firstn 4 (Fields s1) = firstn 4 (Fields s2) ->
  fnvshard.ShardID s1 N = fnvshard.ShardID s2 N.
Proof.
  intros H1 Hf.
  assert (H2 : fen.Normalize s2 = fen.Normalize s1).
  { destruct (Normalize_fields s1 n H1)
      as (placement & side & rest & Hf1 & Hlen & _).
    unfold fen.Normalize. rewrite <- Hf.
    assert (Hl : List.length (firstn 4 (Fields s2)) = 4%nat).
    { rewrite <- Hf, Hf1. rewrite length_firstn. cbn [List.length]. lia. }
    rewrite length_firstn in Hl.
    destruct (Nat.ltb_spec (List.length (Fields s2)) 4) as [Hlt|_]; [lia|].
    destruct (Nat.ltb_spec (List.length (Fields s1)) 4) as [Hlt|_];
      [rewrite Hf1 in Hlt; simpl in Hlt; lia|].
    assert (H0 : nth 0 (Fields s2) ""%string = nth 0 (Fields s1) ""%string
                 /\ nth 1 (Fields s2) ""%string = nth 1 (Fields s1) ""%string).
    { rewrite Hf1 in Hf |- *. destruct (Fields s2) as [|p2 [|q2 r2]];
        simpl in Hf; try discriminate. injection Hf as -> -> _. split; reflexivity. }
    destruct H0 as [-> ->]. reflexivity. }
  unfold fnvshard.ShardID. rewrite H2, H1. reflexivity.
Qed.

Lemma fnv_ignores_move_counters_witness :
  fnvshard.ShardID startFEN 32768
  = fnvshard.ShardID "rnbqkbnr/pppppppp/8/8/8/8/PPPPPPPP/RNBQKBNR w KQkq - 31 77" 32768.
Proof.
  apply (fnv_ignores_move_counters startFEN _
           "rnbqkbnr/pppppppp/8/8/8/8/PPPPPPPP/RNBQKBNR w KQkq -" 32768);
    reflexivity.
Defined.

End ShardMore.

(** ** The fields of a string *)

Module FieldsFacts.
Import GoRt StringFacts.
Local Open Scope string_scope.

(** *** Continuation bytes *)

(** A continuation byte of UTF-8: 10xxxxxx. *)
Definition cont (c : ascii) : bool := inRange 128 191 (byteVal c).

(** [s] does not start with a continuation byte. *)
Definition boundary (s : string) : Prop :=
  match s with
  | EmptyString => True
  | String c _ => cont c = false
  end.

(** The first [k] bytes of [s] are there and are continuation bytes. *)
Fixpoint contPrefix (k : nat) (s : string) : Prop :=
  match k with
  | O => True
  | S k' =>
      match s with
      | EmptyString => False
      | String c s' => cont c = true /\ contPrefix k' s'
      end
  end.

Lemma inRange_cont (lo hi b : Z) :
  (128 <= lo)%Z -> (hi <= 191)%Z -> inRange lo hi b = true ->
  inRange 128 191 b = true.
Proof.
  unfold inRange. intros Hlo Hhi H. apply andb_true_iff in H. destruct H as [A B].
  apply Z.leb_le in A, B. apply andb_true_iff. split; apply Z.leb_le; lia.
Qed.

Ltac range_bounds :=
  repeat match goal with
         | |- context [if ?b then _ else _] => destruct b
         end; lia.

(** The bytes a rune takes after its first are continuation bytes. *)
Lemma decodeRune_width (c : ascii) (s : string) :
  (1 <= snd (decodeRune (String c s)))%nat
  /\ contPrefix (Nat.pred (snd (decodeRune (String c s)))) s.
Proof.
  unfold decodeRune.
  destruct (byteVal c <? 128)%Z; [simpl; auto|].
  destruct (inRange 194 223 (byteVal c)).
  { destruct s as [|c1 s]; [simpl; auto|].
    destruct (inRange 128 191 (byteVal c1)) eqn:E1; simpl; auto. }
  destruct (inRange 224 239 (byteVal c)).
  { destruct s as [|c1 [|c2 s]]; try (simpl; auto; fail).
    match goal with |- context [if ?b then _ else _] => destruct b eqn:E end;
      [|simpl; auto].
    apply andb_true_iff in E. destruct E as [E1 E2].
    apply inRange_cont in E1; [|range_bounds..].
    simpl. unfold cont. auto. }
  destruct (inRange 240 244 (byteVal c)).
  { destruct s as [|c1 [|c2 [|c3 s]]]; try (simpl; auto; fail).
    match goal with |- context [if ?b then _ else _] => destruct b eqn:E end;
      [|simpl; auto].
    apply andb_true_iff in E. destruct E as [E12 E3].
    apply andb_true_iff in E12. destruct E12 as [E1 E2].
    apply inRange_cont in E1; [|range_bounds..].
    simpl. unfold cont. auto. }
  simpl. auto.
Qed.

Lemma boundary_range (lo hi : Z) (b : ascii) (u : string) :
  boundary (String b u) -> (128 <= lo)%Z -> (hi <= 191)%Z ->
  inRange lo hi (byteVal b) = false.
Proof.
  unfold boundary, cont. intros Hb Hlo Hhi.
  destruct (inRange lo hi (byteVal b)) eqn:E; [|reflexivity].
  rewrite (inRange_cont lo hi _ Hlo Hhi E) in Hb. discriminate.
Qed.

(** What follows a string does not matter to the rune at its head when
    it does not start with a continuation byte. *)
Lemma decodeRune_boundary (c : ascii) (x u : string) :
  boundary u -> decodeRune (String c (x ++ u)) = decodeRune (String c x).
Proof.
  intros Hu. unfold decodeRune.
  destruct (byteVal c <? 128)%Z; [reflexivity|].
  destruct (inRange 194 223 (byteVal c)).
  { destruct x as [|c1 x]; [|reflexivity]. cbn [append].
    destruct u as [|b u]; [reflexivity|].
    now rewrite (boundary_range 128 191 b u Hu) by lia. }
  destruct (inRange 224 239 (byteVal c)).
  { destruct x as [|c1 [|c2 x]]; [| |reflexivity]; cbn [append].
    - destruct u as [|b [|b2 u]]; try reflexivity.
      rewrite (boundary_range _ _ b _ Hu) by range_bounds. reflexivity.
    - destruct u as [|b u]; [reflexivity|].
      rewrite (boundary_range 128 191 b u Hu) by lia.
      now rewrite andb_false_r. }
  destruct (inRange 240 244 (byteVal c)); [|reflexivity].
  destruct x as [|c1 [|c2 [|c3 x]]]; [| | |reflexivity]; cbn [append].
  - destruct u as [|b [|b2 [|b3 u]]]; try reflexivity.
    rewrite (boundary_range _ _ b _ Hu) by range_bounds. reflexivity.
  - destruct u as [|b [|b2 u]]; try reflexivity.
    rewrite (boundary_range 128 191 b _ Hu) by lia.
    now rewrite andb_false_r.
  - destruct u as [|b u]; [reflexivity|].
    rewrite (boundary_range 128 191 b u Hu) by lia.
    now rewrite andb_false_r.
Qed.

(** A space rune does not start with a continuation byte. *)
Lemma space_boundary (c : ascii) (s : string) :
  IsSpace (fst (decodeRune (String c s))) = true -> cont c = false.
Proof.
  unfold decodeRune, cont.
  destruct (inRange 128 191 (byteVal c)) eqn:E; [|reflexivity].
  unfold inRange in E. apply andb_true_iff in E. destruct E as [A B].
  apply Z.leb_le in A, B.
  destruct (Z.ltb_spec (byteVal c) 128); [lia|].
  unfold inRange.
  destruct (Z.leb_spec 194 (byteVal c)); [lia|]. cbn [andb].
  destruct (Z.leb_spec 224 (byteVal c)); [lia|]. cbn [andb].
  destruct (Z.leb_spec 240 (byteVal c)); [lia|]. cbn [andb fst].
  vm_compute. discriminate.
Qed.

(** *** Words *)

(** The loop of [Fields] over the bytes of [g], followed by [u], when no
    rune of [g] is a space: the bytes still owed to the last rune. *)
Fixpoint wordIn (g u : string) (skip : nat) : option nat :=
  match g with
  | EmptyString => Some skip
  | String c g' =>
      match skip with
      | S k => wordIn g' u k
      | O =>
          let '(r, w) := decodeRune (String c (g' ++ u)) in
          if IsSpace r then None else wordIn g' u (Nat.pred w)
      end
  end.

(** A word: not empty, no space rune, no rune cut short by its end. *)
Definition word (g : string) : Prop :=
  g <> "" /\ wordIn g "" 0 = Some 0.

Lemma wordIn_boundary (g u : string) (skip : nat) :
  boundary u -> wordIn g u skip = wordIn g "" skip.
Proof.
  intros Hu. revert skip; induction g as [|c g IH]; intros skip; [reflexivity|].
  cbn [wordIn]. destruct skip as [|k]; [|apply IH].
  rewrite (decodeRune_boundary c g u Hu), sapp_nil_r.
  destruct (decodeRune (String c g)) as [r w]. destruct (IsSpace r); [reflexivity|].
  apply IH.
Qed.

Lemma wordIn_owed (g u : string) (skip k : nat) :
  contPrefix skip (g ++ u) -> wordIn g u skip = Some k -> contPrefix k u.
Proof.
  revert skip; induction g as [|c g IH]; intros skip Hc.
  - cbn [wordIn]. intros E; injection E as <-. exact Hc.
  - cbn [wordIn]. destruct skip as [|j].
    + pose proof (decodeRune_width c (g ++ u)) as [_ Hw].
      destruct (decodeRune (String c (g ++ u))) as [r w]. cbn [snd] in Hw.
      destruct (IsSpace r); [discriminate|]. apply IH. exact Hw.
    + apply IH. exact (proj2 Hc).
Qed.

Lemma contPrefix_boundary (k : nat) (u : string) :
  boundary u -> contPrefix k u -> k = 0.
Proof.
  destruct k as [|k]; [reflexivity|]. destruct u as [|b u]; simpl; [tauto|].
  intros Hb [Hc _]. congruence.
Qed.

(** One more byte. *)
Lemma wordIn_snoc (g : string) (c : ascii) (t : string) (skip : nat) :
  wordIn (g ++ String c "") t skip
  = match wordIn g (String c t) skip with
    | None => None
    | Some (S j) => Some j
    | Some O =>
        let '(r, w) := decodeRune (String c t) in
        if IsSpace r then None else Some (Nat.pred w)
    end.
Proof.
  revert skip; induction g as [|a g IH]; intros skip.
  - cbn [append wordIn]. destruct skip as [|j]; [|reflexivity].
    destruct (decodeRune (String c t)) as [r w]. destruct (IsSpace r); reflexivity.
  - cbn [append wordIn]. destruct skip as [|j]; [|apply IH].
    rewrite sapp_assoc. cbn [append].
    destruct (decodeRune (String a (g ++ String c t))) as [r w].
    destruct (IsSpace r); [reflexivity | apply IH].
Qed.

(** *** The fields of a string are words *)

Lemma fieldsLoop_words (s : string) (skip : nat) (sp : bool) (cur : option string) :
  contPrefix skip s ->
  match cur with
  | Some g => g <> "" /\ wordIn g s 0 = Some skip /\ (0 < skip -> sp = false)
  | None => 0 < skip -> sp = true
  end ->
  Forall word (fieldsLoop s skip sp cur).
Proof.
  revert skip sp cur; induction s as [|c t IH]; intros skip sp cur Hc Hinv.
  - cbn [fieldsLoop]. destruct cur as [g|]; [|constructor].
    destruct Hinv as (Hg & Hw & _). constructor; [|constructor].
    assert (skip = 0) by (destruct skip; [reflexivity | destruct Hc]).
    subst skip. split; assumption.
  - cbn [fieldsLoop]. destruct skip as [|k].
    + pose proof (decodeRune_width c t) as [_ Hw].
      pose proof (space_boundary c t) as Hsb.
      destruct (decodeRune (String c t)) as [r w] eqn:Ed. cbn [snd fst] in *.
      destruct (IsSpace r) eqn:Es.
      * assert (Hrest : Forall word (fieldsLoop t (Nat.pred w) true None))
          by (apply IH; [exact Hw | intros _; reflexivity]).
        destruct cur as [g|]; [|exact Hrest].
        destruct Hinv as (Hg & Hwi & _). constructor; [|exact Hrest].
        split; [exact Hg|].
        rewrite <- (wordIn_boundary g (String c t) 0); [exact Hwi|].
        exact (Hsb eq_refl).
      * destruct cur as [g|].
        -- destruct Hinv as (Hg & Hwi & _). apply IH; [exact Hw|].
           split; [destruct g; discriminate|]. split.
           ++ rewrite wordIn_snoc, Hwi, Ed, Es. reflexivity.
           ++ reflexivity.
        -- apply IH; [exact Hw|]. split; [discriminate|]. split.
           ++ cbn [wordIn append]. rewrite Ed, Es. reflexivity.
           ++ reflexivity.
    + destruct Hc as [Hcc Hck]. destruct cur as [g|].
      * destruct Hinv as (Hg & Hwi & Hsp). rewrite (Hsp ltac:(lia)).
        apply IH; [exact Hck|]. split; [destruct g; discriminate|]. split.
        -- rewrite wordIn_snoc, Hwi. reflexivity.
        -- reflexivity.
      * rewrite (Hinv ltac:(lia)). apply IH; [exact Hck|]. intros _. reflexivity.
Qed.

Lemma Fields_words (s : string) : Forall word (Fields s).
Proof.
  unfold Fields. apply fieldsLoop_words; [exact I|]. intros H. inversion H.
Qed.

(** *** Joining words with spaces *)

Lemma fieldsLoop_start (s : string) (sp sp' : bool) (cur : option string) :
  fieldsLoop s 0 sp cur = fieldsLoop s 0 sp' cur.
Proof. destruct s; reflexivity. Qed.

(** The loop runs over a word without ending a field. *)
Lemma fieldsLoop_word (g u : string) (skip : nat) (sp : bool) (acc : string) :
  wordIn g u skip = Some 0 ->
  (0 < skip -> sp = false) ->
  g <> "" ->
  fieldsLoop (g ++ u) skip sp (if String.eqb acc "" then None else Some acc)
  = fieldsLoop u 0 false (Some (acc ++ g)).
Proof.
  revert skip sp acc; induction g as [|c g IH]; intros skip sp acc Hw Hsp Hg;
    [congruence|].
  cbn [append fieldsLoop wordIn] in *.
  assert (Hcur : forall b : bool,
             (if b then None else Some acc) = None \/ b = false)
    by (intros []; auto).
  assert (Hnext : forall k sp1,
             wordIn g u k = Some 0 -> (0 < k -> sp1 = false) ->
             fieldsLoop (g ++ u) k sp1 (Some (acc ++ String c ""))
             = fieldsLoop u 0 false (Some (acc ++ String c g))).
  { intros k sp1 Hk Hs1. destruct g as [|c' g'].
    - cbn [wordIn] in Hk. injection Hk as ->. cbn [append].
      apply fieldsLoop_start.
    - assert (E : String.eqb (acc ++ String c "") "" = false)
        by (destruct acc; reflexivity).
      pose proof (IH k sp1 (acc ++ String c "") Hk Hs1 ltac:(discriminate)) as R.
      rewrite E in R. rewrite R, sapp_assoc. reflexivity. }
  assert (Hacc : match (if String.eqb acc "" then None else Some acc) with
                 | Some f => Some (f ++ String c "")
                 | None => Some (String c "")
                 end = Some (acc ++ String c "")).
  { destruct acc; reflexivity. }
  destruct skip as [|k].
  - destruct (decodeRune (String c (g ++ u))) as [r w].
    destruct (IsSpace r); [discriminate|].
    destruct (if String.eqb acc "" then None else Some acc) as [f|] eqn:Ec;
      injection Hacc as Hacc.
    + rewrite Hacc. apply Hnext; [exact Hw | reflexivity].
    + rewrite Hacc. apply Hnext; [exact Hw | reflexivity].
  - rewrite (Hsp ltac:(lia)).
    destruct (if String.eqb acc "" then None else Some acc) as [f|] eqn:Ec;
      injection Hacc as Hacc.
    + rewrite Hacc. apply Hnext; [exact Hw | reflexivity].
    + rewrite Hacc. apply Hnext; [exact Hw | reflexivity].
Qed.

Lemma space_rune (t : string) :
  decodeRune (String " " t) = (32%Z, 1).
Proof. reflexivity. Qed.

(** [Fields] undoes [Join] on words. *)
Lemma Fields_Join (parts : list string) :
  Forall word parts -> Fields (Join parts " ") = parts.
Proof.
  intros Hall.
  assert (Hgen : forall sp, fieldsLoop (Join parts " ") 0 sp None = parts);
    [|exact (Hgen false)].
  induction parts as [|p rest IH]; intros sp; [reflexivity|].
  inversion Hall as [|x l [Hp Hw] Hrest]; subst.
  assert (Hrun : forall u, boundary u ->
             fieldsLoop (p ++ u) 0 sp None = fieldsLoop u 0 false (Some p)).
  { intros u Hu.
    exact (fieldsLoop_word p u 0 sp ""
             (eq_trans (wordIn_boundary p u 0 Hu) Hw) ltac:(lia) Hp). }
  destruct rest as [|q rest].
  - cbn [Join]. rewrite <- (sapp_nil_r p) at 1.
    rewrite (Hrun "" I). reflexivity.
  - change (Join (p :: q :: rest) " ") with (p ++ String " " (Join (q :: rest) " ")).
    rewrite (Hrun (String " " (Join (q :: rest) " ")) eq_refl).
    cbn [fieldsLoop]. rewrite space_rune. change (IsSpace 32) with true.
    cbn iota. f_equal. apply IH. exact Hrest.
Qed.

End FieldsFacts.

(** ** The normal form of a FEN *)

Module NormalForm.
Import GoRt StringFacts FieldsFacts ShardSpec ShardMore.
Local Open Scope string_scope.

Lemma firstn_words (k : nat) (parts : list string) :
  Forall word parts -> Forall word (firstn k parts).
Proof.
  intros H. revert k; induction H as [|p parts Hp _ IH]; intros [|k];
    cbn [firstn]; constructor; auto.
Qed.

(** The fields of a normal form are the first four fields of the input. *)
Lemma Normalize_Fields (s n : string) :
  fen.Normalize s = Ok n -> Fields n = firstn 4 (Fields s).
Proof.
  intros H. destruct (Normalize_fields s n H) as (p & side & rest & _ & _ & _ & _ & ->).
  apply Fields_Join, firstn_words, Fields_words.
Qed.

Lemma Normalize_normal (s n : string) :
  fen.Normalize s = Ok n -> fen.Normalize n = Ok n.
Proof.
  intros H. pose proof (Normalize_Fields s n H) as Hf.
  destruct (Normalize_fields s n H)
    as (p & side & rest & Hs & Hlen & Hv & Hside & Hn).
  destruct rest as [|castling [|ep rest]]; try (simpl in Hlen; lia).
  rewrite Hs in Hf, Hn. cbn [firstn] in Hf, Hn.
  unfold fen.Normalize. rewrite Hf. cbn [List.length Nat.ltb Nat.leb nth firstn].
  rewrite Hv. cbn [negb].
  destruct Hside as [-> | ->]; cbn [String.eqb Ascii.eqb Bool.eqb negb andb];
    now rewrite Hn.
Qed.

(** X27.  [Normalize] is idempotent and keeps what the other parsers
    read: the normal form of an accepted input is accepted and is its own
    normal form, its fields are the first four fields of the input, and
    [ParseMaterial] and [SideToMove] return the same on both. *)
Theorem Normalize_idempotent (s n : string) :
  fen.Normalize s = Ok n ->
  fen.Normalize n = Ok n
  /\ Fields n = firstn 4 (Fields s)
  /\ fen.ParseMaterial n = fen.ParseMaterial s
  /\ fen.SideToMove n = fen.SideToMove s.
Proof.
  intros H. pose proof (Normalize_Fields s n H) as Hf.
  destruct (Normalize_fields s n H)
    as (p & side & rest & Hs & Hlen & Hv & Hside & Hn).
  destruct rest as [|castling [|ep rest]]; try (simpl in Hlen; lia).
  rewrite Hs in Hf, Hn. cbn [firstn] in Hf, Hn.
  split; [|split; [|split]].
  - exact (Normalize_normal s n H).
  - rewrite Hs. exact Hf.
  - unfold fen.ParseMaterial. now rewrite Hf, Hs.
  - unfold fen.SideToMove. now rewrite Hf, Hs.
Qed.

Lemma Normalize_idempotent_witness :
  fen.Normalize "rnbqkbnr/pppppppp/8/8/8/8/PPPPPPPP/RNBQKBNR w KQkq -"
  = Ok "rnbqkbnr/pppppppp/8/8/8/8/PPPPPPPP/RNBQKBNR w KQkq -"
  /\ Fields "rnbqkbnr/pppppppp/8/8/8/8/PPPPPPPP/RNBQKBNR w KQkq -"
     = firstn 4 (Fields startFEN)
  /\ fen.ParseMaterial "rnbqkbnr/pppppppp/8/8/8/8/PPPPPPPP/RNBQKBNR w KQkq -"
     = fen.ParseMaterial startFEN
  /\ fen.SideToMove "rnbqkbnr/pppppppp/8/8/8/8/PPPPPPPP/RNBQKBNR w KQkq -"
     = fen.SideToMove startFEN.
Proof.
  apply (Normalize_idempotent startFEN
           "rnbqkbnr/pppppppp/8/8/8/8/PPPPPPPP/RNBQKBNR w KQkq -").
  reflexivity.
Defined.

(** X28.  Sharding commutes with normalisation: an accepted input and
    its normal form get the same shard, under the fnv32 strategy and under
    the material strategy, for every shard count. *)
Theorem sharding_keeps_normal_form (s n : string) (N : Z) :
  fen.Normalize s = Ok n ->
  fnvshard.ShardID n N = fnvshard.ShardID s N
  /\ materialshard.ShardID n N = materialshard.ShardID s N.
Proof.
  intros H. pose proof (Normalize_Fields s n H) as Hf.
  destruct (Normalize_fields s n H)
    as (p & side & rest & Hs & Hlen & Hv & Hside & Hn).
  split.
  - unfold fnvshard.ShardID. now rewrite H, (Normalize_normal s n H).
  - destruct (Normalize_ParseMaterial s n H) as (m & Hm & _).
    assert (H2 : firstn 2 (Fields n) = firstn 2 (Fields s))
      by (rewrite Hf, firstn_firstn; reflexivity).
    assert (Hm' : fen.ParseMaterial n = Ok m)
      by (rewrite <- Hm; apply ParseMaterial_head, firstn2_head, H2).
    rewrite (ShardID_key n N m Hm'), (ShardID_key s N m Hm).
    now rewrite (blackToMove_head n s H2).
Qed.

Lemma sharding_keeps_normal_form_witness :
  fnvshard.ShardID "rnbqkbnr/pppppppp/8/8/8/8/PPPPPPPP/RNBQKBNR w KQkq -" 32768
  = fnvshard.ShardID startFEN 32768
  /\ materialshard.ShardID "rnbqkbnr/pppppppp/8/8/8/8/PPPPPPPP/RNBQKBNR w KQkq -" 32768
     = materialshard.ShardID startFEN 32768.
Proof.
  apply (sharding_keeps_normal_form startFEN
           "rnbqkbnr/pppppppp/8/8/8/8/PPPPPPPP/RNBQKBNR w KQkq -" 32768).
  reflexivity.
Defined.

End NormalForm.


(* ===================================================================== *)
(** * Package builder, continued: run files and the partition loop        *)
(* ===================================================================== *)

Module builderRuns.
Import GoRt builder.
Local Open Scope string_scope.

Definition EOF : error := errNew "EOF".
Definition ErrUnexpectedEOF : error := errNew "unexpected EOF".

(** [io.ReadFull(r.reader, buf)] with [len(buf) = n], on a reader whose
    file still holds [rest] and reads without an I/O error: the bytes
    read and what the reader holds afterwards. *)
Definition ReadFull (n : nat) (rest : string) : result string * string :=
  if Nat.eqb n 0 then (Ok "", rest)
  else if Nat.eqb (String.length rest) 0 then (Err EOF, rest)
  else if Nat.ltb (String.length rest) n then (Err ErrUnexpectedEOF, "")
  else (Ok (stake n rest), sdrop n rest).

(** [uint32(buf[i])]. *)
Definition byteAt (buf : string) (i : nat) : Z :=
  match String.get i buf with
  | Some c => byteVal c
  | None => 0%Z
  end.

(** [sortedFileReader.Next]: the next length-prefixed record. *)
Definition Next (r : string) : result string * string :=
  match ReadFull 4 r with
  | (Err err, r1) => (Err err, r1)
  | (Ok lengthBuf, r1) =>
      let length :=
        Z.lor (Z.lor (Z.lor (shl32 (byteAt lengthBuf 0) 24)
                            (shl32 (byteAt lengthBuf 1) 16))
                     (shl32 (byteAt lengthBuf 2) 8))
              (byteAt lengthBuf 3) in
      match ReadFull (Z.to_nat length) r1 with
      | (Err err, r2) => (Err err, r2)
      | (Ok record, r2) => (Ok record, r2)
      end
  end.

(** [shardCollector.Count]. *)
Definition Count (c : shardCollector) : nat :=
  List.length (records c) + spilledCount c.

Section WithEnvironment.

Variable sortSlice : list string -> list string.
Variable writeRun : runName -> string -> option error.

(** The loop of [processRecords] over the lines [scanner.Scan] yields
    (for a scanner that ends without error; the progress callback is left
    out).  [collectors[shardID]] panics when the index is out of range;
    [recordsRead] counts far fewer than 2^63 lines and is written without
    reduction.  The result is the error returned, the value of
    [recordsRead] and the state of the build. *)
Fixpoint processLines (strategy : shard.Strategy) (totalShards : Z)
    (ctx : Context) (lines : list string) (st : buildState) (recordsRead : Z)
  : option (outcome (option error * Z * buildState)) :=
  match lines with
  | [] => Some (Returns (None, recordsRead, st))
  | line :: rest =>
      match ctx with
      | Some cerr => Some (Returns (Some cerr, recordsRead, st))
      | None =>
          if Nat.eqb (String.length line) 0
          then processLines strategy totalShards ctx rest st recordsRead
          else
            let fen := extractFEN line in
            if String.eqb fen ""
            then processLines strategy totalShards ctx rest st recordsRead
            else
              match shard.ShardID strategy fen totalShards with
              | Panics msg => Some (Panics msg)
              | Returns shardID =>
                  if (shardID <? 0)%Z
                     || (Z.of_nat (List.length (collectors st)) <=? shardID)%Z
                  then Some (Panics "runtime error: index out of range")
                  else
                    match Add sortSlice writeRun st (Z.to_nat shardID) line with
                    | None => None
                    | Some (Some err, st') =>
                        Some (Returns
                                (Some (errWrap ("adding to shard " ++ Itoa shardID) err),
                                 recordsRead, st'))
                    | Some (None, st') =>
                        processLines strategy totalShards ctx rest st'
                          (recordsRead + 1)%Z
                    end
              end
      end
  end.

End WithEnvironment.

End builderRuns.

(** ** Run files, record counts and the partition loop *)

Module BuilderMore.
Import GoRt builder builderRuns StringFacts BuilderSpec.
Local Open Scope Z_scope.

(** *** The length prefix *)

Lemma byteVal_ascii (x : Z) :
  0 <= x < 256 -> byteVal (ascii_of_N (Z.to_N x)) = x.
Proof.
  intros H. unfold byteVal.
  rewrite N_ascii_embedding by (change 256%N with (Z.to_N 256); apply Z2N.inj_lt; lia).
  apply Z2N.id. lia.
Qed.

Lemma lor_high_low (hi lo k : Z) :
  0 <= k -> 0 <= lo < 2 ^ k -> Z.lor (hi * 2 ^ k) lo = hi * 2 ^ k + lo.
Proof.
  intros Hk Hlo. rewrite Z.lor_comm, <- (Z.shiftl_mul_pow2 hi k Hk).
  rewrite ShardSpec.lor_shiftl_add by assumption.
  rewrite Z.shiftl_mul_pow2 by assumption. ring.
Qed.

Lemma shl32_byte (b k : Z) :
  0 <= b < 256 -> 0 <= k <= 24 -> shl32 b k = b * 2 ^ k.
Proof.
  intros Hb Hk. unfold shl32, u32. rewrite Z.shiftl_mul_pow2 by lia.
  apply Z.mod_small.
  assert (0 < 2 ^ k <= 2 ^ 24)
    by (split; [apply Z.pow_pos_nonneg; lia | apply Z.pow_le_mono_r; lia]).
  change (2 ^ 24) with 16777216 in *. nia.
Qed.

(** The four bytes [be32] writes are read back as the length. *)
Lemma be32_decode (n : nat) :
  Z.of_nat n < 2 ^ 32 ->
  Z.lor (Z.lor (Z.lor (shl32 (byteAt (be32 n) 0) 24) (shl32 (byteAt (be32 n) 1) 16))
               (shl32 (byteAt (be32 n) 2) 8))
        (byteAt (be32 n) 3)
  = Z.of_nat n.
Proof.
  intros Hn.
  unfold be32, byteAt. cbn [String.get Nat.eqb].
  assert (Hu : u32 (Z.of_nat n) = Z.of_nat n)
    by (unfold u32; apply Z.mod_small; change (2 ^ 32) with 4294967296 in Hn; lia).
  rewrite Hu. set (L := Z.of_nat n) in *.
  assert (HL : 0 <= L) by (unfold L; lia).
  rewrite !Z.shiftr_div_pow2 by lia.
  assert (B : forall k, 0 <= (L / 2 ^ k) mod 256 < 256)
    by (intros k; apply Z.mod_pos_bound; lia).
  rewrite !byteVal_ascii by apply B.
  rewrite !shl32_byte by (try apply B; lia).
  pose proof (B 24) as B3. pose proof (B 16) as B2. pose proof (B 8) as B1.
  pose proof (B 0) as B0.
  set (b3 := (L / 2 ^ 24) mod 256) in *. set (b2 := (L / 2 ^ 16) mod 256) in *.
  set (b1 := (L / 2 ^ 8) mod 256) in *. set (b0 := (L / 2 ^ 0) mod 256) in *.
  change (2 ^ 16) with 65536 in *. change (2 ^ 8) with 256 in *.
  change (2 ^ 24) with 16777216 in *. change (2 ^ 0) with 1 in *.
  change (2 ^ 32) with 4294967296 in *.
  change 16777216 with (2 ^ 24) at 1.
  rewrite (lor_high_low b3 (b2 * 65536) 24) by (change (2 ^ 24) with 16777216; lia).
  replace (b3 * 2 ^ 24 + b2 * 65536) with ((b3 * 256 + b2) * 2 ^ 16)
    by (change (2 ^ 24) with 16777216; change (2 ^ 16) with 65536; lia).
  rewrite (lor_high_low _ (b1 * 256) 16) by (change (2 ^ 16) with 65536; lia).
  replace ((b3 * 256 + b2) * 2 ^ 16 + b1 * 256)
    with (((b3 * 256 + b2) * 256 + b1) * 2 ^ 8)
    by (change (2 ^ 16) with 65536; change (2 ^ 8) with 256; lia).
  rewrite (lor_high_low _ b0 8) by (change (2 ^ 8) with 256; lia).
  change (2 ^ 8) with 256.
  subst b0 b1 b2 b3. Z.div_mod_to_equations. lia.
Qed.

Lemma ReadFull_exact (r rest : string) :
  ReadFull (String.length r) (r ++ rest) = (Ok r, rest).
Proof.
  unfold ReadFull.
  destruct (Nat.eqb_spec (String.length r) 0) as [H0|H0].
  - destruct r; [reflexivity | discriminate].
  - rewrite slength_app.
    destruct (Nat.eqb_spec (String.length r + String.length rest) 0) as [H1|_];
      [lia|].
    destruct (Nat.ltb_spec (String.length r + String.length rest) (String.length r))
      as [H2|_]; [lia|].
    now rewrite stake_app, sdrop_app.
Qed.

(** Reading back one record of a run file. *)
Lemma Next_record (r rest : string) :
  Z.of_nat (String.length r) < 2 ^ 32 ->
  Next (be32 (String.length r) ++ r ++ rest) = (Ok r, rest).
Proof.
  intros Hn. unfold Next.
  change 4%nat with (String.length (be32 (String.length r))) at 1.
  rewrite ReadFull_exact, (be32_decode _ Hn), Nat2Z.id, ReadFull_exact.
  reflexivity.
Qed.

(** The results of [calls] successive calls of [Next] on a reader. *)
Fixpoint drain (calls : nat) (r : string) : list (result string) :=
  match calls with
  | O => []
  | S k => let '(res, r') := Next r in res :: drain k r'
  end.

(** X11.  A run file can be read back: on the file [spillToDisk] writes
    for the records [rs] (each shorter than 2^32 bytes), successive calls
    of [sortedFileReader.Next] return the records of [rs] in order, byte
    for byte, and then [io.EOF]. *)
Theorem run_file_round_trip (rs : list string) :
  Forall (fun r => Z.of_nat (String.length r) < 2 ^ 32) rs ->
  drain (S (List.length rs)) (runFileContent rs) = map Ok rs ++ [Err EOF].
Proof.
  induction 1 as [|r rs Hr _ IH]; [reflexivity|].
  cbn [List.length map app runFileContent fold_right].
  change (drain (S (S (List.length rs))) ?x)
    with (let '(res, r') := Next x in res :: drain (S (List.length rs)) r').
  fold (runFileContent rs).
  rewrite (Next_record r (runFileContent rs) Hr). now rewrite IH.
Qed.

Lemma run_file_round_trip_witness :
  drain 3 (runFileContent ["first record"; ""]%string)
  = [Ok "first record"; Ok ""; Err EOF]%string.
Proof.
  apply (run_file_round_trip ["first record"; ""]%string).
  repeat constructor.
Defined.

(** *** Counting records *)

Section Counting.

Variable sortSlice : list string -> list string.
Variable writeRun : runName -> string -> option error.

Hypothesis sortSlice_length :
  forall rs, List.length (sortSlice rs) = List.length rs.

(** [Count()] of collector [j]. *)
Definition countAt (st : buildState) (j : nat) : nat :=
  match nth_error (collectors st) j with
  | Some c => Count c
  | None => 0
  end.

Lemma countAt_setNth (k : nat) (c c' : shardCollector)
    (cs : list shardCollector) (j : nat) :
  nth_error cs k = Some c ->
  match nth_error (setNth k c' cs) j with
  | Some x => Count x
  | None => 0%nat
  end
  = if Nat.eqb j k then Count c'
    else match nth_error cs j with
         | Some x => Count x
         | None => 0%nat
         end.
Proof.
  intros Hk. rewrite setNth_nth_error.
  destruct (Nat.eqb_spec j k) as [->|_]; [now rewrite Hk | reflexivity].
Qed.

Lemma spillToDisk_counts (st : buildState) (k j : nat) :
  countAt (snd (spillToDisk sortSlice writeRun st k)) j = countAt st j.
Proof.
  unfold spillToDisk, countAt.
  destruct (nth_error (collectors st) k) as [c|] eqn:Hk; [|reflexivity].
  destruct (Nat.eqb (List.length (records c)) 0); [reflexivity|].
  destruct (writeRun _ _); cbn [snd collectors setCollector trackerRemove];
    rewrite (countAt_setNth k c _ _ j Hk);
    (destruct (Nat.eqb_spec j k) as [->|_]; [rewrite Hk|reflexivity]);
    unfold Count; cbn [records spilledCount]; rewrite ?sortSlice_length;
    cbn [List.length]; lia.
Qed.

Lemma spillLoop_counts (fuel : nat) (st : buildState) (out : option error * buildState)
    (j : nat) :
  spillLoop sortSlice writeRun fuel st = Some out ->
  countAt (snd out) j = countAt st j.
Proof.
  revert st; induction fuel as [|fuel IH]; intros st; simpl; [discriminate|].
  destruct (shouldSpill st); [|intros E; injection E as <-; reflexivity].
  destruct (pickLargest st) as [[k|] m]; [|intros E; injection E as <-; reflexivity].
  destruct (m =? 0); [intros E; injection E as <-; reflexivity|].
  pose proof (spillToDisk_counts st k j) as Hs.
  destruct (spillToDisk sortSlice writeRun st k) as [[err|] st1]; simpl in Hs.
  - intros E; injection E as <-. exact Hs.
  - intros E. rewrite (IH st1 E). exact Hs.
Qed.

Lemma addRecord_counts (st : buildState) (k : nat) (record : string) (j : nat) :
  (k < List.length (collectors st))%nat ->
  countAt (addRecord st k record) j
  = (countAt st j + if Nat.eqb j k then 1 else 0)%nat.
Proof.
  intros Hk. unfold addRecord, countAt.
  destruct (nth_error (collectors st) k) as [c|] eqn:Ek;
    [|apply nth_error_None in Ek; lia].
  cbn [collectors trackerAdd setCollector].
  rewrite (countAt_setNth k c _ _ j Ek).
  destruct (Nat.eqb_spec j k) as [->|_]; [rewrite Ek|lia].
  unfold Count; cbn [records spilledCount]. rewrite length_app. simpl. lia.
Qed.

(** *** The partition loop *)

Lemma spillToDisk_length (st : buildState) (k : nat) :
  List.length (collectors (snd (spillToDisk sortSlice writeRun st k)))
  = List.length (collectors st).
Proof.
  unfold spillToDisk.
  destruct (nth_error (collectors st) k) as [c|]; [|reflexivity].
  destruct (Nat.eqb (List.length (records c)) 0); [reflexivity|].
  destruct (writeRun _ _); cbn [snd collectors setCollector trackerRemove];
    apply setNth_length.
Qed.

Lemma spillLoop_length (fuel : nat) (st : buildState)
    (out : option error * buildState) :
  spillLoop sortSlice writeRun fuel st = Some out ->
  List.length (collectors (snd out)) = List.length (collectors st).
Proof.
  revert st; induction fuel as [|fuel IH]; intros st; simpl; [discriminate|].
  destruct (shouldSpill st); [|intros E; injection E as <-; reflexivity].
  destruct (pickLargest st) as [[k|] m]; [|intros E; injection E as <-; reflexivity].
  destruct (m =? 0); [intros E; injection E as <-; reflexivity|].
  pose proof (spillToDisk_length st k) as Hs.
  destruct (spillToDisk sortSlice writeRun st k) as [[err|] st1]; simpl in Hs.
  - intros E; injection E as <-. exact Hs.
  - intros E. rewrite (IH st1 E). exact Hs.
Qed.

Lemma Add_length (st st' : buildState) (k : nat) (record : string)
    (res : option error) :
  Add sortSlice writeRun st k record = Some (res, st') ->
  List.length (collectors st') = List.length (collectors st).
Proof.
  destruct (addRecord_frame st k record) as [_ Hl]. rewrite <- Hl.
  unfold Add, spillUntilUnderLimit.
  destruct (shouldSpill (addRecord st k record));
    [|intros E; injection E as _ <-; reflexivity].
  destruct (spillLoop sortSlice writeRun _ (addRecord st k record))
    as [[[err|] st2]|] eqn:El; try discriminate;
    intros E; injection E as _ <-;
    exact (spillLoop_length _ _ _ El).
Qed.

Lemma Add_counts (st st' : buildState) (k : nat) (record : string)
    (res : option error) (j : nat) :
  (k < List.length (collectors st))%nat ->
  Add sortSlice writeRun st k record = Some (res, st') ->
  countAt st' j = (countAt st j + if Nat.eqb j k then 1 else 0)%nat.
Proof.
  intros Hk. rewrite <- (addRecord_counts st k record j Hk).
  unfold Add, spillUntilUnderLimit.
  destruct (shouldSpill (addRecord st k record));
    [|intros E; injection E as _ <-; reflexivity].
  destruct (spillLoop sortSlice writeRun _ (addRecord st k record))
    as [[[err|] st2]|] eqn:El; try discriminate;
    intros E; injection E as _ <-;
    exact (spillLoop_counts _ _ _ j El).
Qed.

(** X12.  Whatever the memory budget and whether or not a spill is
    attempted, succeeds or fails: an [Add] to collector [k] returns, raises
    the [Count()] of collector [k] by exactly one and leaves the [Count()]
    of every other collector as it was (for a [sort.Slice] that keeps the
    number of records). *)
Theorem Add_counts_one (st : buildState) (k : nat) (record : string) :
  (k < List.length (collectors st))%nat ->
  exists res st',
    Add sortSlice writeRun st k record = Some (res, st')
    /\ forall j, countAt st' j
                 = (countAt st j + if Nat.eqb j k then 1 else 0)%nat.
Proof.
  intros Hk.
  destruct (Add_total sortSlice writeRun st k record) as [[res st'] Hout].
  exists res, st'. split; [exact Hout|]. intros j.
  exact (Add_counts st st' k record res j Hk Hout).
Qed.

(** A line the loop hands to a collector: not empty, with a fingerprint. *)
Definition counted (line : string) : bool :=
  negb (Nat.eqb (String.length line) 0)
  && negb (String.eqb (extractFEN line) "").

(** The line's fingerprint is sent to shard [j]. *)
Definition sentTo (strategy : shard.Strategy) (N : Z) (j : nat) (line : string)
  : bool :=
  match shard.ShardID strategy (extractFEN line) N with
  | Returns id => Nat.eqb j (Z.to_nat id)
  | Panics _ => false
  end.

(** The strategy returns an id in [[0, N)] for every input. *)
Definition inRangeStrategy (strategy : shard.Strategy) (N : Z) : Prop :=
  forall fen, exists id,
    shard.ShardID strategy fen N = Returns id /\ 0 <= id < N.

(** X13.  The partition loop of [processRecords], for a strategy whose
    ids lie in [[0, N)] and [N] collectors, under a live context: the loop
    returns (it never indexes [collectors] out of range and never
    panics), and when it returns without error [recordsRead] has grown by
    the number of non-empty lines that carry a fingerprint and the
    [Count()] of every collector [j] by the number of those lines whose
    fingerprint the strategy sends to [j]. *)
Theorem processLines_partitions (strategy : shard.Strategy) (N : Z)
    (lines : list string) (st : buildState) (n0 : Z) :
  inRangeStrategy strategy N ->
  Z.of_nat (List.length (collectors st)) = N ->
  exists res n st',
    processLines sortSlice writeRun strategy N Background lines st n0
    = Some (Returns (res, n, st'))
    /\ (res = None ->
        n = n0 + Z.of_nat (List.length (filter counted lines))
        /\ forall j,
             countAt st' j
             = (countAt st j
                + List.length
                    (filter (fun l => counted l && sentTo strategy N j l) lines))%nat).
Proof.
  intros Hin. revert st n0.
  induction lines as [|line rest IH]; intros st n0 Hlen.
  - exists None, n0, st. split; [reflexivity|]. intros _.
    split; [simpl; lia | intros j; simpl; lia].
  - cbn [processLines Background filter].
    assert (Hcase : counted line
                    = negb (Nat.eqb (String.length line) 0)
                      && negb (String.eqb (extractFEN line) ""))
      by reflexivity.
    destruct (Nat.eqb (String.length line) 0); cbn [negb andb] in Hcase;
      [rewrite Hcase; exact (IH st n0 Hlen)|].
    destruct (String.eqb (extractFEN line) ""); cbn [negb andb] in Hcase;
      rewrite Hcase; cbn [andb]; [exact (IH st n0 Hlen)|].
    unfold sentTo at 1.
    destruct (Hin (extractFEN line)) as (id & -> & Hid).
    destruct (Z.ltb_spec id 0) as [Hneg|_]; [lia|].
    destruct (Z.leb_spec (Z.of_nat (List.length (collectors st))) id) as [Hbig|_];
      [lia|].
    cbn [orb].
    assert (Hk : (Z.to_nat id < List.length (collectors st))%nat) by lia.
    destruct (Add_total sortSlice writeRun st (Z.to_nat id) line)
      as [[[err|] st1] Hadd]; rewrite Hadd.
    + eexists _, _, _. split; [reflexivity | discriminate].
    + pose proof (Add_length _ _ _ _ _ Hadd) as Hl1.
      destruct (IH st1 (n0 + 1) ltac:(lia)) as (res & n & st' & Hrun & Hok).
      exists res, n, st'. split; [exact Hrun|].
      intros Hres. destruct (Hok Hres) as [Hn Hc]. split.
      * cbn [List.length]. lia.
      * intros j. rewrite (Hc j), (Add_counts _ _ _ _ _ j Hk Hadd).
        destruct (Nat.eqb j (Z.to_nat id)); cbn [List.length]; lia.
Qed.

End Counting.

(** Both strategies of the repository are in range for a shard count
    that fits [uint32]. *)
Lemma strategies_in_range (N : Z) :
  0 < N < 2 ^ 32 ->
  inRangeStrategy shard.material N /\ inRangeStrategy shard.fnv32 N.
Proof.
  intros HN.
  assert (Hr : forall a, exists id, umod a (u32 N) = Returns id /\ 0 <= id < N).
  { intros a. rewrite (ShardSpec.u32_small N HN). exists (a mod N).
    split; [apply ShardSpec.umod_returns; lia | apply Z.mod_pos_bound; lia]. }
  split; intros fen; cbn [shard.ShardID shard.material shard.fnv32].
  - unfold materialshard.ShardID, materialshard.hashFallback.
    destruct (fen.ParseMaterial fen); cbv zeta; apply Hr.
  - unfold fnvshard.ShardID. apply Hr.
Qed.

Lemma insertByFEN_length (r : string) (rs : list string) :
  List.length (insertByFEN r rs) = S (List.length rs).
Proof.
  induction rs as [|r0 rs IH]; simpl; [reflexivity|].
  destruct (strLt _ _); simpl; [now rewrite IH | reflexivity].
Qed.

Lemma sortByFEN_length (rs : list string) :
  List.length (sortByFEN rs) = List.length rs.
Proof.
  induction rs as [|r rs IH]; simpl; [reflexivity|].
  now rewrite insertByFEN_length, IH.
Qed.

Lemma Add_counts_one_witness :
  exists res st',
    Add sortByFEN writeAlways (newBuild 2 0 "/tmp/build") 1 sampleRecord
    = Some (res, st')
    /\ forall j, countAt st' j
                 = (countAt (newBuild 2 0 "/tmp/build") j
                    + if Nat.eqb j 1 then 1 else 0)%nat.
Proof.
  apply (Add_counts_one sortByFEN writeAlways sortByFEN_length
           (newBuild 2 0 "/tmp/build") 1 sampleRecord).
  simpl. lia.
Defined.

Lemma processLines_partitions_witness :
  exists res n st',
    processLines sortByFEN writeAlways shard.material 2 Background
      [sampleRecord; ""%string; "no fingerprint"%string] (newBuild 2 1 "/tmp/build") 0
    = Some (Returns (res, n, st'))
    /\ (res = None ->
        n = 0 + Z.of_nat (List.length
                            (filter counted
                               [sampleRecord; ""%string; "no fingerprint"%string]))
        /\ forall j,
             countAt st' j
             = (countAt (newBuild 2 1 "/tmp/build") j
                + List.length
                    (filter (fun l => counted l && sentTo shard.material 2 j l)
                       [sampleRecord; ""%string; "no fingerprint"%string]))%nat).
Proof.
  apply (processLines_partitions sortByFEN writeAlways sortByFEN_length
           shard.material 2 _ (newBuild 2 1 "/tmp/build") 0).
  - exact (proj1 (strategies_in_range 2 ltac:(lia))).
  - reflexivity.
Defined.

End BuilderMore.

(** ** Failed spills *)

Module SpillFailures.
Import GoRt builder BuilderSpec.
Local Open Scope Z_scope.

Section FailedSpills.

Variable sortSlice : list string -> list string.
Variable writeRun : runName -> string -> option error.

(** [sort.Slice] rearranges the records. *)
Hypothesis sortSlice_permutes :
  forall rs, Permutation.Permutation (sortSlice rs) rs.

Lemma footprint_permutation (rs rs' : list string) :
  Permutation.Permutation rs rs' ->
  fold_right (fun r acc => recordBytes r + acc) 0 rs
  = fold_right (fun r acc => recordBytes r + acc) 0 rs'.
Proof.
  induction 1 as [|r l l' _ IH|r r' l|l l' l'' _ IH1 _ IH2]; simpl; lia.
Qed.

Lemma spillToDisk_keeps_accounting (st : buildState) (k : nat) :
  accounted st ->
  accounted (snd (spillToDisk sortSlice writeRun st k))
  /\ maxBytes (snd (spillToDisk sortSlice writeRun st k)) = maxBytes st.
Proof.
  intros Hacc. unfold spillToDisk.
  destruct (nth_error (collectors st) k) as [c|] eqn:Hk; [|now split].
  destruct (Nat.eqb_spec (List.length (records c)) 0) as [H0|H0]; [now split|].
  destruct Hacc as [Ht Hall].
  assert (Hc : memoryBytes c = footprint c)
    by (rewrite Forall_forall in Hall; exact (Hall c (nth_error_In _ _ Hk))).
  assert (Hs : fold_right (fun r acc => recordBytes r + acc) 0 (sortSlice (records c))
               = footprint c)
    by (apply footprint_permutation, sortSlice_permutes).
  destruct (writeRun _ _) as [err|]; cbn [snd]; (split; [|reflexivity]);
    unfold accounted;
    cbn [collectors totalBytes setCollector trackerRemove memoryBytes];
    match goal with |- context [setNth k ?c1 _] => set (cN := c1) end.
  - assert (Hf : footprint cN = footprint c) by exact Hs.
    split; [rewrite (setNth_sum k c cN _ Hk), Ht, Hf; lia|].
    apply setNth_Forall; [exact Hall|]. rewrite Hf. exact Hc.
  - assert (Hf : footprint cN = 0) by reflexivity.
    split; [rewrite (setNth_sum k c cN _ Hk), Ht, Hf, Hc; lia|].
    apply setNth_Forall; [exact Hall|]. rewrite Hf. reflexivity.
Qed.

Lemma spillLoop_keeps_accounting (fuel : nat) (st : buildState)
    (out : option error * buildState) :
  accounted st ->
  spillLoop sortSlice writeRun fuel st = Some out ->
  accounted (snd out) /\ maxBytes (snd out) = maxBytes st.
Proof.
  revert st; induction fuel as [|fuel IH]; intros st Hacc; simpl; [discriminate|].
  destruct (shouldSpill st); [|intros E; injection E as <-; now split].
  destruct (pickLargest st) as [[k|] m]; [|intros E; injection E as <-; now split].
  destruct (m =? 0); [intros E; injection E as <-; now split|].
  destruct (spillToDisk_keeps_accounting st k Hacc) as [Hs Hm].
  destruct (spillToDisk sortSlice writeRun st k) as [[err|] st1]; simpl in Hs, Hm.
  - intros E; injection E as <-. now split.
  - intros E. destruct (IH st1 Hs E) as [A B]. split; [exact A | congruence].
Qed.

(** X25.  The accountant stays exact through failed spills: from every
    state with exact accounting, an [Add] returns and leaves the accounting
    exact and the budget unchanged, whether it succeeds or a spill fails
    (for a [sort.Slice] that rearranges the records); on success the total
    is within a non-negative budget, and an error is the cause wrapped by
    "spilling to disk: %w". *)
Theorem Add_keeps_accounting (st : buildState) (k : nat) (record : string) :
  accounted st ->
  exists res st',
    Add sortSlice writeRun st k record = Some (res, st')
    /\ accounted st'
    /\ maxBytes st' = maxBytes st
    /\ (res = None -> 0 <= maxBytes st -> totalBytes st' <= maxBytes st')
    /\ (forall err, res = Some err ->
          exists cause, err = errWrap "spilling to disk" cause).
Proof.
  intros Hacc.
  destruct (Add_total sortSlice writeRun st k record) as [[res st'] Hout].
  exists res, st'. split; [exact Hout|].
  pose proof (addRecord_accounted st k record Hacc) as Hacc1.
  destruct (addRecord_frame st k record) as [Hm1 _].
  assert (Hgen : accounted st' /\ maxBytes st' = maxBytes st).
  { revert Hout. unfold Add, spillUntilUnderLimit.
    destruct (shouldSpill (addRecord st k record));
      [|intros E; injection E as _ <-; auto].
    destruct (spillLoop sortSlice writeRun _ (addRecord st k record))
      as [[[err|] st2]|] eqn:El; try discriminate;
      intros E; injection E as _ <-;
      destruct (spillLoop_keeps_accounting _ _ _ Hacc1 El) as [A B];
      (split; [exact A | simpl in B; congruence]). }
  destruct Hgen as [A B]. split; [exact A|]. split; [exact B|]. split.
  - intros -> Hmax.
    destruct (Add_success sortSlice writeRun st st' k record Hacc Hout)
      as (_ & Hle & _). exact (Hle Hmax).
  - intros err ->. revert Hout. unfold Add.
    destruct (shouldSpill (addRecord st k record)); [|discriminate].
    destruct (spillUntilUnderLimit sortSlice writeRun (addRecord st k record))
      as [[[cause|] st2]|]; try discriminate.
    intros E; injection E as <- _. now exists cause.
Qed.

End FailedSpills.

Lemma insertByFEN_permutes (r : string) (rs : list string) :
  Permutation.Permutation (insertByFEN r rs) (r :: rs).
Proof.
  induction rs as [|r0 rs IH]; simpl; [apply Permutation.Permutation_refl|].
  destruct (strLt _ _); [|apply Permutation.Permutation_refl].
  apply Permutation.perm_trans with (r0 :: r :: rs);
    [now apply Permutation.perm_skip | apply Permutation.perm_swap].
Qed.

Lemma sortByFEN_permutes (rs : list string) :
  Permutation.Permutation (sortByFEN rs) rs.
Proof.
  induction rs as [|r rs IH]; simpl; [apply Permutation.perm_nil|].
  apply Permutation.perm_trans with (r :: sortByFEN rs);
    [apply insertByFEN_permutes | now apply Permutation.perm_skip].
Qed.

(** A file system on which no run file can be written. *)
Definition writeNever (name : runName) (content : string) : option error :=
  Some (errNew "no space left on device").

Lemma Add_keeps_accounting_witness :
  exists res st',
    Add sortByFEN writeNever (newBuild 2 0 "/tmp/build") 0 sampleRecord
    = Some (res, st')
    /\ accounted st'
    /\ maxBytes st' = maxBytes (newBuild 2 0 "/tmp/build")
    /\ (res = None -> 0 <= maxBytes (newBuild 2 0 "/tmp/build") ->
        totalBytes st' <= maxBytes st')
    /\ (forall err, res = Some err ->
          exists cause, err = errWrap "spilling to disk" cause).
Proof.
  apply (Add_keeps_accounting sortByFEN writeNever sortByFEN_permutes
           (newBuild 2 0 "/tmp/build") 0 sampleRecord).
  exact (proj1 (newBuild_accounted 2 0 "/tmp/build")).
Defined.

End SpillFailures.

(** ** No record is lost *)

Module RecordsKept.
Import GoRt builder BuilderSpec.
Import Permutation.

Section Conservation.

Variable sortSlice : list string -> list string.
Variable writeRun : runName -> string -> option error.

Hypothesis sortSlice_permutes : forall rs, Permutation (sortSlice rs) rs.

(** The run files written so far, each with the records it holds. *)
Definition runs : Type := list (runName * list string).

Definition encode (e : runName * list string) : runName * string :=
  (fst e, runFileContent (snd e)).

(** The run files of shard [j], oldest first. *)
Definition runsFor (j : nat) (rs : runs) : runs :=
  filter (fun e => Nat.eqb (runShard (fst e)) j) rs.

(** What the build holds: the files on disk are the encodings of [rs],
    no two under the same name; collector [j] is the one of shard [j],
    lists the run files of shard [j] and numbers its next run above them;
    and the records of its run files together with the records it holds
    in memory are the records added to it, [h j]. *)
Definition keeps (h : nat -> list string) (st : buildState) (rs : runs) : Prop :=
  disk st = map encode rs
  /\ NoDup (map fst rs)
  /\ forall j c, nth_error (collectors st) j = Some c ->
       shardID c = j
       /\ spilledFiles c = map fst (runsFor j rs)
       /\ Forall (fun e => runSeq (fst e) < spillCount c) (runsFor j rs)
       /\ Permutation (List.concat (map snd (runsFor j rs)) ++ records c) (h j).

Definition kept (h : nat -> list string) (st : buildState) : Prop :=
  exists rs, keeps h st rs.

(** The history after one more record for shard [k]. *)
Definition record1 (h : nat -> list string) (k : nat) (record : string)
  : nat -> list string :=
  fun j => if Nat.eqb j k then h j ++ [record] else h j.

Lemma addRecord_keeps (h : nat -> list string) (st : buildState) (k : nat)
    (record : string) (rs : runs) :
  (k < List.length (collectors st))%nat ->
  keeps h st rs -> keeps (record1 h k record) (addRecord st k record) rs.
Proof.
  intros Hk (Hd & Hn & Hc). unfold addRecord.
  destruct (nth_error (collectors st) k) as [c|] eqn:Ek;
    [|apply nth_error_None in Ek; lia].
  split; [exact Hd|]. split; [exact Hn|].
  intros j c'. cbn [collectors trackerAdd setCollector].
  rewrite setNth_nth_error. unfold record1.
  destruct (Nat.eqb_spec j k) as [->|Hne].
  - rewrite Ek. cbn [option_map]. intros E; injection E as <-.
    destruct (Hc k c Ek) as (A & B & D & P).
    cbn [shardID spilledFiles spillCount records].
    do 3 (split; [assumption|]).
    rewrite app_assoc. now apply Permutation_app_tail.
  - intros E. exact (Hc j c' E).
Qed.

Lemma addRecord_kept (h : nat -> list string) (st : buildState) (k : nat)
    (record : string) :
  (k < List.length (collectors st))%nat ->
  kept h st -> kept (record1 h k record) (addRecord st k record).
Proof.
  intros Hk (rs & Hkeeps). exists rs. now apply addRecord_keeps.
Qed.

Lemma runsFor_app (j : nat) (rs rs' : runs) :
  runsFor j (rs ++ rs') = runsFor j rs ++ runsFor j rs'.
Proof. apply filter_app. Qed.

(** The run file a spill of collector [k] adds, if any. *)
Definition spilled (st : buildState) (k : nat) : runs :=
  match nth_error (collectors st) k with
  | None => []
  | Some c =>
      if Nat.eqb (List.length (records c)) 0 then []
      else
        match writeRun (mkRunName (tempDir c) (shardID c) (spillCount c))
                       (runFileContent (sortSlice (records c))) with
        | Some _ => []
        | None => [(mkRunName (tempDir c) (shardID c) (spillCount c),
                    sortSlice (records c))]
        end
  end.

Lemma spillToDisk_keeps (h : nat -> list string) (st : buildState) (k : nat)
    (rs : runs) :
  keeps h st rs ->
  keeps h (snd (spillToDisk sortSlice writeRun st k)) (rs ++ spilled st k).
Proof.
  intros (Hd & Hn & Hc). unfold spillToDisk, spilled.
  destruct (nth_error (collectors st) k) as [c|] eqn:Ek;
    [|rewrite app_nil_r; exact (conj Hd (conj Hn Hc))].
  destruct (Nat.eqb (List.length (records c)) 0);
    [rewrite app_nil_r; exact (conj Hd (conj Hn Hc))|].
  destruct (Hc k c Ek) as (A & B & D & P).
  destruct (writeRun _ _) as [err|]; cbn [snd].
  - rewrite app_nil_r. split; [exact Hd|]. split; [exact Hn|].
    intros j c'. cbn [collectors setCollector]. rewrite setNth_nth_error.
    destruct (Nat.eqb_spec j k) as [->|Hne]; [|apply Hc].
    rewrite Ek. cbn [option_map]. intros E; injection E as <-.
    cbn [shardID spilledFiles spillCount records].
    split; [exact A|]. split; [exact B|]. split.
    + revert D. apply Forall_impl. intros e He. lia.
    + apply Permutation_trans with (List.concat (map snd (runsFor k rs)) ++ records c);
        [|exact P].
      apply Permutation_app_head, sortSlice_permutes.
  - set (name := mkRunName (tempDir c) (shardID c) (spillCount c)).
    assert (Hshard : runShard name = k) by exact A.
    split; [|split].
    + cbn [disk trackerRemove]. rewrite Hd, map_app. reflexivity.
    + rewrite map_app. cbn [map fst]. apply NoDup_app; [exact Hn | | ].
      * constructor; [intros [] | constructor].
      * intros nm Hin [E|[]]. subst nm.
        apply in_map_iff in Hin. destruct Hin as (e & He & Hin).
        assert (Hf : In e (runsFor k rs)).
        { apply filter_In. split; [exact Hin|].
          apply Nat.eqb_eq. now rewrite He. }
        rewrite Forall_forall in D. specialize (D e Hf).
        rewrite He in D. cbn [runSeq name] in D. lia.
    + intros j c'. cbn [collectors trackerRemove]. rewrite setNth_nth_error.
      rewrite runsFor_app. cbn [runsFor filter fst]. rewrite Hshard.
      destruct (Nat.eqb_spec j k) as [->|Hne].
      * rewrite Ek, Nat.eqb_refl. cbn [option_map]. intros E; injection E as <-.
        cbn [shardID spilledFiles spillCount records].
        split; [exact A|]. split; [rewrite map_app, B; reflexivity|]. split.
        -- apply Forall_app. split.
           ++ revert D. apply Forall_impl. intros e He. lia.
           ++ constructor; [cbn [fst runSeq name]; lia | constructor].
        -- rewrite map_app, concat_app. cbn [map snd List.concat].
           rewrite !app_nil_r.
           apply Permutation_trans with (List.concat (map snd (runsFor k rs)) ++ records c);
             [|exact P].
           apply Permutation_app_head, sortSlice_permutes.
      * destruct (Nat.eqb_spec k j) as [E|_]; [congruence|].
        rewrite app_nil_r. apply Hc.
Qed.

Lemma spillToDisk_kept (h : nat -> list string) (st : buildState) (k : nat) :
  kept h st -> kept h (snd (spillToDisk sortSlice writeRun st k)).
Proof.
  intros (rs & Hkeeps). exists (rs ++ spilled st k). now apply spillToDisk_keeps.
Qed.

Lemma spillLoop_kept (h : nat -> list string) (fuel : nat) (st : buildState)
    (out : option error * buildState) :
  kept h st ->
  spillLoop sortSlice writeRun fuel st = Some out ->
  kept h (snd out).
Proof.
  revert st; induction fuel as [|fuel IH]; intros st Hk; simpl; [discriminate|].
  destruct (shouldSpill st); [|intros E; injection E as <-; exact Hk].
  destruct (pickLargest st) as [[k|] m]; [|intros E; injection E as <-; exact Hk].
  destruct (m =? 0)%Z; [intros E; injection E as <-; exact Hk|].
  pose proof (spillToDisk_kept h st k Hk) as Hs.
  destruct (spillToDisk sortSlice writeRun st k) as [[err|] st1]; simpl in Hs.
  - intros E; injection E as <-. exact Hs.
  - intros E. exact (IH st1 Hs E).
Qed.

Lemma Add_kept (h : nat -> list string) (st st' : buildState) (k : nat)
    (record : string) (res : option error) :
  (k < List.length (collectors st))%nat ->
  kept h st ->
  Add sortSlice writeRun st k record = Some (res, st') ->
  kept (record1 h k record) st'.
Proof.
  intros Hk Hkept. pose proof (addRecord_kept h st k record Hk Hkept) as H1.
  unfold Add, spillUntilUnderLimit.
  destruct (shouldSpill (addRecord st k record));
    [|intros E; injection E as _ <-; exact H1].
  destruct (spillLoop sortSlice writeRun _ (addRecord st k record))
    as [[[err|] st2]|] eqn:El; try discriminate;
    intros E; injection E as _ <-;
    exact (spillLoop_kept _ _ _ _ H1 El).
Qed.

Lemma newBuild_kept (totalShards : nat) (maxMemoryMB : Z) (tempDir : string) :
  kept (fun _ => []) (newBuild totalShards maxMemoryMB tempDir).
Proof.
  exists []. split; [reflexivity|]. split; [constructor|].
  intros j c. unfold newBuild. cbn [collectors].
  intros E.
  assert (Hj : (j < totalShards)%nat).
  { assert (Hl : (j < List.length (map (fun i => newShardCollector i tempDir)
                                          (seq 0 totalShards)))%nat)
      by (apply nth_error_Some; rewrite E; discriminate).
    now rewrite length_map, length_seq in Hl. }
  rewrite nth_error_map, nth_error_seq in E.
  destruct (Nat.ltb_spec j totalShards) as [_|]; [|lia].
  cbn [option_map] in E. injection E as <-.
  cbn [newShardCollector shardID spilledFiles spillCount records runsFor filter map
       List.concat app].
  repeat split; constructor.
Qed.

(** The states of a build with the records added to each shard: every
    [Add] that returns counts, those that return an error included. *)
Inductive built : (nat -> list string) -> buildState -> Prop :=
| built_new (totalShards : nat) (maxMemoryMB : Z) (tempDir : string) :
    built (fun _ => []) (newBuild totalShards maxMemoryMB tempDir)
| built_add (h : nat -> list string) (st : buildState) (k : nat)
    (record : string) (res : option error) (st' : buildState) :
    built h st ->
    (k < List.length (collectors st))%nat ->
    Add sortSlice writeRun st k record = Some (res, st') ->
    built (record1 h k record) st'.

(** X29.  No record is lost in the partition phase: in every state
    reached from a fresh build by [Add]s that return (those that return
    an error included), the run files on disk have pairwise different
    names, every collector lists exactly the run files of its shard, and
    the records in those files together with the records it holds in
    memory are, up to order, the records added to it (for a [sort.Slice]
    that rearranges the records). *)
Theorem records_conserved (h : nat -> list string) (st : buildState) :
  built h st -> kept h st.
Proof.
  induction 1 as [n mb dir | h st k record res st' _ IH Hk Hadd].
  - apply newBuild_kept.
  - exact (Add_kept h st st' k record res Hk IH Hadd).
Qed.

End Conservation.

Lemma records_conserved_witness :
  kept (record1 (fun _ => []) 0 sampleRecord) sampleBuild.
Proof.
  apply (records_conserved sortByFEN writeAlways SpillFailures.sortByFEN_permutes).
  apply (built_add sortByFEN writeAlways (fun _ => []) (newBuild 2 0 "/tmp/build") 0
           sampleRecord None sampleBuild).
  - apply built_new.
  - simpl. lia.
  - vm_compute. reflexivity.
Defined.

End RecordsKept.



(* ===================================================================== *)
(** * Package stockpile, continued: mate detection                        *)
(* ===================================================================== *)

Module stockpileEval.
Import GoRt stockpile.

(** [PV.IsMate] returns true if this PV is a forced checkmate. *)
Definition IsMate (pv : PV) : bool :=
  match Mate pv with
  | Some _ => true
  | None => false
  end.

(** [Eval.IsMate] returns true if the best line is a forced checkmate. *)
Definition EvalIsMate (e : Eval) : bool :=
  match BestPV e with
  | Some pv =>
      match Mate pv with
      | Some _ => true
      | None => false
      end
  | None => false
  end.

End stockpileEval.

(** ** The client: lookups end to end *)

Module ClientMore.
Import GoRt SearchSpec SearchMore.
Local Open Scope string_scope.

(** The first byte of a score. *)
Definition startsWith (c : ascii) (s : string) : bool :=
  match s with
  | String c0 _ => Ascii.eqb c0 c
  | EmptyString => false
  end.

Lemma Score_first_byte (pv : stockpile.PV) :
  startsWith "#" (stockpile.Score pv) = stockpileEval.IsMate pv.
Proof.
  unfold stockpile.Score, stockpileEval.IsMate.
  destruct (stockpile.Mate pv) as [mate|]; [reflexivity|].
  destruct (stockpile.Centipawns pv) as [cp|]; [|reflexivity].
  destruct (cp <? 0)%Z;
    match goal with |- context [if ?b then _ else _] => destruct b end;
    reflexivity.
Qed.

(** X14.  [IsMate] and [Score] agree: the score of an evaluation starts
    with "#" exactly when [IsMate] reports a forced mate, and otherwise it
    starts with "?", "+" or "-". *)
Theorem IsMate_iff_Score (e : stockpile.Eval) :
  startsWith "#" (stockpile.EvalScore e) = stockpileEval.EvalIsMate e
  /\ (stockpileEval.EvalIsMate e = false ->
      startsWith "?" (stockpile.EvalScore e) = true
      \/ startsWith "+" (stockpile.EvalScore e) = true
      \/ startsWith "-" (stockpile.EvalScore e) = true).
Proof.
  unfold stockpile.EvalScore, stockpileEval.EvalIsMate.
  destruct (stockpile.BestPV e) as [pv|]; [|split; [reflexivity | now left]].
  split; [exact (Score_first_byte pv)|].
  unfold stockpile.Score.
  destruct (stockpile.Mate pv) as [mate|]; [discriminate|]. intros _.
  destruct (stockpile.Centipawns pv) as [cp|]; [|now left]. right.
  destruct (cp <? 0)%Z;
    match goal with |- context [if ?b then _ else _] => destruct b end;
    [right | right | left | left]; reflexivity.
Qed.

Section WithCollaborators.

Context {S C : Type} `{store.Store S} `{stats.Collector C}.
Variable json_Unmarshal : string -> result search.EvalRecord.

(** The client after a lookup that read the store: the store as the read
    left it and the metrics sink after the counters named. *)
Definition after (c : stockpile.Client S C) (s1 : S) (counters : list string)
  : stockpile.Client S C :=
  stockpile.mkClient (Some s1) (stockpile.shardStrategy c)
    (stockpile.totalShards c)
    (fold_left (fun st name => stats.IncCounter st name 1) counters
       (stockpile.stats_ c))
    (stockpile.closed c).

Lemma Lookup_fetched (c : stockpile.Client S C) (ctx : Context) (fen : string)
    (s s1 : S) (id : Z) (r : result string) :
  stockpile.closed c = false ->
  stockpile.store_ c = Some s ->
  shard.ShardID (stockpile.shardStrategy c) fen (stockpile.totalShards c)
  = Returns id ->
  store.ReadShard s ctx id = (r, s1) ->
  stockpile.Lookup json_Unmarshal c ctx fen
  = match r with
    | Err err =>
        Returns (Err (errWrap ("fetching shard " ++ Itoa id) err),
                 after c s1 [stats.MetricLookups; stats.MetricShardFetches])
    | Ok data =>
        match stockpile.searchShard json_Unmarshal data fen with
        | Err err =>
            if errorsIs err stockpile.ErrNotFound
            then Returns (Err err,
                          after c s1 [stats.MetricLookups; stats.MetricShardFetches;
                                      stats.MetricMisses])
            else Returns (Err err,
                          after c s1 [stats.MetricLookups; stats.MetricShardFetches])
        | Ok eval =>
            Returns (Ok eval,
                     after c s1 [stats.MetricLookups; stats.MetricShardFetches;
                                 stats.MetricHits])
        end
    end.
Proof.
  intros Hc Hs Hid Hr. unfold stockpile.Lookup, stockpile.fetchShard, after.
  destruct c as [st strat N col cl]; simpl in *. subst cl st.
  rewrite Hid, Hr. destruct r as [data|err]; [|reflexivity].
  destruct (stockpile.searchShard json_Unmarshal data fen) as [eval|err];
    [reflexivity|].
  destruct (errorsIs err stockpile.ErrNotFound); reflexivity.
Qed.

(** X15.  A lookup end to end, on an open client: when the strategy
    sends the position to shard [id], the store returns data for [id]
    whose non-empty lines are sorted by fingerprint, some line carries the
    position and the lines that carry it parse, [Lookup] returns the
    evaluation converted from the parse of a line that carries the
    position, and counts one lookup, one shard fetch and one hit.  The
    position is compared byte for byte, as given. *)
Theorem Lookup_finds (c : stockpile.Client S C) (ctx : Context) (fen : string)
    (s s1 : S) (id : Z) (data line : string) :
  stockpile.closed c = false ->
  stockpile.store_ c = Some s ->
  shard.ShardID (stockpile.shardStrategy c) fen (stockpile.totalShards c)
  = Returns id ->
  store.ReadShard s ctx id = (Ok data, s1) ->
  sortedByFEN (nonEmptyLines data) ->
  In line (nonEmptyLines data) ->
  search.extractFEN line = fen ->
  (forall l, In l (nonEmptyLines data) -> search.extractFEN l = fen ->
             exists record, json_Unmarshal l = Ok record) ->
  exists line' record,
    In line' (nonEmptyLines data)
    /\ search.extractFEN line' = fen
    /\ json_Unmarshal line' = Ok record
    /\ stockpile.Lookup json_Unmarshal c ctx fen
       = Returns (Ok (stockpile.recordToEval record),
                  after c s1 [stats.MetricLookups; stats.MetricShardFetches;
                              stats.MetricHits]).
Proof.
  intros Hc Hs Hid Hr Hsorted Hin Hfen Hjson.
  destruct (probe_hits data fen line Hsorted Hin Hfen) as [Hlt Hmatch].
  set (line' := nth (probe data fen) (nonEmptyLines data) "") in *.
  assert (Hin' : In line' (nonEmptyLines data)) by (apply nth_In; exact Hlt).
  destruct (Hjson line' Hin' Hmatch) as [record Hrec].
  exists line', record. do 3 (split; [assumption|]).
  rewrite (Lookup_fetched c ctx fen s s1 id (Ok data) Hc Hs Hid Hr).
  unfold stockpile.searchShard. rewrite Search_probe. fold line'.
  apply Nat.ltb_lt in Hlt. rewrite Hlt, Hmatch, String.eqb_refl. cbn [andb].
  unfold decodeMatched. rewrite Hrec. reflexivity.
Qed.

(** X16.  When the shard is read but no line of it carries the position,
    [Lookup] returns [ErrNotFound] itself (not wrapped) and counts one
    lookup, one shard fetch and one miss. *)
Theorem Lookup_absent (c : stockpile.Client S C) (ctx : Context) (fen : string)
    (s s1 : S) (id : Z) (data : string) :
  stockpile.closed c = false ->
  stockpile.store_ c = Some s ->
  shard.ShardID (stockpile.shardStrategy c) fen (stockpile.totalShards c)
  = Returns id ->
  store.ReadShard s ctx id = (Ok data, s1) ->
  (forall l, In l (nonEmptyLines data) -> search.extractFEN l <> fen) ->
  stockpile.Lookup json_Unmarshal c ctx fen
  = Returns (Err stockpile.ErrNotFound,
             after c s1 [stats.MetricLookups; stats.MetricShardFetches;
                         stats.MetricMisses]).
Proof.
  intros Hc Hs Hid Hr Hno.
  rewrite (Lookup_fetched c ctx fen s s1 id (Ok data) Hc Hs Hid Hr).
  unfold stockpile.searchShard. rewrite Search_probe.
  set (lines := nonEmptyLines data) in *. set (idx := probe data fen).
  assert (Hmiss : Nat.ltb idx (List.length lines)
                  && String.eqb (search.extractFEN (nth idx lines "")) fen = false).
  { destruct (Nat.ltb_spec idx (List.length lines)) as [Hlt|Hge]; [|reflexivity].
    cbn [andb]. apply String.eqb_neq. apply Hno. apply nth_In. exact Hlt. }
  rewrite Hmiss. reflexivity.
Qed.

(** X17.  When the store fails to return the shard, [Lookup] returns the
    store's error wrapped by "fetching shard <id>: %w" and counts neither a
    hit nor a miss; the error [errors.Is] the store's, and it is
    [ErrNotFound] of this package only if the store's error is.  A shard
    the store does not have is thus reported as the store's
    [ErrNotFound], not as a position that was not found. *)
Theorem Lookup_fetch_error (c : stockpile.Client S C) (ctx : Context)
    (fen : string) (s s1 : S) (id : Z) (e : error) :
  stockpile.closed c = false ->
  stockpile.store_ c = Some s ->
  shard.ShardID (stockpile.shardStrategy c) fen (stockpile.totalShards c)
  = Returns id ->
  store.ReadShard s ctx id = (Err e, s1) ->
  exists err,
    stockpile.Lookup json_Unmarshal c ctx fen
    = Returns (Err err, after c s1 [stats.MetricLookups; stats.MetricShardFetches])
    /\ errorsIs err e = true
    /\ errorsIs err stockpile.ErrNotFound = errorsIs e stockpile.ErrNotFound
    /\ (e = store.ErrNotFound -> errorsIs err stockpile.ErrNotFound = false).
Proof.
  intros Hc Hs Hid Hr.
  exists (errWrap ("fetching shard " ++ Itoa id) e).
  split; [exact (Lookup_fetched c ctx fen s s1 id (Err e) Hc Hs Hid Hr)|].
  split; [|split].
  - unfold errorsIs; fold errorsIs.
    rewrite (ClientSpec.errorsIs_refl e). apply orb_true_r.
  - reflexivity.
  - intros ->. reflexivity.
Qed.

(** X18.  A client configured with a shard count that is zero (or any
    other multiple of 2^32) panics on every lookup with an integer
    division by zero, under both strategies, before the store is read. *)
Theorem Lookup_divide_by_zero (c : stockpile.Client S C) (ctx : Context)
    (fen : string) :
  stockpile.closed c = false ->
  (stockpile.shardStrategy c = shard.material
   \/ stockpile.shardStrategy c = shard.fnv32) ->
  (stockpile.totalShards c mod 2 ^ 32 = 0)%Z ->
  stockpile.Lookup json_Unmarshal c ctx fen
  = Panics "runtime error: integer divide by zero".
Proof.
  intros Hc Hstrat HN. unfold stockpile.Lookup. rewrite Hc.
  cbn [stockpile.shardStrategy stockpile.totalShards stockpile.withStats].
  assert (Hu : u32 (stockpile.totalShards c) = 0%Z) by exact HN.
  destruct Hstrat as [-> | ->]; cbn [shard.ShardID shard.material shard.fnv32].
  - unfold materialshard.ShardID, materialshard.hashFallback.
    destruct (fen.ParseMaterial fen); cbv zeta; rewrite Hu; reflexivity.
  - unfold fnvshard.ShardID. rewrite Hu. reflexivity.
Qed.

End WithCollaborators.

(** A client over an in-memory store that holds the sample shard as its
    only shard. *)
Definition sampleStore : memstore.Store :=
  memstore.SetShard memstore.New 0 sampleShard.

Definition oneShardClient : stockpile.Client memstore.Store stats.Noop :=
  stockpile.mkClient (Some sampleStore) shard.material 1 tt false.

Lemma Lookup_finds_witness :
  exists line' record,
    In line' (nonEmptyLines sampleShard)
    /\ search.extractFEN line' = "8/8/8/8/8/8/8/8 b - -"
    /\ sampleJSON line' = Ok record
    /\ stockpile.Lookup sampleJSON oneShardClient Background "8/8/8/8/8/8/8/8 b - -"
       = Returns (Ok (stockpile.recordToEval record),
                  after oneShardClient sampleStore
                    [stats.MetricLookups; stats.MetricShardFetches;
                     stats.MetricHits]).
Proof.
  apply (Lookup_finds sampleJSON oneShardClient Background "8/8/8/8/8/8/8/8 b - -"
           sampleStore sampleStore 0 sampleShard
           (sampleLine "8/8/8/8/8/8/8/8 b - -")).
  - reflexivity.
  - reflexivity.
  - reflexivity.
  - reflexivity.
  - unfold sortedByFEN. cbv [nonEmptyLines sampleShard].
    repeat (constructor; try reflexivity).
  - vm_compute. left. reflexivity.
  - reflexivity.
  - intros l _ _. eexists. reflexivity.
Defined.

Lemma Lookup_absent_witness :
  stockpile.Lookup sampleJSON oneShardClient Background "8/8/8/8/8/8/8/8 w K -"
  = Returns (Err stockpile.ErrNotFound,
             after oneShardClient sampleStore
               [stats.MetricLookups; stats.MetricShardFetches; stats.MetricMisses]).
Proof.
  apply (Lookup_absent sampleJSON oneShardClient Background "8/8/8/8/8/8/8/8 w K -"
           sampleStore sampleStore 0 sampleShard).
  - reflexivity.
  - reflexivity.
  - reflexivity.
  - reflexivity.
  - intros l Hin. vm_compute in Hin.
    destruct Hin as [<-|[<-|[]]]; vm_compute; discriminate.
Defined.

Lemma Lookup_fetch_error_witness :
  exists err,
    stockpile.Lookup sampleJSON ClientSpec.sampleClient Background
      "8/8/8/8/8/8/8/8 w - -"
    = Returns (Err err,
               after ClientSpec.sampleClient memstore.New
                 [stats.MetricLookups; stats.MetricShardFetches])
    /\ errorsIs err store.ErrNotFound = true
    /\ errorsIs err stockpile.ErrNotFound
       = errorsIs store.ErrNotFound stockpile.ErrNotFound
    /\ (store.ErrNotFound = store.ErrNotFound ->
        errorsIs err stockpile.ErrNotFound = false).
Proof.
  apply (Lookup_fetch_error sampleJSON ClientSpec.sampleClient Background
           "8/8/8/8/8/8/8/8 w - -" memstore.New memstore.New 0 store.ErrNotFound);
    reflexivity.
Defined.

Lemma Lookup_divide_by_zero_witness :
  stockpile.Lookup sampleJSON
    (stockpile.mkClient (Some sampleStore) shard.material 0 tt false)
    Background "8/8/8/8/8/8/8/8 w - -"
  = Panics "runtime error: integer divide by zero".
Proof.
  apply (Lookup_divide_by_zero sampleJSON
           (stockpile.mkClient (Some sampleStore) shard.material 0 tt false)
           Background "8/8/8/8/8/8/8/8 w - -").
  - reflexivity.
  - left. reflexivity.
  - reflexivity.
Defined.

End ClientMore.

(** ** Scores tell evaluations apart *)

Module ScoreMore.
Import GoRt StringFacts ScoreSpec.
Local Open Scope string_scope.

Lemma Itoa_inj (a b : Z) : Itoa a = Itoa b -> a = b.
Proof.
  unfold Itoa. intros E.
  assert (Hn : forall z, Z.to_int z <> Decimal.Pos Decimal.Nil
                         /\ Z.to_int z <> Decimal.Neg Decimal.Nil).
  { intros z. pose proof (DecimalZ.of_to z) as Hz.
    split; intros Hd; rewrite Hd in Hz; cbn in Hz; subst z; discriminate Hd. }
  apply (f_equal NilZero.int_of_string) in E.
  rewrite !NilZero.isi in E by apply Hn.
  injection E as E. apply (f_equal Z.of_int) in E.
  now rewrite !DecimalZ.of_to in E.
Qed.

Lemma digit_inj (a b : Z) :
  (0 <= a <= 9)%Z -> (0 <= b <= 9)%Z -> digit a = digit b -> a = b.
Proof.
  unfold digit. intros Ha Hb E. apply (f_equal N_of_ascii) in E.
  rewrite !N_ascii_embedding in E by lia. lia.
Qed.

Lemma twoDigits_inj (a b : Z) :
  (0 <= a < 100)%Z -> (0 <= b < 100)%Z -> twoDigits a = twoDigits b -> a = b.
Proof.
  unfold twoDigits. intros Ha Hb E. injection E as E1 E0.
  apply digit_inj in E1; [|Z.div_mod_to_equations; lia..].
  apply digit_inj in E0; [|Z.div_mod_to_equations; lia..].
  Z.div_mod_to_equations. lia.
Qed.

Lemma sapp_inv_length (a b c d : string) :
  a ++ c = b ++ d -> String.length c = String.length d -> a = b /\ c = d.
Proof.
  intros E Hl.
  assert (La : String.length a = String.length b).
  { apply (f_equal String.length) in E. rewrite !slength_app in E. lia. }
  revert b E La; induction a as [|x a IH]; intros [|y b] E La; try discriminate.
  - now split.
  - simpl in E. injection E as -> E. simpl in La.
    destruct (IH b E ltac:(lia)) as [-> ->]. now split.
Qed.

Lemma pawns_inj (a b : Z) : pawns a = pawns b -> a = b.
Proof.
  unfold pawns. intros E.
  assert (Hsign : (a <? 0)%Z = (b <? 0)%Z).
  { destruct (a <? 0)%Z, (b <? 0)%Z; try reflexivity; discriminate E. }
  assert (Hbody : Itoa (Z.abs a / 100) ++ "." ++ twoDigits (Z.abs a mod 100)
                  = Itoa (Z.abs b / 100) ++ "." ++ twoDigits (Z.abs b mod 100)).
  { rewrite Hsign in E. destruct (b <? 0)%Z; cbn [append] in E;
      injection E as E; exact E. }
  apply sapp_inv_length in Hbody; [|reflexivity].
  destruct Hbody as [Hq Hf]. apply Itoa_inj in Hq.
  apply sapp_inv_head in Hf.
  pose proof (Z.mod_pos_bound (Z.abs a) 100 ltac:(lia)).
  pose proof (Z.mod_pos_bound (Z.abs b) 100 ltac:(lia)).
  assert (Hm : (Z.abs a mod 100 = Z.abs b mod 100)%Z).
  { apply twoDigits_inj; [lia | lia | exact Hf]. }
  assert (Habs : Z.abs a = Z.abs b).
  { rewrite (Z.div_mod (Z.abs a) 100), (Z.div_mod (Z.abs b) 100) by lia.
    now rewrite Hq, Hm. }
  destruct (Z.ltb_spec a 0), (Z.ltb_spec b 0); try discriminate; lia.
Qed.

(** The evaluation a score is printed from: the mate distance, or else
    the centipawns. *)
Definition verdict (pv : stockpile.PV) : option Z * option Z :=
  match stockpile.Mate pv with
  | Some mate => (Some mate, None)
  | None => (None, stockpile.Centipawns pv)
  end.

(** The centipawns, if they are printed, are not the least [int]. *)
Definition printable (pv : stockpile.PV) : Prop :=
  stockpile.Mate pv = None ->
  forall cp, stockpile.Centipawns pv = Some cp -> (minInt < cp <= maxInt)%Z.

Lemma Score_centipawns (cp : Z) (line : string) :
  (minInt < cp <= maxInt)%Z ->
  stockpile.Score (stockpile.mkPV (Some cp) None line) = pawns cp.
Proof.
  intros Hcp. unfold stockpile.Score, pawns.
  cbn [stockpile.Mate stockpile.Centipawns].
  destruct (Z.ltb_spec cp 0) as [Hneg|Hpos].
  - rewrite i64_small by (unfold minInt, maxInt in *; lia).
    rewrite Z.quot_div_nonneg, Z.rem_mod_nonneg by lia.
    replace (Z.abs cp) with (- cp)%Z by lia.
    pose proof (Z.mod_pos_bound (- cp) 100 ltac:(lia)) as Hb.
    rewrite <- (fraction_two_digits ((- cp) mod 100) Hb).
    destruct ((- cp) mod 100 <? 10)%Z; reflexivity.
  - rewrite Z.quot_div_nonneg, Z.rem_mod_nonneg by lia.
    replace (Z.abs cp) with cp by lia.
    pose proof (Z.mod_pos_bound cp 100 ltac:(lia)) as Hb.
    rewrite <- (fraction_two_digits (cp mod 100) Hb).
    destruct (cp mod 100 <? 10)%Z; reflexivity.
Qed.

Lemma Score_verdict (pv : stockpile.PV) :
  printable pv ->
  stockpile.Score pv
  = match verdict pv with
    | (Some mate, _) => "#" ++ Itoa mate
    | (None, Some cp) => pawns cp
    | (None, None) => "?"
    end.
Proof.
  intros Hp. unfold verdict. destruct pv as [cp mate line]. unfold printable in Hp.
  cbn [stockpile.Mate stockpile.Centipawns] in *.
  destruct mate as [mate|]; [reflexivity|].
  destruct cp as [cp|]; [|reflexivity].
  apply Score_centipawns. exact (Hp eq_refl cp eq_refl).
Qed.

Lemma pawns_sign (cp : Z) :
  exists rest, pawns cp = String "+" rest \/ pawns cp = String "-" rest.
Proof.
  unfold pawns. destruct (cp <? 0)%Z; eexists; [right | left]; reflexivity.
Qed.

(** X26.  Different evaluations print differently: two PVs with the same
    score string have the same mate distance, or both none and the same
    centipawns (for centipawns other than the least [int]). *)
Theorem Score_injective (pv1 pv2 : stockpile.PV) :
  printable pv1 -> printable pv2 ->
  stockpile.Score pv1 = stockpile.Score pv2 ->
  verdict pv1 = verdict pv2.
Proof.
  intros H1 H2. rewrite (Score_verdict pv1 H1), (Score_verdict pv2 H2).
  unfold verdict.
  destruct (stockpile.Mate pv1) as [m1|], (stockpile.Mate pv2) as [m2|].
  - intros E. apply sapp_inv_head in E. apply Itoa_inj in E. now subst.
  - destruct (stockpile.Centipawns pv2) as [c2|]; intros E; exfalso;
      [destruct (pawns_sign c2) as [r [Hr|Hr]]; rewrite Hr in E|]; discriminate E.
  - destruct (stockpile.Centipawns pv1) as [c1|]; intros E; exfalso;
      [destruct (pawns_sign c1) as [r [Hr|Hr]]; rewrite Hr in E|]; discriminate E.
  - destruct (stockpile.Centipawns pv1) as [c1|],
             (stockpile.Centipawns pv2) as [c2|]; intros E.
    + apply pawns_inj in E. now subst.
    + exfalso. destruct (pawns_sign c1) as [r [Hr|Hr]]; rewrite Hr in E;
        discriminate E.
    + exfalso. destruct (pawns_sign c2) as [r [Hr|Hr]]; rewrite Hr in E;
        discriminate E.
    + reflexivity.
Qed.

Lemma Score_injective_witness :
  verdict (stockpile.mkPV (Some 125%Z) None "e2e4")
  = verdict (stockpile.mkPV (Some 125%Z) None "d2d4").
Proof.
  apply (Score_injective (stockpile.mkPV (Some 125%Z) None "e2e4")
           (stockpile.mkPV (Some 125%Z) None "d2d4")).
  - intros _ cp E. injection E as <-. unfold minInt, maxInt. lia.
  - intros _ cp E. injection E as <-. unfold minInt, maxInt. lia.
  - reflexivity.
Defined.

End ScoreMore.


(** ** The cache over many reads *)

Module CacheMore.
Import GoRt CacheSpec.
Local Open Scope Z_scope.

Section Reads.

Context {U T C : Type}
        `{store.Store U} `{cachestrategy.Strategy T} `{stats.Collector C}.

(** The cached store after the reads [reqs], one after the other. *)
Fixpoint readAll (s : Cached) (reqs : list (Context * Z)) : Cached :=
  match reqs with
  | [] => s
  | (ctx, id) :: rest => readAll (snd (cachedstore.ReadShard s ctx id)) rest
  end.

(** One read counts one hit or one miss. *)
Lemma ReadShard_counts (s : Cached) (ctx : Context) (id : Z) :
  let s' := snd (cachedstore.ReadShard s ctx id) in
  (hitCount s' = i64 (hitCount s + 1) /\ missCount s' = missCount s)
  \/ (hitCount s' = hitCount s /\ missCount s' = i64 (missCount s + 1)).
Proof.
  unfold cachedstore.ReadShard, hitCount, missCount.
  destruct s as [u [t col h m]]; simpl. unfold memory.Get; simpl.
  destruct (cachestrategy.Get t id) as [[data|] t1]; simpl; [now left|].
  right. destruct (store.ReadShard u ctx id) as [[data|err] u1]; simpl.
  - unfold memory.Set_; simpl.
    destruct (cachestrategy.Add t1 id data) as [ev t2]; simpl. auto.
  - auto.
Qed.

(** X19.  Every read of the cached store is counted once, as a hit or as
    a miss: after any sequence of reads the two counters have not
    decreased and their sum has grown by the number of reads (as long as
    that sum fits the 64-bit counters). *)
Theorem hits_plus_misses (s : Cached) (reqs : list (Context * Z)) :
  0 <= hitCount s -> 0 <= missCount s ->
  hitCount s + missCount s + Z.of_nat (List.length reqs) <= maxInt ->
  0 <= hitCount (readAll s reqs) /\ 0 <= missCount (readAll s reqs)
  /\ hitCount s <= hitCount (readAll s reqs)
  /\ missCount s <= missCount (readAll s reqs)
  /\ hitCount (readAll s reqs) + missCount (readAll s reqs)
     = hitCount s + missCount s + Z.of_nat (List.length reqs).
Proof.
  revert s; induction reqs as [|[ctx id] rest IH]; intros s Hh Hm Hsum.
  - simpl. lia.
  - cbn [readAll]. cbn [List.length] in Hsum.
    pose proof (ReadShard_counts s ctx id) as Hstep. cbv zeta in Hstep.
    set (s1 := snd (cachedstore.ReadShard s ctx id)) in *.
    unfold maxInt in *.
    assert (Hs1 : 0 <= hitCount s1 /\ 0 <= missCount s1
                  /\ hitCount s <= hitCount s1 /\ missCount s <= missCount s1
                  /\ hitCount s1 + missCount s1 = hitCount s + missCount s + 1).
    { destruct Hstep as [[Hh1 Hm1]|[Hh1 Hm1]]; rewrite Hh1, Hm1;
        rewrite ScoreSpec.i64_small by (unfold minInt, maxInt; lia); lia. }
    destruct Hs1 as (A & B & D & E & F).
    destruct (IH s1 A B ltac:(lia)) as (A' & B' & D' & E' & F').
    cbn [List.length]. lia.
Qed.

(** *** A shard read once is read from the cache afterwards *)

Section Laws.

(** What the cached store needs of an eviction strategy, on the states
    [inv] singles out: a key found or added is found by the next [Get]. *)
Variable inv : T -> Prop.

Hypothesis Get_inv : forall t k, inv t -> inv (snd (cachestrategy.Get t k)).
Hypothesis Get_Get :
  forall t k v, inv t -> fst (cachestrategy.Get t k) = Some v ->
                fst (cachestrategy.Get (snd (cachestrategy.Get t k)) k) = Some v.
Hypothesis Add_Get :
  forall t k v, inv t ->
                fst (cachestrategy.Get (snd (cachestrategy.Add t k v)) k) = Some v.

(** X20.  After a read that returned a shard's bytes, the next read of
    the same shard returns the same bytes from the cache without touching
    the underlying store, under any context (a cancelled one included),
    for every eviction strategy that finds again what it has just found
    or added. *)
Theorem cached_read_repeats (s s' : Cached) (ctx ctx' : Context) (id : Z)
    (data : string) :
  inv (policy s) ->
  cachedstore.ReadShard s ctx id = (Ok data, s') ->
  fst (cachedstore.ReadShard s' ctx' id) = Ok data
  /\ cachedstore.underlying (snd (cachedstore.ReadShard s' ctx' id))
     = cachedstore.underlying s'.
Proof.
  intros Hinv Hread.
  assert (Hhit : fst (cachestrategy.Get (policy s') id) = Some data).
  { revert Hread. unfold cachedstore.ReadShard, policy in *.
    destruct s as [u [t col h m]]; simpl in *. unfold memory.Get; simpl.
    pose proof (Get_inv t id Hinv) as Hinv1.
    pose proof (Get_Get t id) as Hgg.
    destruct (cachestrategy.Get t id) as [[d|] t1]; simpl in *.
    - intros E; injection E as <- <-. simpl. now apply Hgg.
    - destruct (store.ReadShard u ctx id) as [[d|err] u1]; [|discriminate].
      intros E; injection E as <- <-. unfold memory.Set_; simpl.
      pose proof (Add_Get t1 id d Hinv1) as Hag.
      destruct (cachestrategy.Add t1 id d) as [ev t2]; simpl in *. exact Hag. }
  unfold cachedstore.ReadShard, policy in *.
  destruct s' as [u' [t' col' h' m']]; simpl in *. unfold memory.Get; simpl.
  destruct (cachestrategy.Get t' id) as [[d|] t1]; simpl in *; [|discriminate].
  injection Hhit as ->. split; reflexivity.
Qed.

End Laws.

End Reads.

(** The laws hold of the LRU strategy with room for at least one entry. *)
Definition hasRoom (t : lru.Strategy) : Prop := (1 <= lru.size t)%nat.

Lemma lru_find_head (es : list (Z * string)) (k : Z) (v : string) :
  lru.find ((k, v) :: es) k = Some v.
Proof. simpl. now rewrite Z.eqb_refl. Qed.

Lemma lru_Get_inv (t : lru.Strategy) (k : Z) :
  hasRoom t -> hasRoom (snd (cachestrategy.Get t k)).
Proof.
  unfold hasRoom. cbn [cachestrategy.Get lru.lruStrategy]. unfold lru.Get.
  destruct (lru.find (lru.entries t) k); auto.
Qed.

Lemma lru_Get_Get (t : lru.Strategy) (k : Z) (v : string) :
  hasRoom t -> fst (cachestrategy.Get t k) = Some v ->
  fst (cachestrategy.Get (snd (cachestrategy.Get t k)) k) = Some v.
Proof.
  intros _. cbn [cachestrategy.Get lru.lruStrategy]. unfold lru.Get.
  destruct (lru.find (lru.entries t) k) as [v0|] eqn:Ef; [|discriminate].
  cbn [fst snd lru.entries]. intros E; injection E as ->.
  now rewrite lru_find_head.
Qed.

Lemma lru_Add_Get (t : lru.Strategy) (k : Z) (v : string) :
  hasRoom t ->
  fst (cachestrategy.Get (snd (cachestrategy.Add t k v)) k) = Some v.
Proof.
  unfold hasRoom. intros Hroom.
  cbn [cachestrategy.Get cachestrategy.Add lru.lruStrategy]. unfold lru.Add, lru.Get.
  destruct (lru.find (lru.entries t) k) as [v0|] eqn:Ef; cbn [snd lru.entries].
  - now rewrite lru_find_head.
  - destruct (Nat.ltb_spec (lru.size t) (List.length ((k, v) :: lru.entries t)))
      as [Hfull|_]; cbn [snd lru.entries].
    + destruct (lru.entries t) as [|e es] eqn:Ee; [simpl in Hfull; lia|].
      change (removelast ((k, v) :: e :: es)) with ((k, v) :: removelast (e :: es)).
      now rewrite lru_find_head.
    + now rewrite lru_find_head.
Qed.

Lemma hits_plus_misses_witness :
  0 <= hitCount (readAll coldCache [(Background, 7); (Background, 7)])
  /\ 0 <= missCount (readAll coldCache [(Background, 7); (Background, 7)])
  /\ hitCount coldCache <= hitCount (readAll coldCache [(Background, 7); (Background, 7)])
  /\ missCount coldCache
     <= missCount (readAll coldCache [(Background, 7); (Background, 7)])
  /\ hitCount (readAll coldCache [(Background, 7); (Background, 7)])
     + missCount (readAll coldCache [(Background, 7); (Background, 7)])
     = hitCount coldCache + missCount coldCache + Z.of_nat 2.
Proof.
  apply (hits_plus_misses coldCache [(Background, 7); (Background, 7)]);
    vm_compute; discriminate.
Defined.

Lemma cached_read_repeats_witness :
  fst (cachedstore.ReadShard warmCache (Some Canceled) 1) = Ok "shard data"%string
  /\ cachedstore.underlying (snd (cachedstore.ReadShard warmCache (Some Canceled) 1))
     = cachedstore.underlying warmCache.
Proof.
  apply (cached_read_repeats hasRoom lru_Get_inv lru_Get_Get lru_Add_Get
           (cachedstore.New sampleDisk (memory.New sampleLRU tt)) warmCache
           Background (Some Canceled) 1 "shard data"%string).
  - unfold hasRoom. simpl. lia.
  - reflexivity.
Defined.

End CacheMore.

(* ===================================================================== *)
(** * The object stores, continued: key prefixes                          *)
(* ===================================================================== *)

Module storeOptions.
Import GoRt.
Local Open Scope string_scope.

(** [strings.HasSuffix] and [strings.TrimSuffix]. *)
Definition HasSuffix (s suffix : string) : bool :=
  Nat.leb (String.length suffix) (String.length s)
  && String.eqb (sdrop (String.length s - String.length suffix) s) suffix.

Definition TrimSuffix (s suffix : string) : string :=
  if HasSuffix s suffix
  then stake (String.length s - String.length suffix) s
  else s.

(** The assignments both [WithPrefix] options make to [s.prefix]. *)
Definition normalPrefix (prefix : string) : string :=
  let p := TrimSuffix prefix "/" in
  if negb (String.eqb p "") then p ++ "/" else p.

(** [s3store.WithPrefix] sets a key prefix for all operations. *)
Definition s3WithPrefix (prefix : string) (s : s3store.Store)
  : option error * s3store.Store :=
  (None,
   s3store.mkStore (s3store.bucket s) (normalPrefix prefix) (s3store.codec s)
     (s3store.getObject s) (s3store.isNoSuchKey s)).

(** [gcsstore.WithPrefix] sets a key prefix for all operations. *)
Definition gcsWithPrefix (prefix : string) (s : gcsstore.Store) : gcsstore.Store :=
  gcsstore.mkStore (normalPrefix prefix) (gcsstore.codec s)
    (gcsstore.newReader s) (gcsstore.clientClose s).

End storeOptions.

(** ** Stores: shard names, prefixes and the in-memory store *)

Module StoreMore.
Import GoRt filepath StringFacts storeOptions.
Local Open Scope string_scope.

(** *** Shard names *)

(** The number a string of decimal digits denotes. *)
Definition digitsValue (s : string) : option Z :=
  option_map Z.of_uint (NilEmpty.uint_of_string s).

Lemma digitsValue_zeros (n : nat) (s : string) :
  digitsValue (zeros n ++ s) = digitsValue s.
Proof.
  induction n as [|n IH]; [reflexivity|].
  unfold digitsValue in *. cbn [zeros append NilEmpty.uint_of_string].
  destruct (NilEmpty.uint_of_string (zeros n ++ s)) as [d|]; exact IH.
Qed.

Lemma digitsValue_Itoa (x : Z) : (0 <= x)%Z -> digitsValue (Itoa x) = Some x.
Proof.
  intros Hx. unfold Itoa, digitsValue. destruct x as [|p|p]; [reflexivity| |lia].
  cbn [Z.to_int NilZero.string_of_int].
  pose proof (DecimalZ.of_to (Z.pos p)) as Hv. cbn [Z.to_int Z.of_int] in Hv.
  assert (Hs : NilZero.string_of_uint (Pos.to_uint p)
               = NilEmpty.string_of_uint (Pos.to_uint p)).
  { destruct (Pos.to_uint p); try reflexivity. discriminate Hv. }
  rewrite Hs, NilEmpty.usu. simpl. now rewrite Hv.
Qed.

Lemma digitsValue_minus (s : string) : digitsValue (String "-" s) = None.
Proof.
  unfold digitsValue. cbn [NilEmpty.uint_of_string].
  destruct (NilEmpty.uint_of_string s); reflexivity.
Qed.

Lemma Sprintf05d_inj (a b : Z) : Sprintf05d a = Sprintf05d b -> a = b.
Proof.
  unfold Sprintf05d, padZeros.
  destruct (Z.ltb_spec a 0) as [Ha|Ha], (Z.ltb_spec b 0) as [Hb|Hb]; intros E.
  - injection E as E. apply (f_equal digitsValue) in E.
    rewrite !digitsValue_zeros, !digitsValue_Itoa in E by lia.
    injection E as E. lia.
  - apply (f_equal digitsValue) in E.
    rewrite digitsValue_minus, digitsValue_zeros, digitsValue_Itoa in E by lia.
    discriminate.
  - apply (f_equal digitsValue) in E.
    rewrite digitsValue_minus, digitsValue_zeros, digitsValue_Itoa in E by lia.
    discriminate.
  - apply (f_equal digitsValue) in E.
    rewrite !digitsValue_zeros, !digitsValue_Itoa in E by lia.
    now injection E.
Qed.

Lemma sapp_inv_tail (a b c : string) : a ++ c = b ++ c -> a = b.
Proof.
  intros E.
  assert (Hl : String.length a = String.length b).
  { apply (f_equal String.length) in E. rewrite !slength_app in E. lia. }
  revert b E Hl; induction a as [|x a IH]; intros [|y b] E Hl;
    try discriminate; [reflexivity|].
  simpl in E. injection E as -> E. f_equal. apply IH; [exact E|].
  simpl in Hl. lia.
Qed.

Lemma shardName_inj (c : codec.Codec) (a b : Z) :
  codec.shardName c a = codec.shardName c b -> a = b.
Proof.
  unfold codec.shardName.
  destruct (negb (String.eqb (codec.Extension c) "")); intros E.
  - apply sapp_inv_tail in E. now apply Sprintf05d_inj.
  - now apply Sprintf05d_inj.
Qed.

(** *** Paths of the disk store *)

Lemma appendBytes_rev (s : string) (out : list ascii) :
  appendBytes out s = (List.rev (list_ascii_of_string s) ++ out)%list.
Proof.
  revert out; induction s as [|c s IH]; intros out; cbn [appendBytes list_ascii_of_string List.rev app];
    [reflexivity|].
  rewrite IH, <- app_assoc. reflexivity.
Qed.

Lemma element_length (rest : string) :
  String.length (snd (element rest)) <= String.length rest.
Proof.
  induction rest as [|c rest IH]; cbn [element]; [apply Nat.le_refl|].
  destruct (IsPathSeparator c); [apply Nat.le_refl|].
  destruct (element rest) as [e r]. cbn [snd String.length] in *. lia.
Qed.

(** More rounds than bytes change nothing. *)
Lemma cleanLoop_rounds (rooted : bool) (r1 : nat) :
  forall r2 rest out dotdot,
    String.length rest <= r1 -> String.length rest <= r2 ->
    cleanLoop r1 rooted rest out dotdot = cleanLoop r2 rooted rest out dotdot.
Proof.
  induction r1 as [|r1 IH]; intros r2 rest out dotdot H1 H2.
  - destruct rest; [|cbn [String.length] in H1; lia]. destruct r2; reflexivity.
  - destruct rest as [|c rest1]; [destruct r2; reflexivity|].
    destruct r2 as [|r2]; [cbn [String.length] in H2; lia|].
    cbn [String.length] in H1, H2. cbn [cleanLoop].
    destruct (IsPathSeparator c); [apply IH; lia|].
    destruct (Ascii.eqb c "." && endsElement rest1); [apply IH; lia|].
    match goal with |- context [if ?b then _ else _] => destruct b end.
    + assert (Hl : String.length (match rest1 with
                                  | String _ rest2 => rest2
                                  | EmptyString => EmptyString
                                  end) <= String.length rest1)
        by (destruct rest1; cbn [String.length]; lia).
      destruct (Nat.ltb dotdot (List.length out)); [apply IH; lia|].
      destruct (negb rooted); apply IH; lia.
    + pose proof (element_length rest1) as Hl.
      destruct (element rest1) as [e rest']. cbn [snd] in Hl. apply IH; lia.
Qed.

(** A string that is empty or ends with a separator. *)
Fixpoint closed (p : string) : bool :=
  match p with
  | EmptyString => true
  | String c p' =>
      match p' with
      | EmptyString => IsPathSeparator c
      | String _ _ => closed p'
      end
  end.

Lemma closed_snoc (p : string) : closed (p ++ "/") = true.
Proof.
  induction p as [|c p IH]; [reflexivity|]. cbn [append closed].
  destruct (p ++ "/") eqn:E; [destruct p; discriminate | exact IH].
Qed.

Lemma closed_cons (c : ascii) (p : string) :
  closed (String c p) = true -> IsPathSeparator c = false ->
  p <> "" /\ closed p = true.
Proof.
  cbn [closed]. destruct p; [congruence|]. intros H _. split; [discriminate | exact H].
Qed.

Lemma closed_tail (c : ascii) (p : string) :
  closed (String c p) = true -> closed p = true.
Proof. cbn [closed]. destruct p; [reflexivity | auto]. Qed.

Lemma endsElement_app (p x : string) :
  p <> "" -> endsElement (p ++ x) = endsElement p.
Proof. destruct p; [congruence | reflexivity]. Qed.

Lemma element_app (p x : string) :
  p <> "" -> closed p = true ->
  element (p ++ x) = (fst (element p), snd (element p) ++ x)
  /\ closed (snd (element p)) = true.
Proof.
  induction p as [|c p IH]; [congruence|]. intros _ Hc. cbn [append element].
  destruct (IsPathSeparator c) eqn:Ec; [cbn [fst snd append]; now split|].
  destruct (closed_cons c p Hc Ec) as [Hne Hp].
  destruct (IH Hne Hp) as [-> Hr]. destruct (element p) as [e r]. now split.
Qed.

(** An element that is copied as it is: not empty, not starting with a
    dot and without a separator. *)
Definition plain (name : string) : Prop :=
  match name with
  | EmptyString => False
  | String c _ => c <> "."%char
  end
  /\ Forall (fun c => IsPathSeparator c = false) (list_ascii_of_string name).

Lemma element_plain (s : string) :
  Forall (fun c => IsPathSeparator c = false) (list_ascii_of_string s) ->
  element s = (s, "").
Proof.
  induction s as [|c s IH]; [reflexivity|]. cbn [list_ascii_of_string element].
  intros H. inversion H as [|? ? Hc Hs]; subst. now rewrite Hc, (IH Hs).
Qed.

(** The slash [Clean] puts before a real element. *)
Definition slashBefore (rooted : bool) (out : list ascii) : list ascii :=
  if (rooted && negb (Nat.eqb (List.length out) 1))
     || (negb rooted && negb (Nat.eqb (List.length out) 0))
  then "/"%char :: out else out.

(** A last element that is plain is copied behind what the elements
    before it leave. *)
Lemma cleanLoop_last (rooted : bool) (name : string) :
  plain name ->
  forall rounds p out dotdot,
    closed p = true ->
    String.length p + String.length name <= rounds ->
    cleanLoop rounds rooted (p ++ name) out dotdot
    = appendBytes (slashBefore rooted (cleanLoop rounds rooted p out dotdot)) name.
Proof.
  intros [Hhead Hplain]. induction rounds as [|rounds IH]; intros p out dotdot Hc Hr.
  { destruct name; [destruct Hhead | destruct p; cbn [String.length] in Hr; lia]. }
  destruct p as [|c p1].
  - cbn [append]. destruct name as [|c n1]; [destruct Hhead|].
    cbn [list_ascii_of_string] in Hplain. inversion Hplain as [|? ? Hsep Hn1]; subst.
    cbn [cleanLoop]. rewrite Hsep.
    destruct (Ascii.eqb_spec c ".") as [E|_]; [contradiction|]. cbn [andb].
    rewrite (element_plain n1 Hn1). cbn [appendBytes].
    destruct rounds; reflexivity.
  - cbn [String.length] in Hr. cbn [append cleanLoop].
    destruct (IsPathSeparator c) eqn:Ec.
    { apply IH; [exact (closed_tail c p1 Hc) | lia]. }
    destruct (closed_cons c p1 Hc Ec) as [Hne1 Hc1].
    rewrite (endsElement_app p1 name Hne1).
    destruct (Ascii.eqb c "." && endsElement p1); [apply IH; [exact Hc1 | lia]|].
    destruct p1 as [|c1 p2]; [congruence|]. cbn [append].
    assert (Hends : Ascii.eqb c1 "." = true -> endsElement (p2 ++ name) = endsElement p2).
    { intros E1. apply endsElement_app.
      assert (Hs1 : IsPathSeparator c1 = false)
        by (apply Ascii.eqb_eq in E1; subst c1; reflexivity).
      exact (proj1 (closed_cons c1 p2 Hc1 Hs1)). }
    assert (Hsame : Ascii.eqb c1 "." && endsElement (p2 ++ name)
                    = Ascii.eqb c1 "." && endsElement p2).
    { destruct (Ascii.eqb c1 ".") eqn:E1; [|reflexivity]. cbn [andb]. now apply Hends. }
    rewrite Hsame. cbn [String.length] in Hr.
    destruct (Ascii.eqb c "." && (Ascii.eqb c1 "." && endsElement p2)).
    + assert (Hc2 : closed p2 = true) by exact (closed_tail c1 p2 Hc1).
      destruct (Nat.ltb dotdot (List.length out)); [apply IH; [exact Hc2 | lia]|].
      destruct (negb rooted); apply IH; (exact Hc2 || lia).
    + destruct (element_app (String c1 p2) name Hne1 Hc1) as [Hel Hcr].
      change (String c1 (p2 ++ name)) with (String c1 p2 ++ name). rewrite Hel.
      pose proof (element_length (String c1 p2)) as Hlen.
      destruct (element (String c1 p2)) as [e r]. cbn [fst snd] in *.
      apply IH; [exact Hcr | cbn [String.length] in Hlen; lia].
Qed.

Lemma bufferString_append (out : list ascii) (name : string) :
  bufferString (appendBytes out name) = bufferString out ++ name.
Proof.
  unfold bufferString. rewrite appendBytes_rev, rev_app_distr, rev_involutive.
  generalize (List.rev out). intros l. induction l as [|c l IH]; cbn [app string_of_list_ascii append].
  - apply string_of_list_ascii_of_string.
  - now rewrite IH.
Qed.

(** The directory part [Clean] leaves of a path that ends with a
    separator, with the slash that precedes the next element. *)
Definition cleanDir (p : string) : string :=
  match p with
  | EmptyString => ""
  | String c rest =>
      bufferString
        (if IsPathSeparator c
         then slashBefore true (cleanLoop (String.length rest) true rest ["/"%char] 1)
         else slashBefore false (cleanLoop (String.length p) false p [] 0))
  end.

Lemma Clean_last (p name : string) :
  p <> "" -> closed p = true -> plain name ->
  Clean (p ++ name) = cleanDir p ++ name.
Proof.
  intros Hne Hc Hname. destruct p as [|c rest]; [congruence|].
  assert (Hn : name <> "") by (destruct name; [destruct Hname as [[] _] | discriminate]).
  assert (Hout : forall out, match appendBytes out name with
                             | [] => "."
                             | _ :: _ => bufferString (appendBytes out name)
                             end = bufferString out ++ name).
  { intros out. rewrite <- bufferString_append.
    destruct (appendBytes out name) eqn:E; [|reflexivity].
    rewrite appendBytes_rev in E. apply app_eq_nil in E. destruct E as [E _].
    destruct name; [congruence|]. cbn [list_ascii_of_string List.rev] in E.
    apply app_eq_nil in E. destruct E as [_ E]. discriminate. }
  unfold Clean, cleanDir. cbn [append].
  destruct (IsPathSeparator c) eqn:Ec.
  - rewrite (cleanLoop_last true name Hname _ rest _ _ (closed_tail c rest Hc))
      by (rewrite <- (slength_app rest name); apply Nat.le_refl).
    rewrite Hout.
    rewrite (cleanLoop_rounds true (String.length (rest ++ name)) (String.length rest))
      by (rewrite ?slength_app; cbn [String.length]; lia).
    reflexivity.
  - change (String c (rest ++ name)) with (String c rest ++ name).
    rewrite (cleanLoop_last false name Hname _ (String c rest) _ _ Hc)
      by (rewrite <- (slength_app (String c rest) name); apply Nat.le_refl).
    rewrite Hout.
    rewrite (cleanLoop_rounds false (String.length (String c rest ++ name))
               (String.length (String c rest)))
      by (rewrite ?slength_app; cbn [String.length]; lia).
    reflexivity.
Qed.

(** [filepath.Join(root, "shards", name)] for a plain [name]: the cleaned
    directory, then the name. *)
Definition shardsDir (root : string) : string :=
  if String.eqb root "" then cleanDir "shards/" else cleanDir (root ++ "/shards/").

Lemma Join_shards (root name : string) :
  plain name -> filepath.Join [root; "shards"; name] = shardsDir root ++ name.
Proof.
  intros Hname. unfold shardsDir. cbn [filepath.Join GoRt.Join].
  destruct (String.eqb_spec root "") as [->|Hroot].
  - cbn [String.eqb Ascii.eqb Bool.eqb GoRt.Join].
    change ("shards" ++ "/" ++ name) with ("shards/" ++ name).
    now apply Clean_last.
  - replace (root ++ "/" ++ "shards" ++ "/" ++ name)
      with ((root ++ "/shards/") ++ name) by (now rewrite !sapp_assoc).
    apply Clean_last; [destruct root; [congruence | discriminate] | | exact Hname].
    change (root ++ "/shards/") with (root ++ "/shards" ++ "/").
    rewrite <- sapp_assoc. apply closed_snoc.
Qed.

(** The bytes of a name that contain no separator. *)
Definition noSeparator (s : string) : Prop :=
  Forall (fun c => IsPathSeparator c = false) (list_ascii_of_string s).

Lemma noSeparator_app (a b : string) :
  noSeparator a -> noSeparator b -> noSeparator (a ++ b).
Proof.
  unfold noSeparator. induction a as [|c a IH]; intros Ha Hb; [exact Hb|].
  cbn [append list_ascii_of_string] in *. inversion Ha; subst.
  constructor; [assumption | now apply IH].
Qed.

Lemma digits_noSeparator (s : string) (v : Z) :
  digitsValue s = Some v ->
  noSeparator s /\ match s with
                   | EmptyString => True
                   | String c _ => c <> "."%char
                   end.
Proof.
  unfold digitsValue, noSeparator. revert v.
  induction s as [|c s IH]; intros v Hv; [split; [constructor | exact I]|].
  cbn [NilEmpty.uint_of_string] in Hv.
  destruct (NilEmpty.uint_of_string s) as [d|] eqn:Es; [|discriminate].
  destruct (IH (Z.of_uint d) eq_refl) as [Hs _].
  cbn [list_ascii_of_string].
  destruct c as [[|] [|] [|] [|] [|] [|] [|] [|]]; try discriminate Hv;
    (split; [constructor; [reflexivity | exact Hs] | discriminate]).
Qed.

Lemma Sprintf05d_plain (z : Z) : plain (Sprintf05d z) /\ Sprintf05d z <> "".
Proof.
  unfold Sprintf05d, padZeros, plain.
  destruct (Z.ltb_spec z 0) as [Hz|Hz].
  - assert (Hd : digitsValue (zeros (4 - String.length (Itoa (- z))) ++ Itoa (- z))
                 = Some (- z)%Z)
      by (rewrite digitsValue_zeros; apply digitsValue_Itoa; lia).
    destruct (digits_noSeparator _ _ Hd) as [Hs _].
    split; [|discriminate]. split; [discriminate|].
    cbn [list_ascii_of_string]. constructor; [reflexivity | exact Hs].
  - assert (Hd : digitsValue (zeros (5 - String.length (Itoa z)) ++ Itoa z) = Some z)
      by (rewrite digitsValue_zeros; apply digitsValue_Itoa; lia).
    destruct (digits_noSeparator _ _ Hd) as [Hs Hh].
    assert (Hne : zeros (5 - String.length (Itoa z)) ++ Itoa z <> "").
    { destruct (Itoa z) as [|c s] eqn:E; [discriminate|].
      destruct (zeros _); discriminate. }
    split; [|exact Hne]. split; [|exact Hs].
    destruct (zeros (5 - String.length (Itoa z)) ++ Itoa z); [congruence | exact Hh].
Qed.

Lemma shardName_plain (c : codec.Codec) (shardID : Z) :
  noSeparator (codec.Extension c) -> plain (codec.shardName c shardID).
Proof.
  intros Hext. unfold codec.shardName.
  destruct (Sprintf05d_plain shardID) as [[Hh Hs] Hne].
  destruct (negb (String.eqb (codec.Extension c) "")); [|now split].
  split.
  - destruct (Sprintf05d shardID); [congruence | exact Hh].
  - apply noSeparator_app; [exact Hs|].
    apply (noSeparator_app "." (codec.Extension c)); [|exact Hext].
    constructor; [reflexivity | constructor].
Qed.

(** X21.  Different shard ids never share a name: for every codec the
    file names of two different ids differ, and so do the object keys of
    the S3 and GCS stores, whatever the prefix, and the paths
    [filepath.Join] gives the disk store, whatever the root, when the
    codec's extension holds no path separator. *)
Theorem shard_names_distinct (a b : Z) :
  a <> b ->
  (forall c, codec.shardName c a <> codec.shardName c b)
  /\ (forall s, noSeparator (codec.Extension (diskstore.codec s)) ->
                diskstore.shardPath s a <> diskstore.shardPath s b)
  /\ (forall s, s3store.shardKey s a <> s3store.shardKey s b)
  /\ (forall s, gcsstore.shardKey s a <> gcsstore.shardKey s b).
Proof.
  intros Hab.
  assert (Hn : forall c, codec.shardName c a <> codec.shardName c b)
    by (intros c E; exact (Hab (shardName_inj c a b E))).
  split; [exact Hn|]. split.
  - intros s Hext E. unfold diskstore.shardPath in E.
    rewrite !Join_shards in E by (now apply shardName_plain).
    apply sapp_inv_head in E. exact (Hn _ E).
  - split; intros s E; unfold s3store.shardKey, gcsstore.shardKey in E;
      apply sapp_inv_head in E; apply sapp_inv_head in E; exact (Hn _ E).
Qed.

Lemma shard_names_distinct_witness :
  (forall c, codec.shardName c 7 <> codec.shardName c 70)
  /\ (forall s, noSeparator (codec.Extension (diskstore.codec s)) ->
                diskstore.shardPath s 7 <> diskstore.shardPath s 70)
  /\ (forall s, s3store.shardKey s 7 <> s3store.shardKey s 70)
  /\ (forall s, gcsstore.shardKey s 7 <> gcsstore.shardKey s 70).
Proof. apply (shard_names_distinct 7 70). discriminate. Defined.

(** A separator in the extension lets [filepath.Join] merge paths: with
    the extension [/..] the shards 7 and 70 get the same path. *)
Remark shardPath_needs_plain_extension :
  let s := diskstore.mkStore "/data" (codec.mkCodec "/.." (fun _ => None) Ok)
                             (fun _ => Ok "") (fun _ => false) in
  diskstore.shardPath s 7 = "/data/shards"
  /\ diskstore.shardPath s 70 = "/data/shards".
Proof. vm_compute. split; reflexivity. Qed.

(** [filepath.Clean] on paths of the kinds the stores and tests use. *)
Example Clean_cases :
  map filepath.Clean
      ["/tmp/data/shards/00001.zst"; "data/"; "./data"; "/"; ""; "a//b/./c/..";
       "../x/../../y"; "/../a"; "abc/def/../.."]
  = ["/tmp/data/shards/00001.zst"; "data"; "data"; "/"; "."; "a/b";
     "../../y"; "/a"; "."].
Proof. vm_compute. reflexivity. Qed.

(** *** Key prefixes *)

Lemma HasSuffix_slash (p : string) : HasSuffix (p ++ "/") "/" = true.
Proof.
  unfold HasSuffix. rewrite slength_app. cbn [String.length].
  replace (String.length p + 1 - 1) with (String.length p) by lia.
  rewrite sdrop_app.
  destruct (Nat.leb_spec 1 (String.length p + 1)); [reflexivity | lia].
Qed.

Lemma TrimSuffix_slash (p : string) : TrimSuffix (p ++ "/") "/" = p.
Proof.
  unfold TrimSuffix. rewrite HasSuffix_slash, slength_app. cbn [String.length].
  replace (String.length p + 1 - 1) with (String.length p) by lia.
  apply stake_app.
Qed.

Lemma normalPrefix_slash (p : string) :
  p <> "" -> normalPrefix (p ++ "/") = p ++ "/".
Proof.
  intros Hp. unfold normalPrefix. rewrite TrimSuffix_slash.
  destruct (String.eqb_spec p ""); [contradiction | reflexivity].
Qed.

Lemma normalPrefix_cases (p : string) :
  normalPrefix p = "" \/ exists t, t <> "" /\ normalPrefix p = t ++ "/".
Proof.
  unfold normalPrefix.
  destruct (String.eqb_spec (TrimSuffix p "/") "") as [E|E]; cbn [negb].
  - left. exact E.
  - right. exists (TrimSuffix p "/"). auto.
Qed.

(** X22.  [WithPrefix] normalises the key prefix: the prefix it stores
    is empty or ends with a slash; applying it to its own result changes
    nothing; and a prefix given with or without its trailing slash yields
    the same object key for every shard, in the S3 and the GCS store. *)
Theorem WithPrefix_normalises (p : string) :
  (normalPrefix p = "" \/ HasSuffix (normalPrefix p) "/" = true)
  /\ normalPrefix (normalPrefix p) = normalPrefix p
  /\ (HasSuffix p "/" = false ->
      normalPrefix (p ++ "/") = normalPrefix p
      /\ (forall s id,
            s3store.shardKey (snd (s3WithPrefix (p ++ "/") s)) id
            = s3store.shardKey (snd (s3WithPrefix p s)) id)
      /\ (forall s id,
            gcsstore.shardKey (gcsWithPrefix (p ++ "/") s) id
            = gcsstore.shardKey (gcsWithPrefix p s) id)).
Proof.
  split; [|split].
  - destruct (normalPrefix_cases p) as [E|(t & Ht & E)]; [now left|].
    right. rewrite E. apply HasSuffix_slash.
  - destruct (normalPrefix_cases p) as [E|(t & Ht & E)]; rewrite E.
    + reflexivity.
    + now apply normalPrefix_slash.
  - intros Hno.
    assert (E : normalPrefix (p ++ "/") = normalPrefix p).
    { unfold normalPrefix at 2. unfold TrimSuffix. rewrite Hno.
      destruct (String.eqb_spec p "") as [->|Hp]; cbn [negb].
      - reflexivity.
      - now apply normalPrefix_slash. }
    split; [exact E|].
    split; intros s id;
      unfold s3store.shardKey, gcsstore.shardKey, s3WithPrefix, gcsWithPrefix;
      cbn [snd s3store.prefix s3store.codec gcsstore.prefix gcsstore.codec];
      now rewrite E.
Qed.

Lemma WithPrefix_normalises_witness :
  normalPrefix ("eval/v1" ++ "/") = normalPrefix "eval/v1"
  /\ (forall s id,
        s3store.shardKey (snd (s3WithPrefix ("eval/v1" ++ "/") s)) id
        = s3store.shardKey (snd (s3WithPrefix "eval/v1" s)) id)
  /\ (forall s id,
        gcsstore.shardKey (gcsWithPrefix ("eval/v1" ++ "/") s) id
        = gcsstore.shardKey (gcsWithPrefix "eval/v1" s) id).
Proof.
  apply (proj2 (proj2 (WithPrefix_normalises "eval/v1"))). reflexivity.
Defined.

(** *** The in-memory store *)

Lemma lookup_set (m : list (Z * string)) (id id' : Z) (data : string) :
  memstore.lookup ((id, data) :: m) id'
  = if (id =? id')%Z then Some data else memstore.lookup m id'.
Proof. reflexivity. Qed.

(** The in-memory store reads what was last set: after
    [SetShard(id, data)] a read of [id] returns [data] and a read of any
    other id returns what it returned before; a read never changes the
    store, whatever the context; and a new store has no shard. *)
Theorem memstore_reads_last_write (s : memstore.Store) (ctx : Context)
    (id id' : Z) (data : string) :
  fst (memstore.ReadShard (memstore.SetShard s id data) ctx id) = Ok data
  /\ (id' <> id ->
      fst (memstore.ReadShard (memstore.SetShard s id data) ctx id')
      = fst (memstore.ReadShard s ctx id'))
  /\ snd (memstore.ReadShard s ctx id) = s
  /\ memstore.ReadShard memstore.New ctx id = (Err store.ErrNotFound, memstore.New).
Proof.
  unfold memstore.ReadShard, memstore.SetShard. cbn [memstore.shards].
  split; [|split; [|split]].
  - rewrite lookup_set, Z.eqb_refl. reflexivity.
  - intros Hne. rewrite lookup_set.
    destruct (Z.eqb_spec id id') as [E|_]; [congruence|].
    destruct (memstore.lookup (memstore.shards s) id'); reflexivity.
  - destruct (memstore.lookup (memstore.shards s) id); reflexivity.
  - reflexivity.
Qed.

End StoreMore.

(* ===================================================================== *)
(** * Package simulation: shard access patterns                           *)
(* ===================================================================== *)

Module simulation.
Import GoRt.
Local Open Scope string_scope.

(** [GameResult] contains the shard access pattern for a single game. *)
Record GameResult : Type := mkGameResult {
  StrategyName : string;
  ShardAccess : list Z;
  ShardSwitches : Z }.

(** The inner loop of [SimulateGame], [for _, fen := range fens], on the
    fields of [result] and the local [lastShard].  [ShardSwitches] counts
    at most one per position and is written without reduction. *)
Fixpoint gameLoop (strategy : shard.Strategy) (totalShards : Z)
    (fens : list string) (access : list Z) (switches lastShard : Z)
  : outcome (list Z * Z) :=
  match fens with
  | [] => Returns (access, switches)
  | fen :: rest =>
      match shard.ShardID strategy fen totalShards with
      | Panics msg => Panics msg
      | Returns shardID =>
          if negb (shardID =? lastShard)%Z
          then gameLoop strategy totalShards rest (access ++ [shardID])
                 (switches + 1)%Z shardID
          else gameLoop strategy totalShards rest (access ++ [shardID])
                 switches lastShard
      end
  end.

(** The body of the outer loop of [SimulateGame]: the result for one
    strategy. *)
Definition simulateStrategy (strategy : shard.Strategy) (totalShards : Z)
    (fens : list string) : outcome GameResult :=
  match gameLoop strategy totalShards fens [] 0%Z (-1)%Z with
  | Panics msg => Panics msg
  | Returns (access, switches) =>
      Returns (mkGameResult (shard.Name strategy) access switches)
  end.

(** [results[strategy.Name()] = result] on a map kept as an association
    list. *)
Fixpoint setResult (results : list (string * GameResult)) (name : string)
    (r : GameResult) : list (string * GameResult) :=
  match results with
  | [] => [(name, r)]
  | (k, v) :: rest =>
      if String.eqb k name then (k, r) :: rest else (k, v) :: setResult rest name r
  end.

(** [SimulateGame] simulates a single game lookup sequence and returns
    shard access patterns for each strategy. *)
Fixpoint simulateEach (strategies : list shard.Strategy) (totalShards : Z)
    (fens : list string) (results : list (string * GameResult))
  : outcome (list (string * GameResult)) :=
  match strategies with
  | [] => Returns results
  | strategy :: rest =>
      match simulateStrategy strategy totalShards fens with
      | Panics msg => Panics msg
      | Returns result =>
          simulateEach rest totalShards fens
            (setResult results (shard.Name strategy) result)
      end
  end.

Definition SimulateGame (strategies : list shard.Strategy) (totalShards : Z)
    (fens : list string) : outcome (list (string * GameResult)) :=
  simulateEach strategies totalShards fens [].

End simulation.

(** ** The simulator *)

Module SimulationMore.
Import GoRt simulation.
Local Open Scope Z_scope.

(** The number of different shards in an access pattern. *)
Definition distinctShards (access : list Z) : nat :=
  List.length (nodup Z.eq_dec access).

(** The ids of the shards the strategy sends the positions to. *)
Definition shardsOf (strategy : shard.Strategy) (N : Z) (fens : list string)
  : list Z :=
  map (fun fen => match shard.ShardID strategy fen N with
                  | Returns id => id
                  | Panics _ => (-1)
                  end) fens.

Section Game.

Variable strategy : shard.Strategy.
Variable N : Z.

Hypothesis in_range : BuilderMore.inRangeStrategy strategy N.

Lemma gameLoop_spec (fens : list string) (access : list Z) (switches last : Z) :
  exists sw,
    gameLoop strategy N fens access switches last
    = Returns (access ++ shardsOf strategy N fens, sw)
    /\ switches <= sw <= switches + Z.of_nat (List.length fens)
    /\ (Z.of_nat (List.length
                    (nodup Z.eq_dec (remove Z.eq_dec last (shardsOf strategy N fens))))
        <= sw - switches)
    /\ (fens <> [] -> ~ In last (shardsOf strategy N fens) -> switches + 1 <= sw).
Proof.
  revert access switches last.
  induction fens as [|fen rest IH]; intros access switches last.
  - exists switches. cbn [gameLoop shardsOf map List.length remove nodup].
    rewrite app_nil_r. repeat split; try lia. congruence.
  - cbn [gameLoop shardsOf map]. fold (shardsOf strategy N rest).
    destruct (in_range fen) as (id & Hid & Hr). rewrite Hid.
    destruct (Z.eqb_spec id last) as [->|Hne]; cbn [negb].
    + destruct (IH (access ++ [last]) switches last) as (sw & Hrun & Hb & Hd & _).
      exists sw. rewrite Hrun, <- app_assoc. split; [reflexivity|].
      split; [cbn [List.length]; lia|]. split.
      * cbn [remove]. destruct (Z.eq_dec last last); [exact Hd | congruence].
      * intros _ Hnot. exfalso. apply Hnot. now left.
    + destruct (IH (access ++ [id]) (switches + 1) id) as (sw & Hrun & Hb & Hd & _).
      exists sw. rewrite Hrun, <- app_assoc. split; [reflexivity|].
      split; [cbn [List.length]; lia|]. split; [|lia].
      cbn [remove]. destruct (Z.eq_dec last id) as [E|_]; [congruence|].
      set (l := shardsOf strategy N rest) in *.
      assert (Hincl : incl (nodup Z.eq_dec (id :: remove Z.eq_dec last l))
                           (id :: nodup Z.eq_dec (remove Z.eq_dec id l))).
      { intros x Hx. apply nodup_In in Hx.
        destruct (Z.eq_dec x id) as [->|Hxi]; [now left|]. right.
        apply nodup_In. destruct Hx as [Hx|Hx]; [congruence|].
        apply in_remove in Hx. destruct Hx as [Hx _].
        apply in_in_remove; assumption. }
      pose proof (NoDup_incl_length (NoDup_nodup Z.eq_dec _) Hincl) as Hlen.
      cbn [List.length] in Hlen. lia.
Qed.

Lemma simulateStrategy_spec (fens : list string) :
  exists r,
    simulateStrategy strategy N fens = Returns r
    /\ StrategyName r = shard.Name strategy
    /\ ShardAccess r = shardsOf strategy N fens
    /\ Forall (fun id => 0 <= id < N) (ShardAccess r)
    /\ Z.of_nat (distinctShards (ShardAccess r)) <= ShardSwitches r
    /\ ShardSwitches r <= Z.of_nat (List.length fens).
Proof.
  unfold simulateStrategy.
  destruct (gameLoop_spec fens [] 0 (-1)) as (sw & Hrun & Hb & Hd & _).
  rewrite Hrun. cbn [app]. eexists. split; [reflexivity|].
  cbn [StrategyName ShardAccess ShardSwitches].
  assert (Hall : Forall (fun id => 0 <= id < N) (shardsOf strategy N fens)).
  { unfold shardsOf. apply Forall_forall. intros x Hx. apply in_map_iff in Hx.
    destruct Hx as (fen & <- & _).
    destruct (in_range fen) as (id & -> & Hr). exact Hr. }
  do 3 (split; [first [reflexivity | exact Hall]|]).
  split; [|lia].
  unfold distinctShards. rewrite notin_remove in Hd; [lia|].
  intros Hin. rewrite Forall_forall in Hall. specialize (Hall _ Hin). lia.
Qed.

End Game.

(** What [SimulateGame] promises of the entry of a strategy. *)
Definition gameEntry (strategies : list shard.Strategy) (N : Z)
    (fens : list string) (name : string) (r : GameResult) : Prop :=
  exists strategy,
    In strategy strategies
    /\ name = shard.Name strategy
    /\ StrategyName r = name
    /\ ShardAccess r = shardsOf strategy N fens
    /\ Forall (fun id => 0 <= id < N) (ShardAccess r)
    /\ Z.of_nat (distinctShards (ShardAccess r)) <= ShardSwitches r
    /\ ShardSwitches r <= Z.of_nat (List.length fens).

Lemma setResult_In (results : list (string * GameResult)) (name : string)
    (r : GameResult) (k : string) (v : GameResult) :
  In (k, v) (setResult results name r) ->
  In (k, v) results \/ (k = name /\ v = r).
Proof.
  induction results as [|[k0 v0] rest IH]; cbn [setResult].
  - intros [E|[]]. injection E as <- <-. now right.
  - destruct (String.eqb_spec k0 name) as [->|Hne].
    + intros [E|Hin]; [injection E as <- <-; now right | left; now right].
    + intros [E|Hin]; [left; now left|].
      destruct (IH Hin) as [Hold|Hnew]; [left; now right | now right].
Qed.

(** X24.  [SimulateGame], for strategies whose ids lie in [[0, N)]: the
    call returns a result for every strategy, and every result in the map
    belongs to one of the strategies, records the shard of each position
    in order, and counts at least as many switches as there are different
    shards in the game and at most as many as there are positions. *)
Theorem SimulateGame_switches (strategies : list shard.Strategy) (N : Z)
    (fens : list string) :
  Forall (fun strategy => BuilderMore.inRangeStrategy strategy N) strategies ->
  exists results,
    SimulateGame strategies N fens = Returns results
    /\ (forall strategy, In strategy strategies ->
          exists r, In (shard.Name strategy, r) results)
    /\ forall name r, In (name, r) results -> gameEntry strategies N fens name r.
Proof.
  intros Hall. unfold SimulateGame.
  assert (Hgen : forall done todo results,
             Forall (fun strategy => BuilderMore.inRangeStrategy strategy N) todo ->
             incl todo strategies ->
             (forall strategy, In strategy done ->
                exists r, In (shard.Name strategy, r) results) ->
             (forall name r, In (name, r) results ->
                gameEntry strategies N fens name r) ->
             exists results',
               simulateEach todo N fens results = Returns results'
               /\ (forall strategy, In strategy (done ++ todo) ->
                     exists r, In (shard.Name strategy, r) results')
               /\ forall name r, In (name, r) results' ->
                    gameEntry strategies N fens name r).
  { intros done todo. revert done.
    induction todo as [|strategy rest IH]; intros done results Hin Hincl Hdone Hres.
    - exists results. rewrite app_nil_r. auto.
    - inversion Hin as [|x l Hs Hrest]; subst.
      cbn [simulateEach].
      destruct (simulateStrategy_spec strategy N Hs fens)
        as (r & -> & Hname & Hacc & Hids & Hd & Hsw).
      destruct (IH (done ++ [strategy]) (setResult results (shard.Name strategy) r)
                  Hrest) as (results' & Hrun & Hall' & Hentries).
      + intros x Hx. apply Hincl. now right.
      + intros x Hx. apply in_app_or in Hx. destruct Hx as [Hx|[<-|[]]].
        * destruct (Hdone x Hx) as [v Hv].
          clear - Hv. revert Hv. generalize (shard.Name x). intros k.
          induction results as [|[k0 v0] rs IHr]; cbn [setResult]; [intros []|].
          intros [E|Hv].
          -- injection E as -> ->.
             destruct (String.eqb k (shard.Name strategy)); eexists; now left.
          -- destruct (String.eqb k0 (shard.Name strategy)).
             ++ exists v. now right.
             ++ destruct (IHr Hv) as [v' Hv']. exists v'. now right.
        * exists r. clear. induction results as [|[k0 v0] rs IHr]; cbn [setResult].
          -- now left.
          -- destruct (String.eqb_spec k0 (shard.Name strategy)) as [->|_];
               [now left | now right].
      + intros name v Hv. apply setResult_In in Hv.
        destruct Hv as [Hv|[-> ->]]; [now apply Hres|].
        exists strategy. split; [apply Hincl; now left|]. auto 10.
      + exists results'. rewrite <- app_assoc in Hall'. auto. }
  destruct (Hgen [] strategies [] Hall (incl_refl _)) as (results & Hrun & Ha & He).
  - intros x [].
  - intros name r [].
  - exists results. auto.
Qed.

Lemma SimulateGame_switches_witness :
  exists results,
    SimulateGame [shard.material; shard.fnv32] 32768
      [ShardSpec.startFEN; ShardMore.afterCapture] = Returns results
    /\ (forall strategy, In strategy [shard.material; shard.fnv32] ->
          exists r, In (shard.Name strategy, r) results)
    /\ forall name r, In (name, r) results ->
         gameEntry [shard.material; shard.fnv32] 32768
           [ShardSpec.startFEN; ShardMore.afterCapture] name r.
Proof.
  apply (SimulateGame_switches [shard.material; shard.fnv32] 32768
           [ShardSpec.startFEN; ShardMore.afterCapture]).
  destruct (BuilderMore.strategies_in_range 32768 ltac:(lia)) as [Hm Hf].
  repeat constructor; assumption.
Defined.

End SimulationMore.

(* ===================================================================== *)
(** * Package builder, continued: writing a shard                         *)
(* ===================================================================== *)

Module builderShards.
Import GoRt.
Local Open Scope string_scope.

(** The loop [for record := range recordCh] of [writeShard], on the
    records [StreamSorted] sends and an encoder whose writes succeed: the
    bytes written to the encoder and the value of [count]. *)
Fixpoint writeRecords (recordCh : list string) (written : string) (count : Z)
  : string * Z :=
  match recordCh with
  | [] => (written, count)
  | record :: rest =>
      writeRecords rest (written ++ record ++ String lf "") (count + 1)%Z
  end.

End builderShards.

(** ** From the builder to the search *)

Module ShardFormat.
Import GoRt StringFacts SearchSpec SearchMore builderShards.
Local Open Scope string_scope.

(** A record as the partition loop takes it from the scanner: not empty
    and without a line feed. *)
Definition oneLine (r : string) : Prop := r <> "" /\ ~ In lf (bytesOf r).

(** The records, each followed by a line feed. *)
Definition linesOf (rs : list string) : string :=
  fold_right (fun r acc => r ++ String lf acc) "" rs.

Lemma writeRecords_spec (rs : list string) (written : string) (count : Z) :
  writeRecords rs written count
  = (written ++ linesOf rs, (count + Z.of_nat (List.length rs))%Z).
Proof.
  revert written count; induction rs as [|r rs IH]; intros written count.
  - cbn [writeRecords linesOf fold_right List.length].
    now rewrite sapp_nil_r, Z.add_0_r.
  - cbn [writeRecords linesOf fold_right List.length]. rewrite IH. f_equal.
    + now rewrite !sapp_assoc.
    + lia.
Qed.

Lemma SplitByte_line (r rest : string) :
  ~ In lf (bytesOf r) ->
  SplitByte (r ++ String lf rest) lf = r :: SplitByte rest lf.
Proof.
  induction r as [|c r IH]; intros Hno.
  - cbn [append SplitByte].
    destruct (SplitByte rest lf) as [|f fs] eqn:Es;
      [destruct (SplitByte_not_nil rest lf Es)|].
    now rewrite Ascii.eqb_refl.
  - cbn [append SplitByte]. rewrite IH by (intros H; apply Hno; now right).
    destruct (Ascii.eqb_spec c lf) as [->|_]; [|reflexivity].
    exfalso. apply Hno. now left.
Qed.

Lemma nonEmptyLines_linesOf (rs : list string) :
  Forall oneLine rs -> nonEmptyLines (linesOf rs) = rs.
Proof.
  unfold nonEmptyLines. induction 1 as [|r rs [Hne Hno] _ IH]; [reflexivity|].
  cbn [linesOf fold_right]. rewrite (SplitByte_line r _ Hno). cbn [filter].
  destruct (String.eqb_spec r "") as [E|_]; [contradiction|].
  cbn [negb]. f_equal. exact IH.
Qed.

Lemma searchable_lines (json_Unmarshal : string -> result search.EvalRecord)
    (rs : list string) :
  Forall oneLine rs -> sortedByFEN rs ->
  search.splitLines (linesOf rs) = rs
  /\ forall r, In r rs ->
       exists r', In r' rs
                  /\ search.extractFEN r' = search.extractFEN r
                  /\ search.Search json_Unmarshal (linesOf rs) (search.extractFEN r)
                     = decodeMatched json_Unmarshal r'.
Proof.
  intros Hlines Hsorted.
  pose proof (nonEmptyLines_linesOf rs Hlines) as Hl.
  split; [now rewrite splitLines_nonEmptyLines|]. intros r Hin.
  assert (Hs : sortedByFEN (nonEmptyLines (linesOf rs))) by now rewrite Hl.
  assert (Hi : In r (nonEmptyLines (linesOf rs))) by now rewrite Hl.
  destruct (probe_hits (linesOf rs) (search.extractFEN r) r Hs Hi eq_refl)
    as [Hlt Hmatch].
  exists (nth (probe (linesOf rs) (search.extractFEN r))
              (nonEmptyLines (linesOf rs)) "").
  split; [|split; [exact Hmatch|]].
  { pose proof (nth_In (nonEmptyLines (linesOf rs)) "" Hlt) as Hnth.
    rewrite Hl in Hnth at 2. exact Hnth. }
  rewrite Search_probe, Hmatch, String.eqb_refl.
  apply Nat.ltb_lt in Hlt. now rewrite Hlt.
Qed.

Section WithJSON.

Variable json_Unmarshal : string -> result search.EvalRecord.

(** A shard written by [writeShard] is one [Search] reads: when the
    records sent are non-empty lines without a line feed, in ascending
    order of fingerprint, [writeShard] counts each of them, [splitLines]
    of the bytes written gives the records back in order, and [Search]
    finds, for the fingerprint of any record written, a record with that
    fingerprint. *)
Theorem written_shard_is_searchable (rs : list string) (r : string) :
  Forall oneLine rs ->
  sortedByFEN rs ->
  In r rs ->
  snd (writeRecords rs "" 0) = Z.of_nat (List.length rs)
  /\ search.splitLines (fst (writeRecords rs "" 0)) = rs
  /\ exists r', In r' rs
                /\ search.extractFEN r' = search.extractFEN r
                /\ search.Search json_Unmarshal (fst (writeRecords rs "" 0))
                     (search.extractFEN r)
                   = decodeMatched json_Unmarshal r'.
Proof.
  intros Hlines Hsorted Hin. rewrite writeRecords_spec. cbn [fst snd append].
  destruct (searchable_lines json_Unmarshal rs Hlines Hsorted) as (Hsplit & Hfind).
  split; [lia|]. split; [exact Hsplit | exact (Hfind r Hin)].
Qed.

End WithJSON.

Lemma written_shard_is_searchable_witness :
  snd (writeRecords [sampleLine "8/8/8/8/8/8/8/8 b - -";
                     sampleLine "8/8/8/8/8/8/8/8 w - -"] "" 0)
  = Z.of_nat 2
  /\ search.splitLines
       (fst (writeRecords [sampleLine "8/8/8/8/8/8/8/8 b - -";
                           sampleLine "8/8/8/8/8/8/8/8 w - -"] "" 0))
     = [sampleLine "8/8/8/8/8/8/8/8 b - -"; sampleLine "8/8/8/8/8/8/8/8 w - -"]
  /\ exists r', In r' [sampleLine "8/8/8/8/8/8/8/8 b - -";
                       sampleLine "8/8/8/8/8/8/8/8 w - -"]
                /\ search.extractFEN r'
                   = search.extractFEN (sampleLine "8/8/8/8/8/8/8/8 w - -")
                /\ search.Search sampleJSON
                     (fst (writeRecords [sampleLine "8/8/8/8/8/8/8/8 b - -";
                                         sampleLine "8/8/8/8/8/8/8/8 w - -"] "" 0))
                     (search.extractFEN (sampleLine "8/8/8/8/8/8/8/8 w - -"))
                   = decodeMatched sampleJSON r'.
Proof.
  apply (written_shard_is_searchable sampleJSON
           [sampleLine "8/8/8/8/8/8/8/8 b - -"; sampleLine "8/8/8/8/8/8/8/8 w - -"]
           (sampleLine "8/8/8/8/8/8/8/8 w - -")).
  - repeat constructor; try discriminate; vm_compute; intuition discriminate.
  - unfold sortedByFEN. repeat (constructor; try reflexivity).
  - right. left. reflexivity.
Defined.

End ShardFormat.

(* ===================================================================== *)
(** * Package builder, continued: the external merge                      *)
(* ===================================================================== *)

Module builderMerge.
Import GoRt builder builderRuns.
Local Open Scope string_scope.

(** [mergeEntry] represents a record from one of the sorted sources
    (0 = in-memory, 1+ = spilled files). *)
Record mergeEntry : Type := mkEntry {
  record : string;
  fen : string;
  source : nat }.

(** [mergeHeap.Less]. *)
Definition Less (a b : mergeEntry) : bool := strLt (fen a) (fen b).

Definition entryOf (rec : string) (src : nat) : mergeEntry :=
  mkEntry rec (extractFEN rec) src.

(** The path [spillToDisk] gives a run file:
    [filepath.Join(c.tempDir, fmt.Sprintf("shard_%05d_%d.tmp", c.shardID, c.spillCount))]. *)
Definition runPath (name : runName) : string :=
  filepath.Join [runDir name;
                 "shard_" ++ Sprintf05d (Z.of_nat (runShard name))
                 ++ "_" ++ Itoa (Z.of_nat (runSeq name)) ++ ".tmp"].

(** [readers[i] = reader] after a call of [Next]. *)
Fixpoint setReader (readers : list string) (i : nat) (r : string) : list string :=
  match readers, i with
  | [], _ => []
  | _ :: rest, O => r :: rest
  | r0 :: rest, S i' => r0 :: setReader rest i' r
  end.

Section WithEnvironment.

(** [sort.Slice(c.records, less)]. *)
Variable sortSlice : list string -> list string.

(** [heap.Push] and [heap.Pop] of [container/heap] on a [mergeHeap]; the
    layout of the slice is the library's.  [heapPop] is [None] on the
    empty heap only. *)
Variable heapPush : list mergeEntry -> mergeEntry -> list mergeEntry.
Variable heapPop : list mergeEntry -> option (mergeEntry * list mergeEntry).

(** [os.Open] of a run file: the bytes the file holds. *)
Variable openRun : runName -> result string.

(** The loop that opens a reader for each spilled file. *)
Fixpoint openReaders (paths : list runName) : result (list string) :=
  match paths with
  | [] => Ok []
  | path :: rest =>
      match openRun path with
      | Err err => Err (errWrap ("opening spilled file " ++ runPath path) err)
      | Ok content =>
          match openReaders rest with
          | Err err => Err err
          | Ok readers => Ok (content :: readers)
          end
      end
  end.

(** The loop that adds the first record of each spilled file to the
    heap; [i] is the index of the first of [readers]. *)
Fixpoint primeReaders (readers : list string) (i : nat) (h : list mergeEntry)
  : result (list mergeEntry * list string) :=
  match readers with
  | [] => Ok (h, [])
  | reader :: rest =>
      match Next reader with
      | (Err err, reader') =>
          if error_eqb err EOF then
            match primeReaders rest (S i) h with
            | Err e => Err e
            | Ok (h', rest') => Ok (h', reader' :: rest')
            end
          else Err (errWrap "reading from spilled file" err)
      | (Ok rec, reader') =>
          match primeReaders rest (S i) (heapPush h (entryOf rec (i + 1))) with
          | Err e => Err e
          | Ok (h', rest') => Ok (h', reader' :: rest')
          end
      end
  end.

(** The k-way merge [for h.Len() > 0], under a context that stays live:
    the records sent on [recordCh] and the error sent on [errCh].  [mem]
    is [c.records[inMemIdx:]]; [None] when the bound on the number of
    iterations is used up. *)
Fixpoint mergeLoop (fuel : nat) (h : list mergeEntry) (mem : list string)
    (readers : list string) (sent : list string)
  : option (outcome (list string * option error)) :=
  match fuel with
  | O => None
  | S fuel' =>
      if Nat.eqb (List.length h) 0 then Some (Returns (sent, None))
      else
        match heapPop h with
        | None => Some (Panics "runtime error: index out of range")
        | Some (entry, h1) =>
            let sent1 := (sent ++ [record entry])%list in
            if Nat.eqb (source entry) 0 then
              match mem with
              | [] => mergeLoop fuel' h1 mem readers sent1
              | rec :: mem' =>
                  mergeLoop fuel' (heapPush h1 (entryOf rec 0)) mem' readers sent1
              end
            else
              match nth_error readers (source entry - 1) with
              | None => Some (Panics "runtime error: index out of range")
              | Some reader =>
                  match Next reader with
                  | (Err err, reader') =>
                      if error_eqb err EOF
                      then mergeLoop fuel' h1 mem
                             (setReader readers (source entry - 1) reader') sent1
                      else Some (Returns
                                   (sent1,
                                    Some (errWrap "reading from spilled file" err)))
                  | (Ok rec, reader') =>
                      mergeLoop fuel'
                        (heapPush h1 (entryOf rec (source entry))) mem
                        (setReader readers (source entry - 1) reader') sent1
                  end
              end
        end
  end.

(** The bytes still to be read bound the number of records. *)
Definition unread (readers : list string) : nat :=
  fold_right (fun r acc => String.length r + acc) 0 readers.

(** [StreamSorted] returns records in sorted order using external merge
    sort, under a context that stays live. *)
Definition StreamSorted (c : shardCollector)
  : option (outcome (list string * option error)) :=
  let sorted := sortSlice (records c) in
  if Nat.eqb (List.length (spilledFiles c)) 0
  then Some (Returns (sorted, None))
  else
    match openReaders (spilledFiles c) with
    | Err err => Some (Returns ([], Some err))
    | Ok readers =>
        let '(h, mem) :=
          match sorted with
          | [] => ([], [])
          | rec :: rest => (heapPush [] (entryOf rec 0), rest)
          end in
        match primeReaders readers 0 h with
        | Err err => Some (Returns ([], Some err))
        | Ok (h1, readers1) =>
            mergeLoop (S (S (List.length sorted + unread readers))) h1 mem
              readers1 []
        end
    end.

End WithEnvironment.

End builderMerge.

(** ** The external merge *)

Module MergeSpec.
Import GoRt builder builderRuns builderMerge StringFacts SearchFacts SearchSpec.
Import Permutation.

(** *** Order *)

Lemma fenLe_total (a b : string) :
  strLt (extractFEN a) (extractFEN b) = false -> fenLe b a.
Proof.
  unfold fenLe, strLt, strLe, String.ltb, String.leb.
  change (search.extractFEN b) with (extractFEN b).
  change (search.extractFEN a) with (extractFEN a).
  rewrite (String.compare_antisym (extractFEN b) (extractFEN a)).
  destruct (String.compare (extractFEN a) (extractFEN b)); cbn [CompOpp];
    congruence.
Qed.

Lemma fenLe_refl (a : string) : fenLe a a.
Proof. apply strLe_refl. Qed.

Lemma sorted_strongly (l : list string) : Sorted fenLe l -> StronglySorted fenLe l.
Proof.
  apply Sorted_StronglySorted. intros a b c. apply fenLe_trans.
Qed.

Lemma strongly_snoc (l : list string) (x : string) :
  StronglySorted fenLe l -> Forall (fun o => fenLe o x) l ->
  StronglySorted fenLe (l ++ [x]).
Proof.
  induction 1 as [|a l Hl IH Ha]; intros Hx; cbn [app].
  - constructor; constructor.
  - inversion Hx as [|a' l' Hax Hlx]; subst. constructor; [now apply IH|].
    apply Forall_app. split; [exact Ha | constructor; [exact Hax | constructor]].
Qed.

(** *** Lists of sources *)

Fixpoint setAt {A : Type} (l : list A) (i : nat) (x : A) : list A :=
  match l, i with
  | [], _ => []
  | _ :: rest, O => x :: rest
  | a :: rest, S i' => a :: setAt rest i' x
  end.

Lemma setAt_length {A : Type} (l : list A) (i : nat) (x : A) :
  List.length (setAt l i x) = List.length l.
Proof. revert i; induction l as [|a l IH]; intros [|i]; simpl; auto. Qed.

Lemma setAt_nth {A : Type} (l : list A) (i j : nat) (x d : A) :
  (i < List.length l)%nat ->
  nth j (setAt l i x) d = if Nat.eqb j i then x else nth j l d.
Proof.
  revert i j; induction l as [|a l IH]; intros [|i] [|j] Hi; simpl in *;
    try lia; auto.
  apply IH. lia.
Qed.

Lemma setAt_Forall {A : Type} (P : A -> Prop) (l : list A) (i : nat) (x : A) :
  Forall P l -> P x -> Forall P (setAt l i x).
Proof.
  intros Hl Hx. revert i; induction Hl as [|a l Ha Hl IH]; intros [|i]; simpl;
    constructor; auto.
Qed.

Lemma setAt_concat {A : Type} (l : list (list A)) (i : nat) (x : A) (tl : list A) :
  (i < List.length l)%nat -> nth i l [] = x :: tl ->
  Permutation (List.concat l) (x :: List.concat (setAt l i tl)).
Proof.
  revert i; induction l as [|a l IH]; intros [|i] Hi Hn; simpl in *; try lia.
  - subst a. reflexivity.
  - apply Permutation_trans with (a ++ x :: List.concat (setAt l i tl)).
    + apply Permutation_app_head. apply IH; [lia | exact Hn].
    + symmetry. apply Permutation_middle.
Qed.

Lemma setReader_map (rests : list (list string)) (i : nat) (tl : list string) :
  setReader (map runFileContent rests) i (runFileContent tl)
  = map runFileContent (setAt rests i tl).
Proof.
  revert i; induction rests as [|a l IH]; intros [|i]; simpl; auto.
  now rewrite IH.
Qed.

Lemma concat_nil (l : list (list string)) :
  (forall s, nth s l [] = []) -> List.concat l = [].
Proof.
  induction l as [|a l IH]; intros H; [reflexivity|]. simpl.
  rewrite (H 0%nat : a = []). apply IH. intros s. exact (H (S s)).
Qed.

(** *** The heap and the sources *)

Section Merge.

Variable sortSlice : list string -> list string.
Variable heapPush : list mergeEntry -> mergeEntry -> list mergeEntry.
Variable heapPop : list mergeEntry -> option (mergeEntry * list mergeEntry).
Variable openRun : runName -> result string.

(** [sort.Slice] sorts: it rearranges the records into ascending order of
    fingerprint. *)
Hypothesis sortSlice_permutes : forall rs, Permutation (sortSlice rs) rs.
Hypothesis sortSlice_sorts : forall rs, sortedByFEN (sortSlice rs).

(** [container/heap] keeps a priority queue: on the slices [wellFormed]
    singles out, [Push] adds an entry and [Pop] removes an entry that no
    other is [Less] than. *)
Variable wellFormed : list mergeEntry -> Prop.

Hypothesis heap_empty : wellFormed [].
Hypothesis heapPush_adds :
  forall h e, wellFormed h ->
              wellFormed (heapPush h e) /\ Permutation (heapPush h e) (e :: h).
Hypothesis heapPop_least :
  forall h, wellFormed h -> h <> [] ->
            exists e h', heapPop h = Some (e, h')
                         /\ wellFormed h'
                         /\ Permutation h (e :: h')
                         /\ Forall (fun x => Less x e = false) h'.

(** The state of the merge: the heap holds the record each live source
    is at; [srcs] are the records the sources still hold after it (the
    in-memory records first, then the run files); [sent] has been sent. *)
Definition merging (h : list mergeEntry) (srcs : list (list string))
    (sent total : list string) : Prop :=
  wellFormed h
  /\ Forall (StronglySorted fenLe) srcs
  /\ Forall (fun x => fen x = extractFEN (record x)
                      /\ (source x < List.length srcs)%nat
                      /\ Forall (fenLe (record x)) (nth (source x) srcs [])) h
  /\ (forall s, nth s srcs [] <> [] -> exists x, In x h /\ source x = s)
  /\ Forall (fun o => Forall (fenLe o) (map record h ++ List.concat srcs)) sent
  /\ StronglySorted fenLe sent
  /\ Permutation (sent ++ map record h ++ List.concat srcs) total.

Lemma In_nth_concat (srcs : list (list string)) (y : string) :
  In y (List.concat srcs) -> exists s, In y (nth s srcs []).
Proof.
  induction srcs as [|a l IH]; simpl; [tauto|].
  intros H. apply in_app_or in H. destruct H as [H|H].
  - now exists 0%nat.
  - destruct (IH H) as [s Hs]. now exists (S s).
Qed.

Lemma nth_In_concat (srcs : list (list string)) (s : nat) (y : string) :
  In y (nth s srcs []) -> In y (List.concat srcs).
Proof.
  revert s; induction srcs as [|a l IH]; intros [|s]; simpl; try tauto.
  - intros H. apply in_or_app. now left.
  - intros H. apply in_or_app. right. exact (IH s H).
Qed.

(** The entry popped is below everything that is left. *)
Lemma popped_least (h h1 : list mergeEntry) (e : mergeEntry)
    (srcs : list (list string)) (sent total : list string) :
  merging h srcs sent total ->
  Permutation h (e :: h1) ->
  Forall (fun x => Less x e = false) h1 ->
  Forall (fenLe (record e)) (map record h1 ++ List.concat srcs).
Proof.
  intros (_ & _ & Hent & Hcov & _) Hperm Hleast.
  rewrite Forall_forall in Hent.
  assert (He : In e h) by (apply (Permutation_in _ (Permutation_sym Hperm)); now left).
  assert (Hh1 : forall x, In x h1 -> In x h)
    by (intros x Hx; apply (Permutation_in _ (Permutation_sym Hperm)); now right).
  assert (Hle1 : forall x, In x h1 -> fenLe (record e) (record x)).
  { intros x Hx. rewrite Forall_forall in Hleast. specialize (Hleast x Hx).
    destruct (Hent x (Hh1 x Hx)) as (Fx & _). destruct (Hent e He) as (Fe & _).
    unfold Less in Hleast. rewrite Fx, Fe in Hleast. now apply fenLe_total. }
  apply Forall_forall. intros y Hy. apply in_app_or in Hy. destruct Hy as [Hy|Hy].
  - apply in_map_iff in Hy. destruct Hy as (x & <- & Hx). now apply Hle1.
  - destruct (In_nth_concat srcs y Hy) as [s Hs].
    destruct (Nat.eq_dec s (source e)) as [->|Hne].
    + destruct (Hent e He) as (_ & _ & Hall).
      rewrite Forall_forall in Hall. now apply Hall.
    + destruct (Hcov s) as (x & Hx & Hsx); [intros E; rewrite E in Hs; destruct Hs|].
      assert (Hx1 : In x h1).
      { apply (Permutation_in _ Hperm) in Hx. destruct Hx as [<-|Hx]; [congruence|].
        exact Hx. }
      destruct (Hent x Hx) as (_ & _ & Hall). rewrite Forall_forall in Hall.
      subst s. exact (fenLe_trans _ _ _ (Hle1 x Hx1) (Hall y Hs)).
Qed.

Lemma merging_keep (h h1 : list mergeEntry) (e : mergeEntry)
    (srcs : list (list string)) (sent total : list string) :
  merging h srcs sent total ->
  wellFormed h1 ->
  Permutation h (e :: h1) ->
  Forall (fun x => Less x e = false) h1 ->
  nth (source e) srcs [] = [] ->
  merging h1 srcs (sent ++ [record e]) total.
Proof.
  intros M Hw Hperm Hleast Hnil.
  pose proof (popped_least h h1 e srcs sent total M Hperm Hleast) as Hlow.
  destruct M as (_ & Hss & Hent & Hcov & Hsent & Hsorted & Htotal).
  assert (Hh1 : forall x, In x h1 -> In x h)
    by (intros x Hx; apply (Permutation_in _ (Permutation_sym Hperm)); now right).
  assert (Hrem : Permutation (map record h ++ List.concat srcs)
                   (record e :: map record h1 ++ List.concat srcs)).
  { change (record e :: map record h1 ++ List.concat srcs)
      with (map record (e :: h1) ++ List.concat srcs).
    apply Permutation_app_tail, Permutation_map, Hperm. }
  repeat split.
  - exact Hw.
  - exact Hss.
  - rewrite Forall_forall in Hent |- *. intros x Hx. exact (Hent x (Hh1 x Hx)).
  - intros s Hs. destruct (Hcov s Hs) as (x & Hx & Hsx).
    exists x. split; [|exact Hsx].
    apply (Permutation_in _ Hperm) in Hx. destruct Hx as [<-|Hx]; [|exact Hx].
    congruence.
  - apply Forall_app. split.
    + rewrite Forall_forall in Hsent |- *. intros o Ho.
      pose proof (Permutation_Forall Hrem (Hsent o Ho)) as Hall.
      now inversion Hall.
    + constructor; [exact Hlow | constructor].
  - apply strongly_snoc; [exact Hsorted|].
    rewrite Forall_forall in Hsent |- *. intros o Ho.
    pose proof (Permutation_Forall Hrem (Hsent o Ho)) as Hall.
    now inversion Hall.
  - apply Permutation_trans with (sent ++ map record h ++ List.concat srcs);
      [|exact Htotal].
    rewrite <- app_assoc. apply Permutation_app_head. cbn [app].
    symmetry. exact Hrem.
Qed.

Lemma merging_refill (h h1 h2 : list mergeEntry) (e : mergeEntry)
    (rec : string) (rest : list string)
    (srcs : list (list string)) (sent total : list string) :
  merging h srcs sent total ->
  Permutation h (e :: h1) ->
  Forall (fun x => Less x e = false) h1 ->
  wellFormed h2 ->
  Permutation h2 (entryOf rec (source e) :: h1) ->
  nth (source e) srcs [] = rec :: rest ->
  merging h2 (setAt srcs (source e) rest) (sent ++ [record e]) total.
Proof.
  intros M Hperm Hleast Hw Hperm2 Hnth.
  pose proof (popped_least h h1 e srcs sent total M Hperm Hleast) as Hlow.
  destruct M as (_ & Hss & Hent & Hcov & Hsent & Hsorted & Htotal).
  rewrite Forall_forall in Hent.
  assert (He : In e h) by (apply (Permutation_in _ (Permutation_sym Hperm)); now left).
  assert (Hh1 : forall x, In x h1 -> In x h)
    by (intros x Hx; apply (Permutation_in _ (Permutation_sym Hperm)); now right).
  destruct (Hent e He) as (_ & Hlt & _).
  assert (Hrem : Permutation (map record h ++ List.concat srcs)
                   (record e :: map record h1 ++ List.concat srcs)).
  { change (record e :: map record h1 ++ List.concat srcs)
      with (map record (e :: h1) ++ List.concat srcs).
    apply Permutation_app_tail, Permutation_map, Hperm. }
  assert (Hrem2 : Permutation (map record h1 ++ List.concat srcs)
                    (map record h2
                     ++ List.concat (setAt srcs (source e) rest))).
  { apply Permutation_trans
      with (map record h1 ++ rec :: List.concat (setAt srcs (source e) rest)).
    - apply Permutation_app_head. now apply setAt_concat.
    - apply Permutation_trans
        with (map record (entryOf rec (source e) :: h1)
              ++ List.concat (setAt srcs (source e) rest)).
      + symmetry. cbn [map app record entryOf]. apply Permutation_middle.
      + apply Permutation_app_tail, Permutation_map. symmetry. exact Hperm2. }
  assert (Hrs : StronglySorted fenLe (rec :: rest)).
  { rewrite <- Hnth. rewrite Forall_forall in Hss. apply Hss.
    apply nth_In. exact Hlt. }
  inversion Hrs as [|? ? Hrest Hrec]; subst.
  assert (Hsub : forall s y, In y (nth s (setAt srcs (source e) rest) []) ->
                             In y (nth s srcs [])).
  { intros s y. rewrite (setAt_nth srcs (source e) s rest [] Hlt).
    destruct (Nat.eqb_spec s (source e)) as [->|_]; [|auto].
    rewrite Hnth. intros Hy. now right. }
  repeat split.
  - exact Hw.
  - apply setAt_Forall; assumption.
  - apply Forall_forall. intros x Hx. rewrite setAt_length.
    apply (Permutation_in _ Hperm2) in Hx. destruct Hx as [<-|Hx].
    + cbn [entryOf fen record source]. repeat split; [exact Hlt|].
      rewrite (setAt_nth srcs (source e) (source e) rest [] Hlt), Nat.eqb_refl.
      exact Hrec.
    + destruct (Hent x (Hh1 x Hx)) as (Fx & Lx & Ax). repeat split; auto.
      rewrite Forall_forall in Ax |- *. intros y Hy. apply Ax.
      now apply Hsub.
  - intros s Hs. rewrite (setAt_nth srcs (source e) s rest [] Hlt) in Hs.
    destruct (Nat.eqb_spec s (source e)) as [E|Hne].
    + exists (entryOf rec (source e)). split; [|now rewrite E].
      apply (Permutation_in _ (Permutation_sym Hperm2)). now left.
    + destruct (Hcov s Hs) as (x & Hx & Hsx). exists x. split; [|exact Hsx].
      apply (Permutation_in _ (Permutation_sym Hperm2)). right.
      apply (Permutation_in _ Hperm) in Hx. destruct Hx as [<-|Hx]; [|exact Hx].
      congruence.
  - apply Forall_app. split.
    + rewrite Forall_forall in Hsent |- *. intros o Ho.
      pose proof (Permutation_Forall Hrem (Hsent o Ho)) as Hall.
      inversion Hall; subst. now apply (Permutation_Forall Hrem2).
    + constructor; [|constructor]. now apply (Permutation_Forall Hrem2).
  - apply strongly_snoc; [exact Hsorted|].
    rewrite Forall_forall in Hsent |- *. intros o Ho.
    pose proof (Permutation_Forall Hrem (Hsent o Ho)) as Hall.
    now inversion Hall.
  - apply Permutation_trans with (sent ++ map record h ++ List.concat srcs);
      [|exact Htotal].
    rewrite <- app_assoc. apply Permutation_app_head. cbn [app].
    apply Permutation_trans with (record e :: map record h1 ++ List.concat srcs);
      [|symmetry; exact Hrem].
    apply perm_skip. symmetry. exact Hrem2.
Qed.

(** When the heap is empty every source is exhausted. *)
Lemma merging_done (srcs : list (list string)) (sent total : list string) :
  merging [] srcs sent total ->
  StronglySorted fenLe sent /\ Permutation sent total.
Proof.
  intros (_ & _ & _ & Hcov & _ & Hsorted & Htotal). split; [exact Hsorted|].
  assert (Hnil : List.concat srcs = []).
  { apply concat_nil. intros s. destruct (nth s srcs []) eqn:E; [reflexivity|].
    destruct (Hcov s) as (x & [] & _). rewrite E. discriminate. }
  rewrite Hnil in Htotal. cbn [map app] in Htotal. now rewrite app_nil_r in Htotal.
Qed.

(** *** The loop on run files *)

Definition short (r : string) : Prop := (Z.of_nat (String.length r) < 2 ^ 32)%Z.

Lemma setAt_same {A : Type} (l : list A) (i : nat) (d : A) :
  setAt l i (nth i l d) = l.
Proof.
  revert i; induction l as [|a l IH]; intros [|i]; simpl; auto. now rewrite IH.
Qed.

Lemma nth_error_runs (rests : list (list string)) (k : nat) :
  (k < List.length rests)%nat ->
  nth_error (map runFileContent rests) k = Some (runFileContent (nth k rests [])).
Proof.
  revert k; induction rests as [|a l IH]; intros [|k] Hk; simpl in *; try lia; auto.
  apply IH. lia.
Qed.

Lemma Next_run (rec : string) (rest : list string) :
  short rec ->
  Next (runFileContent (rec :: rest)) = (Ok rec, runFileContent rest).
Proof. intros Hs. exact (BuilderMore.Next_record rec (runFileContent rest) Hs). Qed.

Lemma mergeLoop_merges (fuel : nat) :
  forall (h : list mergeEntry) (mem : list string) (rests : list (list string))
         (sent total : list string),
    merging h (mem :: rests) sent total ->
    Forall (Forall short) rests ->
    (List.length h + List.length (List.concat (mem :: rests)) < fuel)%nat ->
    exists out,
      mergeLoop heapPush heapPop fuel h mem (map runFileContent rests) sent
      = Some (Returns (out, None))
      /\ StronglySorted fenLe out /\ Permutation out total.
Proof.
  induction fuel as [|fuel IH]; intros h mem rests sent total M Hshort Hfuel;
    [lia|].
  cbn [mergeLoop].
  destruct h as [|e0 h0] eqn:Eh.
  { cbn [List.length Nat.eqb]. exists sent. split; [reflexivity|].
    exact (merging_done _ _ _ M). }
  rewrite <- Eh in *. 
  assert (Hne : h <> []) by (rewrite Eh; discriminate).
  assert (Hlen : Nat.eqb (List.length h) 0 = false)
    by (rewrite Eh; reflexivity).
  rewrite Hlen.
  destruct (heapPop_least h (proj1 M) Hne) as (e & h1 & Hpop & Hw1 & Hperm & Hleast).
  rewrite Hpop.
  assert (Hlen1 : List.length h = S (List.length h1))
    by (rewrite (Permutation_length Hperm); reflexivity).
  assert (He : In e h) by (apply (Permutation_in _ (Permutation_sym Hperm)); now left).
  destruct M as (Hw & Hss & Hent & Hrest).
  pose proof Hent as Hent'. rewrite Forall_forall in Hent'.
  destruct (Hent' e He) as (_ & Hlt & _).
  assert (M : merging h (mem :: rests) sent total) by (repeat split; tauto).
  destruct (source e) as [|k] eqn:Es.
  - cbn [Nat.eqb]. destruct mem as [|rec mem'].
    + apply (IH h1 [] rests); [|exact Hshort|cbn [List.concat app] in *; lia].
      apply (merging_keep h h1 e); auto. now rewrite Es.
    + destruct (heapPush_adds h1 (entryOf rec 0) Hw1) as (Hw2 & Hperm2).
      apply (IH _ mem' rests); [|exact Hshort|].
      * change (mem' :: rests) with (setAt ((rec :: mem') :: rests) 0 mem').
        rewrite <- Es.
        apply (merging_refill h h1 _ e rec mem'); auto; now rewrite Es.
      * rewrite (Permutation_length Hperm2). cbn [List.length List.concat app] in *.
        rewrite length_app in *. cbn [List.length] in *. lia.
  - cbn [Nat.eqb]. change (S k - 1)%nat with (k - 0)%nat. rewrite Nat.sub_0_r.
    cbn [List.length] in Hlt.
    rewrite (nth_error_runs rests k) by lia.
    destruct (nth k rests []) as [|rec rest] eqn:Ek.
    + change (Next (runFileContent [])) with (@Err string EOF, ""%string).
      cbn iota. change (error_eqb EOF EOF) with true. cbn iota.
      change ""%string with (runFileContent []). rewrite setReader_map.
      pose proof (setAt_same rests k []) as Hsame. rewrite Ek in Hsame.
      rewrite Hsame.
      apply (IH h1 mem rests); [|exact Hshort|lia].
      apply (merging_keep h h1 e); auto. now rewrite Es.
    + assert (Hrec : short rec /\ Forall short rest).
      { rewrite Forall_forall in Hshort.
        assert (Hin : In (rec :: rest) rests)
          by (rewrite <- Ek; apply nth_In; lia).
        specialize (Hshort _ Hin). now inversion Hshort. }
      destruct Hrec as (Hrec & Hrest').
      rewrite (Next_run rec rest Hrec). cbn iota.
      rewrite setReader_map.
      destruct (heapPush_adds h1 (entryOf rec (S k)) Hw1) as (Hw2 & Hperm2).
      apply (IH _ mem (setAt rests k rest)).
      * change (mem :: setAt rests k rest) with (setAt (mem :: rests) (S k) rest).
        rewrite <- Es.
        apply (merging_refill h h1 _ e rec rest); auto; rewrite Es; auto.
      * apply setAt_Forall; assumption.
      * rewrite (Permutation_length Hperm2). cbn [List.length].
        assert (Hc : Permutation (List.concat (mem :: rests))
                       (rec :: List.concat (setAt (mem :: rests) (S k) rest))).
        { apply setAt_concat; [cbn [List.length]; lia | exact Ek]. }
        apply Permutation_length in Hc. cbn [List.length] in Hc.
        cbn [setAt] in Hc. lia.
Qed.

(** *** The first record of each source *)

Fixpoint headsFrom (i : nat) (srcs : list (list string)) : list mergeEntry :=
  match srcs with
  | [] => []
  | [] :: rest => headsFrom (S i) rest
  | (r :: _) :: rest => entryOf r i :: headsFrom (S i) rest
  end.

Lemma headsFrom_In (srcs : list (list string)) :
  forall (i : nat) (x : mergeEntry),
    In x (headsFrom i srcs) ->
    exists j r rest, (j < List.length srcs)%nat
                     /\ nth j srcs [] = r :: rest /\ x = entryOf r (i + j).
Proof.
  induction srcs as [|[|r rest] srcs IH]; intros i x Hx; cbn [headsFrom] in Hx.
  - destruct Hx.
  - destruct (IH (S i) x Hx) as (j & r & rest & Hj & Hn & ->).
    exists (S j), r, rest. cbn [List.length nth]. repeat split; [lia|exact Hn|].
    f_equal. lia.
  - destruct Hx as [<-|Hx].
    + exists 0%nat, r, rest. cbn [List.length nth]. repeat split; [lia|].
      f_equal. lia.
    + destruct (IH (S i) x Hx) as (j & r' & rest' & Hj & Hn & ->).
      exists (S j), r', rest'. cbn [List.length nth]. repeat split; [lia|exact Hn|].
      f_equal. lia.
Qed.

Lemma headsFrom_cover (srcs : list (list string)) :
  forall (i j : nat) (r : string) (rest : list string),
    nth j srcs [] = r :: rest -> In (entryOf r (i + j)) (headsFrom i srcs).
Proof.
  induction srcs as [|a srcs IH]; intros i [|j] r rest Hn; cbn [nth] in Hn;
    try discriminate.
  - subst a. cbn [headsFrom]. left. f_equal. lia.
  - replace (i + S j)%nat with (S i + j)%nat by lia.
    pose proof (IH (S i) j r rest Hn) as Hin.
    destruct a; cbn [headsFrom]; [exact Hin | now right].
Qed.

Lemma headsFrom_concat (srcs : list (list string)) (i : nat) :
  Permutation (map record (headsFrom i srcs) ++ List.concat (map (@tl string) srcs))
              (List.concat srcs).
Proof.
  revert i; induction srcs as [|[|r rest] srcs IH]; intros i;
    cbn [headsFrom map List.concat tl app record entryOf].
  - constructor.
  - apply IH.
  - apply perm_skip.
    apply Permutation_trans
      with (rest ++ map record (headsFrom (S i) srcs)
            ++ List.concat (map (@tl string) srcs)).
    + rewrite !app_assoc. apply Permutation_app_tail, Permutation_app_comm.
    + apply Permutation_app_head, IH.
Qed.

Lemma nth_tl (srcs : list (list string)) (j : nat) :
  nth j (map (@tl string) srcs) [] = tl (nth j srcs []).
Proof. exact (map_nth (@tl string) srcs [] j). Qed.

Lemma merging_init (srcs : list (list string)) (h : list mergeEntry) :
  wellFormed h ->
  Permutation h (headsFrom 0 srcs) ->
  Forall (StronglySorted fenLe) srcs ->
  merging h (map (@tl string) srcs) [] (List.concat srcs).
Proof.
  intros Hw Hperm Hss. repeat split.
  - exact Hw.
  - apply Forall_map. rewrite Forall_forall in Hss |- *. intros l Hl.
    specialize (Hss l Hl). destruct l; [constructor|]. now inversion Hss.
  - apply Forall_forall. intros x Hx. apply (Permutation_in _ Hperm) in Hx.
    destruct (headsFrom_In srcs 0 x Hx) as (j & r & rest & Hj & Hn & ->).
    cbn [entryOf fen record source Nat.add]. rewrite length_map, nth_tl, Hn.
    repeat split; [exact Hj|]. cbn [tl].
    rewrite Forall_forall in Hss.
    assert (Hin : In (r :: rest) srcs) by (rewrite <- Hn; now apply nth_In).
    specialize (Hss _ Hin). now inversion Hss.
  - intros s Hs. rewrite nth_tl in Hs.
    destruct (nth s srcs []) as [|r rest] eqn:Hn; [now destruct Hs|].
    exists (entryOf r s). split; [|reflexivity].
    apply (Permutation_in _ (Permutation_sym Hperm)).
    exact (headsFrom_cover srcs 0 s r rest Hn).
  - constructor.
  - constructor.
  - cbn [app].
    apply Permutation_trans
      with (map record (headsFrom 0 srcs) ++ List.concat (map (@tl string) srcs)).
    + apply Permutation_app_tail, Permutation_map, Hperm.
    + apply headsFrom_concat.
Qed.

(** *** Opening and priming the readers *)

Lemma openReaders_opens (paths : list runName) (runs : list (list string)) :
  Forall2 (fun path run => openRun path = Ok (runFileContent run)) paths runs ->
  openReaders openRun paths = Ok (map runFileContent runs).
Proof.
  induction 1 as [|path run paths runs Hopen _ IH]; [reflexivity|].
  cbn [openReaders map]. now rewrite Hopen, IH.
Qed.

Lemma primeReaders_primes (runs : list (list string)) :
  forall (i : nat) (h : list mergeEntry),
    wellFormed h ->
    Forall (Forall short) runs ->
    exists h',
      primeReaders heapPush (map runFileContent runs) i h
      = Ok (h', map runFileContent (map (@tl string) runs))
      /\ wellFormed h'
      /\ Permutation h' (h ++ headsFrom (S i) runs).
Proof.
  induction runs as [|[|r rest] runs IH]; intros i h Hw Hshort.
  - exists h. cbn [map primeReaders headsFrom]. rewrite app_nil_r. now repeat split.
  - inversion Hshort as [|? ? _ Hruns]; subst.
    destruct (IH (S i) h Hw Hruns) as (h' & Hp & Hw' & Hperm).
    exists h'. cbn [map primeReaders tl headsFrom].
    change (Next (runFileContent [])) with (@Err string EOF, ""%string).
    cbn iota. change (error_eqb EOF EOF) with true. cbn iota.
    rewrite Hp. now repeat split.
  - inversion Hshort as [|? ? Hrun Hruns]; subst.
    inversion Hrun as [|? ? Hr _]; subst.
    destruct (heapPush_adds h (entryOf r (i + 1)) Hw) as (Hw1 & Hperm1).
    destruct (IH (S i) _ Hw1 Hruns) as (h' & Hp & Hw' & Hperm).
    exists h'. cbn [map primeReaders tl headsFrom].
    rewrite (Next_run r rest Hr). cbn iota. rewrite Hp.
    repeat split; [exact Hw'|].
    apply (Permutation_trans Hperm).
    replace (i + 1)%nat with (S i) in Hperm1 by lia.
    apply Permutation_trans
      with ((entryOf r (S i) :: h) ++ headsFrom (S (S i)) runs).
    + apply Permutation_app_tail. replace (i + 1)%nat with (S i) by lia.
      exact Hperm1.
    + cbn [app]. apply Permutation_middle.
Qed.

(** A run file is at least as long as the number of its records. *)
Lemma runFileContent_length (rs : list string) :
  (List.length rs <= String.length (runFileContent rs))%nat.
Proof.
  induction rs as [|r rs IH]; [apply Nat.le_refl|].
  cbn [runFileContent fold_right List.length]. fold (runFileContent rs).
  rewrite !slength_app.
  change (String.length (be32 (String.length r))) with 4%nat. lia.
Qed.

Lemma unread_bounds (runs : list (list string)) :
  (List.length (List.concat runs) <= unread (map runFileContent runs))%nat.
Proof.
  induction runs as [|rs runs IH]; [apply Nat.le_refl|].
  cbn [List.concat map unread fold_right]. fold (unread (map runFileContent runs)).
  rewrite length_app. pose proof (runFileContent_length rs). lia.
Qed.

(** *** The merge *)

(** The merge on the sorted in-memory records and the runs. *)
Lemma StreamSorted_strongly (c : shardCollector) (runs : list (list string)) :
  Forall2 (fun path run => openRun path = Ok (runFileContent run))
          (spilledFiles c) runs ->
  Forall sortedByFEN runs ->
  Forall (Forall short) runs ->
  exists out,
    StreamSorted sortSlice heapPush heapPop openRun c = Some (Returns (out, None))
    /\ StronglySorted fenLe out
    /\ Permutation out (sortSlice (records c) ++ List.concat runs).
Proof.
  intros Hopen Hsorted Hshort. unfold StreamSorted.
  destruct (spilledFiles c) as [|path paths] eqn:Ef.
  { inversion Hopen; subst. cbn [List.length Nat.eqb List.concat].
    exists (sortSlice (records c)). rewrite app_nil_r.
    split; [reflexivity|]. split; [apply sorted_strongly, sortSlice_sorts|].
    apply Permutation_refl. }
  cbn [List.length Nat.eqb]. rewrite (openReaders_opens _ _ Hopen).
  set (sorted := sortSlice (records c)).
  assert (Hs0 : exists h0,
             (match sorted with
              | [] => ([], [])
              | rec :: rest => (heapPush [] (entryOf rec 0), rest)
              end) = (h0, tl sorted)
             /\ wellFormed h0 /\ Permutation h0 (headsFrom 0 [sorted])).
  { destruct sorted as [|rec rest].
    - exists []. cbn [tl headsFrom]. now repeat split.
    - destruct (heapPush_adds [] (entryOf rec 0) heap_empty) as (Hw & Hp).
      exists (heapPush [] (entryOf rec 0)). cbn [tl headsFrom]. now repeat split. }
  destruct Hs0 as (h0 & -> & Hw0 & Hperm0).
  destruct (primeReaders_primes runs 0 h0 Hw0 Hshort) as (h1 & -> & Hw1 & Hperm1).
  assert (Hheads : Permutation h1 (headsFrom 0 (sorted :: runs))).
  { apply (Permutation_trans Hperm1).
    apply Permutation_trans with (headsFrom 0 [sorted] ++ headsFrom 1 runs);
      [now apply Permutation_app_tail|].
    destruct sorted; reflexivity. }
  assert (Hss : Forall (StronglySorted fenLe) (sorted :: runs)).
  { constructor; [apply sorted_strongly, sortSlice_sorts|].
    rewrite Forall_forall in Hsorted |- *. intros l Hl.
    apply sorted_strongly, Hsorted, Hl. }
  pose proof (merging_init (sorted :: runs) h1 Hw1 Hheads Hss) as M.
  cbn [map] in M.
  destruct (mergeLoop_merges
              (S (S (List.length sorted + unread (map runFileContent runs))))
              h1 (tl sorted) (map (@tl string) runs) [] _ M)
    as (out & Hrun & Hout & Hperm).
  - rewrite Forall_forall in Hshort |- *. intros l Hl.
    apply in_map_iff in Hl. destruct Hl as (l0 & <- & Hl0).
    specialize (Hshort l0 Hl0). destruct l0; [constructor|]. now inversion Hshort.
  - assert (Hlen : Permutation
                     (map record h1
                      ++ List.concat (map (@tl string) (sorted :: runs)))
                     (List.concat (sorted :: runs))).
    { apply Permutation_trans
        with (map record (headsFrom 0 (sorted :: runs))
              ++ List.concat (map (@tl string) (sorted :: runs)));
        [apply Permutation_app_tail, Permutation_map, Hheads
        |apply headsFrom_concat]. }
    apply Permutation_length in Hlen.
    rewrite length_app, length_map in Hlen. cbn [map] in Hlen.
    change (List.concat (sorted :: runs)) with (sorted ++ List.concat runs)%list in Hlen.
    rewrite length_app in Hlen.
    pose proof (unread_bounds runs). lia.
  - exists out. split; [exact Hrun|]. split; [exact Hout|]. exact Hperm.
Qed.

(** X23. [StreamSorted] merges: when each spilled file opens and holds a
    run of records in ascending order of fingerprint (each record shorter
    than 2^32 bytes), [StreamSorted] ends without an error, and the
    records it sends are, in ascending order of fingerprint, exactly the
    records in memory and the records of the runs. *)
Theorem StreamSorted_merges (c : shardCollector) (runs : list (list string)) :
  Forall2 (fun path run => openRun path = Ok (runFileContent run))
          (spilledFiles c) runs ->
  Forall sortedByFEN runs ->
  Forall (Forall short) runs ->
  exists out,
    StreamSorted sortSlice heapPush heapPop openRun c = Some (Returns (out, None))
    /\ sortedByFEN out
    /\ Permutation out (records c ++ List.concat runs).
Proof.
  intros Hopen Hsorted Hshort.
  destruct (StreamSorted_strongly c runs Hopen Hsorted Hshort)
    as (out & Hrun & Hout & Hperm).
  exists out. split; [exact Hrun|]. split; [now apply StronglySorted_Sorted|].
  apply (Permutation_trans Hperm).
  apply Permutation_app_tail, sortSlice_permutes.
Qed.

End Merge.


(** *** A priority queue and a small merge *)

(** A slice kept in ascending order is one of the priority queues the
    contract of [container/heap] allows. *)
Fixpoint pushSorted (h : list mergeEntry) (e : mergeEntry) : list mergeEntry :=
  match h with
  | [] => [e]
  | x :: h' => if Less e x then e :: h else x :: pushSorted h' e
  end.

Definition popSorted (h : list mergeEntry) : option (mergeEntry * list mergeEntry) :=
  match h with
  | [] => None
  | e :: h' => Some (e, h')
  end.

Definition ascending (h : list mergeEntry) : Prop :=
  StronglySorted (fun a b => Less b a = false) h.

Lemma strLt_false (a b : string) : strLt a b = false <-> strLe b a = true.
Proof.
  unfold strLt, strLe, String.ltb, String.leb.
  rewrite (String.compare_antisym b a).
  destruct (String.compare a b); cbn [CompOpp]; split; congruence.
Qed.

Lemma strLt_strLe (a b : string) : strLt a b = true -> strLe a b = true.
Proof.
  unfold strLt, strLe, String.ltb, String.leb.
  destruct (String.compare a b); congruence.
Qed.

Lemma strLt_asym (a b : string) : strLt a b = true -> strLt b a = false.
Proof. intros H. apply strLt_false. now apply strLt_strLe. Qed.

Lemma pushSorted_permutes (h : list mergeEntry) (e : mergeEntry) :
  Permutation (pushSorted h e) (e :: h).
Proof.
  induction h as [|x h IH]; cbn [pushSorted]; [reflexivity|].
  destruct (Less e x); [reflexivity|].
  apply Permutation_trans with (x :: e :: h); [now apply perm_skip | apply perm_swap].
Qed.

Lemma pushSorted_ascending (h : list mergeEntry) (e : mergeEntry) :
  ascending h -> ascending (pushSorted h e).
Proof.
  unfold ascending. induction 1 as [|x h Hh IH Hx]; cbn [pushSorted].
  - constructor; constructor.
  - destruct (Less e x) eqn:El.
    + constructor; [now constructor|]. unfold Less in *.
      constructor; [now apply strLt_asym|].
      rewrite Forall_forall in Hx |- *. intros b Hb. specialize (Hx b Hb).
      apply strLt_false. apply strLt_false in Hx.
      exact (strLe_trans _ _ _ (strLt_strLe _ _ El) Hx).
    + constructor; [exact IH|].
      apply (Permutation_Forall (Permutation_sym (pushSorted_permutes h e))).
      now constructor.
Qed.

Lemma popSorted_least (h : list mergeEntry) :
  ascending h -> h <> [] ->
  exists e h', popSorted h = Some (e, h')
               /\ ascending h'
               /\ Permutation h (e :: h')
               /\ Forall (fun x => Less x e = false) h'.
Proof.
  intros Hh Hne. destruct h as [|e h']; [congruence|].
  exists e, h'. inversion Hh; subst. now repeat split.
Qed.

Lemma insertByFEN_sorts (r : string) (rs : list string) :
  sortedByFEN rs -> sortedByFEN (BuilderSpec.insertByFEN r rs).
Proof.
  unfold sortedByFEN. induction 1 as [|r0 rs Hrs IH Hhd]; cbn [BuilderSpec.insertByFEN].
  - repeat constructor.
  - destruct (strLt (extractFEN r0) (extractFEN r)) eqn:El.
    + constructor; [exact IH|].
      destruct rs as [|r1 rs]; cbn [BuilderSpec.insertByFEN].
      * constructor. now apply strLt_strLe.
      * destruct (strLt (extractFEN r1) (extractFEN r)).
        -- inversion Hhd; subst. now constructor.
        -- constructor. now apply strLt_strLe.
    + constructor; [now constructor|]. constructor. now apply fenLe_total.
Qed.

Lemma sortByFEN_sorts (rs : list string) : sortedByFEN (BuilderSpec.sortByFEN rs).
Proof.
  induction rs as [|r rs IH]; [constructor|].
  cbn [BuilderSpec.sortByFEN fold_right]. now apply insertByFEN_sorts.
Qed.

(** One record in memory and a run of two records on disk. *)
Definition sampleRun : list string :=
  [sampleLine "8/8/8/8/8/8/8/8 b - -"; sampleLine "8/8/8/8/8/8/8/8 w - -"].

Definition sampleCollector : shardCollector :=
  mkCollector 0 [sampleLine "8/8/8/8/8/8/8/8 c - -"] 0 "/tmp/build"
              [mkRunName "/tmp/build" 0 0] 2 1.

Definition openSample (name : runName) : result string :=
  Ok (runFileContent sampleRun).

Lemma StreamSorted_merges_witness :
  exists out,
    StreamSorted BuilderSpec.sortByFEN pushSorted popSorted openSample sampleCollector
    = Some (Returns (out, None))
    /\ sortedByFEN out
    /\ Permutation out (records sampleCollector ++ List.concat [sampleRun]).
Proof.
  apply (StreamSorted_merges BuilderSpec.sortByFEN pushSorted popSorted openSample
           SpillFailures.sortByFEN_permutes sortByFEN_sorts ascending).
  - constructor.
  - intros h e Hh. split; [now apply pushSorted_ascending | apply pushSorted_permutes].
  - exact popSorted_least.
  - repeat constructor.
  - unfold sortedByFEN. repeat (constructor; try reflexivity).
  - repeat constructor; vm_compute; reflexivity.
Defined.

End MergeSpec.

(* ===================================================================== *)
(** * Package builder, continued: from the run files to a shard           *)
(* ===================================================================== *)

Module builderWrite.
Import GoRt builder builderRuns builderMerge builderShards.
Local Open Scope string_scope.

Definition runName_eqb (a b : runName) : bool :=
  String.eqb (runDir a) (runDir b)
  && Nat.eqb (runShard a) (runShard b)
  && Nat.eqb (runSeq a) (runSeq b).

(** [os.Open] on the files the partition phase has written: the bytes
    last written under the name. *)
Fixpoint openOn (disk : list (runName * string)) (name : runName) : result string :=
  match disk with
  | [] => Err (errWrap ("open " ++ runPath name)
                       (errNew "no such file or directory"))
  | (n, content) :: rest =>
      match openOn rest name with
      | Ok later => Ok later
      | Err err => if runName_eqb n name then Ok content else Err err
      end
  end.

Section WithEnvironment.

Variable sortSlice : list string -> list string.
Variable heapPush : list mergeEntry -> mergeEntry -> list mergeEntry.
Variable heapPop : list mergeEntry -> option (mergeEntry * list mergeEntry).
Variable openRun : runName -> result string.

(** [Builder.writeShard], under a context that stays live, when the
    shard file is created and the encoder's writes succeed: the bytes
    written to the encoder, if the file is created at all, the count and
    the error returned. *)
Definition writeShard (collector : shardCollector)
  : option (outcome (option string * Z * option error)) :=
  if Nat.eqb (Count collector) 0 then Some (Returns (None, 0%Z, None))
  else
    match StreamSorted sortSlice heapPush heapPop openRun collector with
    | None => None
    | Some (Panics msg) => Some (Panics msg)
    | Some (Returns (recordCh, errCh)) =>
        let '(written, count) := writeRecords recordCh "" 0 in
        match errCh with
        | Some err => Some (Returns (Some written, 0%Z, Some err))
        | None => Some (Returns (Some written, count, None))
        end
    end.

End WithEnvironment.

End builderWrite.

(** ** Every record added is found in its shard *)

Module ShardsBuilt.
Import GoRt builder builderRuns builderMerge builderShards builderWrite.
Import StringFacts SearchSpec SearchMore ShardFormat MergeSpec RecordsKept.
Import Permutation.
Local Open Scope string_scope.

Lemma runName_eqb_eq (a b : runName) : runName_eqb a b = true <-> a = b.
Proof.
  unfold runName_eqb. destruct a as [d s q], b as [d' s' q']. cbn [runDir runShard runSeq].
  rewrite !andb_true_iff, String.eqb_eq, !Nat.eqb_eq. split.
  - intros [[-> ->] ->]. reflexivity.
  - intros E. injection E as -> -> ->. now repeat split.
Qed.

Lemma openOn_absent (rs : runs) (name : runName) :
  ~ In name (map fst rs) -> exists err, openOn (map encode rs) name = Err err.
Proof.
  induction rs as [|[n recs] rs IH]; intros Hno; cbn [map encode fst snd openOn].
  - eexists; reflexivity.
  - destruct IH as (err & ->); [intros H; apply Hno; now right|].
    destruct (runName_eqb n name) eqn:E; [|eexists; reflexivity].
    apply runName_eqb_eq in E. exfalso. apply Hno. now left.
Qed.

Lemma openOn_written (rs : runs) (e : runName * list string) :
  NoDup (map fst rs) -> In e rs ->
  openOn (map encode rs) (fst e) = Ok (runFileContent (snd e)).
Proof.
  induction rs as [|[n recs] rs IH]; intros Hn Hin; [destruct Hin|].
  cbn [map fst] in Hn. inversion Hn as [|? ? Hfresh Hrest]; subst.
  cbn [map encode fst snd openOn]. destruct Hin as [<-|Hin].
  - cbn [fst snd]. destruct (openOn_absent rs n Hfresh) as (err & ->).
    assert (E : runName_eqb n n = true) by now apply runName_eqb_eq.
    now rewrite E.
  - now rewrite (IH Hrest Hin).
Qed.

Section Build.

Variable sortSlice : list string -> list string.
Variable writeRun : runName -> string -> option error.
Variable heapPush : list mergeEntry -> mergeEntry -> list mergeEntry.
Variable heapPop : list mergeEntry -> option (mergeEntry * list mergeEntry).
Variable json_Unmarshal : string -> result search.EvalRecord.

Hypothesis sortSlice_permutes : forall rs, Permutation (sortSlice rs) rs.
Hypothesis sortSlice_sorts : forall rs, sortedByFEN (sortSlice rs).

Variable wellFormed : list mergeEntry -> Prop.

Hypothesis heap_empty : wellFormed [].
Hypothesis heapPush_adds :
  forall h e, wellFormed h ->
              wellFormed (heapPush h e) /\ Permutation (heapPush h e) (e :: h).
Hypothesis heapPop_least :
  forall h, wellFormed h -> h <> [] ->
            exists e h', heapPop h = Some (e, h')
                         /\ wellFormed h'
                         /\ Permutation h (e :: h')
                         /\ Forall (fun x => Less x e = false) h'.

(** What the merge needs of the partition phase: every run file is in
    ascending order of fingerprint, and [spilledCount] counts the records
    of the collector's run files. *)
Definition tidy (st : buildState) (rs : runs) : Prop :=
  Forall (fun e => sortedByFEN (snd e)) rs
  /\ forall j c, nth_error (collectors st) j = Some c ->
       spilledCount c = List.length (List.concat (map snd (runsFor j rs))).

Definition ready (h : nat -> list string) (st : buildState) : Prop :=
  exists rs, keeps h st rs /\ tidy st rs.

Lemma addRecord_tidy (st : buildState) (k : nat) (record : string) (rs : runs) :
  tidy st rs -> tidy (addRecord st k record) rs.
Proof.
  intros (Hs & Hc). split; [exact Hs|]. unfold addRecord.
  destruct (nth_error (collectors st) k) as [c|] eqn:Ek; [|exact Hc].
  intros j c'. cbn [collectors trackerAdd setCollector].
  rewrite BuilderSpec.setNth_nth_error.
  destruct (Nat.eqb_spec j k) as [->|_]; [|apply Hc].
  rewrite Ek. cbn [option_map]. intros E; injection E as <-.
  cbn [spilledCount]. exact (Hc k c Ek).
Qed.

Lemma spillToDisk_tidy (h : nat -> list string) (st : buildState) (k : nat)
    (rs : runs) :
  keeps h st rs -> tidy st rs ->
  tidy (snd (spillToDisk sortSlice writeRun st k))
       (rs ++ spilled sortSlice writeRun st k)%list.
Proof.
  intros (_ & _ & Hk) (Hs & Hc). unfold spillToDisk, spilled.
  destruct (nth_error (collectors st) k) as [c|] eqn:Ek;
    [|rewrite app_nil_r; exact (conj Hs Hc)].
  destruct (Nat.eqb (List.length (records c)) 0);
    [rewrite app_nil_r; exact (conj Hs Hc)|].
  destruct (Hk k c Ek) as (A & _).
  destruct (writeRun _ _) as [err|]; cbn [snd].
  - rewrite app_nil_r. split; [exact Hs|].
    intros j c'. cbn [collectors setCollector]. rewrite BuilderSpec.setNth_nth_error.
    destruct (Nat.eqb_spec j k) as [->|_]; [|apply Hc].
    rewrite Ek. cbn [option_map]. intros E; injection E as <-.
    cbn [spilledCount]. exact (Hc k c Ek).
  - split.
    + apply Forall_app. split; [exact Hs|].
      constructor; [apply sortSlice_sorts | constructor].
    + intros j c'. cbn [collectors trackerRemove].
      rewrite BuilderSpec.setNth_nth_error, runsFor_app.
      cbn [runsFor filter fst runShard]. rewrite A.
      destruct (Nat.eqb_spec j k) as [->|Hne].
      * rewrite Ek, Nat.eqb_refl. cbn [option_map]. intros E; injection E as <-.
        cbn [spilledCount]. rewrite map_app, concat_app, length_app.
        cbn [map snd List.concat]. rewrite app_nil_r. now rewrite (Hc k c Ek).
      * destruct (Nat.eqb_spec k j) as [E|_]; [congruence|].
        rewrite app_nil_r. apply Hc.
Qed.

Lemma spillLoop_ready (h : nat -> list string) (fuel : nat) (st : buildState)
    (out : option error * buildState) :
  ready h st ->
  spillLoop sortSlice writeRun fuel st = Some out ->
  ready h (snd out).
Proof.
  revert st; induction fuel as [|fuel IH]; intros st Hr; simpl; [discriminate|].
  destruct (shouldSpill st); [|intros E; injection E as <-; exact Hr].
  destruct (pickLargest st) as [[k|] m]; [|intros E; injection E as <-; exact Hr].
  destruct (m =? 0)%Z; [intros E; injection E as <-; exact Hr|].
  assert (Hs : ready h (snd (spillToDisk sortSlice writeRun st k))).
  { destruct Hr as (rs & Hkeeps & Htidy).
    exists (rs ++ spilled sortSlice writeRun st k)%list. split.
    - now apply spillToDisk_keeps.
    - now apply (spillToDisk_tidy h). }
  destruct (spillToDisk sortSlice writeRun st k) as [[err|] st1]; simpl in Hs.
  - intros E; injection E as <-. exact Hs.
  - intros E. exact (IH st1 Hs E).
Qed.

Lemma Add_ready (h : nat -> list string) (st st' : buildState) (k : nat)
    (record : string) (res : option error) :
  (k < List.length (collectors st))%nat ->
  ready h st ->
  Add sortSlice writeRun st k record = Some (res, st') ->
  ready (record1 h k record) st'.
Proof.
  intros Hk (rs & Hkeeps & Htidy).
  assert (H1 : ready (record1 h k record) (addRecord st k record)).
  { exists rs. split; [now apply addRecord_keeps | now apply addRecord_tidy]. }
  unfold Add, spillUntilUnderLimit.
  destruct (shouldSpill (addRecord st k record));
    [|intros E; injection E as _ <-; exact H1].
  destruct (spillLoop sortSlice writeRun _ (addRecord st k record))
    as [[[err|] st2]|] eqn:El; try discriminate;
    intros E; injection E as _ <-;
    exact (spillLoop_ready _ _ _ _ H1 El).
Qed.

Lemma built_ready (h : nat -> list string) (st : buildState) :
  built sortSlice writeRun h st -> ready h st.
Proof.
  induction 1 as [n mb dir | h st k record res st' _ IH Hk Hadd].
  - exists []. split.
    + destruct (newBuild_kept n mb dir) as (rs & Hkeeps).
      destruct Hkeeps as (Hd & Hkeeps). destruct rs; [|discriminate].
      exact (conj Hd Hkeeps).
    + split; [constructor|]. intros j c E. cbn [runsFor filter map List.concat].
      unfold newBuild in E. cbn [collectors] in E.
      apply nth_error_In, in_map_iff in E. destruct E as (i & <- & _). reflexivity.
  - exact (Add_ready h st st' k record res Hk IH Hadd).
Qed.

Lemma Forall2_runs (P : runName -> list string -> Prop) (l : runs) :
  (forall e, In e l -> P (fst e) (snd e)) ->
  Forall2 P (map fst l) (map snd l).
Proof.
  induction l as [|e l IH]; intros H; cbn [map]; constructor.
  - apply H. now left.
  - apply IH. intros e' He'. apply H. now right.
Qed.

(** X30. Every record added is found in its shard: in a state reached
    from a fresh build by [Add]s that return, of records that are
    non-empty lines shorter than 2^32 bytes, [writeShard] on collector
    [j] reads the run files back from disk and ends without an error; it
    writes no shard when no record was added to [j]; otherwise it returns
    the number of records added to [j], the lines of the shard written
    are those records in ascending order of fingerprint, and [Search]
    finds in the shard the fingerprint of every one of them. *)
Theorem built_shards_complete (h : nat -> list string) (st : buildState)
    (j : nat) (c : shardCollector) :
  built sortSlice writeRun h st ->
  (forall i, Forall (fun r => oneLine r /\ short r) (h i)) ->
  nth_error (collectors st) j = Some c ->
  (h j = [] ->
   writeShard sortSlice heapPush heapPop (openOn (disk st)) c
   = Some (Returns (None, 0%Z, None)))
  /\ (h j <> [] ->
      exists bytes,
        writeShard sortSlice heapPush heapPop (openOn (disk st)) c
        = Some (Returns (Some bytes, Z.of_nat (List.length (h j)), None))
        /\ sortedByFEN (search.splitLines bytes)
        /\ Permutation (search.splitLines bytes) (h j)
        /\ forall r, In r (h j) ->
             exists r', In r' (h j)
                        /\ search.extractFEN r' = search.extractFEN r
                        /\ search.Search json_Unmarshal bytes (search.extractFEN r)
                           = decodeMatched json_Unmarshal r').
Proof.
  intros Hbuilt Hlines Hc.
  destruct (built_ready h st Hbuilt) as (rs & (Hd & Hn & Hk) & (Hs & Hcnt)).
  destruct (Hk j c Hc) as (_ & Hfiles & _ & Hperm).
  pose proof (Hcnt j c Hc) as Hspilled.
  assert (Hcount : Count c = List.length (h j)).
  { unfold Count. rewrite Hspilled, <- (Permutation_length Hperm), length_app. lia. }
  unfold writeShard. rewrite Hcount. split.
  { intros ->. reflexivity. }
  intros Hne.
  destruct (Nat.eqb_spec (List.length (h j)) 0) as [E|_];
    [destruct (h j); [congruence | discriminate]|].
  assert (Hsub : forall e, In e (runsFor j rs) -> In e rs)
    by (intros e He; apply filter_In in He; tauto).
  assert (Hall : forall r, In r (records c ++ List.concat (map snd (runsFor j rs)))%list
                           -> In r (h j)).
  { intros r Hr. apply (Permutation_in _ Hperm), in_or_app.
    apply in_app_or in Hr. tauto. }
  destruct (StreamSorted_strongly sortSlice heapPush heapPop (openOn (disk st))
              sortSlice_sorts wellFormed heap_empty
              heapPush_adds heapPop_least c (map snd (runsFor j rs)))
    as (out & -> & Hstrong & Hout).
  - rewrite Hfiles, Hd. apply Forall2_runs. intros e He.
    exact (openOn_written rs e Hn (Hsub e He)).
  - apply Forall_map. rewrite Forall_forall in Hs |- *. intros e He.
    exact (Hs e (Hsub e He)).
  - apply Forall_forall. intros run Hrun. apply Forall_forall. intros r Hr.
    specialize (Hlines j). rewrite Forall_forall in Hlines.
    apply Hlines, Hall, in_or_app. right.
    apply in_concat. exists run. now split.
  - assert (Hsorted : sortedByFEN out) by now apply StronglySorted_Sorted.
    assert (Hout' : Permutation out (h j)).
    { apply (Permutation_trans Hout).
      apply Permutation_trans
        with (records c ++ List.concat (map snd (runsFor j rs)))%list;
        [apply Permutation_app_tail, sortSlice_permutes|].
      apply (Permutation_trans (Permutation_app_comm _ _) Hperm). }
    rewrite writeRecords_spec. cbn [append].
    assert (Hone : Forall oneLine out).
    { apply (Permutation_Forall (Permutation_sym Hout')).
      specialize (Hlines j). revert Hlines. apply Forall_impl. tauto. }
    destruct (searchable_lines json_Unmarshal out Hone Hsorted) as (Hsplit & Hfind).
    exists (linesOf out). rewrite Hsplit.
    split; [now rewrite (Permutation_length Hout')|].
    split; [exact Hsorted|]. split; [exact Hout'|].
    intros r Hr.
    destruct (Hfind r (Permutation_in _ (Permutation_sym Hout') Hr))
      as (r' & Hr' & Hfen & Hsearch).
    exists r'. split; [exact (Permutation_in _ Hout' Hr')|]. now split.
Qed.

End Build.

(** Two records for shard 0 under a budget of zero megabytes: each is
    spilled to a run file of its own. *)
Definition secondRecord : string := sampleLine "8/8/8/8/8/8/8/8 b - -".

Definition twoRuns : buildState :=
  match Add BuilderSpec.sortByFEN BuilderSpec.writeAlways BuilderSpec.sampleBuild
            0 secondRecord with
  | Some (_, st) => st
  | None => BuilderSpec.sampleBuild
  end.

Definition twoRecords : nat -> list string :=
  record1 (record1 (fun _ => []) 0 BuilderSpec.sampleRecord) 0 secondRecord.

Definition firstCollector : shardCollector :=
  mkCollector 0 [] 0 "/tmp/build"
              [mkRunName "/tmp/build" 0 0; mkRunName "/tmp/build" 0 1] 2 2.

Lemma built_shards_complete_witness :
  (twoRecords 0 = [] ->
   writeShard BuilderSpec.sortByFEN pushSorted popSorted (openOn (disk twoRuns))
              firstCollector
   = Some (Returns (None, 0%Z, None)))
  /\ (twoRecords 0 <> [] ->
      exists bytes,
        writeShard BuilderSpec.sortByFEN pushSorted popSorted
                   (openOn (disk twoRuns)) firstCollector
        = Some (Returns (Some bytes, Z.of_nat (List.length (twoRecords 0)), None))
        /\ sortedByFEN (search.splitLines bytes)
        /\ Permutation (search.splitLines bytes) (twoRecords 0)
        /\ forall r, In r (twoRecords 0) ->
             exists r', In r' (twoRecords 0)
                        /\ search.extractFEN r' = search.extractFEN r
                        /\ search.Search sampleJSON bytes (search.extractFEN r)
                           = decodeMatched sampleJSON r').
Proof.
  apply (built_shards_complete BuilderSpec.sortByFEN BuilderSpec.writeAlways
           pushSorted popSorted sampleJSON
           SpillFailures.sortByFEN_permutes sortByFEN_sorts ascending
           (SSorted_nil _)
           (fun h e Hh => conj (pushSorted_ascending h e Hh) (pushSorted_permutes h e))
           popSorted_least twoRecords twoRuns 0 firstCollector).
  - apply (built_add BuilderSpec.sortByFEN BuilderSpec.writeAlways _
             BuilderSpec.sampleBuild 0 secondRecord None twoRuns).
    + apply (built_add BuilderSpec.sortByFEN BuilderSpec.writeAlways (fun _ => [])
               (newBuild 2 0 "/tmp/build") 0 BuilderSpec.sampleRecord None
               BuilderSpec.sampleBuild).
      * apply built_new.
      * simpl. lia.
      * vm_compute. reflexivity.
    + vm_compute. lia.
    + vm_compute. reflexivity.
  - intros [|i]; [|constructor].
    repeat constructor; try discriminate; vm_compute; intuition discriminate.
  - vm_compute. reflexivity.
Defined.

End ShardsBuilt.
